(** * text-forge: the text utilities of [server/utils/text_utils.go]

    A shallow embedding of the Go package [utils] and of the parts of the Go
    standard library it calls ([unicode/utf8], [unicode], [strings], [sort],
    [regexp]), followed by the properties proved about it.

    Conventions.
    - A Go [string] is a sequence of bytes: Rocq's [string], whose characters
      are the 256 byte values.  A [rune] is an [int32], modelled in [Z].
    - Go's range tables for the code points above Latin-1 ([unicode.Letter],
      [unicode.Upper], [unicode.CaseRanges], ...) are data of the standard
      library, not of this repository: they are the fields of [unicode.Tables],
      over which the development is parametric.  What the Go sources hard-code
      (the Latin-1 [properties] array, the ASCII fast paths, [White_Space]) is
      written out. *)

From Stdlib Require Import ZArith Lia List Ascii String Bool.
From Stdlib Require Import Permutation Sorted.
From stdpp Require Import gmap strings list.

(** ** Bytes *)

(** [uint8] values of the characters of a string, and [byte(x)] truncation. *)
Definition byteZ (b : ascii) : Z := Z.of_N (N_of_ascii b).
Definition Zbyte (z : Z) : ascii := ascii_of_N (Z.to_N (z mod 256)).

(** [s[i]], for an index inside the string. *)
Definition byte_at (s : string) (i : nat) : Z :=
  match String.get i s with
  | Some c => byteZ c
  | None => 0
  end.

(** [uint32(r)] of an [int32], and the [int32] an integer wraps to. *)
Definition uint32 (r : Z) : Z := r mod 2 ^ 32.
Definition int32 (z : Z) : Z := (z + 2 ^ 31) mod 2 ^ 32 - 2 ^ 31.

(** [s[n:]] and [s[:n]]. *)
Fixpoint str_drop (n : nat) (s : string) : string :=
  match n, s with
  | S k, String _ s' => str_drop k s'
  | _, _ => s
  end.

Fixpoint str_take (n : nat) (s : string) : string :=
  match n, s with
  | S k, String c s' => String c (str_take k s')
  | _, _ => EmptyString
  end.

(** ** Slices *)

(** [l[i], l[j] = l[j], l[i]], for indices inside the slice. *)
Definition swap {A} (l : list A) (i j : nat) : list A :=
  match l !! i, l !! j with
  | Some x, Some y => <[i:=y]> (<[j:=x]> l)
  | _, _ => l
  end.

(** ** Package [unicode/utf8] *)

Module utf8.
Local Open Scope Z_scope.

Definition rune := Z.

Definition RuneError : rune := 0xFFFD.
Definition RuneSelf : Z := 0x80.
Definition MaxRune : rune := 0x10FFFF.
Definition UTFMax : Z := 4.

Definition surrogateMin : Z := 0xD800.
Definition surrogateMax : Z := 0xDFFF.

Definition tx : Z := 0x80.
Definition t2 : Z := 0xC0.
Definition t3 : Z := 0xE0.
Definition t4 : Z := 0xF0.

Definition maskx : Z := 0x3F.
Definition mask2 : Z := 0x1F.
Definition mask3 : Z := 0x0F.
Definition mask4 : Z := 0x07.

Definition rune1Max : Z := 0x7F.
Definition rune2Max : Z := 0x7FF.
Definition rune3Max : Z := 0xFFFF.

Definition locb : Z := 0x80.
Definition hicb : Z := 0xBF.

(** Information bytes of the [first] array: the low three bits are the size of
    the sequence, the high four bits index [acceptRanges]. *)
Definition xx : Z := 0xF1.
Definition as_ : Z := 0xF0.
Definition s1 : Z := 0x02.
Definition s2 : Z := 0x13.
Definition s3 : Z := 0x03.
Definition s4 : Z := 0x23.
Definition s5 : Z := 0x34.
Definition s6 : Z := 0x04.
Definition s7 : Z := 0x44.

(** [first[b]]: information about the first byte of a UTF-8 sequence. *)
Definition first (b : Z) : Z :=
  if b <? 0x80 then as_
  else if b <? 0xC2 then xx
  else if b <? 0xE0 then s1
  else if b =? 0xE0 then s2
  else if b <? 0xED then s3
  else if b =? 0xED then s4
  else if b <? 0xF0 then s3
  else if b =? 0xF0 then s5
  else if b <? 0xF4 then s6
  else if b =? 0xF4 then s7
  else xx.

(** [acceptRanges[k]]: the range [(lo, hi)] of valid second bytes. *)
Definition acceptRanges (k : Z) : Z * Z :=
  if k =? 1 then (0xA0, hicb)
  else if k =? 2 then (locb, 0x9F)
  else if k =? 3 then (0x90, hicb)
  else if k =? 4 then (locb, 0x8F)
  else (locb, hicb).

(** [utf8.DecodeRuneInString]: the first rune of [s] and its width in bytes;
    [(RuneError, 0)] on the empty string, [(RuneError, 1)] on an encoding
    that is not valid. *)
Definition DecodeRuneInString (s : string) : rune * nat :=
  match s with
  | EmptyString => (RuneError, 0%nat)
  | String c0 r0 =>
    let b0 := byteZ c0 in
    let x := first b0 in
    if as_ <=? x then ((if x =? xx then RuneError else b0), 1%nat)
    else
      let sz := Z.land x 7 in
      let accept := acceptRanges (Z.shiftr x 4) in
      if Z.of_nat (String.length s) <? sz then (RuneError, 1%nat)
      else
        match r0 with
        | EmptyString => (RuneError, 1%nat)
        | String c1 r1 =>
          let b1 := byteZ c1 in
          if (b1 <? fst accept) || (snd accept <? b1) then (RuneError, 1%nat)
          else if sz <=? 2 then
            (Z.lor (Z.shiftl (Z.land b0 mask2) 6) (Z.land b1 maskx), 2%nat)
          else
            match r1 with
            | EmptyString => (RuneError, 1%nat)
            | String c2 r2 =>
              let b2 := byteZ c2 in
              if (b2 <? locb) || (hicb <? b2) then (RuneError, 1%nat)
              else if sz <=? 3 then
                (Z.lor (Z.lor (Z.shiftl (Z.land b0 mask3) 12)
                              (Z.shiftl (Z.land b1 maskx) 6))
                       (Z.land b2 maskx), 3%nat)
              else
                match r2 with
                | EmptyString => (RuneError, 1%nat)
                | String c3 _ =>
                  let b3 := byteZ c3 in
                  if (b3 <? locb) || (hicb <? b3) then (RuneError, 1%nat)
                  else
                    (Z.lor (Z.lor (Z.lor (Z.shiftl (Z.land b0 mask4) 18)
                                         (Z.shiftl (Z.land b1 maskx) 12))
                                  (Z.shiftl (Z.land b2 maskx) 6))
                           (Z.land b3 maskx), 4%nat)
                end
            end
        end
  end.

(** [utf8.AppendRune] on an empty buffer (also [strings.Builder.WriteRune] and
    [string(r)]): the UTF-8 encoding of [r]; a rune that is out of range or a
    surrogate is encoded as [RuneError]. *)
Definition EncodeRune (r : rune) : string :=
  let i := uint32 r in
  if i <=? rune1Max then String (Zbyte r) EmptyString
  else if i <=? rune2Max then
    String (Zbyte (Z.lor t2 (Z.shiftr r 6 mod 256)))
      (String (Zbyte (Z.lor tx (Z.land (r mod 256) maskx))) EmptyString)
  else
    let bad := (MaxRune <? i) || ((surrogateMin <=? i) && (i <=? surrogateMax)) in
    let r := if bad then RuneError else r in
    if bad || (i <=? rune3Max) then
      String (Zbyte (Z.lor t3 (Z.shiftr r 12 mod 256)))
        (String (Zbyte (Z.lor tx (Z.land (Z.shiftr r 6 mod 256) maskx)))
           (String (Zbyte (Z.lor tx (Z.land (r mod 256) maskx))) EmptyString))
    else
      String (Zbyte (Z.lor t4 (Z.shiftr r 18 mod 256)))
        (String (Zbyte (Z.lor tx (Z.land (Z.shiftr r 12 mod 256) maskx)))
           (String (Zbyte (Z.lor tx (Z.land (Z.shiftr r 6 mod 256) maskx)))
              (String (Zbyte (Z.lor tx (Z.land (r mod 256) maskx))) EmptyString))).

(** [utf8.ValidRune]: [r] can be encoded, i.e. it is in range and not a
    surrogate half. *)
Definition ValidRune (r : rune) : bool :=
  ((0 <=? r) && (r <? surrogateMin)) || ((surrogateMax <? r) && (r <=? MaxRune)).

(** [utf8.RuneStart]: [b] is not a continuation byte. *)
Definition RuneStart (b : Z) : bool := negb (Z.land b 0xC0 =? 0x80).

(** [for i, r := range s]: the byte index and the rune of each iteration.
    [skip] counts the bytes of the current rune still to pass over. *)
Fixpoint range_from (i skip : nat) (s : string) : list (nat * rune) :=
  match s with
  | EmptyString => []
  | String _ s' =>
    match skip with
    | S k => range_from (S i) k s'
    | O =>
      let '(r, w) := DecodeRuneInString s in
      (i, r) :: range_from (S i) (Nat.pred w) s'
    end
  end.

Definition range_string (s : string) : list (nat * rune) := range_from 0 0 s.

(** The conversion [[]rune(s)]. *)
Definition runes_of_string (s : string) : list rune := (range_string s).*2.

(** The conversion [string(runes)]. *)
Fixpoint string_of_runes (rs : list rune) : string :=
  match rs with
  | [] => EmptyString
  | r :: rs' => EncodeRune r +:+ string_of_runes rs'
  end.

(** [utf8.ValidString]: no byte of [s] decodes to [(RuneError, 1)]. *)
Fixpoint valid_from (skip : nat) (s : string) : bool :=
  match s with
  | EmptyString => true
  | String _ s' =>
    match skip with
    | S k => valid_from k s'
    | O =>
      let '(r, w) := DecodeRuneInString s in
      if (r =? RuneError) && (w =? 1)%nat then false
      else valid_from (Nat.pred w) s'
    end
  end.

Definition ValidString (s : string) : bool := valid_from 0 s.

(** [utf8.RuneCountInString]. *)
Definition RuneCountInString (s : string) : nat := length (range_string s).

(** [utf8.DecodeLastRuneInString]: the last rune of [s] and its width. *)
Fixpoint find_start (fuel : nat) (s : string) (start lim : Z) : Z :=
  match fuel with
  | O => start
  | S fuel' =>
    if start <? lim then start
    else if RuneStart (byte_at s (Z.to_nat start)) then start
    else find_start fuel' s (start - 1) lim
  end.

Definition DecodeLastRuneInString (s : string) : rune * nat :=
  let end_ := Z.of_nat (String.length s) in
  if end_ =? 0 then (RuneError, 0%nat)
  else
    let start := end_ - 1 in
    let r := byte_at s (Z.to_nat start) in
    if r <? RuneSelf then (r, 1%nat)
    else
      let lim := Z.max 0 (end_ - UTFMax) in
      let start := find_start 4 s (start - 1) lim in
      let start := Z.max 0 start in
      let '(r, size) := DecodeRuneInString (str_drop (Z.to_nat start) s) in
      if negb (start + Z.of_nat size =? end_) then (RuneError, 1%nat)
      else (r, size).

End utf8.

(** ** Package [unicode] *)

Module unicode.
Import utf8.
Local Open Scope Z_scope.

Definition MaxASCII : Z := 0x7F.
Definition MaxLatin1 : Z := 0xFF.

Definition UpperCase : Z := 0.
Definition LowerCase : Z := 1.
Definition TitleCase : Z := 2.

(** The range tables of the package, as far as the code points above Latin-1
    go: membership in [Letter], [Number], [Digit], [Upper] and [Lower], the
    mapping [To(_case, r)] read off [CaseRanges] (a rune: the value is taken
    as an [int32]), and the [caseOrbit] table of [SimpleFold]. *)
Record Tables := {
  Letter : rune -> bool;
  Number : rune -> bool;
  Digit : rune -> bool;
  Upper : rune -> bool;
  Lower : rune -> bool;
  To : Z -> rune -> rune;
  caseOrbit : rune -> option rune
}.

(** Bits of the [properties] array. *)
Definition pN : Z := 4.
Definition pLu : Z := 32.
Definition pLl : Z := 64.
Definition pLo : Z := Z.lor pLl pLu.
Definition pLmask : Z := pLo.

(** The letter and number bits of [properties[b]], the classification of the
    Latin-1 code points. *)
Definition properties (b : Z) : Z :=
  if (0x30 <=? b) && (b <=? 0x39) then pN
  else if (0x41 <=? b) && (b <=? 0x5A) then pLu
  else if (0x61 <=? b) && (b <=? 0x7A) then pLl
  else if b =? 0xAA then pLo
  else if (b =? 0xB2) || (b =? 0xB3) then pN
  else if b =? 0xB5 then pLl
  else if b =? 0xB9 then pN
  else if b =? 0xBA then pLo
  else if (0xBC <=? b) && (b <=? 0xBE) then pN
  else if (0xC0 <=? b) && (b <=? 0xD6) then pLu
  else if (0xD8 <=? b) && (b <=? 0xDE) then pLu
  else if (0xDF <=? b) && (b <=? 0xF6) then pLl
  else if (0xF8 <=? b) && (b <=? 0xFF) then pLl
  else 0.

(** [White_Space] above Latin-1. *)
Definition White_Space (r : rune) : bool :=
  (r =? 0x1680) || ((0x2000 <=? r) && (r <=? 0x200A)) || (r =? 0x2028)
  || (r =? 0x2029) || (r =? 0x202F) || (r =? 0x205F) || (r =? 0x3000).

(** [isExcludingLatin(tab, r)], called with [uint32(r) > MaxLatin1]: a
    negative rune is in no table. *)
Definition isExcludingLatin (tab : rune -> bool) (r : rune) : bool :=
  (0 <=? r) && tab r.

(** [asciiFold[r]] for [0 <= r <= MaxASCII]. *)
Definition asciiFold (r : rune) : rune :=
  if (0x41 <=? r) && (r <=? 0x5A) then r + 0x20
  else if r =? 0x6B then 0x212A
  else if r =? 0x73 then 0x017F
  else if (0x61 <=? r) && (r <=? 0x7A) then r - 0x20
  else r.

Section WithTables.
Context (T : Tables).

Definition IsLetter (r : rune) : bool :=
  if uint32 r <=? MaxLatin1 then negb (Z.land (properties r) pLmask =? 0)
  else isExcludingLatin (Letter T) r.

Definition IsNumber (r : rune) : bool :=
  if uint32 r <=? MaxLatin1 then negb (Z.land (properties r) pN =? 0)
  else isExcludingLatin (Number T) r.

Definition IsDigit (r : rune) : bool :=
  if r <=? MaxLatin1 then (0x30 <=? r) && (r <=? 0x39)
  else isExcludingLatin (Digit T) r.

Definition IsUpper (r : rune) : bool :=
  if uint32 r <=? MaxLatin1 then Z.land (properties r) pLmask =? pLu
  else isExcludingLatin (Upper T) r.

Definition IsLower (r : rune) : bool :=
  if uint32 r <=? MaxLatin1 then Z.land (properties r) pLmask =? pLl
  else isExcludingLatin (Lower T) r.

Definition IsSpace (r : rune) : bool :=
  if uint32 r <=? MaxLatin1 then
    (r =? 0x09) || (r =? 0x0A) || (r =? 0x0B) || (r =? 0x0C) || (r =? 0x0D)
    || (r =? 0x20) || (r =? 0x85) || (r =? 0xA0)
  else isExcludingLatin White_Space r.

Definition ToUpper (r : rune) : rune :=
  if r <=? MaxASCII then
    if (0x61 <=? r) && (r <=? 0x7A) then r - 0x20 else r
  else int32 (To T UpperCase r).

Definition ToLower (r : rune) : rune :=
  if r <=? MaxASCII then
    if (0x41 <=? r) && (r <=? 0x5A) then r + 0x20 else r
  else int32 (To T LowerCase r).

Definition ToTitle (r : rune) : rune :=
  if r <=? MaxASCII then
    if (0x61 <=? r) && (r <=? 0x7A) then r - 0x20 else r
  else int32 (To T TitleCase r).

Definition SimpleFold (r : rune) : rune :=
  if (r <? 0) || (MaxRune <? r) then r
  else if r <=? MaxASCII then asciiFold r
  else
    match caseOrbit T r with
    | Some r' => r'
    | None => let l := ToLower r in if negb (l =? r) then l else ToUpper r
    end.

End WithTables.
End unicode.

(** ** Package [strings] *)

Module strings.
Import utf8.

(** The output side of [strings.Map]: every mapped rune that is not negative
    is written with [WriteRune]; a negative one is dropped. *)
Fixpoint write_runes (rs : list rune) : string :=
  match rs with
  | [] => EmptyString
  | r :: rs' => (if (r <? 0)%Z then EmptyString else EncodeRune r) +:+ write_runes rs'
  end.

(** [strings.Map]: [mapping] is called once on each rune of [s], in order (a
    byte that starts no valid encoding is passed as [RuneError]). *)
Definition Map (mapping : rune -> rune) (s : string) : string :=
  write_runes (mapping <$> runes_of_string s).

(** [strings.Join]. *)
Fixpoint Join (elems : list string) (sep : string) : string :=
  match elems with
  | [] => EmptyString
  | [x] => x
  | x :: rest => x +:+ sep +:+ Join rest sep
  end.

(** [strings.genSplit] for a separator that is not empty: [s] cut at the
    leftmost occurrences of [sep] that do not overlap.  [skip] counts the
    bytes of the separator still to pass over. *)
Fixpoint genSplit (sep : string) (skip : nat) (s : string) : list string :=
  match s with
  | EmptyString => [EmptyString]
  | String c s' =>
    match skip with
    | S k => genSplit sep k s'
    | O =>
      if String.prefix sep s then
        EmptyString :: genSplit sep (Nat.pred (String.length sep)) s'
      else
        match genSplit sep 0 s' with
        | h :: t => String c h :: t
        | [] => [String c EmptyString]
        end
    end
  end.

(** [strings.explode] without a limit: one string per rune, the last one
    being all that is left of [s]. *)
Definition explode (s : string) : list string :=
  match List.rev (range_string s) with
  | [] => []
  | (i, _) :: before => (EncodeRune <$> (List.rev before).*2) ++ [str_drop i s]
  end.

(** [strings.Split]. *)
Definition Split (s sep : string) : list string :=
  if String.eqb sep EmptyString then explode s else genSplit sep 0 s.

(** [strings.Replace] with [n < 0], for [old] not empty and for [old] empty
    (a match before every rune and at the end). *)
Fixpoint replace_nonempty (old new : string) (skip : nat) (s : string) : string :=
  match s with
  | EmptyString => EmptyString
  | String c s' =>
    match skip with
    | S k => replace_nonempty old new k s'
    | O =>
      if String.prefix old s then
        new +:+ replace_nonempty old new (Nat.pred (String.length old)) s'
      else String c (replace_nonempty old new 0 s')
    end
  end.

Fixpoint replace_empty (new : string) (skip : nat) (s : string) : string :=
  match s with
  | EmptyString => new
  | String c s' =>
    match skip with
    | S k => String c (replace_empty new k s')
    | O => new +:+ String c (replace_empty new (Nat.pred (snd (DecodeRuneInString s))) s')
    end
  end.

(** [strings.ReplaceAll]. *)
Definition ReplaceAll (s old new : string) : string :=
  if String.eqb old new then s
  else if String.eqb old EmptyString then replace_empty new 0 s
  else replace_nonempty old new 0 s.

(** [strings.indexFunc]: the index of the first rune [r] with
    [f r = truth], or [-1]. *)
Definition indexFunc (s : string) (f : rune -> bool) (truth : bool) : Z :=
  match List.find (fun ir => Bool.eqb (f ir.2) truth) (range_string s) with
  | Some (i, _) => Z.of_nat i
  | None => (-1)%Z
  end.

(** [strings.lastIndexFunc]; the loop runs at most [len(s)] times. *)
Fixpoint lastIndexFunc_loop (fuel : nat) (s : string) (f : rune -> bool)
    (truth : bool) (i : nat) : Z :=
  match fuel with
  | O => (-1)%Z
  | S fuel' =>
    if (0 <? i)%nat then
      let '(r, size) := DecodeLastRuneInString (str_take i s) in
      let i := (i - size)%nat in
      if Bool.eqb (f r) truth then Z.of_nat i
      else lastIndexFunc_loop fuel' s f truth i
    else (-1)%Z
  end.

Definition lastIndexFunc (s : string) (f : rune -> bool) (truth : bool) : Z :=
  lastIndexFunc_loop (String.length s) s f truth (String.length s).

(** [strings.TrimLeftFunc], [strings.TrimRightFunc] and [strings.TrimFunc]. *)
Definition TrimLeftFunc (s : string) (f : rune -> bool) : string :=
  let i := indexFunc s f false in
  if (i =? -1)%Z then EmptyString else str_drop (Z.to_nat i) s.

Definition TrimRightFunc (s : string) (f : rune -> bool) : string :=
  let i := lastIndexFunc s f false in
  let i :=
    if (0 <=? i)%Z && (RuneSelf <=? byte_at s (Z.to_nat i))%Z then
      (i + Z.of_nat (snd (DecodeRuneInString (str_drop (Z.to_nat i) s))))%Z
    else (i + 1)%Z in
  str_take (Z.to_nat i) s.

Definition TrimFunc (s : string) (f : rune -> bool) : string :=
  TrimRightFunc (TrimLeftFunc s f) f.

(** [strings.FieldsFunc]: the maximal runs of runes that do not satisfy [f].
    The state is the list of spans and the start of the open span ([-1] when
    there is none). *)
Definition FieldsFunc_step (f : rune -> bool) (st : list (nat * nat) * Z)
    (ir : nat * rune) : list (nat * nat) * Z :=
  let '(spans, start) := st in
  let '(end_, r) := ir in
  if f r then
    if (0 <=? start)%Z then (spans ++ [(Z.to_nat start, end_)], (-1)%Z)
    else (spans, start)
  else
    if (start <? 0)%Z then (spans, Z.of_nat end_) else (spans, start).

Definition FieldsFunc (s : string) (f : rune -> bool) : list string :=
  let '(spans, start) :=
    fold_left (FieldsFunc_step f) (range_string s) ([], (-1)%Z) in
  let spans :=
    if (0 <=? start)%Z then spans ++ [(Z.to_nat start, String.length s)]
    else spans in
  (fun span => str_take (span.2 - span.1) (str_drop span.1 s)) <$> spans.

Section WithTables.
Context (T : unicode.Tables).

(** [strings.ToLower] and [strings.ToUpper].  (Go takes a shortcut on a string
    of ASCII bytes, with the same result.) *)
Definition ToLower (s : string) : string := Map (unicode.ToLower T) s.
Definition ToUpper (s : string) : string := Map (unicode.ToUpper T) s.

(** [strings.isSeparator]. *)
Definition isSeparator (r : rune) : bool :=
  if (r <=? 0x7F)%Z then
    if (0x30 <=? r)%Z && (r <=? 0x39)%Z then false
    else if (0x61 <=? r)%Z && (r <=? 0x7A)%Z then false
    else if (0x41 <=? r)%Z && (r <=? 0x5A)%Z then false
    else if (r =? 0x5F)%Z then false
    else true
  else if unicode.IsLetter T r || unicode.IsDigit T r then false
  else unicode.IsSpace r.

(** [strings.Title]: the closure given to [Map] remembers the previous rune
    in [prev], which starts as a space. *)
Fixpoint title_runes (prev : rune) (rs : list rune) : list rune :=
  match rs with
  | [] => []
  | r :: rs' =>
    (if isSeparator prev then unicode.ToTitle T r else r) :: title_runes r rs'
  end.

Definition Title (s : string) : string :=
  write_runes (title_runes 0x20%Z (runes_of_string s)).

(** [strings.TrimSpace] and [strings.Fields].  (Go handles leading and
    trailing ASCII bytes apart, with the same result.) *)
Definition TrimSpace (s : string) : string := TrimFunc s unicode.IsSpace.
Definition Fields (s : string) : list string := FieldsFunc s unicode.IsSpace.

End WithTables.
End strings.

(** ** Package [sort]: [sort.Slice]

    [sort.Slice(x, less)] runs [pdqsort_func] (pattern-defeating quicksort,
    Go 1.19 and later) on the slice through [less] and a swapper.  The [less]
    functions of this repository compare the elements at the two indices, so
    the model takes the comparison of elements. *)

Module sort.
Local Open Scope Z_scope.

Definition unknownHint : Z := 0.
Definition increasingHint : Z := 1.
Definition decreasingHint : Z := 2.

(** [bits.Len(uint(x))] *)
Definition bits_Len (x : Z) : Z := if x =? 0 then 0 else Z.log2 x + 1.

(** [xorshift.Next], on [uint64]. *)
Definition xorshift_Next (r : Z) : Z :=
  let r := Z.lxor r (Z.shiftl r 13 mod 2 ^ 64) in
  let r := Z.lxor r (Z.shiftr r 7) in
  let r := Z.lxor r (Z.shiftl r 17 mod 2 ^ 64) in
  r.

Definition nextPowerOfTwo (length : Z) : Z := Z.shiftl 1 (bits_Len length).

Section WithLess.
Context {A : Type} (less : A -> A -> bool).

(** [data.Less(i, j)] and [data.Swap(i, j)] *)
Definition Less (data : list A) (i j : Z) : bool :=
  match data !! Z.to_nat i, data !! Z.to_nat j with
  | Some x, Some y => less x y
  | _, _ => false
  end.

Definition Swap (data : list A) (i j : Z) : list A :=
  swap data (Z.to_nat i) (Z.to_nat j).

(** The inner loop of [insertionSort_func]:
    [for j := i; j > a && data.Less(j, j-1); j--], at most [n] times. *)
Fixpoint insertionSort_inner (n : nat) (data : list A) (a j : Z) : list A :=
  match n with
  | O => data
  | S n' =>
    if (a <? j) && Less data j (j - 1) then
      insertionSort_inner n' (Swap data j (j - 1)) a (j - 1)
    else data
  end.

Definition insertionSort_func (data : list A) (a b : Z) : list A :=
  fold_left (fun data i => insertionSort_inner (Z.to_nat (i - a)) data a i)
    (seqZ (a + 1) (b - (a + 1))) data.

(** [siftDown_func]; the root moves down at most [n] times. *)
Fixpoint siftDown_loop (n : nat) (data : list A) (root hi first : Z) : list A :=
  match n with
  | O => data
  | S n' =>
    let child := 2 * root + 1 in
    if hi <=? child then data
    else
      let child :=
        if (child + 1 <? hi) && Less data (first + child) (first + child + 1)
        then child + 1 else child in
      if negb (Less data (first + root) (first + child)) then data
      else siftDown_loop n' (Swap data (first + root) (first + child)) child hi first
  end.

Definition siftDown_func (data : list A) (lo hi first : Z) : list A :=
  siftDown_loop (Z.to_nat (hi - lo)) data lo hi first.

Definition heapSort_func (data : list A) (a b : Z) : list A :=
  let first := a in
  let lo := 0 in
  let hi := b - a in
  let data :=
    fold_left (fun data i => siftDown_func data i hi first)
      (List.rev (seqZ 0 (Z.quot (hi - 1) 2 + 1))) data in
  fold_left
    (fun data i => siftDown_func (Swap data first (first + i)) lo i first)
    (List.rev (seqZ 0 hi)) data.

(** The two scans of [partition_func], at most [n] steps each:
    [for i <= j && data.Less(i, a) { i++ }] and
    [for i <= j && !data.Less(j, a) { j-- }]. *)
Fixpoint scan_up (n : nat) (data : list A) (a i j : Z) : Z :=
  match n with
  | O => i
  | S n' =>
    if (i <=? j) && Less data i a then scan_up n' data a (i + 1) j else i
  end.

Fixpoint scan_down (n : nat) (data : list A) (a i j : Z) : Z :=
  match n with
  | O => j
  | S n' =>
    if (i <=? j) && negb (Less data j a) then scan_down n' data a i (j - 1)
    else j
  end.

Fixpoint partition_loop (n : nat) (data : list A) (a i j : Z) : list A * Z :=
  match n with
  | O => (data, j)
  | S n' =>
    let i := scan_up (Z.to_nat (j - i + 1)) data a i j in
    let j := scan_down (Z.to_nat (j - i + 1)) data a i j in
    if j <? i then (data, j)
    else partition_loop n' (Swap data i j) a (i + 1) (j - 1)
  end.

(** [partition_func]: the data, the new index of the pivot and
    [alreadyPartitioned]. *)
Definition partition_func (data : list A) (a b pivot : Z) : list A * Z * bool :=
  let data := Swap data a pivot in
  let i := a + 1 in
  let j := b - 1 in
  let i := scan_up (Z.to_nat (j - i + 1)) data a i j in
  let j := scan_down (Z.to_nat (j - i + 1)) data a i j in
  if j <? i then (Swap data j a, j, true)
  else
    let data := Swap data i j in
    let i := i + 1 in
    let j := j - 1 in
    let '(data, j) := partition_loop (Z.to_nat (j - i + 2)) data a i j in
    (Swap data j a, j, false).

(** The scans of [partitionEqual_func]:
    [for i <= j && !data.Less(a, i) { i++ }] and
    [for i <= j && data.Less(a, j) { j-- }]. *)
Fixpoint scanEq_up (n : nat) (data : list A) (a i j : Z) : Z :=
  match n with
  | O => i
  | S n' =>
    if (i <=? j) && negb (Less data a i) then scanEq_up n' data a (i + 1) j
    else i
  end.

Fixpoint scanEq_down (n : nat) (data : list A) (a i j : Z) : Z :=
  match n with
  | O => j
  | S n' =>
    if (i <=? j) && Less data a j then scanEq_down n' data a i (j - 1) else j
  end.

Fixpoint partitionEqual_loop (n : nat) (data : list A) (a i j : Z) : list A * Z :=
  match n with
  | O => (data, i)
  | S n' =>
    let i := scanEq_up (Z.to_nat (j - i + 1)) data a i j in
    let j := scanEq_down (Z.to_nat (j - i + 1)) data a i j in
    if j <? i then (data, i)
    else partitionEqual_loop n' (Swap data i j) a (i + 1) (j - 1)
  end.

Definition partitionEqual_func (data : list A) (a b pivot : Z) : list A * Z :=
  let data := Swap data a pivot in
  partitionEqual_loop (Z.to_nat (b - a + 1)) data a (a + 1) (b - 1).

(** The shifting loops of [partialInsertionSort_func]. *)
Fixpoint shift_left (n : nat) (data : list A) (j : Z) : list A :=
  match n with
  | O => data
  | S n' =>
    if 1 <=? j then
      if negb (Less data j (j - 1)) then data
      else shift_left n' (Swap data j (j - 1)) (j - 1)
    else data
  end.

Fixpoint shift_right (n : nat) (data : list A) (j b : Z) : list A :=
  match n with
  | O => data
  | S n' =>
    if j <? b then
      if negb (Less data j (j - 1)) then data
      else shift_right n' (Swap data j (j - 1)) (j + 1) b
    else data
  end.

(** [for i < b && !data.Less(i, i-1) { i++ }] *)
Fixpoint skip_sorted (n : nat) (data : list A) (i b : Z) : Z :=
  match n with
  | O => i
  | S n' =>
    if (i <? b) && negb (Less data i (i - 1)) then skip_sorted n' data (i + 1) b
    else i
  end.

(** [partialInsertionSort_func], [steps] being the iterations of
    [for j := 0; j < maxSteps; j++] that are left. *)
Fixpoint partialInsertionSort_loop (steps : nat) (data : list A) (a b i : Z)
    : list A * bool :=
  match steps with
  | O => (data, false)
  | S steps' =>
    let i := skip_sorted (Z.to_nat (b - i)) data i b in
    if i =? b then (data, true)
    else if b - a <? 50 then (data, false)
    else
      let data := Swap data i (i - 1) in
      let data :=
        if 2 <=? i - a then shift_left (Z.to_nat i) data (i - 1) else data in
      let data :=
        if 2 <=? b - i then shift_right (Z.to_nat (b - i)) data (i + 1) b
        else data in
      partialInsertionSort_loop steps' data a b i
  end.

Definition partialInsertionSort_func (data : list A) (a b : Z) : list A * bool :=
  partialInsertionSort_loop 5 data a b (a + 1).

(** [breakPatterns_func] *)
Definition breakPatterns_func (data : list A) (a b : Z) : list A :=
  let length := b - a in
  if 8 <=? length then
    let modulus := nextPowerOfTwo length in
    let idx := a + Z.quot length 4 * 2 - 1 in
    let step (st : list A * Z) (i : Z) : list A * Z :=
      let '(data, random) := st in
      let random := xorshift_Next random in
      let other := Z.land random (modulus - 1) in
      let other := if length <=? other then other - length else other in
      (Swap data (idx - 1 + i) (a + other), random) in
    (fold_left step [0; 1; 2] (data, length)).1
  else data.

(** [order2_func], [median_func], [medianAdjacent_func]: the index chosen
    and the count of swaps. *)
Definition order2_func (data : list A) (a b swaps : Z) : Z * Z * Z :=
  if Less data b a then (b, a, swaps + 1) else (a, b, swaps).

Definition median_func (data : list A) (a b c swaps : Z) : Z * Z :=
  let '(a, b, swaps) := order2_func data a b swaps in
  let '(b, c, swaps) := order2_func data b c swaps in
  let '(a, b, swaps) := order2_func data a b swaps in
  (b, swaps).

Definition medianAdjacent_func (data : list A) (a swaps : Z) : Z * Z :=
  median_func data (a - 1) a (a + 1) swaps.

(** [choosePivot_func] *)
Definition choosePivot_func (data : list A) (a b : Z) : Z * Z :=
  let l := b - a in
  let swaps := 0 in
  let i := a + Z.quot l 4 * 1 in
  let j := a + Z.quot l 4 * 2 in
  let k := a + Z.quot l 4 * 3 in
  let '(j, swaps) :=
    if 8 <=? l then
      let '(i, j, k, swaps) :=
        if 50 <=? l then
          let '(i, swaps) := medianAdjacent_func data i swaps in
          let '(j, swaps) := medianAdjacent_func data j swaps in
          let '(k, swaps) := medianAdjacent_func data k swaps in
          (i, j, k, swaps)
        else (i, j, k, swaps) in
      median_func data i j k swaps
    else (j, swaps) in
  if swaps =? 0 then (j, increasingHint)
  else if swaps =? 4 * 3 then (j, decreasingHint)
  else (j, unknownHint).

(** [reverseRange_func] *)
Fixpoint reverseRange_loop (n : nat) (data : list A) (i j : Z) : list A :=
  match n with
  | O => data
  | S n' =>
    if i <? j then reverseRange_loop n' (Swap data i j) (i + 1) (j - 1)
    else data
  end.

Definition reverseRange_func (data : list A) (a b : Z) : list A :=
  reverseRange_loop (Z.to_nat (b - a)) data a (b - 1).

(** [pdqsort_func] sorts [data[a:b]].  Every turn of its loop and every
    recursive call works on a shorter range; [fuel] bounds their nesting, and
    [None] is returned when it runs out. *)
Fixpoint pdqsort_func (fuel : nat) (data : list A) (a b limit : Z)
    (wasBalanced wasPartitioned : bool) : option (list A) :=
  match fuel with
  | O => None
  | S fuel' =>
    let length := b - a in
    if length <=? 12 then Some (insertionSort_func data a b)
    else if limit =? 0 then Some (heapSort_func data a b)
    else
      let '(data, limit) :=
        if negb wasBalanced then (breakPatterns_func data a b, limit - 1)
        else (data, limit) in
      let '(pivot, hint) := choosePivot_func data a b in
      let '(data, pivot, hint) :=
        if hint =? decreasingHint then
          (reverseRange_func data a b, (b - 1) - (pivot - a), increasingHint)
        else (data, pivot, hint) in
      let '(data, sorted) :=
        if wasBalanced && wasPartitioned && (hint =? increasingHint) then
          partialInsertionSort_func data a b
        else (data, false) in
      if sorted then Some data
      else if (0 <? a) && negb (Less data (a - 1) pivot) then
        let '(data, mid) := partitionEqual_func data a b pivot in
        pdqsort_func fuel' data mid b limit wasBalanced wasPartitioned
      else
        let '(data, mid, alreadyPartitioned) := partition_func data a b pivot in
        let wasPartitioned := alreadyPartitioned in
        let leftLen := mid - a in
        let rightLen := b - mid in
        let balanceThreshold := Z.quot length 8 in
        if leftLen <? rightLen then
          let wasBalanced := balanceThreshold <=? leftLen in
          match pdqsort_func fuel' data a mid limit true true with
          | Some data =>
            pdqsort_func fuel' data (mid + 1) b limit wasBalanced wasPartitioned
          | None => None
          end
        else
          let wasBalanced := balanceThreshold <=? rightLen in
          match pdqsort_func fuel' data (mid + 1) b limit true true with
          | Some data =>
            pdqsort_func fuel' data a mid limit wasBalanced wasPartitioned
          | None => None
          end
  end.

(** [sort.Slice]: [None] stands for a run cut short by the bound, which does
    not happen (the range gets shorter at every turn). *)
Definition Slice_run (x : list A) : option (list A) :=
  let length := Z.of_nat (List.length x) in
  let limit := bits_Len length in
  pdqsort_func (S (List.length x)) x 0 length limit true true.

Definition Slice (x : list A) : list A := default x (Slice_run x).

End WithLess.
End sort.

(** ** Package [regexp], for the patterns of [FindReplace]

    [FindReplace] compiles ["(?i)" + regexp.QuoteMeta(find)].  The model
    reads the fragment of the syntax such a pattern is written in: an
    optional flag group [(?i)], then literal characters, a punctuation
    character possibly escaped by a backslash.  Such an expression has no
    capturing group: its only submatch is the match itself, number 0. *)

Module regexp.
Import utf8.

(** The bytes [\.+*?()|[]{}^$], which [QuoteMeta] escapes. *)
Definition special (b : Z) : bool :=
  existsb (Z.eqb b)
    [0x5C; 0x2E; 0x2B; 0x2A; 0x3F; 0x28; 0x29; 0x7C; 0x5B; 0x5D; 0x7B; 0x7D;
     0x5E; 0x24]%Z.

(** [regexp.QuoteMeta] *)
Fixpoint QuoteMeta (s : string) : string :=
  match s with
  | EmptyString => EmptyString
  | String c s' =>
    if special (byteZ c) then String "\"%char (String c (QuoteMeta s'))
    else String c (QuoteMeta s')
  end.

(** A compiled expression of the fragment: the runes of the literal, and
    whether they are matched up to case folding. *)
Record Regexp := { foldCase : bool; literal : list rune }.

Inductive parsed :=
  | Parsed (re : Regexp)
  | ErrInvalidUTF8
  | NotModelled.

(** [checkUTF8]: no byte of the pattern decodes to [(RuneError, 1)]. *)
Definition checkUTF8 (s : string) : bool := ValidString s.

Definition isalnum (c : rune) : bool :=
  ((0x30 <=? c) && (c <=? 0x39) || (0x41 <=? c) && (c <=? 0x5A)
   || (0x61 <=? c) && (c <=? 0x7A))%Z.

(** The literal characters of a pattern, given as its runes. *)
Fixpoint parse_literal (rs : list rune) : option (list rune) :=
  match rs with
  | [] => Some []
  | c :: rs' =>
    if (c =? 0x5C)%Z then
      match rs' with
      | e :: rs'' =>
        if (e <? RuneSelf)%Z && negb (isalnum e) then
          cons e <$> parse_literal rs''
        else None
      | [] => None
      end
    else if (0 <=? c)%Z && (c <? 0x80)%Z && special c then None
    else cons c <$> parse_literal rs'
  end.

Definition parse (pattern : string) : parsed :=
  if negb (checkUTF8 pattern) then ErrInvalidUTF8
  else
    let '(fold, rest) :=
      if String.prefix "(?i)" pattern then (true, str_drop 4 pattern)
      else (false, pattern) in
    match parse_literal (runes_of_string rest) with
    | Some lit => Parsed {| foldCase := fold; literal := lit |}
    | None => NotModelled
    end.

(** [regexp.MustCompile]: [None] stands for the panic on a pattern that does
    not compile (and for the patterns outside the fragment, which
    [FindReplace] does not build). *)
Definition MustCompile (pattern : string) : option Regexp :=
  match parse pattern with
  | Parsed re => Some re
  | _ => None
  end.

Section WithTables.
Context (T : unicode.Tables).

(** A rune of the input against a rune of the literal: equal, or, under
    [foldCase], on the orbit of [unicode.SimpleFold] ([n] bounds the walk
    along the orbit). *)
Fixpoint on_orbit (n : nat) (r0 r1 r : rune) : bool :=
  match n with
  | O => false
  | S n' =>
    if (r1 =? r0)%Z then false
    else if (r =? r1)%Z then true
    else on_orbit n' r0 (unicode.SimpleFold T r1) r
  end.

Definition match_rune (re : Regexp) (r0 r : rune) : bool :=
  (r =? r0)%Z || (foldCase re && on_orbit 8 r0 (unicode.SimpleFold T r0) r).

(** The literal matched at the start of [s]: the length of the match. *)
Fixpoint match_here (re : Regexp) (lit : list rune) (s : string) : option nat :=
  match lit with
  | [] => Some 0%nat
  | r0 :: lit' =>
    match s with
    | EmptyString => None
    | _ =>
      let '(r, w) := DecodeRuneInString s in
      if match_rune re r0 r then
        match match_here re lit' (str_drop w s) with
        | Some n => Some (w + n)%nat
        | None => None
        end
      else None
    end
  end.

(** The name at the start of a template, after [$] or [${]: its length. *)
Fixpoint name_len (fuel : nat) (str : string) : nat :=
  match fuel with
  | O => 0%nat
  | S fuel' =>
    match str with
    | EmptyString => 0%nat
    | _ =>
      let '(r, size) := DecodeRuneInString str in
      if negb (unicode.IsLetter T r) && negb (unicode.IsDigit T r)
         && negb (r =? 0x5F)%Z then 0%nat
      else (size + name_len fuel' (str_drop size str))%nat
    end
  end.

(** The number a name denotes, or [-1]. *)
Fixpoint parse_num (name : string) (num : Z) : Z :=
  match name with
  | EmptyString => num
  | String c name' =>
    let b := byteZ c in
    if (b <? 0x30)%Z || (0x39 <? b)%Z || (100000000 <=? num)%Z then (-1)%Z
    else parse_num name' (num * 10 + b - 0x30)%Z
  end.

(** [extract]: the name, its number and the rest of the template, or [None]
    when there is no well-formed name. *)
Definition extract (str : string) : option (string * Z * string) :=
  match str with
  | EmptyString => None
  | String c0 _ =>
    let brace := (byteZ c0 =? 0x7B)%Z in
    let str := if brace then str_drop 1 str else str in
    let i := name_len (String.length str) str in
    if (i =? 0)%nat then None
    else
      let name := str_take i str in
      if brace && ((String.length str <=? i)%nat
                   || negb (byte_at str i =? 0x7D)%Z) then None
      else
        let i := if brace then S i else i in
        let num := parse_num name 0%Z in
        let num :=
          if (byte_at name 0 =? 0x30)%Z && (1 <? String.length name)%nat
          then (-1)%Z else num in
        Some (name, num, str_drop i str)
  end.

(** [strings.Cut(template, "$")] *)
Fixpoint cut_dollar (template : string) : option (string * string) :=
  match template with
  | EmptyString => None
  | String c t =>
    if (byteZ c =? 0x24)%Z then Some (EmptyString, t)
    else
      match cut_dollar t with
      | Some (before, after) => Some (String c before, after)
      | None => None
      end
  end.

(** [Regexp.expand] for an expression without capturing groups: [$0] and
    [${0}] stand for the text matched, [$$] for a dollar sign, every other
    well-formed reference for the empty string. *)
Fixpoint expand (fuel : nat) (template matched : string) : string :=
  match fuel with
  | O => template
  | S fuel' =>
    match cut_dollar template with
    | None => template
    | Some (before, template) =>
      before +:+
      match template with
      | String "$"%char template' => String "$"%char (expand fuel' template' matched)
      | _ =>
        match extract template with
        | None => String "$"%char (expand fuel' template matched)
        | Some (name, num, rest) =>
          (if (num =? 0)%Z then matched else EmptyString)
          +:+ expand fuel' rest matched
        end
      end
    end
  end.

(** The loop of [Regexp.replaceAll] for a literal that is not empty: the
    leftmost matches that do not overlap are replaced.  [skip] counts the
    bytes still to pass over, copied ([emit]) when they belong to a rune that
    starts no match and dropped when they belong to a match. *)
Fixpoint replace_literal (re : Regexp) (repl : string -> string) (skip : nat)
    (emit : bool) (s : string) : string :=
  match s with
  | EmptyString => EmptyString
  | String c s' =>
    match skip with
    | S k =>
      if emit then String c (replace_literal re repl k emit s')
      else replace_literal re repl k emit s'
    | O =>
      match match_here re (literal re) s with
      | Some n =>
        repl (str_take n s) +:+ replace_literal re repl (Nat.pred n) false s'
      | None =>
        String c
          (replace_literal re repl (Nat.pred (snd (DecodeRuneInString s))) true s')
      end
    end
  end.

(** [Regexp.ReplaceAllString]: inside [repl], [$] signs are interpreted as
    in [Expand].  An empty literal matches before every rune and at the
    end. *)
Definition ReplaceAllString (re : Regexp) (src repl : string) : string :=
  let rep := expand (S (String.length repl)) repl in
  match literal re with
  | [] => strings.replace_empty (rep EmptyString) 0 src
  | _ => replace_literal re rep 0 true src
  end.

End WithTables.
End regexp.

(** ** Package [utils]: [server/utils/text_utils.go] *)

Module utils.
Import utf8.

(** The line separator ["\n"]. *)
Definition LF : string := String "010"%char EmptyString.

(** [for i, x := range l { l[i] = f(x) }] *)
Definition assign_each {A} (f : A -> A) (l : list A) : list A :=
  fold_left
    (fun l i => match l !! i with Some x => <[i:=f x]> l | None => l end)
    (seq 0 (length l)) l.

(** *** ReverseText *)

(** The loop [for i, j := 0, len(runes)-1; i < j; i, j = i+1, j-1]. *)
Fixpoint ReverseText_loop (fuel : nat) (runes : list rune) (i j : Z) : list rune :=
  match fuel with
  | O => runes
  | S fuel' =>
    if (i <? j)%Z then
      ReverseText_loop fuel' (swap runes (Z.to_nat i) (Z.to_nat j)) (i + 1) (j - 1)
    else runes
  end.

Definition ReverseText (text : string) : string :=
  let runes := runes_of_string text in
  let runes :=
    ReverseText_loop (length runes) runes 0 (Z.of_nat (length runes) - 1) in
  string_of_runes runes.

(** *** RemoveDuplicateLines *)

Definition RemoveDuplicateLines_step (st : gmap string bool * list string)
    (line : string) : gmap string bool * list string :=
  let '(seen, result) := st in
  if negb (default false (seen !! line)) then
    (<[line:=true]> seen, result ++ [line])
  else (seen, result).

Definition RemoveDuplicateLines (text : string) : string :=
  let lines := strings.Split text LF in
  let '(_, result) := fold_left RemoveDuplicateLines_step lines (∅, []) in
  strings.Join result LF.

(** *** WordCount *)

Definition WordCount (text : string) : gmap string nat :=
  let text := strings.TrimSpace text in
  let lines := strings.Split text LF in
  let lineCount := length lines in
  let paragraphs := strings.Split text (LF +:+ LF) in
  let paragraphCount :=
    fold_left
      (fun n p =>
         if negb (String.eqb (strings.TrimSpace p) EmptyString) then S n else n)
      paragraphs 0%nat in
  let charCount := String.length text in
  let charNoSpaces :=
    String.length
      (strings.ReplaceAll (strings.ReplaceAll text " " EmptyString) LF EmptyString) in
  let words := strings.Fields text in
  let wordCount := length words in
  <["words":=wordCount]> (<["characters":=charCount]>
    (<["charactersNoSpaces":=charNoSpaces]> (<["lines":=lineCount]>
      (<["paragraphs":=paragraphCount]> ∅)))).

Section WithTables.
Context (T : unicode.Tables).

(** *** splitWords *)

(** One iteration of [for i, r := range s]; the state is [words] and the
    contents of the builder [currentWord]. *)
Definition splitWords_step (s : string) (st : list string * string)
    (ir : nat * rune) : list string * string :=
  let '(words, currentWord) := st in
  let '(i, r) := ir in
  if unicode.IsLetter T r || unicode.IsNumber T r then
    let '(words, currentWord) :=
      if (0 <? i)%nat && unicode.IsUpper T r
         && unicode.IsLower T (byte_at s (i - 1)) then
        if (0 <? String.length currentWord)%nat then
          (words ++ [currentWord], EmptyString)
        else (words, currentWord)
      else (words, currentWord) in
    (words, currentWord +:+ EncodeRune r)
  else
    if (0 <? String.length currentWord)%nat then
      (words ++ [currentWord], EmptyString)
    else (words, currentWord).

Definition splitWords (s : string) : list string :=
  let '(words, currentWord) :=
    fold_left (splitWords_step s) (range_string s) ([], EmptyString) in
  if (0 <? String.length currentWord)%nat then words ++ [currentWord]
  else words.

(** *** The five case styles *)

Definition toCamelCase (s : string) : string :=
  let words := splitWords s in
  match words with
  | [] => EmptyString
  | first :: rest =>
    fold_left
      (fun result word => result +:+ strings.Title T (strings.ToLower T word))
      rest (strings.ToLower T first)
  end.

Definition toPascalCase (s : string) : string :=
  let words := splitWords s in
  fold_left
    (fun result word => result +:+ strings.Title T (strings.ToLower T word))
    words EmptyString.

Definition toSnakeCase (s : string) : string :=
  let words := splitWords s in
  let words := assign_each (strings.ToLower T) words in
  strings.Join words "_".

Definition toKebabCase (s : string) : string :=
  let words := splitWords s in
  let words := assign_each (strings.ToLower T) words in
  strings.Join words "-".

Definition toConstantCase (s : string) : string :=
  let words := splitWords s in
  let words := assign_each (strings.ToUpper T) words in
  strings.Join words "_".

(** *** ConvertCase *)

Definition ConvertCase (text caseType : string) : string :=
  if String.eqb caseType "camelCase" then toCamelCase text
  else if String.eqb caseType "PascalCase" then toPascalCase text
  else if String.eqb caseType "snake_case" then toSnakeCase text
  else if String.eqb caseType "kebab-case" then toKebabCase text
  else if String.eqb caseType "CONSTANT_CASE" then toConstantCase text
  else text.

(** *** FindReplace *)

(** [None] stands for the panic of [regexp.MustCompile]. *)
Definition FindReplace (text find replace : string) (caseSensitive : bool)
    : option string :=
  if negb caseSensitive then
    match regexp.MustCompile ("(?i)" +:+ regexp.QuoteMeta find) with
    | Some re => Some (regexp.ReplaceAllString T re text replace)
    | None => None
    end
  else Some (strings.ReplaceAll text find replace).

(** *** SortLines *)

(** The [less] function given to [sort.Slice], as a comparison of the two
    lines: [<] on strings is the lexicographic order of their bytes. *)
Definition SortLines_less (ascending : bool) (x y : string) : bool :=
  if ascending then String.ltb (strings.ToLower T x) (strings.ToLower T y)
  else String.ltb (strings.ToLower T y) (strings.ToLower T x).

Definition SortLines (text : string) (ascending : bool) : string :=
  let lines := strings.Split text LF in
  let lines := sort.Slice (SortLines_less ascending) lines in
  strings.Join lines LF.

(** *** The one-line transforms *)

Definition ToUpperCase (text : string) : string := strings.ToUpper T text.
Definition ToLowerCase (text : string) : string := strings.ToLower T text.
Definition TrimText (text : string) : string := strings.TrimSpace text.

End WithTables.
End utils.

(** * Notions used to state the properties *)

Import utf8 utils.

(** What [string(r)] holds for a rune that cannot be encoded. *)
Definition sanitize (r : rune) : rune := if ValidRune r then r else RuneError.

(** A rune is an [int32]. *)
Definition is_int32 (r : Z) : Prop := (- 2 ^ 31 <= r < 2 ^ 31)%Z.

(** The first two bytes of a well-formed sequence of three bytes. *)
Definition lead3 (b0 b1 : Z) : Prop :=
  (b0 = 0xE0 /\ 0xA0 <= b1 <= 0xBF)%Z
  \/ ((0xE1 <= b0 <= 0xEC \/ 0xEE <= b0 <= 0xEF) /\ 0x80 <= b1 <= 0xBF)%Z
  \/ (b0 = 0xED /\ 0x80 <= b1 <= 0x9F)%Z.

(** The first two bytes of a well-formed sequence of four bytes. *)
Definition lead4 (b0 b1 : Z) : Prop :=
  (b0 = 0xF0 /\ 0x90 <= b1 <= 0xBF)%Z
  \/ (0xF1 <= b0 <= 0xF3 /\ 0x80 <= b1 <= 0xBF)%Z
  \/ (b0 = 0xF4 /\ 0x80 <= b1 <= 0x8F)%Z.

(** A decoding step either meets the end of the string, or a byte that
    starts no well-formed sequence, or the encoding of a valid rune. *)
Inductive decoded (s : string) : rune -> nat -> Prop :=
  | decoded_empty : s = EmptyString -> decoded s RuneError 0
  | decoded_error c rest :
      s = String c rest -> (0x80 <= byteZ c)%Z -> decoded s RuneError 1
  | decoded_rune r rest :
      ValidRune r = true -> s = EncodeRune r +:+ rest ->
      decoded s r (String.length (EncodeRune r)).

(** The five styles [ConvertCase] knows. *)
Definition styles : list string :=
  ["camelCase"; "PascalCase"; "snake_case"; "kebab-case"; "CONSTANT_CASE"].

(** The tables cut down to Latin-1, to instantiate the statements with: no
    code point above U+00FF is classified, and the case mappings are the
    entries of [CaseRanges] for the letters of Latin-1. *)
Definition latin1_To (_case : Z) (r : rune) : rune :=
  if (_case =? unicode.LowerCase)%Z then
    if ((0xC0 <=? r) && (r <=? 0xD6) || (0xD8 <=? r) && (r <=? 0xDE))%Z
    then (r + 32)%Z else r
  else
    if (r =? 0xB5)%Z then (r + 743)%Z
    else if ((0xE0 <=? r) && (r <=? 0xF6) || (0xF8 <=? r) && (r <=? 0xFE))%Z
    then (r - 32)%Z
    else if (r =? 0xFF)%Z then (r + 121)%Z
    else r.

Definition latin1_tables : unicode.Tables :=
  {| unicode.Letter := fun _ => false;
     unicode.Number := fun _ => false;
     unicode.Digit := fun _ => false;
     unicode.Upper := fun _ => false;
     unicode.Lower := fun _ => false;
     unicode.To := latin1_To;
     unicode.caseOrbit := fun _ => None |}.

(** The first occurrence of every element of a list, in the order of the
    list. *)
Fixpoint first_occurrences (l : list string) : list string :=
  match l with
  | [] => []
  | x :: l' => x :: filter (fun y => y <> x) (first_occurrences l')
  end.

(** *** The tokenizer as a scan over the bytes

    [splitWords] reads the byte before the current rune by its index.  The
    same loop, written with that byte carried along ([prev], none at the
    start of the string), is easier to cut at a position of the input. *)

Section Tokenizer.
Context (T : unicode.Tables).

(** A word character: a letter or a number. *)
Definition isWordChar (r : rune) : bool :=
  unicode.IsLetter T r || unicode.IsNumber T r.

(** The accumulator, when it is not empty, becomes a token. *)
Definition flush (st : list string * string) : list string * string :=
  if (0 <? String.length st.2)%nat then (st.1 ++ [st.2], EmptyString) else st.

(** The test of the camelCase transition. *)
Definition hump (prev : option ascii) (r : rune) : bool :=
  match prev with
  | Some c => unicode.IsUpper T r && unicode.IsLower T (byteZ c)
  | None => false
  end.

Definition token_step (prev : option ascii) (r : rune)
    (st : list string * string) : list string * string :=
  if isWordChar r then
    let st := if hump prev r then flush st else st in
    (st.1, st.2 +:+ EncodeRune r)
  else flush st.

Fixpoint scan (prev : option ascii) (skip : nat) (s : string)
    (st : list string * string) : list string * string :=
  match s with
  | EmptyString => st
  | String c s' =>
    match skip with
    | S k => scan (Some c) k s' st
    | O =>
      scan (Some c) (Nat.pred (DecodeRuneInString s).2) s'
        (token_step prev (DecodeRuneInString s).1 st)
    end
  end.

End Tokenizer.

(** The last byte of a string, and the last byte of [s] or else [prev]. *)
Fixpoint last_byte (prev : option ascii) (s : string) : option ascii :=
  match s with
  | EmptyString => prev
  | String c s' => last_byte (Some c) s'
  end.

(** A byte that is not a continuation byte: it can start a rune. *)
Definition starts_rune (s : string) : Prop :=
  match s with
  | EmptyString => True
  | String c _ => ~ (0x80 <= byteZ c <= 0xBF)%Z
  end.

(** [x] put in front of the first token of a state, finished or not. *)
Definition glue (x : string) (st : list string * string) : list string * string :=
  match st.1 with
  | [] => ([], x +:+ st.2)
  | w :: ws => ((x +:+ w) :: ws, st.2)
  end.

(** A state that holds a token, finished or not. *)
Definition started (st : list string * string) : Prop :=
  st.1 <> [] \/ st.2 <> EmptyString.

(** A state whose first token, finished or not, starts with [x]. *)
Definition starts_with (x : string) (st : list string * string) : Prop :=
  match st.1 with
  | [] => exists t, st.2 = x +:+ t
  | w :: _ => exists t, w = x +:+ t
  end.

(** The tokens around two adjacent pieces [x] and [y] of an input
    [pre +:+ x +:+ y +:+ post].  Either way the tokens before are those of
    [pre +:+ x], the last of which ends with [x], and the tokens after are
    those of [y +:+ post], the first of which starts with [y].  With a split
    between [x] and [y] these two are separate tokens; without one they
    are one token. *)
Definition hump_split (T : unicode.Tables) (pre x y post : string) : Prop :=
  exists ws t1 t2 ws',
    splitWords T (pre +:+ x) = ws ++ [t1 +:+ x]
    /\ splitWords T (y +:+ post) = (y +:+ t2) :: ws'
    /\ splitWords T (pre +:+ x +:+ y +:+ post)
       = ws ++ [t1 +:+ x] ++ (y +:+ t2) :: ws'.

Definition no_hump_split (T : unicode.Tables) (pre x y post : string) : Prop :=
  exists ws t1 t2 ws',
    splitWords T (pre +:+ x) = ws ++ [t1 +:+ x]
    /\ splitWords T (y +:+ post) = (y +:+ t2) :: ws'
    /\ splitWords T (pre +:+ x +:+ y +:+ post)
       = ws ++ [t1 +:+ x +:+ y +:+ t2] ++ ws'.

(** *** Rendering a token

    A token is the encoding of valid runes that are word characters. *)
Definition word_runes (T : unicode.Tables) (rs : list rune) : Prop :=
  Forall (fun r => ValidRune r = true /\ isWordChar T r = true) rs.

Definition word_string (T : unicode.Tables) (w : string) : Prop :=
  exists rs, w = string_of_runes rs /\ word_runes T rs.


(** Strings put one after the other, with no separator. *)
Definition concat_all (l : list string) : string :=
  foldr String.append EmptyString l.


(** *** Counting

    The bytes of [s] other than [c], and a string of ASCII bytes. *)
Fixpoint remove_byte (c : ascii) (s : string) : string :=
  match s with
  | EmptyString => EmptyString
  | String a s' =>
    if Ascii.eqb a c then remove_byte c s' else String a (remove_byte c s')
  end.

Fixpoint is_ascii (s : string) : bool :=
  match s with
  | EmptyString => true
  | String a s' => (byteZ a <? 0x80)%Z && is_ascii s'
  end.

(** ** Sorting: the order given to [sort.Slice] and the stable reference *)

Section StableSort.
Context {A : Type} (less : A -> A -> bool).

(** The properties of [less] that sorting relies on. *)
Record strict_weak_order : Prop := {
  less_irrefl x : less x x = false;
  less_trans x y z : less x y = true -> less y z = true -> less x z = true;
  less_negtrans x y z : less x y = false -> less y z = false -> less x z = false
}.

(** Neither of the two is less than the other. *)
Definition tie (x y : A) : bool := negb (less x y) && negb (less y x).

(** No element is less than one that comes before it. *)
Definition in_order (l : list A) : Prop :=
  StronglySorted (fun x y => less y x = false) l.

(** [x] goes in front of the first element that is greater than it, so
    behind the elements that tie with it. *)
Fixpoint insert_sorted (x : A) (l : list A) : list A :=
  match l with
  | [] => [x]
  | y :: l' => if less x y then x :: y :: l' else y :: insert_sorted x l'
  end.

(** The stable sort of [l]: its elements are inserted one after the other. *)
Definition stable_sort (l : list A) : list A :=
  fold_left (fun acc x => insert_sorted x acc) l [].

(** What [pdqsort_func] relies on when it is called on [data[a:b]] with
    [a > 0]: no element of the range is less than [data[a-1]]. *)
Definition floor (pre mid : list A) : Prop :=
  match last pre with
  | Some q => Forall (fun x => less x q = false) mid
  | None => True
  end.

(** The elements that tie with [k] come in the same order in [l] and in
    [out], for every [k]. *)
Definition ties_in_input_order (l out : list A) : Prop :=
  forall k, List.filter (tie k) out = List.filter (tie k) l.

End StableSort.

(** ** The heap of [heapSort_func] *)

Section Heap.
Context {A : Type} `{!Inhabited A} (less : A -> A -> bool).
Local Open Scope Z_scope.

(** [data[i]], for an index of the slice. *)
Definition elem_at (l : list A) (i : Z) : A := l !!! Z.to_nat i.

(** The children of the node [q] are the nodes [2q+1] and [2q+2]. *)
Definition is_child (c q : Z) : Prop := c = 2 * q + 1 \/ c = 2 * q + 2.

(** No node from [lo] on is less than a child of its below [hi]. *)
Definition heap_from (l : list A) (lo hi : Z) : Prop :=
  forall q c, lo <= q -> is_child c q -> c < hi ->
    less (elem_at l q) (elem_at l c) = false.

(** The same while [siftDown_func] moves the node [r] down: [r] may be less
    than its children, and its parent is not less than them. *)
Definition heap_except (l : list A) (lo hi r : Z) : Prop :=
  (forall q c, lo <= q -> q <> r -> is_child c q -> c < hi ->
     less (elem_at l q) (elem_at l c) = false)
  /\ (forall q c, lo <= q -> is_child r q -> is_child c r -> c < hi ->
        less (elem_at l q) (elem_at l c) = false).

(** [l'] is [l] outside of [lo, hi), and an element of [l'] in that range is
    one of [l] in that range. *)
Definition same_elements (l l' : list A) (lo hi : Z) : Prop :=
  length l' = length l
  /\ (forall k, 0 <= k -> ~ (lo <= k < hi) -> elem_at l' k = elem_at l k)
  /\ (forall P : A -> Prop,
        (forall k, lo <= k < hi -> P (elem_at l k)) ->
        forall k, lo <= k < hi -> P (elem_at l' k)).

(** The second loop of [heapSort_func]: a heap below [i]; from [i] on, the
    greatest elements in order. *)
Definition heap_sorted (l : list A) (i hi : Z) : Prop :=
  heap_from l 0 i
  /\ (forall k k', i <= k -> k < k' -> k' < hi ->
        less (elem_at l k') (elem_at l k) = false)
  /\ (forall k k', 0 <= k < i -> i <= k' < hi ->
        less (elem_at l k') (elem_at l k) = false).

End Heap.

(** ** An input of [SortLines] with thirteen lines

    Two lines that tie, followed by eleven lines that are less than
    them. *)
Definition thirteen_lines : list string :=
  ["abc"; "ABC"] ++ replicate 11 "a".

(** ** Lines of a text

    The number of bytes of [s] equal to [c]. *)
Fixpoint count_byte (c : ascii) (s : string) : nat :=
  match s with
  | EmptyString => 0
  | String a s' => (if Ascii.eqb a c then 1 else 0) + count_byte c s'
  end.

(** The line feed as a byte, and the strings without it. *)
Definition LF_byte : ascii := "010"%char.
Definition no_LF (s : string) : Prop := count_byte LF_byte s = 0%nat.

(** ** Patterns

    A string none of whose bytes is an ASCII byte. *)
Fixpoint all_high (s : string) : bool :=
  match s with
  | EmptyString => true
  | String c s' => (0x80 <=? byteZ c)%Z && all_high s'
  end.

(** The runes of [regexp.QuoteMeta s], from the runes of [s]: a backslash in
    front of every special character. *)
Definition quote_runes (rs : list rune) : list rune :=
  flat_map (fun r => if regexp.special r then [0x5C%Z; r] else [r]) rs.

(** A string of ASCII bytes none of which is a letter: the bytes that case
    folding leaves alone. *)
Fixpoint caseless_ascii (s : string) : bool :=
  match s with
  | EmptyString => true
  | String c s' =>
    let b := byteZ c in
    (b <? 0x80)%Z && negb ((0x41 <=? b) && (b <=? 0x5A))%Z
    && negb ((0x61 <=? b) && (b <=? 0x7A))%Z && caseless_ascii s'
  end.

(** ** Words and bytes

    The letters and numbers of a text, in order, and the text a state of the
    tokenizer holds. *)
Definition word_chars (T : unicode.Tables) (s : string) : string :=
  string_of_runes (List.filter (isWordChar T) (runes_of_string s)).

Definition state_text (st : list string * string) : string :=
  concat_all st.1 +:+ st.2.

(** A function on bytes applied to every byte of a string. *)
Fixpoint map_bytes (f : ascii -> ascii) (s : string) : string :=
  match s with
  | EmptyString => EmptyString
  | String c s' => String (f c) (map_bytes f s')
  end.

(** The upper case and the lower case of an ASCII byte. *)
Definition upper_byte (c : ascii) : ascii :=
  if ((0x61 <=? byteZ c) && (byteZ c <=? 0x7A))%Z then Zbyte (byteZ c - 0x20)
  else c.

Definition lower_byte (c : ascii) : ascii :=
  if ((0x41 <=? byteZ c) && (byteZ c <=? 0x5A))%Z then Zbyte (byteZ c + 0x20)
  else c.

(** The white space of ASCII: tab, line feed, vertical tab, form feed,
    carriage return and space. *)
Definition ascii_space (c : ascii) : bool :=
  ((0x09 <=? byteZ c) && (byteZ c <=? 0x0D) || (byteZ c =? 0x20))%Z.

Fixpoint ascii_spaces (s : string) : bool :=
  match s with
  | EmptyString => true
  | String c s' => ascii_space c && ascii_spaces s'
  end.

(** ** The case styles on ASCII text

    The classes of ASCII bytes. *)
Definition digit_byte (c : ascii) : bool :=
  ((0x30 <=? byteZ c) && (byteZ c <=? 0x39))%Z.
Definition lower_letter (c : ascii) : bool :=
  ((0x61 <=? byteZ c) && (byteZ c <=? 0x7A))%Z.
Definition upper_letter (c : ascii) : bool :=
  ((0x41 <=? byteZ c) && (byteZ c <=? 0x5A))%Z.
Definition alnum_byte (c : ascii) : bool :=
  digit_byte c || lower_letter c || upper_letter c.

Fixpoint all_bytes (P : ascii -> bool) (s : string) : bool :=
  match s with
  | EmptyString => true
  | String c s' => P c && all_bytes P s'
  end.

(** A string of ASCII letters and digits in which no upper-case letter
    follows a lower-case letter; [after_lower] tells whether the byte before
    the string is a lower-case letter. *)
Fixpoint humpless (after_lower : bool) (w : string) : bool :=
  match w with
  | EmptyString => true
  | String c w' =>
    alnum_byte c && negb (after_lower && upper_letter c)
    && humpless (lower_letter c) w'
  end.

(** Whether the byte before the current rune is a lower-case letter. *)
Definition is_lower_prev (T : unicode.Tables) (prev : option ascii) : bool :=
  match prev with
  | Some p => unicode.IsLower T (byteZ p)
  | None => false
  end.

(** The styles that put a separator between the words. *)
Definition separator_styles : list string :=
  ["snake_case"; "kebab-case"; "CONSTANT_CASE"].

(** What [ConvertCase] makes of the words of a text, for each of the five
    styles. *)
Definition render_words (T : unicode.Tables) (style : string)
    (words : list string) : string :=
  if String.eqb style "camelCase" then
    match words with
    | [] => EmptyString
    | first :: rest =>
      fold_left
        (fun result word => result +:+ strings.Title T (strings.ToLower T word))
        rest (strings.ToLower T first)
    end
  else if String.eqb style "PascalCase" then
    fold_left
      (fun result word => result +:+ strings.Title T (strings.ToLower T word))
      words EmptyString
  else if String.eqb style "snake_case" then
    strings.Join (assign_each (strings.ToLower T) words) "_"
  else if String.eqb style "kebab-case" then
    strings.Join (assign_each (strings.ToLower T) words) "-"
  else strings.Join (assign_each (strings.ToUpper T) words) "_".

(** One byte put in the place of another. *)
Definition swap_byte (c d : ascii) (a : ascii) : ascii :=
  if Ascii.eqb a c then d else a.

(** ** Occurrences

    [find] occurs in [text]. *)
Definition occurs (find text : string) : Prop :=
  exists pre post, text = pre +:+ find +:+ post.

(** No suffix of [text] starts with [find]. *)
Fixpoint absent (find text : string) : bool :=
  negb (String.prefix find text)
  && match text with
     | EmptyString => true
     | String _ text' => absent find text'
     end.

(** * Properties *)

(** ** Strings as byte sequences *)

Lemma append_cons (c : ascii) (s t : string) :
  String c s +:+ t = String c (s +:+ t).
Proof. reflexivity. Qed.

Lemma append_nil_l (s : string) : EmptyString +:+ s = s.
Proof. reflexivity. Qed.

Lemma append_nil_r (s : string) : s +:+ EmptyString = s.
Proof. induction s as [|c s IH]; [reflexivity|]. by rewrite append_cons, IH. Qed.

Lemma append_assoc (s t u : string) : (s +:+ t) +:+ u = s +:+ (t +:+ u).
Proof. induction s as [|c s IH]; [reflexivity|]. by rewrite !append_cons, IH. Qed.

Lemma length_append (s t : string) :
  String.length (s +:+ t) = (String.length s + String.length t)%nat.
Proof.
  induction s as [|c s IH]; [reflexivity|]. rewrite append_cons. cbn. by rewrite IH.
Qed.

Lemma append_eq_nil (s t : string) :
  s +:+ t = EmptyString -> s = EmptyString /\ t = EmptyString.
Proof. destruct s; [auto|discriminate]. Qed.

Lemma length_zero_iff (s : string) : String.length s = 0%nat <-> s = EmptyString.
Proof. destruct s; split; (reflexivity || discriminate). Qed.

Lemma str_drop_append (s t : string) : str_drop (String.length s) (s +:+ t) = t.
Proof. induction s as [|c s IH]; [by destruct t|]. exact IH. Qed.

Lemma str_take_append (s t : string) : str_take (String.length s) (s +:+ t) = s.
Proof.
  induction s as [|c s IH]; [by destruct t|]. rewrite append_cons. cbn. by rewrite IH.
Qed.

Lemma byteZ_range (c : ascii) : (0 <= byteZ c < 256)%Z.
Proof.
  unfold byteZ. pose proof (N_ascii_bounded c). lia.
Qed.

Lemma byteZ_Zbyte (z : Z) : (0 <= z < 256)%Z -> byteZ (Zbyte z) = z.
Proof.
  intros Hz. unfold byteZ, Zbyte. rewrite Z.mod_small by lia.
  rewrite N_ascii_embedding by lia. lia.
Qed.

Lemma Zbyte_byteZ (c : ascii) : Zbyte (byteZ c) = c.
Proof.
  unfold byteZ, Zbyte. pose proof (N_ascii_bounded c).
  rewrite Z.mod_small by lia. rewrite N2Z.id. apply ascii_N_embedding.
Qed.

(** ** Bit operations of the UTF-8 codec as arithmetic *)

Lemma lor_disjoint (a b n : Z) :
  (0 <= n)%Z -> (0 <= b < 2 ^ n)%Z -> Z.lor (a * 2 ^ n) b = (a * 2 ^ n + b)%Z.
Proof.
  intros Hn Hb. symmetry. apply Z.add_nocarry_lor.
  apply Z.bits_inj'. intros m Hm. rewrite Z.land_spec, Z.bits_0.
  destruct (Z.lt_ge_cases m n) as [Hlt|Hge].
  - rewrite Z.mul_pow2_bits_low by lia. reflexivity.
  - rewrite <- (Z.mod_small b (2 ^ n)) by lia.
    rewrite Z.mod_pow2_bits_high by lia. apply andb_false_r.
Qed.

Lemma land_mask (x n : Z) : (0 <= n)%Z -> Z.land x (2 ^ n - 1) = (x mod 2 ^ n)%Z.
Proof.
  intros Hn. rewrite <- Z.land_ones by lia. f_equal.
  rewrite Z.ones_equiv. lia.
Qed.

Lemma lor_tx (x : Z) : (0 <= x < 64)%Z -> Z.lor 0x80 x = (0x80 + x)%Z.
Proof. intros Hx. exact (lor_disjoint 2 x 6 ltac:(lia) Hx). Qed.

Lemma lor_t2 (x : Z) : (0 <= x < 32)%Z -> Z.lor 0xC0 x = (0xC0 + x)%Z.
Proof. intros Hx. apply (lor_disjoint 3 x 6); lia. Qed.

Lemma lor_t3 (x : Z) : (0 <= x < 16)%Z -> Z.lor 0xE0 x = (0xE0 + x)%Z.
Proof. intros Hx. apply (lor_disjoint 7 x 5); lia. Qed.

Lemma lor_t4 (x : Z) : (0 <= x < 8)%Z -> Z.lor 0xF0 x = (0xF0 + x)%Z.
Proof. intros Hx. apply (lor_disjoint 15 x 4); lia. Qed.

Lemma land_maskx (x : Z) : Z.land x 0x3F = (x mod 64)%Z.
Proof. exact (land_mask x 6 ltac:(lia)). Qed.

Lemma land_mask2 (x : Z) : Z.land x 0x1F = (x mod 32)%Z.
Proof. exact (land_mask x 5 ltac:(lia)). Qed.

Lemma land_mask3 (x : Z) : Z.land x 0x0F = (x mod 16)%Z.
Proof. exact (land_mask x 4 ltac:(lia)). Qed.

Lemma land_mask4 (x : Z) : Z.land x 0x07 = (x mod 8)%Z.
Proof. exact (land_mask x 3 ltac:(lia)). Qed.

Lemma shiftr_6 (x : Z) : Z.shiftr x 6 = (x / 64)%Z.
Proof. rewrite Z.shiftr_div_pow2 by lia. reflexivity. Qed.

Lemma shiftr_12 (x : Z) : Z.shiftr x 12 = (x / 4096)%Z.
Proof. rewrite Z.shiftr_div_pow2 by lia. reflexivity. Qed.

Lemma shiftr_18 (x : Z) : Z.shiftr x 18 = (x / 262144)%Z.
Proof. rewrite Z.shiftr_div_pow2 by lia. reflexivity. Qed.

Lemma shiftr_4 (x : Z) : Z.shiftr x 4 = (x / 16)%Z.
Proof. rewrite Z.shiftr_div_pow2 by lia. reflexivity. Qed.

Lemma shiftl_6 (x : Z) : Z.shiftl x 6 = (x * 2 ^ 6)%Z.
Proof. apply Z.shiftl_mul_pow2. lia. Qed.

Lemma shiftl_12 (x : Z) : Z.shiftl x 12 = (x * 2 ^ 12)%Z.
Proof. apply Z.shiftl_mul_pow2. lia. Qed.

Lemma shiftl_18 (x : Z) : Z.shiftl x 18 = (x * 2 ^ 18)%Z.
Proof. apply Z.shiftl_mul_pow2. lia. Qed.

(** ** UTF-8: decoding an encoded rune *)

(** Comparisons that evaluation or linear arithmetic settles are replaced by
    their value. *)
Ltac zlit a :=
  lazymatch a with Zpos _ => idtac | Z0 => idtac | Zneg _ => idtac end.

Ltac zdec :=
  repeat match goal with
  | |- context [(?a <? ?b)%Z] =>
      first [ zlit a; zlit b;
              let v := eval vm_compute in (a <? b)%Z in change (a <? b)%Z with v
            | rewrite (proj2 (Z.ltb_lt a b)) by lia
            | rewrite (proj2 (Z.ltb_ge a b)) by lia ]
  | |- context [(?a <=? ?b)%Z] =>
      first [ zlit a; zlit b;
              let v := eval vm_compute in (a <=? b)%Z in change (a <=? b)%Z with v
            | rewrite (proj2 (Z.leb_le a b)) by lia
            | rewrite (proj2 (Z.leb_gt a b)) by lia ]
  | |- context [(?a =? ?b)%Z] =>
      first [ zlit a; zlit b;
              let v := eval vm_compute in (a =? b)%Z in change (a =? b)%Z with v
            | rewrite (proj2 (Z.eqb_eq a b)) by lia
            | rewrite (proj2 (Z.eqb_neq a b)) by lia ]
  end; cbn [orb andb negb].

Ltac utf8_consts :=
  unfold RuneError, RuneSelf, MaxRune, UTFMax, surrogateMin, surrogateMax,
    tx, t2, t3, t4, maskx, mask2, mask3, mask4, rune1Max, rune2Max, rune3Max,
    locb, hicb, xx, as_, s1, s2, s3, s4, s5, s6, s7 in *.

Ltac divmod := Z.div_mod_to_equations; lia.

Ltac bytes_eq :=
  repeat match goal with
  | |- String _ _ = String _ _ => f_equal
  | |- Zbyte _ = Zbyte _ => f_equal
  end; try divmod.

Lemma EncodeRune_1 (r : rune) :
  (0 <= r <= 0x7F)%Z -> EncodeRune r = String (Zbyte r) EmptyString.
Proof.
  intros Hr. unfold EncodeRune, uint32. utf8_consts.
  rewrite Z.mod_small by lia. by zdec.
Qed.

Lemma EncodeRune_2 (r : rune) :
  (0x80 <= r <= 0x7FF)%Z ->
  EncodeRune r =
    String (Zbyte (0xC0 + r / 64)) (String (Zbyte (0x80 + r mod 64)) EmptyString).
Proof.
  intros Hr. unfold EncodeRune, uint32. utf8_consts.
  rewrite Z.mod_small by lia. zdec.
  rewrite shiftr_6, land_maskx.
  rewrite (Z.mod_small (r / 64)) by divmod.
  rewrite lor_t2 by divmod. rewrite lor_tx by divmod.
  bytes_eq.
Qed.

Lemma EncodeRune_3 (r : rune) :
  (0x800 <= r <= 0xFFFF)%Z -> ~ (0xD800 <= r <= 0xDFFF)%Z ->
  EncodeRune r =
    String (Zbyte (0xE0 + r / 4096))
      (String (Zbyte (0x80 + r / 64 mod 64))
         (String (Zbyte (0x80 + r mod 64)) EmptyString)).
Proof.
  intros Hr Hs. unfold EncodeRune, uint32. utf8_consts.
  rewrite Z.mod_small by lia. zdec.
  assert (((0xD800 <=? r) && (r <=? 0xDFFF))%Z = false) as ->
    by (apply andb_false_iff; lia).
  cbn [orb andb]. zdec.
  rewrite shiftr_12, shiftr_6, !land_maskx.
  rewrite (Z.mod_small (r / 4096)) by divmod.
  rewrite lor_t3 by divmod. rewrite !lor_tx by divmod.
  bytes_eq.
Qed.

Lemma EncodeRune_4 (r : rune) :
  (0x10000 <= r <= 0x10FFFF)%Z ->
  EncodeRune r =
    String (Zbyte (0xF0 + r / 262144))
      (String (Zbyte (0x80 + r / 4096 mod 64))
         (String (Zbyte (0x80 + r / 64 mod 64))
            (String (Zbyte (0x80 + r mod 64)) EmptyString))).
Proof.
  intros Hr. unfold EncodeRune, uint32. utf8_consts.
  rewrite Z.mod_small by lia. zdec.
  rewrite shiftr_18, shiftr_12, shiftr_6, !land_maskx.
  rewrite (Z.mod_small (r / 262144)) by divmod.
  rewrite lor_t4 by divmod. rewrite !lor_tx by divmod.
  bytes_eq.
Qed.

Lemma ValidRune_range (r : rune) :
  ValidRune r = true <->
  ((0 <= r < 0xD800)%Z \/ (0xDFFF < r <= 0x10FFFF)%Z).
Proof. unfold ValidRune. utf8_consts. lia. Qed.

Lemma EncodeRune_invalid (r : rune) :
  is_int32 r -> ValidRune r = false -> EncodeRune r = EncodeRune RuneError.
Proof.
  unfold is_int32. intros Hi Hr.
  assert (~ ((0 <= r < 0xD800)%Z \/ (0xDFFF < r <= 0x10FFFF)%Z)) as Hn
    by (rewrite <- ValidRune_range, Hr; discriminate).
  rewrite (EncodeRune_3 RuneError) by (unfold RuneError; lia).
  unfold EncodeRune, uint32. utf8_consts.
  assert (r < 0 /\ r mod 2 ^ 32 = r + 2 ^ 32 \/ 0 <= r /\ r mod 2 ^ 32 = r)%Z
    as [[Hneg ->]|[Hpos ->]].
  { destruct (Z.lt_ge_cases r 0).
    - left. split; [lia|]. rewrite <- (Z.mod_add r 1) by lia.
      apply Z.mod_small. lia.
    - right. split; [lia|]. apply Z.mod_small. lia. }
  - zdec. rewrite shiftr_12, shiftr_6, !land_maskx.
    change (65533 / 4096 mod 256)%Z with 15%Z.
    change (65533 / 64 mod 256 mod 64)%Z with 63%Z.
    change (65533 mod 256 mod 64)%Z with 61%Z. reflexivity.
  - destruct (Z.le_gt_cases r 0x10FFFF); zdec;
      rewrite shiftr_12, shiftr_6, !land_maskx; reflexivity.
Qed.

Lemma sanitize_valid (r : rune) : ValidRune (sanitize r) = true.
Proof. unfold sanitize. destruct (ValidRune r) eqn:E; [exact E|reflexivity]. Qed.

Lemma sanitize_id (r : rune) : ValidRune r = true -> sanitize r = r.
Proof. unfold sanitize. by intros ->. Qed.

Lemma EncodeRune_sanitize (r : rune) :
  is_int32 r -> EncodeRune (sanitize r) = EncodeRune r.
Proof.
  intros Hi. unfold sanitize. destruct (ValidRune r) eqn:E; [reflexivity|].
  symmetry. by apply EncodeRune_invalid.
Qed.

Lemma DecodeRune_1 (c : ascii) (rest : string) :
  (byteZ c < 0x80)%Z -> DecodeRuneInString (String c rest) = (byteZ c, 1%nat).
Proof.
  intros Hc. pose proof (byteZ_range c). unfold DecodeRuneInString, first.
  utf8_consts. by zdec.
Qed.

Lemma DecodeRune_2 (c0 c1 : ascii) (rest : string) :
  (0xC2 <= byteZ c0 <= 0xDF)%Z -> (0x80 <= byteZ c1 <= 0xBF)%Z ->
  DecodeRuneInString (String c0 (String c1 rest)) =
    ((byteZ c0 - 0xC0) * 64 + (byteZ c1 - 0x80), 2%nat)%Z.
Proof.
  intros H0 H1. unfold DecodeRuneInString, first, acceptRanges.
  cbn [String.length]. utf8_consts. zdec.
  change (Z.land 2 7) with 2%Z. change (Z.shiftr 2 4) with 0%Z. zdec.
  cbn [fst snd]. zdec.
  rewrite land_mask2, land_maskx, shiftl_6.
  rewrite lor_disjoint by divmod. f_equal. divmod.
Qed.

Lemma lor_3 (x y z : Z) :
  (0 <= y < 64)%Z -> (0 <= z < 64)%Z ->
  Z.lor (Z.lor (x * 2 ^ 12) (y * 2 ^ 6)) z = (x * 4096 + y * 64 + z)%Z.
Proof.
  intros Hy Hz. rewrite (lor_disjoint x _ 12) by lia.
  replace (x * 2 ^ 12 + y * 2 ^ 6)%Z with ((x * 64 + y) * 2 ^ 6)%Z by lia.
  rewrite lor_disjoint by lia. lia.
Qed.

Lemma lor_4 (w x y z : Z) :
  (0 <= x < 64)%Z -> (0 <= y < 64)%Z -> (0 <= z < 64)%Z ->
  Z.lor (Z.lor (Z.lor (w * 2 ^ 18) (x * 2 ^ 12)) (y * 2 ^ 6)) z
  = (w * 262144 + x * 4096 + y * 64 + z)%Z.
Proof.
  intros Hx Hy Hz. rewrite (lor_disjoint w _ 18) by lia.
  replace (w * 2 ^ 18 + x * 2 ^ 12)%Z with ((w * 64 + x) * 2 ^ 12)%Z by lia.
  rewrite lor_3 by lia. lia.
Qed.

(** The constants [x & 7] and [x >> 4] of an information byte. *)
Ltac info_bits :=
  repeat match goal with
  | |- context [Z.land (Zpos ?a) 7] =>
      let v := eval compute in (Z.land (Zpos a) 7) in
      change (Z.land (Zpos a) 7) with v
  | |- context [Z.shiftr (Zpos ?a) 4] =>
      let v := eval compute in (Z.shiftr (Zpos a) 4) in
      change (Z.shiftr (Zpos a) 4) with v
  end.

Lemma DecodeRune_3 (c0 c1 c2 : ascii) (rest : string) :
  lead3 (byteZ c0) (byteZ c1) -> (0x80 <= byteZ c2 <= 0xBF)%Z ->
  DecodeRuneInString (String c0 (String c1 (String c2 rest))) =
    ((byteZ c0 - 0xE0) * 4096 + (byteZ c1 - 0x80) * 64 + (byteZ c2 - 0x80),
     3%nat)%Z.
Proof.
  intros H01 H2. unfold DecodeRuneInString, first, acceptRanges.
  cbn [String.length]. utf8_consts.
  destruct H01 as [[E0 H1]|[[[H0|H0] H1]|[E0 H1]]]; zdec.
  all: info_bits; zdec; cbn [fst snd]; zdec.
  all: rewrite land_mask3, !land_maskx, shiftl_6, shiftl_12.
  all: rewrite lor_3 by divmod.
  all: f_equal; divmod.
Qed.

Lemma DecodeRune_4 (c0 c1 c2 c3 : ascii) (rest : string) :
  lead4 (byteZ c0) (byteZ c1) ->
  (0x80 <= byteZ c2 <= 0xBF)%Z -> (0x80 <= byteZ c3 <= 0xBF)%Z ->
  DecodeRuneInString (String c0 (String c1 (String c2 (String c3 rest)))) =
    ((byteZ c0 - 0xF0) * 262144 + (byteZ c1 - 0x80) * 4096
     + (byteZ c2 - 0x80) * 64 + (byteZ c3 - 0x80), 4%nat)%Z.
Proof.
  intros H01 H2 H3. unfold DecodeRuneInString, first, acceptRanges.
  cbn [String.length]. utf8_consts.
  destruct H01 as [[E0 H1]|[[H0 H1]|[E0 H1]]]; zdec.
  all: info_bits; zdec; cbn [fst snd]; zdec.
  all: rewrite land_mask4, !land_maskx, shiftl_6, shiftl_12, shiftl_18.
  all: rewrite lor_4 by divmod.
  all: f_equal; divmod.
Qed.

(** Decoding the encoding of a valid rune gives the rune back. *)
Lemma DecodeRune_EncodeRune (r : rune) (rest : string) :
  ValidRune r = true ->
  DecodeRuneInString (EncodeRune r +:+ rest) = (r, String.length (EncodeRune r)).
Proof.
  rewrite ValidRune_range. intros Hr.
  destruct (Z.le_gt_cases r 0x7F) as [H1|H1].
  { rewrite EncodeRune_1 by lia. rewrite append_cons, append_nil_l.
    rewrite DecodeRune_1; rewrite byteZ_Zbyte by lia; [reflexivity|lia]. }
  destruct (Z.le_gt_cases r 0x7FF) as [H2|H2].
  { rewrite EncodeRune_2 by lia. rewrite !append_cons, append_nil_l.
    rewrite DecodeRune_2; rewrite ?byteZ_Zbyte by divmod; try divmod.
    cbn [String.length]. f_equal. divmod. }
  destruct (Z.le_gt_cases r 0xFFFF) as [H3|H3].
  { rewrite EncodeRune_3 by lia. rewrite !append_cons, append_nil_l.
    rewrite DecodeRune_3; unfold lead3; rewrite ?byteZ_Zbyte by divmod;
      try divmod.
    cbn [String.length]. f_equal. divmod. }
  rewrite EncodeRune_4 by lia. rewrite !append_cons, append_nil_l.
  rewrite DecodeRune_4; unfold lead4; rewrite ?byteZ_Zbyte by divmod;
    try divmod.
  cbn [String.length]. f_equal. divmod.
Qed.

(** ** UTF-8: the results of [DecodeRuneInString] *)

Lemma decoded_2 (c0 c1 : ascii) (rest : string) :
  (0xC2 <= byteZ c0 <= 0xDF)%Z -> (0x80 <= byteZ c1 <= 0xBF)%Z ->
  decoded (String c0 (String c1 rest))
    ((byteZ c0 - 0xC0) * 64 + (byteZ c1 - 0x80))%Z 2.
Proof.
  intros H0 H1. set (r := ((byteZ c0 - 0xC0) * 64 + (byteZ c1 - 0x80))%Z).
  assert (0x80 <= r <= 0x7FF)%Z as Hr by (unfold r; lia).
  assert (EncodeRune r = String c0 (String c1 EmptyString)) as He.
  { rewrite EncodeRune_2 by lia.
    rewrite <- (Zbyte_byteZ c0), <- (Zbyte_byteZ c1) at 1.
    unfold r. bytes_eq. }
  replace 2%nat with (String.length (EncodeRune r)) by (by rewrite He).
  apply (decoded_rune _ r rest); [rewrite ValidRune_range; lia|by rewrite He].
Qed.

Lemma decoded_3 (c0 c1 c2 : ascii) (rest : string) :
  lead3 (byteZ c0) (byteZ c1) -> (0x80 <= byteZ c2 <= 0xBF)%Z ->
  decoded (String c0 (String c1 (String c2 rest)))
    ((byteZ c0 - 0xE0) * 4096 + (byteZ c1 - 0x80) * 64 + (byteZ c2 - 0x80))%Z 3.
Proof.
  intros H01 H2.
  set (r := ((byteZ c0 - 0xE0) * 4096 + (byteZ c1 - 0x80) * 64
             + (byteZ c2 - 0x80))%Z).
  assert ((0x800 <= r <= 0xFFFF)%Z /\ ~ (0xD800 <= r <= 0xDFFF)%Z) as [Hr Hs]
    by (unfold r, lead3 in *; lia).
  assert (EncodeRune r = String c0 (String c1 (String c2 EmptyString))) as He.
  { rewrite EncodeRune_3 by lia.
    rewrite <- (Zbyte_byteZ c0), <- (Zbyte_byteZ c1), <- (Zbyte_byteZ c2) at 1.
    unfold r, lead3 in *. bytes_eq. }
  replace 3%nat with (String.length (EncodeRune r)) by (by rewrite He).
  apply (decoded_rune _ r rest); [rewrite ValidRune_range; lia|by rewrite He].
Qed.

Lemma decoded_4 (c0 c1 c2 c3 : ascii) (rest : string) :
  lead4 (byteZ c0) (byteZ c1) ->
  (0x80 <= byteZ c2 <= 0xBF)%Z -> (0x80 <= byteZ c3 <= 0xBF)%Z ->
  decoded (String c0 (String c1 (String c2 (String c3 rest))))
    ((byteZ c0 - 0xF0) * 262144 + (byteZ c1 - 0x80) * 4096
     + (byteZ c2 - 0x80) * 64 + (byteZ c3 - 0x80))%Z 4.
Proof.
  intros H01 H2 H3.
  set (r := ((byteZ c0 - 0xF0) * 262144 + (byteZ c1 - 0x80) * 4096
             + (byteZ c2 - 0x80) * 64 + (byteZ c3 - 0x80))%Z).
  assert (0x10000 <= r <= 0x10FFFF)%Z as Hr by (unfold r, lead4 in *; lia).
  assert (EncodeRune r
          = String c0 (String c1 (String c2 (String c3 EmptyString)))) as He.
  { rewrite EncodeRune_4 by lia.
    rewrite <- (Zbyte_byteZ c0), <- (Zbyte_byteZ c1), <- (Zbyte_byteZ c2),
      <- (Zbyte_byteZ c3) at 1.
    unfold r, lead4 in *. bytes_eq. }
  replace 4%nat with (String.length (EncodeRune r)) by (by rewrite He).
  apply (decoded_rune _ r rest); [rewrite ValidRune_range; lia|by rewrite He].
Qed.

Ltac decode_err c rest :=
  first
  [ exfalso; lia
  | replace (DecodeRuneInString (String c rest)) with (RuneError, 1%nat);
    [ cbn [fst snd]; apply (decoded_error _ c rest); [reflexivity|lia]
    | unfold DecodeRuneInString, first, acceptRanges; cbn [String.length];
      utf8_consts; zdec; info_bits; zdec; cbn [fst snd]; zdec;
      repeat match goal with
             | |- context [if ?c then _ else _] => destruct c
             end; reflexivity ] ].

Ltac split_range b lo hi :=
  let H := fresh "Hin" in
  assert ((lo <= b <= hi)%Z \/ (b < lo \/ hi < b)%Z) as [H|H] by lia.

Lemma DecodeRune_decoded (s : string) :
  decoded s (DecodeRuneInString s).1 (DecodeRuneInString s).2.
Proof.
  destruct s as [|c0 t]; [by apply decoded_empty|].
  pose proof (byteZ_range c0) as R0.
  assert ((byteZ c0 < 0x80 \/ 0x80 <= byteZ c0 < 0xC2 \/ 0xF5 <= byteZ c0)
          \/ 0xC2 <= byteZ c0 <= 0xDF
          \/ (byteZ c0 = 0xE0 \/ 0xE1 <= byteZ c0 <= 0xEC \/ byteZ c0 = 0xED
              \/ 0xEE <= byteZ c0 <= 0xEF)
          \/ (byteZ c0 = 0xF0 \/ 0xF1 <= byteZ c0 <= 0xF3 \/ byteZ c0 = 0xF4))%Z
    as [H|[H|[H|H]]] by lia.
  - destruct H as [H|H].
    + rewrite DecodeRune_1 by lia. cbn [fst snd].
      replace 1%nat with (String.length (EncodeRune (byteZ c0)))
        by (by rewrite EncodeRune_1 by lia).
      apply (decoded_rune _ _ t); [rewrite ValidRune_range; lia|].
      rewrite EncodeRune_1 by lia. by rewrite Zbyte_byteZ.
    + destruct H; decode_err c0 t.
  - destruct t as [|c1 t]; [decode_err c0 EmptyString|].
    pose proof (byteZ_range c1) as R1.
    split_range (byteZ c1) 0x80%Z 0xBF%Z; [|destruct Hin; decode_err c0 (String c1 t)].
    rewrite DecodeRune_2 by lia. by apply decoded_2.
  - destruct t as [|c1 t];
      [destruct H as [H|[H|[H|H]]]; decode_err c0 EmptyString|].
    pose proof (byteZ_range c1) as R1.
    assert (lead3 (byteZ c0) (byteZ c1) \/ ~ lead3 (byteZ c0) (byteZ c1))
      as [L|L] by (unfold lead3; lia).
    2: { unfold lead3 in L.
         destruct H as [H|[H|[H|H]]];
           (assert (byteZ c1 < 0x80 \/ 0xBF < byteZ c1
                    \/ (byteZ c0 = 0xE0 /\ byteZ c1 < 0xA0)
                    \/ (byteZ c0 = 0xED /\ 0x9F < byteZ c1))%Z
              as [?|[?|[[? ?]|[? ?]]]] by lia);
           decode_err c0 (String c1 t). }
    destruct t as [|c2 t].
    { unfold lead3 in L.
      destruct H as [H|[H|[H|H]]]; decode_err c0 (String c1 EmptyString). }
    pose proof (byteZ_range c2) as R2.
    split_range (byteZ c2) 0x80%Z 0xBF%Z.
    2: { unfold lead3 in L.
         destruct H as [H|[H|[H|H]]]; destruct Hin;
           decode_err c0 (String c1 (String c2 t)). }
    rewrite DecodeRune_3 by (assumption || lia). by apply decoded_3.
  - destruct t as [|c1 t];
      [destruct H as [H|[H|H]]; decode_err c0 EmptyString|].
    pose proof (byteZ_range c1) as R1.
    assert (lead4 (byteZ c0) (byteZ c1) \/ ~ lead4 (byteZ c0) (byteZ c1))
      as [L|L] by (unfold lead4; lia).
    2: { unfold lead4 in L.
         destruct H as [H|[H|H]];
           (assert (byteZ c1 < 0x80 \/ 0xBF < byteZ c1
                    \/ (byteZ c0 = 0xF0 /\ byteZ c1 < 0x90)
                    \/ (byteZ c0 = 0xF4 /\ 0x8F < byteZ c1))%Z
              as [?|[?|[[? ?]|[? ?]]]] by lia);
           decode_err c0 (String c1 t). }
    destruct t as [|c2 t].
    { unfold lead4 in L.
      destruct H as [H|[H|H]]; decode_err c0 (String c1 EmptyString). }
    pose proof (byteZ_range c2) as R2.
    split_range (byteZ c2) 0x80%Z 0xBF%Z.
    2: { unfold lead4 in L.
         destruct H as [H|[H|H]]; destruct Hin;
           decode_err c0 (String c1 (String c2 t)). }
    destruct t as [|c3 t].
    { unfold lead4 in L.
      destruct H as [H|[H|H]];
        decode_err c0 (String c1 (String c2 EmptyString)). }
    pose proof (byteZ_range c3) as R3.
    split_range (byteZ c3) 0x80%Z 0xBF%Z.
    2: { unfold lead4 in L.
         destruct H as [H|[H|H]]; destruct Hin0;
           decode_err c0 (String c1 (String c2 (String c3 t))). }
    rewrite DecodeRune_4 by (assumption || lia). by apply decoded_4.
Qed.

(** ** UTF-8: strings and their runes *)

Lemma EncodeRune_length (r : rune) :
  (1 <= String.length (EncodeRune r) <= 4)%nat.
Proof.
  unfold EncodeRune.
  repeat match goal with
         | |- context [if ?c then _ else _] => destruct c
         end; cbn [String.length]; lia.
Qed.

Lemma EncodeRune_cons (r : rune) :
  exists c x, EncodeRune r = String c x.
Proof.
  pose proof (EncodeRune_length r) as H.
  destruct (EncodeRune r) as [|c x]; [cbn in H; lia|eauto].
Qed.

Lemma decoded_width (s : string) (r : rune) (w : nat) :
  decoded s r w -> s <> EmptyString -> (1 <= w <= String.length s)%nat.
Proof.
  intros [->|c rest -> _|r' rest Hv ->] Hs; [done|cbn; lia|].
  rewrite length_append. pose proof (EncodeRune_length r'). lia.
Qed.

Lemma decoded_valid (s : string) (r : rune) (w : nat) :
  decoded s r w -> ValidRune r = true.
Proof. by intros [->|c rest -> _|r' rest Hv ->]. Qed.

(** The rune of every decoding step is a valid rune. *)
Lemma DecodeRune_valid (s : string) :
  ValidRune (DecodeRuneInString s).1 = true.
Proof. exact (decoded_valid _ _ _ (DecodeRune_decoded s)). Qed.

Lemma DecodeRune_width (c : ascii) (s : string) :
  (1 <= (DecodeRuneInString (String c s)).2 <= S (String.length s))%nat.
Proof. exact (decoded_width _ _ _ (DecodeRune_decoded (String c s)) ltac:(done)). Qed.

(** Passing over the bytes of a rune. *)
Lemma range_from_skip (x rest : string) (i : nat) :
  range_from i (String.length x) (x +:+ rest)
  = range_from (i + String.length x) 0 rest.
Proof.
  revert i. induction x as [|c x IH]; intros i.
  - rewrite append_nil_l. cbn [String.length]. by rewrite Nat.add_0_r.
  - rewrite append_cons. cbn [String.length range_from]. rewrite IH.
    f_equal. lia.
Qed.

Lemma range_from_encode (r : rune) (rest : string) (i : nat) :
  ValidRune r = true ->
  range_from i 0 (EncodeRune r +:+ rest)
  = (i, r) :: range_from (i + String.length (EncodeRune r)) 0 rest.
Proof.
  intros Hr. pose proof (DecodeRune_EncodeRune r rest Hr) as Hd.
  destruct (EncodeRune_cons r) as (c & x & He). rewrite He in *.
  rewrite append_cons in *. cbn [range_from]. rewrite Hd.
  cbn [String.length Nat.pred]. rewrite range_from_skip. do 2 f_equal. lia.
Qed.

(** The runes do not depend on the index the loop starts from. *)
Lemma range_from_runes (s : string) (i j skip : nat) :
  (range_from i skip s).*2 = (range_from j skip s).*2.
Proof.
  revert i j skip. induction s as [|c s IH]; intros i j skip; [done|].
  cbn [range_from]. destruct skip as [|k]; [|apply IH].
  destruct (DecodeRuneInString (String c s)) as [r w].
  cbn [fmap list_fmap snd]. f_equal. apply IH.
Qed.

Lemma runes_of_string_nil : runes_of_string EmptyString = [].
Proof. reflexivity. Qed.

Lemma runes_of_string_encode (r : rune) (rest : string) :
  ValidRune r = true ->
  runes_of_string (EncodeRune r +:+ rest) = r :: runes_of_string rest.
Proof.
  intros Hr. unfold runes_of_string, range_string.
  rewrite range_from_encode by done. cbn [fmap list_fmap snd]. f_equal.
  apply range_from_runes.
Qed.

Lemma string_of_runes_app (rs1 rs2 : list rune) :
  string_of_runes (rs1 ++ rs2) = string_of_runes rs1 +:+ string_of_runes rs2.
Proof.
  induction rs1 as [|r rs1 IH]; [done|].
  cbn [app string_of_runes]. by rewrite IH, append_assoc.
Qed.

(** [[]rune(string(rs))] is [rs] when every rune is valid. *)
Lemma runes_of_string_of_runes (rs : list rune) :
  Forall (fun r => ValidRune r = true) rs ->
  runes_of_string (string_of_runes rs) = rs.
Proof.
  induction 1 as [|r rs Hr _ IH]; [done|].
  cbn [string_of_runes]. rewrite runes_of_string_encode by done. by rewrite IH.
Qed.

Lemma runes_of_string_valid (s : string) :
  Forall (fun r => ValidRune r = true) (runes_of_string s).
Proof.
  unfold runes_of_string, range_string. generalize 0%nat at 1. generalize 0%nat.
  induction s as [|c s IH]; intros skip i; [constructor|].
  cbn [range_from]. destruct skip as [|k]; [|apply IH].
  pose proof (DecodeRune_valid (String c s)) as Hv.
  destruct (DecodeRuneInString (String c s)) as [r w].
  cbn [fmap list_fmap snd]. constructor; [exact Hv|apply IH].
Qed.

Lemma valid_from_skip (x rest : string) :
  valid_from (String.length x) (x +:+ rest) = valid_from 0 rest.
Proof.
  induction x as [|c x IH]; [by rewrite append_nil_l|].
  rewrite append_cons. exact IH.
Qed.

Lemma ValidString_encode (r : rune) (rest : string) :
  ValidRune r = true ->
  ValidString (EncodeRune r +:+ rest) = ValidString rest.
Proof.
  intros Hr. unfold ValidString.
  pose proof (DecodeRune_EncodeRune r rest Hr) as Hd.
  pose proof (EncodeRune_length r) as Hl.
  destruct (EncodeRune_cons r) as (c & x & He). rewrite He in *.
  rewrite append_cons in *. cbn [valid_from]. rewrite Hd.
  cbn [String.length Nat.pred] in *.
  rewrite valid_from_skip.
  destruct ((r =? RuneError)%Z && (S (String.length x) =? 1)%nat) eqn:E; [|done].
  apply andb_true_iff in E as [E1 E2].
  apply Z.eqb_eq in E1. apply Nat.eqb_eq in E2.
  destruct x; [|discriminate]. subst r. rewrite (EncodeRune_3 RuneError) in He.
  - discriminate.
  - unfold RuneError. lia.
  - unfold RuneError. lia.
Qed.

(** A string of valid UTF-8 is the encoding of its runes: [string([]rune(s))]
    is [s]. *)
Lemma string_of_runes_of_string (s : string) :
  ValidString s = true -> string_of_runes (runes_of_string s) = s.
Proof.
  remember (String.length s) as n eqn:Hn. revert s Hn.
  induction n as [n IH] using lt_wf_ind. intros s Hn Hv.
  pose proof (DecodeRune_decoded s) as Hd.
  destruct (DecodeRuneInString s) as [r w] eqn:E. cbn [fst snd] in Hd.
  destruct Hd as [->|c rest Hs Hc|r rest Hr Hs].
  - reflexivity.
  - exfalso. unfold ValidString in Hv. subst s. cbn [valid_from] in Hv.
    by rewrite E in Hv.
  - subst s. rewrite runes_of_string_encode by done. cbn [string_of_runes].
    f_equal. rewrite ValidString_encode in Hv by done.
    apply (IH (String.length rest)); [|done..].
    subst n. rewrite length_append. pose proof (EncodeRune_length r). lia.
Qed.

Lemma ValidString_of_runes (rs : list rune) :
  Forall (fun r => ValidRune r = true) rs ->
  ValidString (string_of_runes rs) = true.
Proof.
  induction 1 as [|r rs Hr _ IH]; [done|].
  cbn [string_of_runes]. by rewrite ValidString_encode.
Qed.

(** ** ReverseText *)

Lemma swap_ends {A} (pre m post : list A) (x y : A) :
  swap (pre ++ x :: m ++ y :: post) (length pre) (length pre + S (length m))
  = pre ++ y :: m ++ x :: post.
Proof.
  unfold swap.
  rewrite list_lookup_middle by done.
  replace (pre ++ x :: m ++ y :: post) with ((pre ++ x :: m) ++ y :: post)
    by (by rewrite <- app_assoc).
  rewrite list_lookup_middle by (rewrite length_app; cbn; lia).
  rewrite (insert_app_r_alt (pre ++ x :: m)) by (rewrite length_app; cbn; lia).
  replace (length pre + S (length m) - length (pre ++ x :: m))%nat with 0%nat
    by (rewrite length_app; cbn; lia).
  cbn [insert list_insert]. rewrite <- app_assoc.
  rewrite (insert_app_r_alt pre) by lia.
  rewrite Nat.sub_diag. reflexivity.
Qed.

Lemma list_ends {A} (m : list A) :
  (2 <= length m)%nat -> exists x m' y, m = x :: m' ++ [y].
Proof.
  intros Hm. destruct m as [|x m]; [cbn in Hm; lia|].
  destruct m as [|z m _] using rev_ind; [cbn in Hm; lia|eauto].
Qed.

(** The loop of [ReverseText] reverses the part of the slice between its two
    indices, given enough turns. *)
Lemma ReverseText_loop_rev (fuel : nat) (pre m post : list rune) :
  (length m <= 2 * fuel + 1)%nat ->
  ReverseText_loop fuel (pre ++ m ++ post) (Z.of_nat (length pre))
    (Z.of_nat (length pre) + Z.of_nat (length m) - 1)
  = pre ++ rev m ++ post.
Proof.
  revert pre m post. induction fuel as [|fuel IH]; intros pre m post Hm.
  - destruct m as [|x [|y m]]; [done..|cbn in Hm; lia].
  - cbn [ReverseText_loop].
    destruct (Z.ltb_spec (Z.of_nat (length pre))
                (Z.of_nat (length pre) + Z.of_nat (length m) - 1)) as [Hlt|Hge].
    + destruct (list_ends m ltac:(lia)) as (x & m' & y & ->).
      rewrite length_cons, length_app in *. cbn [length] in *.
      rewrite Nat2Z.id.
      replace (Z.to_nat (Z.of_nat (length pre)
                         + Z.of_nat (S (length m' + 1)) - 1))
        with (length pre + S (length m'))%nat by lia.
      replace (pre ++ (x :: m' ++ [y]) ++ post)
        with (pre ++ x :: m' ++ y :: post)
        by (cbn; by rewrite <- !app_assoc).
      rewrite swap_ends.
      replace (pre ++ y :: m' ++ x :: post)
        with ((pre ++ [y]) ++ m' ++ (x :: post))
        by (by rewrite <- !app_assoc).
      replace (Z.of_nat (length pre) + 1)%Z
        with (Z.of_nat (length (pre ++ [y])))
        by (rewrite length_app; cbn; lia).
      replace (Z.of_nat (length pre) + Z.of_nat (S (length m' + 1)) - 1 - 1)%Z
        with (Z.of_nat (length (pre ++ [y])) + Z.of_nat (length m') - 1)%Z
        by (rewrite length_app; cbn; lia).
      rewrite IH by lia.
      cbn [rev]. rewrite rev_app_distr. cbn [rev app].
      rewrite <- !app_assoc. reflexivity.
    + destruct m as [|x [|y m]]; [done..|cbn [length] in Hge; lia].
Qed.

(** [ReverseText] returns the string of the runes of [text], reversed. *)
Lemma ReverseText_runes (text : string) :
  ReverseText text = string_of_runes (rev (runes_of_string text)).
Proof.
  unfold ReverseText. f_equal.
  pose proof (ReverseText_loop_rev (length (runes_of_string text)) []
                (runes_of_string text) []) as H.
  rewrite !app_nil_r in H. cbn [app length] in H.
  rewrite Z.add_0_l in H. apply H. lia.
Qed.

(** C8, as amended: on a string of valid UTF-8, [ReverseText] reverses the
    sequence of code points, and applying it twice gives the string back. *)
Theorem ReverseText_involutive_valid (s : string) :
  ValidString s = true ->
  runes_of_string (ReverseText s) = rev (runes_of_string s)
  /\ ReverseText (ReverseText s) = s.
Proof.
  intros Hs. rewrite !ReverseText_runes.
  assert (runes_of_string (string_of_runes (rev (runes_of_string s)))
          = rev (runes_of_string s)) as E.
  { apply runes_of_string_of_runes. apply Forall_rev, runes_of_string_valid. }
  split; [exact E|].
  rewrite E, rev_involutive. by apply string_of_runes_of_string.
Qed.

(** The string ["é€A"]: é is two bytes, € is three. *)
Lemma ReverseText_involutive_valid_witness :
  runes_of_string (ReverseText "é€A") = rev (runes_of_string "é€A")
  /\ ReverseText (ReverseText "é€A") = "é€A".
Proof. apply ReverseText_involutive_valid. vm_compute. reflexivity. Defined.

(** C8 fails as stated: the byte [0xFF] is not valid UTF-8; [ReverseText]
    turns it into the three bytes of U+FFFD, and so does applying it twice. *)
Lemma ReverseText_not_involutive :
  ReverseText (ReverseText (String "255"%char EmptyString))
  = String "239"%char (String "191"%char (String "189"%char EmptyString))
  /\ ReverseText (ReverseText (String "255"%char EmptyString))
     <> String "255"%char EmptyString.
Proof. split; [vm_compute; reflexivity|vm_compute; discriminate]. Qed.

(** ** ConvertCase: the styles that are not known, and the inputs without
    word characters *)

Section ConvertCase.
Context (T : unicode.Tables).

(** C6: for a style outside the five, [ConvertCase] returns its input (it is
    a total function: no error is raised). *)
Theorem ConvertCase_unknown_style (text caseType : string) :
  caseType ∉ styles -> ConvertCase T text caseType = text.
Proof.
  intros Hn. unfold ConvertCase.
  repeat match goal with
         | |- context [String.eqb caseType ?k] =>
             destruct (String.eqb_spec caseType k) as [->|_];
             [exfalso; apply Hn; unfold styles; set_solver|]
         end.
  reflexivity.
Qed.





(** C1: the round trip of ["myVarName123"] through the tokenizer, the
    snake_case rendering and the camelCase rendering. *)
Theorem round_trip_myVarName123 :
  splitWords T "myVarName123" = ["my"; "Var"; "Name123"]
  /\ ConvertCase T "myVarName123" "snake_case" = "my_var_name123"
  /\ ConvertCase T "my_var_name123" "camelCase" = "myVarName123".
Proof.
  split; [|split].
  - vm_compute. reflexivity.
  - unfold ConvertCase. cbn [String.eqb Ascii.eqb Bool.eqb].
    vm_compute. reflexivity.
  - vm_compute. reflexivity.
Qed.

End ConvertCase.

(** The scenario of the specification: an unknown style leaves ["abc"]
    as it is. *)
Lemma ConvertCase_unknown_style_witness :
  ConvertCase latin1_tables "abc" "unknown-style" = "abc".
Proof.
  apply (ConvertCase_unknown_style latin1_tables).
  apply (bool_decide_unpack _). vm_compute. exact I.
Defined.


(** ** RemoveDuplicateLines *)

Lemma filter_all {A} (P : A -> Prop) `{!forall x, Decision (P x)} (l : list A) :
  (forall x, P x) -> filter P l = l.
Proof.
  intros HP. induction l as [|a l IH]; [done|].
  rewrite filter_cons_True by apply HP. by rewrite IH.
Qed.

Lemma first_occurrences_elem_of (l : list string) (x : string) :
  x ∈ first_occurrences l <-> x ∈ l.
Proof.
  induction l as [|a l IH]; [done|].
  cbn [first_occurrences]. rewrite !elem_of_cons, list_elem_of_filter, IH.
  destruct (decide (x = a)); tauto.
Qed.

Lemma first_occurrences_NoDup (l : list string) : NoDup (first_occurrences l).
Proof.
  induction l as [|a l IH]; [constructor|].
  cbn [first_occurrences]. constructor.
  - rewrite list_elem_of_filter. tauto.
  - by apply NoDup_filter.
Qed.

Lemma first_occurrences_sublist (l : list string) :
  first_occurrences l `sublist_of` l.
Proof.
  induction l as [|a l IH]; [done|].
  cbn [first_occurrences]. apply sublist_skip.
  etrans; [apply sublist_filter|exact IH].
Qed.

(** The lines kept from [l1 ++ l2] are those kept from [l1], followed by
    those kept from [l2] that do not occur in [l1]. *)
Lemma first_occurrences_app (l1 l2 : list string) :
  first_occurrences (l1 ++ l2)
  = first_occurrences l1 ++ filter (fun y => y ∉ l1) (first_occurrences l2).
Proof.
  induction l1 as [|a l1 IH].
  - cbn [app first_occurrences].
    symmetry. apply filter_all. intros y. apply not_elem_of_nil.
  - cbn [app first_occurrences]. f_equal. rewrite IH, filter_app. f_equal.
    rewrite list_filter_filter. apply list_filter_iff. intros y.
    rewrite not_elem_of_cons. tauto.
Qed.

Lemma first_occurrences_snoc (l : list string) (x : string) :
  first_occurrences (l ++ [x])
  = if decide (x ∈ l) then first_occurrences l else first_occurrences l ++ [x].
Proof.
  rewrite first_occurrences_app. cbn [first_occurrences filter list_filter].
  destruct (decide (x ∈ l)) as [Hin|Hnin].
  - rewrite decide_False by tauto. by rewrite app_nil_r.
  - by rewrite decide_True by done.
Qed.

(** The loop of [RemoveDuplicateLines]: after the lines [done_] the map
    [seen] holds exactly these lines and [result] their first occurrences. *)
Lemma RemoveDuplicateLines_fold (lines done_ : list string)
    (seen : gmap string bool) (result : list string) :
  (forall x, default false (seen !! x) = true <-> x ∈ done_) ->
  result = first_occurrences done_ ->
  (fold_left RemoveDuplicateLines_step lines (seen, result)).2
  = first_occurrences (done_ ++ lines).
Proof.
  revert done_ seen result.
  induction lines as [|line lines IH]; intros done_ seen result Hseen Hres.
  - by rewrite app_nil_r.
  - cbn [fold_left]. unfold RemoveDuplicateLines_step at 2.
    replace (done_ ++ line :: lines) with ((done_ ++ [line]) ++ lines)
      by (by rewrite <- app_assoc).
    destruct (default false (seen !! line)) eqn:E; cbn [negb].
    + apply IH.
      * intros x. rewrite elem_of_app, list_elem_of_singleton, Hseen.
        split; [by left|]. intros [?| ->]; [done|]. by apply Hseen.
      * rewrite first_occurrences_snoc, decide_True; [done|].
        by apply Hseen.
    + apply IH.
      * intros x. rewrite elem_of_app, list_elem_of_singleton, <- Hseen.
        destruct (decide (line = x)) as [->|Hne].
        -- rewrite lookup_insert_eq. cbn. tauto.
        -- rewrite lookup_insert_ne by done.
           split; [by left|]. intros [?|?]; [done|congruence].
      * rewrite first_occurrences_snoc, decide_False; [by rewrite Hres|].
        rewrite <- Hseen, E. discriminate.
Qed.

(** C9: [RemoveDuplicateLines] splits on ["\n"], keeps the first occurrence
    of every distinct line (compared as strings) in the order of the input,
    and joins with ["\n"]. *)
Theorem RemoveDuplicateLines_first_occurrences (text : string) :
  let lines := strings.Split text LF in
  let kept := first_occurrences lines in
  RemoveDuplicateLines text = strings.Join kept LF
  /\ NoDup kept
  /\ (forall x, x ∈ kept <-> x ∈ lines)
  /\ kept `sublist_of` lines
  /\ (forall l1 x l2, lines = l1 ++ x :: l2 -> x ∉ l1 ->
      exists k2, kept = first_occurrences l1 ++ x :: k2)
  /\ RemoveDuplicateLines
       ("a" +:+ LF +:+ "b" +:+ LF +:+ "a" +:+ LF +:+ "c" +:+ LF +:+ "b")
     = "a" +:+ LF +:+ "b" +:+ LF +:+ "c".
Proof.
  intros lines kept. split; [|split; [|split; [|split; [|split]]]].
  - unfold RemoveDuplicateLines. fold lines.
    assert (forall x, default false ((∅ : gmap string bool) !! x) = true
                      <-> x ∈ @nil string) as Hseen.
    { intros x. rewrite lookup_empty, elem_of_nil. cbn. split; [discriminate|tauto]. }
    pose proof (RemoveDuplicateLines_fold lines [] ∅ [] Hseen eq_refl) as H.
    destruct (fold_left RemoveDuplicateLines_step lines (∅, [])) as [seen result].
    cbn [snd app] in H. by rewrite H.
  - apply first_occurrences_NoDup.
  - intros x. apply first_occurrences_elem_of.
  - apply first_occurrences_sublist.
  - intros l1 x l2 Hl Hx. unfold kept. rewrite Hl, first_occurrences_app.
    cbn [first_occurrences]. rewrite filter_cons_True by done. eauto.
  - vm_compute. reflexivity.
Qed.

(** ** The tokenizer as a scan *)

Lemma last_byte_append (prev : option ascii) (s t : string) :
  last_byte prev (s +:+ t) = last_byte (last_byte prev s) t.
Proof.
  revert prev. induction s as [|c s IH]; intros prev; [done|].
  rewrite append_cons. cbn [last_byte]. apply IH.
Qed.

Lemma get_append_r (pre s : string) (n : nat) :
  String.get (String.length pre + n) (pre +:+ s) = String.get n s.
Proof.
  induction pre as [|c pre IH]; [done|].
  rewrite append_cons. cbn [String.length Nat.add String.get]. exact IH.
Qed.

(** [s[i-1]] at the end of a prefix of [i > 0] bytes. *)
Lemma byte_at_last (pre s : string) (c : ascii) :
  last_byte None pre = Some c ->
  byte_at (pre +:+ s) (String.length pre - 1) = byteZ c.
Proof.
  assert (forall p pre, last_byte p pre = Some c -> pre <> EmptyString ->
            byte_at (pre +:+ s) (String.length pre - 1) = byteZ c) as H.
  { clear pre. intros p pre. revert p.
    induction pre as [|a pre IH]; intros p Hl Hne; [done|].
    destruct pre as [|b pre].
    - cbn in Hl. injection Hl as ->. reflexivity.
    - cbn [last_byte] in Hl. specialize (IH (Some a) Hl ltac:(done)).
      rewrite append_cons. cbn [String.length] in *.
      replace (S (S (String.length pre)) - 1)%nat
        with (S (S (String.length pre) - 1)) by lia.
      exact IH. }
  intros Hl. apply (H None); [done|]. by intros ->.
Qed.

Section Tokenizer.
Context (T : unicode.Tables).

(** One iteration of the loop of [splitWords] is a [token_step]. *)
Lemma splitWords_step_token_step (pre s : string) (r : rune)
    (st : list string * string) :
  splitWords_step T (pre +:+ s) st (String.length pre, r)
  = token_step T (last_byte None pre) r st.
Proof.
  destruct st as [words cur]. unfold splitWords_step, token_step, isWordChar.
  destruct (unicode.IsLetter T r || unicode.IsNumber T r); [|done].
  destruct (last_byte None pre) as [c|] eqn:El.
  - rewrite (byte_at_last pre s c El).
    assert (pre <> EmptyString) as Hne by (by intros ->).
    assert ((0 <? String.length pre)%nat = true) as ->.
    { apply Nat.ltb_lt. destruct pre; [done|cbn; lia]. }
    cbn [andb hump]. unfold flush. cbn [fst snd].
    destruct (unicode.IsUpper T r && unicode.IsLower T (byteZ c)); [|done].
    by destruct (0 <? String.length cur)%nat.
  - assert (pre = EmptyString) as ->.
    { destruct pre as [|a pre]; [done|]. exfalso. cbn [last_byte] in El.
      clear -El. revert a El. induction pre; intros; [done|]. eauto. }
    reflexivity.
Qed.

Lemma splitWords_fold_scan (s pre : string) (skip : nat)
    (st : list string * string) :
  fold_left (splitWords_step T (pre +:+ s))
    (range_from (String.length pre) skip s) st
  = scan T (last_byte None pre) skip s st.
Proof.
  revert pre skip st. induction s as [|c s IH]; intros pre skip st; [done|].
  assert (pre +:+ String c s = (pre +:+ String c EmptyString) +:+ s) as Hs
    by (by rewrite append_assoc).
  assert (S (String.length pre)
          = String.length (pre +:+ String c EmptyString)) as Hl
    by (rewrite length_append; cbn; lia).
  assert (last_byte None (pre +:+ String c EmptyString) = Some c) as Hb
    by (by rewrite last_byte_append).
  cbn [range_from scan]. destruct skip as [|k].
  - destruct (DecodeRuneInString (String c s)) as [r w] eqn:E.
    cbn [fold_left fst snd]. rewrite splitWords_step_token_step.
    rewrite Hs, Hl, IH, Hb. reflexivity.
  - rewrite Hs, Hl, IH, Hb. reflexivity.
Qed.

(** [splitWords] is the scan from the empty state, flushed at the end. *)
Lemma splitWords_scan (s : string) :
  splitWords T s = (flush (scan T None 0 s ([], EmptyString))).1.
Proof.
  unfold splitWords, range_string.
  pose proof (splitWords_fold_scan s EmptyString 0 ([], EmptyString)) as H.
  rewrite append_nil_l in H. cbn [String.length last_byte] in H. rewrite H.
  destruct (scan T None 0 s ([], EmptyString)) as [words cur].
  unfold flush. cbn [fst snd]. by destruct (0 <? String.length cur)%nat.
Qed.

End Tokenizer.

(** ** UTF-8: decoding does not look past the start of the next rune *)

Lemma append_eq_append (a b c d : string) :
  a +:+ b = c +:+ d ->
  (exists z, a = c +:+ z /\ d = z +:+ b)
  \/ (exists zc z, c = a +:+ String zc z /\ b = String zc z +:+ d).
Proof.
  revert c. induction a as [|x a IH]; intros c H.
  - rewrite append_nil_l in H. destruct c as [|y c].
    + left. exists EmptyString. by rewrite append_nil_l in *.
    + right. exists y, c. by rewrite append_nil_l.
  - destruct c as [|y c].
    + left. exists (String x a). by rewrite !append_nil_l in *.
    + rewrite !append_cons in H. injection H as -> H.
      destruct (IH c H) as [(z & -> & ->)|(zc & z & -> & ->)].
      * left. exists z. by rewrite append_cons.
      * right. exists zc, z. by rewrite append_cons.
Qed.

(** After its first byte, an encoding holds continuation bytes only. *)
Lemma EncodeRune_tail (r : rune) (x z : string) (zc : ascii) :
  ValidRune r = true -> EncodeRune r = x +:+ String zc z -> x <> EmptyString ->
  (0x80 <= byteZ zc <= 0xBF)%Z.
Proof.
  rewrite ValidRune_range. intros Hr He Hx.
  assert (forall v, (0 <= v < 64)%Z ->
            (0x80 <= byteZ (Zbyte (0x80 + v)) <= 0xBF)%Z) as Hc
    by (intros v Hv; rewrite byteZ_Zbyte by lia; lia).
  assert (0 <= r mod 64 < 64 /\ 0 <= r / 64 mod 64 < 64
          /\ 0 <= r / 4096 mod 64 < 64)%Z as (H1 & H2 & H3)
    by (repeat split; apply Z.mod_pos_bound; lia).
  destruct (Z.le_gt_cases r 0x7F); [rewrite EncodeRune_1 in He by lia|].
  { destruct x as [|a [|b x]]; [done|..];
      rewrite ?append_cons, ?append_nil_l in He; simplify_eq. }
  destruct (Z.le_gt_cases r 0x7FF); [rewrite EncodeRune_2 in He by lia|].
  { destruct x as [|a [|b [|c x]]]; [done|..];
      rewrite ?append_cons, ?append_nil_l in He; simplify_eq; auto. }
  destruct (Z.le_gt_cases r 0xFFFF); [rewrite EncodeRune_3 in He by lia|].
  { destruct x as [|a [|b [|c [|d x]]]]; [done|..];
      rewrite ?append_cons, ?append_nil_l in He; simplify_eq; auto. }
  rewrite EncodeRune_4 in He by lia.
  destruct x as [|a [|b [|c [|d [|e x]]]]]; [done|..];
    rewrite ?append_cons, ?append_nil_l in He; simplify_eq; auto.
Qed.

Lemma DecodeRune_append (x rest : string) :
  x <> EmptyString -> starts_rune rest ->
  DecodeRuneInString (x +:+ rest) = DecodeRuneInString x.
Proof.
  intros Hx Hrest.
  pose proof (DecodeRune_decoded x) as D.
  pose proof (DecodeRune_decoded (x +:+ rest)) as D'.
  destruct (DecodeRuneInString x) as [r w] eqn:E.
  destruct (DecodeRuneInString (x +:+ rest)) as [r' w'] eqn:E'.
  cbn [fst snd] in D, D'.
  destruct D' as [H'|c' rest' H' Hc'|r' rest' Hr' H'].
  - apply append_eq_nil in H' as [? _]. done.
  - destruct D as [?|c0 rest0 H0 Hc0|r rest0 Hr H0]; [done..|].
    exfalso. subst x. rewrite append_assoc in E'.
    rewrite DecodeRune_EncodeRune in E' by done.
    injection E' as Er El. subst r.
    rewrite (EncodeRune_3 RuneError) in El by (unfold RuneError; lia).
    discriminate.
  - destruct (append_eq_append _ _ _ _ H') as [(z & -> & ->)|(zc & z & He & ->)].
    + rewrite DecodeRune_EncodeRune in E by done. by rewrite <- E.
    + exfalso. cbn [starts_rune] in Hrest. rewrite append_cons in Hrest.
      apply Hrest. by apply (EncodeRune_tail r' x z zc).
Qed.

(** The first byte of an encoding is not a continuation byte. *)
Lemma starts_rune_encode (r : rune) (rest : string) :
  is_int32 r -> starts_rune (EncodeRune r +:+ rest).
Proof.
  assert (forall v, (0 <= v < 0x80 \/ 0xC0 <= v < 256)%Z ->
            ~ (0x80 <= byteZ (Zbyte v) <= 0xBF)%Z) as Hc
    by (intros v Hv; rewrite byteZ_Zbyte by lia; lia).
  assert (forall r, ValidRune r = true -> starts_rune (EncodeRune r +:+ rest)) as H.
  { clear r. intros r. rewrite ValidRune_range. intros Hr.
    destruct (Z.le_gt_cases r 0x7F); [rewrite EncodeRune_1 by lia|].
    { rewrite append_cons. apply Hc. lia. }
    destruct (Z.le_gt_cases r 0x7FF); [rewrite EncodeRune_2 by lia|].
    { rewrite append_cons. apply Hc. divmod. }
    destruct (Z.le_gt_cases r 0xFFFF); [rewrite EncodeRune_3 by lia|].
    { rewrite append_cons. apply Hc. divmod. }
    rewrite EncodeRune_4 by lia. rewrite append_cons. apply Hc. divmod. }
  intros Hi. rewrite <- EncodeRune_sanitize by done.
  apply H, sanitize_valid.
Qed.

(** ** The tokenizer: cutting the input at the start of a rune *)

Section Tokenizer.
Context (T : unicode.Tables).

Lemma scan_skip (x rest : string) (prev : option ascii)
    (st : list string * string) :
  scan T prev (String.length x) (x +:+ rest) st
  = scan T (last_byte prev x) 0 rest st.
Proof.
  revert prev. induction x as [|c x IH]; intros prev.
  - rewrite append_nil_l. reflexivity.
  - rewrite append_cons. cbn [String.length scan last_byte]. apply IH.
Qed.

(** The scan passes over the encoding of a valid rune in one step. *)
Lemma scan_encode (r : rune) (rest : string) (prev : option ascii)
    (st : list string * string) :
  ValidRune r = true ->
  scan T prev 0 (EncodeRune r +:+ rest) st
  = scan T (last_byte prev (EncodeRune r)) 0 rest (token_step T prev r st).
Proof.
  intros Hr. pose proof (DecodeRune_EncodeRune r rest Hr) as Hd.
  destruct (EncodeRune_cons r) as (c & x & He). rewrite He in *.
  rewrite append_cons in *. cbn [scan]. rewrite Hd.
  cbn [fst snd String.length Nat.pred last_byte]. apply scan_skip.
Qed.

(** The scan of [pre +:+ rest], where [rest] starts a rune, is the scan of
    [pre] followed by the scan of [rest]. *)
Lemma scan_append (pre rest : string) (prev : option ascii) (skip : nat)
    (st : list string * string) :
  (skip <= String.length pre)%nat -> starts_rune rest ->
  scan T prev skip (pre +:+ rest) st
  = scan T (last_byte prev pre) 0 rest (scan T prev skip pre st).
Proof.
  intros Hskip Hrest. revert prev skip st Hskip.
  induction pre as [|c pre IH]; intros prev skip st Hskip.
  - cbn [String.length] in Hskip. assert (skip = 0%nat) as -> by lia.
    by rewrite append_nil_l.
  - rewrite append_cons. cbn [scan last_byte String.length] in *.
    destruct skip as [|k]; [|apply IH; lia].
    rewrite <- append_cons, DecodeRune_append by done.
    apply IH. pose proof (DecodeRune_width c pre). lia.
Qed.

(** Tokens that are finished stay as they are. *)
Lemma flush_prefix (ws : list string) (st : list string * string) :
  flush (ws ++ st.1, st.2) = (ws ++ (flush st).1, (flush st).2).
Proof.
  unfold flush. cbn [fst snd].
  destruct (0 <? String.length st.2)%nat; cbn [fst snd]; [|done].
  by rewrite app_assoc.
Qed.

Lemma token_step_prefix (ws : list string) (prev : option ascii) (r : rune)
    (st : list string * string) :
  token_step T prev r (ws ++ st.1, st.2)
  = (ws ++ (token_step T prev r st).1, (token_step T prev r st).2).
Proof.
  unfold token_step.
  destruct (isWordChar T r); [|apply flush_prefix].
  destruct (hump T prev r); [|done].
  by rewrite flush_prefix.
Qed.

Lemma scan_prefix (ws : list string) (prev : option ascii) (skip : nat)
    (s : string) (st : list string * string) :
  scan T prev skip s (ws ++ st.1, st.2)
  = (ws ++ (scan T prev skip s st).1, (scan T prev skip s st).2).
Proof.
  revert prev skip st. induction s as [|c s IH]; intros prev skip st; [done|].
  cbn [scan]. destruct skip as [|k]; [|apply IH].
  rewrite token_step_prefix. apply IH.
Qed.

(** A prefix put in front of the first token stays in front of it. *)
Lemma flush_glue (x : string) (st : list string * string) :
  started st -> flush (glue x st) = glue x (flush st) /\ started (flush st).
Proof.
  destruct st as [[|w ws] cur]; unfold started, flush, glue; cbn [fst snd].
  - intros [?|Hcur]; [done|]. rewrite length_append.
    destruct cur as [|c cur]; [done|]. cbn [String.length].
    replace (0 <? String.length x + S (String.length cur))%nat with true
      by (symmetry; apply Nat.ltb_lt; lia).
    cbn. split; [done|]. by left.
  - intros _. destruct (0 <? String.length cur)%nat; cbn; split; auto.
Qed.

Lemma token_step_glue (x : string) (prev : option ascii) (r : rune)
    (st : list string * string) :
  started st ->
  token_step T prev r (glue x st) = glue x (token_step T prev r st)
  /\ started (token_step T prev r st).
Proof.
  intros Hst. unfold token_step.
  destruct (isWordChar T r); [|by apply flush_glue].
  assert (forall st', started st' ->
            ((glue x st').1, (glue x st').2 +:+ EncodeRune r)
            = glue x (st'.1, st'.2 +:+ EncodeRune r)
            /\ started (st'.1, st'.2 +:+ EncodeRune r)) as H.
  { intros [[|w ws] cur] _; unfold glue, started; cbn [fst snd].
    - rewrite append_assoc. split; [done|]. right. intros E.
      apply append_eq_nil in E as [_ E].
      by destruct (EncodeRune_cons r) as (c & y & He); rewrite He in E.
    - split; [done|]. by left. }
  destruct (hump T prev r).
  - destruct (flush_glue x st Hst) as [-> Hst']. by apply H.
  - by apply H.
Qed.

Lemma scan_glue (x : string) (prev : option ascii) (skip : nat) (s : string)
    (st : list string * string) :
  started st ->
  scan T prev skip s (glue x st) = glue x (scan T prev skip s st)
  /\ started (scan T prev skip s st).
Proof.
  revert prev skip st. induction s as [|c s IH]; intros prev skip st Hst; [done|].
  cbn [scan]. destruct skip as [|k]; [|by apply IH].
  destruct (token_step_glue x prev (DecodeRuneInString (String c s)).1 st Hst)
    as [-> Hst'].
  by apply IH.
Qed.

(** The first token keeps its first characters. *)
Lemma flush_starts_with (x : string) (st : list string * string) :
  x <> EmptyString -> starts_with x st -> starts_with x (flush st).
Proof.
  intros Hx. destruct st as [[|w ws] cur]; unfold starts_with, flush;
    cbn [fst snd]; [|by destruct (0 <? String.length cur)%nat].
  intros [t ->]. rewrite length_append.
  destruct x as [|c x]; [done|]. cbn [String.length Nat.add].
  cbn. eauto.
Qed.

Lemma token_step_starts_with (x : string) (prev : option ascii) (r : rune)
    (st : list string * string) :
  x <> EmptyString -> starts_with x st ->
  starts_with x (token_step T prev r st).
Proof.
  intros Hx Hst. unfold token_step.
  destruct (isWordChar T r); [|by apply flush_starts_with].
  assert (forall st', starts_with x st' ->
            starts_with x (st'.1, st'.2 +:+ EncodeRune r)) as H.
  { intros [[|w ws] cur]; unfold starts_with; cbn [fst snd]; [|done].
    intros [t ->]. exists (t +:+ EncodeRune r). by rewrite append_assoc. }
  destruct (hump T prev r); apply H; [by apply flush_starts_with|done].
Qed.

Lemma scan_starts_with (x : string) (prev : option ascii) (skip : nat)
    (s : string) (st : list string * string) :
  x <> EmptyString -> starts_with x st ->
  starts_with x (scan T prev skip s st).
Proof.
  intros Hx. revert prev skip st.
  induction s as [|c s IH]; intros prev skip st Hst; [done|].
  cbn [scan]. destruct skip as [|k]; [|by apply IH].
  by apply IH, token_step_starts_with.
Qed.

End Tokenizer.

(** ** The tokenizer at a lowercase letter followed by an uppercase letter *)

Ltac unicode_consts :=
  unfold unicode.IsLetter, unicode.IsNumber, unicode.IsUpper, unicode.IsLower,
    unicode.IsDigit, unicode.IsSpace, unicode.properties, unicode.MaxLatin1,
    unicode.MaxASCII, unicode.pLmask, unicode.pLo, unicode.pLu, unicode.pLl,
    unicode.pN, uint32 in *.

Lemma ascii_upper_class (T : unicode.Tables) (r : rune) :
  (0x41 <= r <= 0x5A)%Z ->
  unicode.IsLetter T r = true /\ unicode.IsUpper T r = true
  /\ unicode.IsLower T r = false.
Proof.
  intros Hr. unicode_consts. rewrite Z.mod_small by lia. by zdec.
Qed.

Lemma ascii_lower_class (T : unicode.Tables) (r : rune) :
  (0x61 <= r <= 0x7A)%Z ->
  unicode.IsLetter T r = true /\ unicode.IsUpper T r = false
  /\ unicode.IsLower T r = true.
Proof.
  intros Hr. unicode_consts. rewrite Z.mod_small by lia. by zdec.
Qed.

Lemma last_byte_nonempty (p q : option ascii) (x : string) :
  x <> EmptyString -> last_byte p x = last_byte q x.
Proof. destruct x; [done|reflexivity]. Qed.

Lemma last_byte_Some (p : option ascii) (x : string) :
  x <> EmptyString -> exists b, last_byte p x = Some b.
Proof.
  intros Hx. destruct x as [|c x]; [done|]. cbn [last_byte].
  generalize c. clear. induction x as [|d x IH]; intros c; cbn; eauto.
Qed.

Lemma EncodeRune_nonempty (r : rune) : EncodeRune r <> EmptyString.
Proof. destruct (EncodeRune_cons r) as (c & x & ->). done. Qed.

Section Tokenizer.
Context (T : unicode.Tables).

Lemma started_flush (st : list string * string) :
  started st -> (flush st).1 <> [].
Proof.
  destruct st as [[|w ws] cur]; unfold started, flush; cbn [fst snd].
  - intros [?|Hc]; [done|]. destruct cur; [done|]. cbn. done.
  - intros _. destruct (0 <? String.length cur)%nat; cbn; [|done].
    by destruct ws.
Qed.

(** A word character appended: the state afterwards ends with its bytes. *)
Lemma token_step_word (prev : option ascii) (r : rune)
    (st : list string * string) :
  isWordChar T r = true ->
  exists ws cur,
    token_step T prev r st = (ws, cur +:+ EncodeRune r)
    /\ (hump T prev r = false -> ws = st.1 /\ cur = st.2).
Proof.
  intros Hr. unfold token_step. rewrite Hr.
  destruct (hump T prev r).
  - exists (flush st).1, (flush st).2. by split.
  - exists st.1, st.2. by split.
Qed.

(** The tokens around a word character [l] followed by an uppercase ASCII
    letter [U]: the tokens of the input up to [l], and the tokens of the
    input from [U], put one after the other when the byte before [U] is a
    lowercase rune and with the token of [l] and the token of [U] joined
    when it is not. *)
Lemma splitWords_around (pre post : string) (l U : rune) :
  ValidRune l = true -> isWordChar T l = true -> (0x41 <= U <= 0x5A)%Z ->
  exists ws t1 t2 ws' b,
    last_byte None (EncodeRune l) = Some b
    /\ splitWords T (pre +:+ EncodeRune l) = ws ++ [t1 +:+ EncodeRune l]
    /\ splitWords T (EncodeRune U +:+ post) = (EncodeRune U +:+ t2) :: ws'
    /\ splitWords T (pre +:+ EncodeRune l +:+ EncodeRune U +:+ post)
       = if unicode.IsLower T (byteZ b) then
           ws ++ [t1 +:+ EncodeRune l] ++ (EncodeRune U +:+ t2) :: ws'
         else ws ++ [t1 +:+ EncodeRune l +:+ EncodeRune U +:+ t2] ++ ws'.
Proof.
  intros Hl Hw HU.
  destruct (ascii_upper_class T U HU) as (HUl & HUu & _).
  assert (ValidRune U = true) as HUv by (apply ValidRune_range; lia).
  assert (isWordChar T U = true) as HUw by (unfold isWordChar; by rewrite HUl).
  set (st1 := scan T None 0 pre ([], EmptyString)).
  set (p := last_byte None pre).
  destruct (token_step_word p l st1 Hw) as (ws & t1 & Est2 & _).
  destruct (last_byte_Some None (EncodeRune l) (EncodeRune_nonempty l))
    as [b Hb].
  assert (last_byte p (EncodeRune l) = Some b) as Hb'
    by (rewrite <- Hb; apply last_byte_nonempty, EncodeRune_nonempty).
  set (q := last_byte (Some b) (EncodeRune U)).
  set (stB := scan T q 0 post ([], EncodeRune U)).
  assert (started stB /\ starts_with (EncodeRune U) stB) as [HsB HwB].
  { split.
    - apply (scan_glue T EmptyString). right. apply EncodeRune_nonempty.
    - apply scan_starts_with; [apply EncodeRune_nonempty|].
      exists EmptyString. cbn. by rewrite append_nil_r. }
  destruct (flush_glue (t1 +:+ EncodeRune l) stB HsB) as [Hfg HsB'].
  pose proof (started_flush stB HsB) as HneB.
  pose proof (flush_starts_with (EncodeRune U) stB
                (EncodeRune_nonempty U) HwB) as HwB'.
  destruct (flush stB) as [[|w ws'] curB] eqn:EfB; [done|].
  unfold starts_with in HwB'. cbn [fst] in HwB'. destruct HwB' as [t2 ->].
  exists ws, t1, t2, ws', b. split; [exact Hb|].
  (* the input up to [l] *)
  assert (splitWords T (pre +:+ EncodeRune l) = ws ++ [t1 +:+ EncodeRune l]) as E1.
  { rewrite splitWords_scan.
    replace (scan T None 0 (pre +:+ EncodeRune l) ([], EmptyString))
      with (scan T None 0 (pre +:+ EncodeRune l +:+ EmptyString)
              ([], EmptyString)) by (by rewrite append_nil_r).
    rewrite scan_append by (apply Nat.le_0_l || apply starts_rune_encode;
      apply ValidRune_range in Hl; unfold is_int32; lia).
    rewrite scan_encode by done. cbn [scan]. fold st1 p. rewrite Est2.
    unfold flush. cbn [fst snd]. rewrite length_append.
    pose proof (EncodeRune_length l).
    replace (0 <? String.length t1 + String.length (EncodeRune l))%nat
      with true by (symmetry; apply Nat.ltb_lt; lia).
    reflexivity. }
  (* the input from [U] *)
  assert (splitWords T (EncodeRune U +:+ post)
          = (EncodeRune U +:+ t2) :: ws') as E2.
  { rewrite splitWords_scan, scan_encode by done.
    replace (token_step T None U ([], EmptyString)) with (@nil string, EncodeRune U)
      by (unfold token_step; rewrite HUw; reflexivity).
    rewrite (last_byte_nonempty None (Some b)) by apply EncodeRune_nonempty.
    fold q stB. by rewrite EfB. }
  split; [exact E1|]. split; [exact E2|].
  (* the whole input *)
  rewrite splitWords_scan.
  rewrite scan_append by (apply Nat.le_0_l || apply starts_rune_encode;
    apply ValidRune_range in Hl; unfold is_int32; lia).
  rewrite scan_encode by done. fold st1 p. rewrite Est2, Hb'.
  rewrite scan_encode by done. fold q.
  unfold token_step at 1. rewrite HUw. cbn [hump]. rewrite HUu. cbn [andb].
  destruct (unicode.IsLower T (byteZ b)).
  - assert (flush (ws, t1 +:+ EncodeRune l)
            = (ws ++ [t1 +:+ EncodeRune l], EmptyString)) as ->.
    { unfold flush. cbn [fst snd]. rewrite length_append.
      pose proof (EncodeRune_length l).
      replace (0 <? String.length t1 + String.length (EncodeRune l))%nat
        with true by (symmetry; apply Nat.ltb_lt; lia).
      reflexivity. }
    cbn [fst snd]. rewrite append_nil_l.
    pose proof (scan_prefix T (ws ++ [t1 +:+ EncodeRune l]) q 0 post
                  ([], EncodeRune U)) as Hp.
    rewrite app_nil_r in Hp. cbn [fst snd] in Hp. rewrite Hp. fold stB.
    pose proof (flush_prefix (ws ++ [t1 +:+ EncodeRune l]) stB) as Hf.
    destruct stB as [wsB cB]. cbn [fst snd] in *. rewrite Hf, EfB.
    cbn [fst]. by rewrite <- app_assoc.
  - cbn [fst snd].
    pose proof (scan_prefix T ws q 0 post
                  (glue (t1 +:+ EncodeRune l) ([], EncodeRune U))) as Hp.
    unfold glue at 1 2 in Hp. cbn [fst snd] in Hp. rewrite app_nil_r in Hp.
    rewrite Hp.
    destruct (scan_glue T (t1 +:+ EncodeRune l) q 0 post ([], EncodeRune U))
      as [Hg _]; [right; apply EncodeRune_nonempty|].
    rewrite Hg. fold stB.
    pose proof (flush_prefix ws (glue (t1 +:+ EncodeRune l) stB)) as Hf.
    destruct (glue (t1 +:+ EncodeRune l) stB) as [wsG cG] eqn:EG.
    cbn [fst snd] in *. rewrite Hf, Hfg.
    unfold glue. cbn [fst snd]. by rewrite !append_assoc.
Qed.

End Tokenizer.

(** C3: the test of the camelCase transition reads the byte before the
    uppercase letter [U] as a rune.  After a lowercase letter outside ASCII
    whose last byte is not a lowercase rune there is no split: the letter and
    [U] are in one token.  After a lowercase ASCII letter the accumulator is
    flushed and a new token starts at [U]. *)
Theorem splitWords_hump_previous_byte (T : unicode.Tables)
    (pre post : string) (U : rune) :
  (0x41 <= U <= 0x5A)%Z ->
  (forall l b,
      ValidRune l = true -> (0x80 <= l)%Z ->
      unicode.IsLetter T l = true -> unicode.IsLower T l = true ->
      last_byte None (EncodeRune l) = Some b ->
      unicode.IsLower T (byteZ b) = false ->
      no_hump_split T pre (EncodeRune l) (EncodeRune U) post)
  /\ (forall c,
      (0x61 <= c <= 0x7A)%Z ->
      hump_split T pre (EncodeRune c) (EncodeRune U) post).
Proof.
  intros HU. split.
  - intros l b Hv _ Hl _ Hb Hlow.
    assert (isWordChar T l = true) as Hw by (unfold isWordChar; by rewrite Hl).
    destruct (splitWords_around T pre post l U Hv Hw HU)
      as (ws & t1 & t2 & ws' & b' & Hb' & E1 & E2 & E3).
    rewrite Hb in Hb'. injection Hb' as <-. rewrite Hlow in E3.
    exists ws, t1, t2, ws'. auto.
  - intros c Hc.
    destruct (ascii_lower_class T c Hc) as (Hl & _ & Hlow).
    assert (isWordChar T c = true) as Hw by (unfold isWordChar; by rewrite Hl).
    assert (ValidRune c = true) as Hv by (apply ValidRune_range; lia).
    destruct (splitWords_around T pre post c U Hv Hw HU)
      as (ws & t1 & t2 & ws' & b' & Hb' & E1 & E2 & E3).
    rewrite EncodeRune_1 in Hb' by lia. cbn in Hb'. injection Hb' as <-.
    rewrite byteZ_Zbyte, Hlow in E3 by lia.
    exists ws, t1, t2, ws'. auto.
Qed.

(** The inputs ["caféAbc"], where é is C3 A9 and A9 is not a lowercase
    rune, and ["cafeAbc"]. *)
Lemma splitWords_hump_previous_byte_witness :
  no_hump_split latin1_tables "caf" (EncodeRune 0xE9%Z) (EncodeRune 0x41%Z) "bc"
  /\ hump_split latin1_tables "caf" (EncodeRune 0x65%Z) (EncodeRune 0x41%Z) "bc".
Proof.
  destruct (splitWords_hump_previous_byte latin1_tables "caf" "bc" 0x41%Z
              ltac:(lia)) as [H1 H2].
  split.
  - apply (H1 0xE9%Z "169"%char); [reflexivity|lia|reflexivity..].
  - apply H2. lia.
Defined.

(** The two cases on concrete inputs, and the case the claim leaves out:
    õ is C3 B5, and B5, read as a rune, is the lowercase letter µ. *)
Lemma splitWords_examples (T : unicode.Tables) :
  splitWords T "cafeAbc" = ["cafe"; "Abc"]
  /\ splitWords T "caféAbc" = ["caféAbc"]
  /\ splitWords T "õAbc" = ["õ"; "Abc"].
Proof. repeat split; vm_compute; reflexivity. Qed.

(** ** The camel and pascal renderings *)


Lemma string_of_runes_sanitize (rs : list rune) :
  Forall is_int32 rs -> string_of_runes (sanitize <$> rs) = string_of_runes rs.
Proof.
  induction 1 as [|r rs Hr _ IH]; [done|].
  cbn [fmap list_fmap string_of_runes]. rewrite EncodeRune_sanitize by done.
  f_equal. exact IH.
Qed.

(** The runes of [string(rs)]: those of [rs], a rune that cannot be encoded
    being replaced by [RuneError]. *)
Lemma runes_of_string_sanitize (rs : list rune) :
  Forall is_int32 rs -> runes_of_string (string_of_runes rs) = sanitize <$> rs.
Proof.
  intros Hrs. rewrite <- string_of_runes_sanitize by done.
  apply runes_of_string_of_runes.
  apply Forall_fmap, Forall_forall. intros r _. apply sanitize_valid.
Qed.

Lemma int32_range (z : Z) : is_int32 (int32 z).
Proof.
  unfold is_int32, int32.
  pose proof (Z.mod_pos_bound (z + 2 ^ 31) (2 ^ 32) ltac:(lia)). lia.
Qed.

Lemma ValidRune_int32 (r : rune) : ValidRune r = true -> is_int32 r.
Proof. rewrite ValidRune_range. unfold is_int32. lia. Qed.

Section Rendering.
Context (T : unicode.Tables).

Lemma ToLower_int32 (r : rune) : ValidRune r = true -> is_int32 (unicode.ToLower T r).
Proof.
  intros Hr%ValidRune_range. unfold unicode.ToLower, unicode.MaxASCII.
  destruct (Z.leb_spec r 0x7F); [|apply int32_range].
  destruct ((0x41 <=? r)%Z && (r <=? 0x5A)%Z); unfold is_int32; lia.
Qed.







(** The tokens of [splitWords] are encodings of word characters. *)
Lemma word_string_nil : word_string T EmptyString.
Proof. exists []. split; [done|constructor]. Qed.

Lemma word_string_snoc (w : string) (r : rune) :
  word_string T w -> ValidRune r = true -> isWordChar T r = true ->
  word_string T (w +:+ EncodeRune r).
Proof.
  intros (rs & -> & Hrs) Hv Hw. exists (rs ++ [r]). split.
  - rewrite string_of_runes_app. cbn [string_of_runes]. by rewrite append_nil_r.
  - apply Forall_app. split; [done|]. by constructor.
Qed.

Lemma flush_word_strings (st : list string * string) :
  Forall (word_string T) st.1 /\ word_string T st.2 ->
  Forall (word_string T) (flush st).1 /\ word_string T (flush st).2.
Proof.
  intros [Hws Hcur]. unfold flush.
  destruct (0 <? String.length st.2)%nat; cbn [fst snd]; [|done].
  split; [|apply word_string_nil].
  apply Forall_app. split; [done|]. by constructor.
Qed.

Lemma token_step_word_strings (prev : option ascii) (r : rune)
    (st : list string * string) :
  ValidRune r = true ->
  Forall (word_string T) st.1 /\ word_string T st.2 ->
  Forall (word_string T) (token_step T prev r st).1
  /\ word_string T (token_step T prev r st).2.
Proof.
  intros Hv Hst. unfold token_step.
  destruct (isWordChar T r) eqn:Hw; [|by apply flush_word_strings].
  destruct (hump T prev r); cbn [fst snd].
  - destruct (flush_word_strings st Hst) as [H1 H2].
    split; [done|]. by apply word_string_snoc.
  - destruct Hst as [H1 H2]. split; [done|]. by apply word_string_snoc.
Qed.

Lemma scan_word_strings (prev : option ascii) (skip : nat) (s : string)
    (st : list string * string) :
  Forall (word_string T) st.1 /\ word_string T st.2 ->
  Forall (word_string T) (scan T prev skip s st).1
  /\ word_string T (scan T prev skip s st).2.
Proof.
  revert prev skip st. induction s as [|c s IH]; intros prev skip st Hst; [done|].
  cbn [scan]. destruct skip as [|k]; [|by apply IH].
  apply IH, token_step_word_strings; [apply DecodeRune_valid|done].
Qed.

Lemma splitWords_word_strings (s : string) :
  Forall (word_string T) (splitWords T s).
Proof.
  rewrite splitWords_scan.
  apply flush_word_strings, scan_word_strings.
  split; [constructor|apply word_string_nil].
Qed.




End Rendering.






Lemma case_rendering_examples :
  toCamelCase latin1_tables "user_id élan 123abc" = "userIdÉlan123abc"
  /\ toPascalCase latin1_tables "user_id élan 123abc" = "UserIdÉlan123abc".
Proof. split; vm_compute; reflexivity. Qed.

(** ** WordCount: characters are bytes *)

Lemma range_from_length (s : string) (i skip : nat) :
  (length (range_from i skip s) <= String.length s - skip)%nat.
Proof.
  revert i skip. induction s as [|c s IH]; intros i skip; [cbn; lia|].
  cbn [range_from String.length]. destruct skip as [|k].
  - pose proof (DecodeRune_width c s) as Hw.
    destruct (DecodeRuneInString (String c s)) as [r w]. cbn [snd length] in *.
    specialize (IH (S i) (Nat.pred w)). lia.
  - specialize (IH (S i) k). lia.
Qed.

(** A string has at most as many runes as bytes. *)
Lemma RuneCount_le (s : string) : (RuneCountInString s <= String.length s)%nat.
Proof.
  unfold RuneCountInString, range_string.
  pose proof (range_from_length s 0 0). lia.
Qed.

(** The loop over [pre +:+ rest], where [rest] starts a rune, is the loop
    over [pre] followed by the loop over [rest]. *)
Lemma range_from_append (pre rest : string) (i skip : nat) :
  (skip <= String.length pre)%nat -> starts_rune rest ->
  range_from i skip (pre +:+ rest)
  = range_from i skip pre ++ range_from (i + String.length pre) 0 rest.
Proof.
  intros Hskip Hrest. revert i skip Hskip.
  induction pre as [|c pre IH]; intros i skip Hskip.
  - cbn [String.length] in *. assert (skip = 0%nat) as -> by lia.
    rewrite append_nil_l, Nat.add_0_r. reflexivity.
  - rewrite append_cons. cbn [range_from String.length] in *.
    replace (i + S (String.length pre))%nat with (S i + String.length pre)%nat
      by lia.
    destruct skip as [|k]; [|apply IH; lia].
    rewrite <- append_cons, DecodeRune_append by done.
    pose proof (DecodeRune_width c pre) as Hw.
    destruct (DecodeRuneInString (String c pre)) as [r w]. cbn [snd] in Hw.
    rewrite IH by lia. reflexivity.
Qed.

Lemma EncodeRune_length_nonascii (r : rune) :
  ValidRune r = true -> (0x80 <= r)%Z ->
  (2 <= String.length (EncodeRune r))%nat.
Proof.
  rewrite ValidRune_range. intros Hv Hr.
  destruct (Z.le_gt_cases r 0x7FF); [rewrite EncodeRune_2 by lia; cbn; lia|].
  destruct (Z.le_gt_cases r 0xFFFF); [rewrite EncodeRune_3 by lia; cbn; lia|].
  rewrite EncodeRune_4 by lia. cbn. lia.
Qed.

(** A string that holds the encoding of a code point outside ASCII has
    fewer runes than bytes. *)
Lemma RuneCount_lt (pre post : string) (r : rune) :
  ValidRune r = true -> (0x80 <= r)%Z ->
  (RuneCountInString (pre +:+ EncodeRune r +:+ post)
   < String.length (pre +:+ EncodeRune r +:+ post))%nat.
Proof.
  intros Hv Hr. unfold RuneCountInString, range_string.
  rewrite range_from_append
    by (apply Nat.le_0_l || apply starts_rune_encode, ValidRune_int32, Hv).
  rewrite range_from_encode by done.
  rewrite length_app, !length_append. cbn [length].
  pose proof (range_from_length pre 0 0).
  pose proof (range_from_length post
                (0 + String.length pre + String.length (EncodeRune r)) 0).
  pose proof (EncodeRune_length_nonascii r Hv Hr). lia.
Qed.

(** A string of ASCII bytes has as many runes as bytes. *)
Lemma RuneCount_ascii (s : string) :
  is_ascii s = true -> RuneCountInString s = String.length s.
Proof.
  intros Hs. unfold RuneCountInString, range_string.
  assert (forall i, length (range_from i 0 s) = String.length s) as H;
    [|apply H].
  induction s as [|c s IH]; intros i; [done|].
  cbn [is_ascii] in Hs. apply andb_true_iff in Hs as [Hc Hs].
  apply Z.ltb_lt in Hc. cbn [range_from]. rewrite DecodeRune_1 by done.
  cbn [length String.length Nat.pred]. f_equal. by apply IH.
Qed.

Lemma prefix_single (c a : ascii) (s : string) :
  String.prefix (String c EmptyString) (String a s) = Ascii.eqb a c.
Proof.
  cbn [String.prefix]. destruct (ascii_dec c a) as [->|Hne].
  - rewrite Ascii.eqb_refl. by destruct s.
  - symmetry. apply Ascii.eqb_neq. congruence.
Qed.

(** Replacing a byte by nothing removes it. *)
Lemma ReplaceAll_remove_byte (s : string) (c : ascii) :
  strings.ReplaceAll s (String c EmptyString) EmptyString = remove_byte c s.
Proof.
  unfold strings.ReplaceAll. cbn [String.eqb].
  induction s as [|a s IH]; [done|].
  cbn [strings.replace_nonempty remove_byte String.length Nat.pred].
  rewrite prefix_single. destruct (Ascii.eqb a c); [|by rewrite IH].
  by rewrite append_nil_l.
Qed.

(** The scenario of the specification, and an input with two letters
    outside ASCII: 13 bytes for 11 code points. *)
Lemma WordCount_examples :
  WordCount ("Hello world." +:+ LF +:+ LF +:+ "Second paragraph here.")
  = {[ "words" := 5%nat; "characters" := 36%nat; "charactersNoSpaces" := 31%nat;
       "lines" := 3%nat; "paragraphs" := 2%nat ]}
  /\ WordCount "  héllo wörld " !! "characters" = Some 13%nat
  /\ RuneCountInString (strings.TrimSpace "  héllo wörld ") = 11%nat.
Proof. repeat split; vm_compute; reflexivity. Qed.

(** ** sort.Slice: every step is a swap *)

Lemma swap_sym {A} (l : list A) (i j : nat) : swap l i j = swap l j i.
Proof.
  unfold swap. destruct (l !! i) as [x|] eqn:Ei, (l !! j) as [y|] eqn:Ej; try done.
  destruct (decide (i = j)) as [->|Hne]; [congruence|].
  by rewrite list_insert_insert_ne.
Qed.

Lemma swap_same {A} (l : list A) (i : nat) : swap l i i = l.
Proof.
  unfold swap. destruct (l !! i) as [x|] eqn:Ei; [|done].
  rewrite list_insert_insert_eq. by apply list_insert_id.
Qed.

Lemma lookup_split2 {A} (l : list A) (i j : nat) (x y : A) :
  l !! i = Some x -> l !! j = Some y -> (i < j)%nat ->
  exists pre m post,
    l = pre ++ x :: m ++ y :: post /\ i = length pre
    /\ j = (length pre + S (length m))%nat.
Proof.
  intros Hi Hj Hlt.
  apply list_elem_of_split_length in Hi as (pre & rest & -> & ->).
  rewrite lookup_app_r in Hj by lia.
  replace (j - length pre)%nat with (S (j - length pre - 1)) in Hj by lia.
  cbn in Hj.
  apply list_elem_of_split_length in Hj as (m & post & -> & Hm).
  exists pre, m, post. repeat split. lia.
Qed.

Lemma swap_Permutation {A} (l : list A) (i j : nat) : swap l i j ≡ₚ l.
Proof.
  unfold swap.
  destruct (l !! i) as [x|] eqn:Ei, (l !! j) as [y|] eqn:Ej; try done.
  by apply Permutation_insert_swap.
Qed.

Lemma swap_length {A} (l : list A) (i j : nat) : length (swap l i j) = length l.
Proof. apply Permutation_length, swap_Permutation. Qed.

Section SortSwaps.
Context {A : Type} (less : A -> A -> bool).

Lemma Swap_Permutation (data : list A) (i j : Z) : sort.Swap data i j ≡ₚ data.
Proof. apply swap_Permutation. Qed.

Local Hint Resolve Swap_Permutation : core.

Ltac perm_swap :=
  repeat match goal with
  | |- _ ≡ₚ _ => reflexivity
  | |- sort.Swap ?d _ _ ≡ₚ _ => etrans; [apply Swap_Permutation|]
  | |- context [if ?c then _ else _] => destruct c
  end.

Lemma insertionSort_inner_Permutation (n : nat) (data : list A) (a j : Z) :
  sort.insertionSort_inner less n data a j ≡ₚ data.
Proof.
  revert data j. induction n as [|n IH]; intros data j; [done|].
  cbn [sort.insertionSort_inner].
  destruct ((a <? j)%Z && sort.Less less data j (j - 1)); [|done].
  etrans; [apply IH|apply Swap_Permutation].
Qed.

Lemma fold_left_Permutation {B} (f : list A -> B -> list A) (l : list B)
    (data : list A) :
  (forall d x, f d x ≡ₚ d) -> fold_left f l data ≡ₚ data.
Proof.
  intros Hf. revert data. induction l as [|x l IH]; intros data; [done|].
  cbn [fold_left]. etrans; [apply IH|apply Hf].
Qed.

Lemma insertionSort_Permutation (data : list A) (a b : Z) :
  sort.insertionSort_func less data a b ≡ₚ data.
Proof.
  apply fold_left_Permutation. intros d i.
  apply insertionSort_inner_Permutation.
Qed.

Lemma siftDown_loop_Permutation (n : nat) (data : list A) (root hi first : Z) :
  sort.siftDown_loop less n data root hi first ≡ₚ data.
Proof.
  revert data root. induction n as [|n IH]; intros data root; [done|].
  cbn [sort.siftDown_loop]. cbv zeta.
  repeat match goal with
         | |- context [if ?c then _ else _] => destruct c
         end; try done; (etrans; [apply IH|apply Swap_Permutation]).
Qed.

Lemma heapSort_Permutation (data : list A) (a b : Z) :
  sort.heapSort_func less data a b ≡ₚ data.
Proof.
  unfold sort.heapSort_func. cbv zeta.
  etrans; [apply fold_left_Permutation|apply fold_left_Permutation].
  - intros d i. etrans; [apply siftDown_loop_Permutation|apply Swap_Permutation].
  - intros d i. apply siftDown_loop_Permutation.
Qed.

Lemma partition_loop_Permutation (n : nat) (data : list A) (a i j : Z) :
  (sort.partition_loop less n data a i j).1 ≡ₚ data.
Proof.
  revert data i j. induction n as [|n IH]; intros data i j; [done|].
  cbn [sort.partition_loop]. cbv zeta.
  destruct (_ <? _)%Z; [done|].
  etrans; [apply IH|apply Swap_Permutation].
Qed.

Lemma partition_Permutation (data : list A) (a b pivot : Z) :
  (sort.partition_func less data a b pivot).1.1 ≡ₚ data.
Proof.
  unfold sort.partition_func. cbv zeta.
  destruct (_ <? _)%Z; cbn [fst].
  - etrans; apply Swap_Permutation.
  - match goal with
    | |- context [sort.partition_loop less ?n ?d ?a ?i ?j] =>
        pose proof (partition_loop_Permutation n d a i j) as H;
        destruct (sort.partition_loop less n d a i j) as [d' j']
    end.
    cbn [fst] in *. etrans; [apply Swap_Permutation|].
    etrans; [exact H|]. etrans; apply Swap_Permutation.
Qed.

Lemma partitionEqual_loop_Permutation (n : nat) (data : list A) (a i j : Z) :
  (sort.partitionEqual_loop less n data a i j).1 ≡ₚ data.
Proof.
  revert data i j. induction n as [|n IH]; intros data i j; [done|].
  cbn [sort.partitionEqual_loop]. cbv zeta.
  destruct (_ <? _)%Z; [done|].
  etrans; [apply IH|apply Swap_Permutation].
Qed.

Lemma partitionEqual_Permutation (data : list A) (a b pivot : Z) :
  (sort.partitionEqual_func less data a b pivot).1 ≡ₚ data.
Proof.
  unfold sort.partitionEqual_func.
  etrans; [apply partitionEqual_loop_Permutation|apply Swap_Permutation].
Qed.

Lemma shift_left_Permutation (n : nat) (data : list A) (j : Z) :
  sort.shift_left less n data j ≡ₚ data.
Proof.
  revert data j. induction n as [|n IH]; intros data j; [done|].
  cbn [sort.shift_left].
  repeat match goal with
         | |- context [if ?c then _ else _] => destruct c
         end; try done; (etrans; [apply IH|apply Swap_Permutation]).
Qed.

Lemma shift_right_Permutation (n : nat) (data : list A) (j b : Z) :
  sort.shift_right less n data j b ≡ₚ data.
Proof.
  revert data j. induction n as [|n IH]; intros data j; [done|].
  cbn [sort.shift_right].
  repeat match goal with
         | |- context [if ?c then _ else _] => destruct c
         end; try done; (etrans; [apply IH|apply Swap_Permutation]).
Qed.

Lemma partialInsertionSort_loop_Permutation (steps : nat) (data : list A)
    (a b i : Z) :
  (sort.partialInsertionSort_loop less steps data a b i).1 ≡ₚ data.
Proof.
  revert data i. induction steps as [|steps IH]; intros data i; [done|].
  cbn [sort.partialInsertionSort_loop]. cbv zeta.
  destruct (_ =? _)%Z; [done|]. destruct (_ <? _)%Z; [done|].
  etrans; [apply IH|].
  repeat match goal with
         | |- context [if ?c then _ else _] => destruct c
         end;
    repeat first [ apply Swap_Permutation
                 | etrans; [apply shift_right_Permutation|]
                 | etrans; [apply shift_left_Permutation|] ].
Qed.

Lemma breakPatterns_Permutation (data : list A) (a b : Z) :
  sort.breakPatterns_func data a b ≡ₚ data.
Proof.
  unfold sort.breakPatterns_func. cbv zeta.
  destruct (_ <=? _)%Z; [|done].
  cbn [fold_left fst]. etrans; [apply Swap_Permutation|].
  etrans; apply Swap_Permutation.
Qed.

Lemma reverseRange_loop_Permutation (n : nat) (data : list A) (i j : Z) :
  sort.reverseRange_loop n data i j ≡ₚ data.
Proof.
  revert data i j. induction n as [|n IH]; intros data i j; [done|].
  cbn [sort.reverseRange_loop]. destruct (_ <? _)%Z; [|done].
  etrans; [apply IH|apply Swap_Permutation].
Qed.

(** [pdqsort_func] returns a permutation of the slice. *)
Lemma pdqsort_Permutation (fuel : nat) (data data' : list A) (a b limit : Z)
    (wasBalanced wasPartitioned : bool) :
  sort.pdqsort_func less fuel data a b limit wasBalanced wasPartitioned
  = Some data' ->
  data' ≡ₚ data.
Proof.
  revert data data' a b limit wasBalanced wasPartitioned.
  induction fuel as [|fuel IH];
    intros data data' a b limit wasBalanced wasPartitioned; [done|].
  cbn [sort.pdqsort_func]. cbv zeta.
  destruct (_ <=? _)%Z.
  { intros [= <-]. apply insertionSort_Permutation. }
  destruct (_ =? _)%Z.
  { intros [= <-]. apply heapSort_Permutation. }
  remember (if negb wasBalanced
            then (sort.breakPatterns_func data a b, (limit - 1)%Z)
            else (data, limit)) as d1 eqn:E1.
  assert (d1.1 ≡ₚ data) as H1.
  { subst d1. destruct (negb wasBalanced); [apply breakPatterns_Permutation|done]. }
  clear E1. destruct d1 as [data1 limit1]. cbn [fst] in H1.
  destruct (sort.choosePivot_func less data1 a b) as [pivot hint].
  remember (if (hint =? sort.decreasingHint)%Z
            then (sort.reverseRange_func data1 a b, (b - 1 - (pivot - a))%Z,
                  sort.increasingHint)
            else (data1, pivot, hint)) as d2 eqn:E2.
  assert (d2.1.1 ≡ₚ data) as H2.
  { subst d2. destruct (hint =? _)%Z; [|done]. cbn [fst].
    etrans; [apply reverseRange_loop_Permutation|done]. }
  clear E2. destruct d2 as [[data2 pivot2] hint2]. cbn [fst] in H2.
  remember (if wasBalanced && wasPartitioned && (hint2 =? sort.increasingHint)%Z
            then sort.partialInsertionSort_func less data2 a b
            else (data2, false)) as d3 eqn:E3.
  assert (d3.1 ≡ₚ data) as H3.
  { subst d3. destruct (_ && _); [|done].
    etrans; [apply partialInsertionSort_loop_Permutation|done]. }
  clear E3. destruct d3 as [data3 sorted]. cbn [fst] in H3.
  destruct sorted. { by intros [= <-]. }
  destruct (_ && _).
  { pose proof (partitionEqual_Permutation data3 a b pivot2) as H4.
    destruct (sort.partitionEqual_func less data3 a b pivot2) as [data4 mid].
    cbn [fst] in H4. intros H. apply IH in H. by rewrite H, H4. }
  pose proof (partition_Permutation data3 a b pivot2) as H4.
  destruct (sort.partition_func less data3 a b pivot2) as [[data4 mid] ap].
  cbn [fst] in H4.
  destruct (_ <? _)%Z.
  - destruct (sort.pdqsort_func less fuel data4 a mid limit1 true true)
      as [data5|] eqn:E5; [|done].
    apply IH in E5. intros H. apply IH in H. by rewrite H, E5, H4.
  - destruct (sort.pdqsort_func less fuel data4 (mid + 1) b limit1 true true)
      as [data5|] eqn:E5; [|done].
    apply IH in E5. intros H. apply IH in H. by rewrite H, E5, H4.
Qed.

(** [sort.Slice] returns a permutation of the slice. *)
Lemma Slice_Permutation (x : list A) : sort.Slice less x ≡ₚ x.
Proof.
  unfold sort.Slice, sort.Slice_run.
  destruct (sort.pdqsort_func _ _ _ _ _ _ _ _) as [d|] eqn:E; [|done].
  cbn. by apply pdqsort_Permutation in E.
Qed.

End SortSwaps.

(** ** sort.Slice: the range gets shorter at every turn *)

Section SortBounds.
Context {A : Type} (less : A -> A -> bool).
Local Open Scope Z_scope.

Lemma scan_up_bounds (n : nat) (data : list A) (a i j : Z) :
  i <= sort.scan_up less n data a i j <= Z.max i (j + 1).
Proof.
  revert i. induction n as [|n IH]; intros i; cbn [sort.scan_up]; [lia|].
  destruct (i <=? j) eqn:E; cbn [andb]; [|lia].
  destruct (sort.Less less data i a); [|lia].
  specialize (IH (i + 1)). lia.
Qed.

Lemma scan_down_bounds (n : nat) (data : list A) (a i j : Z) :
  Z.min j (i - 1) <= sort.scan_down less n data a i j <= j.
Proof.
  revert j. induction n as [|n IH]; intros j; cbn [sort.scan_down]; [lia|].
  destruct (i <=? j) eqn:E; cbn [andb]; [|lia].
  destruct (negb (sort.Less less data j a)); [|lia].
  specialize (IH (j - 1)). lia.
Qed.

Lemma partition_loop_bounds (n : nat) (data : list A) (a i j : Z) :
  a + 1 <= i -> a <= j ->
  a <= (sort.partition_loop less n data a i j).2 <= j.
Proof.
  revert data i j. induction n as [|n IH]; intros data i j Hi Hj;
    cbn [sort.partition_loop]; [cbn; lia|].
  cbv zeta.
  pose proof (scan_up_bounds (Z.to_nat (j - i + 1)) data a i j) as Hu.
  set (i' := sort.scan_up less _ data a i j) in *.
  pose proof (scan_down_bounds (Z.to_nat (j - i' + 1)) data a i' j) as Hd.
  set (j' := sort.scan_down less _ data a i' j) in *.
  destruct (j' <? i') eqn:E; [cbn; lia|].
  specialize (IH (sort.Swap data i' j') (i' + 1) (j' - 1)). lia.
Qed.

Lemma partition_bounds (data : list A) (a b pivot : Z) :
  a < b -> a <= (sort.partition_func less data a b pivot).1.2 < b.
Proof.
  intros Hab. unfold sort.partition_func. cbv zeta.
  set (d := sort.Swap data a pivot).
  pose proof (scan_up_bounds (Z.to_nat (b - 1 - (a + 1) + 1)) d a (a + 1) (b - 1))
    as Hu.
  set (i' := sort.scan_up less _ d a (a + 1) (b - 1)) in *.
  pose proof (scan_down_bounds (Z.to_nat (b - 1 - i' + 1)) d a i' (b - 1)) as Hd.
  set (j' := sort.scan_down less _ d a i' (b - 1)) in *.
  destruct (j' <? i') eqn:E; [cbn; lia|].
  pose proof (partition_loop_bounds (Z.to_nat (j' - 1 - (i' + 1) + 2))
                (sort.Swap d i' j') a (i' + 1) (j' - 1)) as Hl.
  destruct (sort.partition_loop less _ _ a (i' + 1) (j' - 1)) as [d' j''].
  cbn in *. lia.
Qed.

Lemma scanEq_up_bounds (n : nat) (data : list A) (a i j : Z) :
  i <= sort.scanEq_up less n data a i j <= Z.max i (j + 1).
Proof.
  revert i. induction n as [|n IH]; intros i; cbn [sort.scanEq_up]; [lia|].
  destruct (i <=? j) eqn:E; cbn [andb]; [|lia].
  destruct (negb (sort.Less less data a i)); [|lia].
  specialize (IH (i + 1)). lia.
Qed.

Lemma scanEq_down_bounds (n : nat) (data : list A) (a i j : Z) :
  Z.min j (i - 1) <= sort.scanEq_down less n data a i j <= j.
Proof.
  revert j. induction n as [|n IH]; intros j; cbn [sort.scanEq_down]; [lia|].
  destruct (i <=? j) eqn:E; cbn [andb]; [|lia].
  destruct (sort.Less less data a j); [|lia].
  specialize (IH (j - 1)). lia.
Qed.

Lemma partitionEqual_loop_bounds (n : nat) (data : list A) (a i j : Z) :
  i <= (sort.partitionEqual_loop less n data a i j).2 <= Z.max i (j + 1).
Proof.
  revert data i j. induction n as [|n IH]; intros data i j;
    cbn [sort.partitionEqual_loop]; [cbn; lia|].
  cbv zeta.
  pose proof (scanEq_up_bounds (Z.to_nat (j - i + 1)) data a i j) as Hu.
  set (i' := sort.scanEq_up less _ data a i j) in *.
  pose proof (scanEq_down_bounds (Z.to_nat (j - i' + 1)) data a i' j) as Hd.
  set (j' := sort.scanEq_down less _ data a i' j) in *.
  destruct (j' <? i') eqn:E; [cbn; lia|].
  specialize (IH (sort.Swap data i' j') (i' + 1) (j' - 1)). lia.
Qed.

Lemma partitionEqual_bounds (data : list A) (a b pivot : Z) :
  a < b -> a < (sort.partitionEqual_func less data a b pivot).2 <= b.
Proof.
  intros Hab. unfold sort.partitionEqual_func.
  pose proof (partitionEqual_loop_bounds (Z.to_nat (b - a + 1))
                (sort.Swap data a pivot) a (a + 1) (b - 1)). lia.
Qed.

(** [pdqsort_func] returns as soon as the bound exceeds the length of the
    range. *)
Lemma pdqsort_returns (fuel : nat) (data : list A) (a b limit : Z)
    (wasBalanced wasPartitioned : bool) :
  (0 < fuel)%nat -> b - a < Z.of_nat fuel ->
  is_Some (sort.pdqsort_func less fuel data a b limit wasBalanced wasPartitioned).
Proof.
  revert data a b limit wasBalanced wasPartitioned.
  induction fuel as [|fuel IH];
    intros data a b limit wasBalanced wasPartitioned Hpos Hfuel; [lia|].
  cbn [sort.pdqsort_func]. cbv zeta.
  destruct (b - a <=? 12) eqn:Elen; [by eexists|].
  destruct (limit =? 0); [by eexists|].
  destruct (if negb wasBalanced
            then (sort.breakPatterns_func data a b, limit - 1)
            else (data, limit)) as [data1 limit1].
  destruct (sort.choosePivot_func less data1 a b) as [pivot hint].
  destruct (if hint =? sort.decreasingHint
            then (sort.reverseRange_func data1 a b, b - 1 - (pivot - a),
                  sort.increasingHint)
            else (data1, pivot, hint)) as [[data2 pivot2] hint2].
  destruct (if wasBalanced && wasPartitioned && (hint2 =? sort.increasingHint)
            then sort.partialInsertionSort_func less data2 a b
            else (data2, false)) as [data3 sorted].
  destruct sorted; [by eexists|].
  destruct (_ && _).
  { pose proof (partitionEqual_bounds data3 a b pivot2) as Hm.
    destruct (sort.partitionEqual_func less data3 a b pivot2) as [data4 mid].
    cbn [snd] in Hm. apply IH; lia. }
  pose proof (partition_bounds data3 a b pivot2) as Hm.
  destruct (sort.partition_func less data3 a b pivot2) as [[data4 mid] ap].
  cbn [fst snd] in Hm.
  destruct (_ <? _).
  - destruct (IH data4 a mid limit1 true true) as [data5 ->]; [lia..|].
    apply IH; lia.
  - destruct (IH data4 (mid + 1) b limit1 true true) as [data5 ->]; [lia..|].
    apply IH; lia.
Qed.

(** [sort.Slice] returns: the bound of [Slice_run] is never reached. *)
Lemma Slice_run_returns (x : list A) :
  sort.Slice_run less x = Some (sort.Slice less x).
Proof.
  unfold sort.Slice. unfold sort.Slice_run at 2.
  destruct (pdqsort_returns (S (length x)) x 0 (Z.of_nat (length x))
              (sort.bits_Len (Z.of_nat (length x))) true true) as [d Hd]; [lia..|].
  unfold sort.Slice_run. by rewrite Hd.
Qed.

End SortBounds.

(** ** The stable reference sort *)

Section StableSortFacts.
Context {A : Type} (less : A -> A -> bool) (Hless : strict_weak_order less).

Lemma less_asym (x y : A) : less x y = true -> less y x = false.
Proof.
  intros Hxy. destruct (less y x) eqn:Hyx; [|done].
  pose proof (less_trans less Hless x y x Hxy Hyx) as H.
  by rewrite (less_irrefl less Hless) in H.
Qed.

Lemma less_le_trans (x y z : A) :
  less x y = true -> less z y = false -> less x z = true.
Proof.
  intros Hxy Hzy. destruct (less x z) eqn:Hxz; [done|].
  by rewrite (less_negtrans less Hless x z y Hxz Hzy) in Hxy.
Qed.

Lemma le_less_trans (x y z : A) :
  less y x = false -> less y z = true -> less x z = true.
Proof.
  intros Hyx Hyz. destruct (less x z) eqn:Hxz; [done|].
  by rewrite (less_negtrans less Hless y x z Hyx Hxz) in Hyz.
Qed.

Lemma tie_less (k x z : A) :
  tie less k x = true -> less x z = true -> tie less k z = false.
Proof.
  unfold tie. intros [Hkx Hxk]%andb_true_iff Hxz.
  apply negb_true_iff in Hkx, Hxk.
  destruct (less k z) eqn:Hkz; [done|].
  by rewrite (less_negtrans less Hless x k z Hxk Hkz) in Hxz.
Qed.

Lemma insert_sorted_Permutation (x : A) (l : list A) :
  insert_sorted less x l ≡ₚ x :: l.
Proof.
  induction l as [|y l IH]; cbn [insert_sorted]; [done|].
  destruct (less x y); [done|]. rewrite IH. apply Permutation_swap.
Qed.

Lemma fold_insert_sorted_Permutation (l acc : list A) :
  fold_left (fun acc x => insert_sorted less x acc) l acc ≡ₚ acc ++ l.
Proof.
  revert acc. induction l as [|x l IH]; intros acc; cbn [fold_left].
  - by rewrite app_nil_r.
  - rewrite IH, insert_sorted_Permutation. cbn [app]. apply Permutation_middle.
Qed.

Lemma stable_sort_Permutation (l : list A) : stable_sort less l ≡ₚ l.
Proof. apply (fold_insert_sorted_Permutation l []). Qed.

Lemma insert_sorted_in_order (x : A) (l : list A) :
  in_order less l -> in_order less (insert_sorted less x l).
Proof.
  unfold in_order. induction 1 as [|y l Hl IH Hy]; cbn [insert_sorted].
  { repeat constructor. }
  destruct (less x y) eqn:Hxy.
  - constructor; [by constructor|]. constructor; [by apply less_asym|].
    eapply Forall_impl; [exact Hy|]. cbn. intros z Hzy.
    destruct (less z x) eqn:Hzx; [|done].
    by rewrite (less_trans less Hless z x y Hzx Hxy) in Hzy.
  - constructor; [done|]. rewrite insert_sorted_Permutation. by constructor.
Qed.

Lemma fold_insert_sorted_in_order (l acc : list A) :
  in_order less acc ->
  in_order less (fold_left (fun acc x => insert_sorted less x acc) l acc).
Proof.
  revert acc. induction l as [|x l IH]; intros acc Hacc; cbn [fold_left];
    [done|]. by apply IH, insert_sorted_in_order.
Qed.

Lemma stable_sort_in_order (l : list A) : in_order less (stable_sort less l).
Proof. apply fold_insert_sorted_in_order. constructor. Qed.

Lemma insert_sorted_snoc_less (x y : A) (p : list A) :
  less x y = true ->
  insert_sorted less x (p ++ [y]) = insert_sorted less x p ++ [y].
Proof.
  intros Hxy. induction p as [|z p IH]; cbn [insert_sorted app].
  { by rewrite Hxy. }
  destruct (less x z); [done|]. by rewrite IH.
Qed.

Lemma insert_sorted_last (x : A) (p : list A) :
  Forall (fun z => less x z = false) p -> insert_sorted less x p = p ++ [x].
Proof.
  induction 1 as [|z p Hz _ IH]; cbn [insert_sorted app]; [done|].
  by rewrite Hz, IH.
Qed.

Lemma in_order_snoc (p : list A) (y : A) :
  in_order less (p ++ [y]) ->
  in_order less p /\ Forall (fun z => less y z = false) p.
Proof.
  unfold in_order. induction p as [|z p IH]; cbn [app].
  { intros _. split; constructor. }
  intros H. apply StronglySorted_inv in H as [Hp Hz].
  destruct (IH Hp) as [Hp' Hy]. apply Forall_app in Hz as [Hz Hzy].
  split; constructor; try done. by inversion Hzy.
Qed.

Lemma filter_none (f : A -> bool) (l : list A) :
  Forall (fun z => f z = false) l -> List.filter f l = [].
Proof. induction 1 as [|z l Hz _ IH]; cbn; [done|]. by rewrite Hz. Qed.

Lemma insert_sorted_filter (k x : A) (l : list A) :
  in_order less l ->
  List.filter (tie less k) (insert_sorted less x l)
  = List.filter (tie less k) l ++ (if tie less k x then [x] else []).
Proof.
  unfold in_order. induction 1 as [|y l Hl IH Hy]; cbn [insert_sorted].
  { cbn. by destruct (tie less k x). }
  destruct (less x y) eqn:Hxy.
  - change (List.filter (tie less k) (x :: y :: l))
      with (if tie less k x then x :: List.filter (tie less k) (y :: l)
            else List.filter (tie less k) (y :: l)).
    destruct (tie less k x) eqn:Hkx; [|by rewrite app_nil_r].
    rewrite (filter_none (tie less k) (y :: l)); [done|].
    constructor; [by eapply tie_less|].
    eapply Forall_impl; [exact Hy|]. cbn. intros z Hzy.
    eapply tie_less; [done|]. by eapply less_le_trans.
  - cbn [List.filter]. rewrite IH. by destruct (tie less k y).
Qed.

Lemma fold_insert_sorted_filter (k : A) (l acc : list A) :
  in_order less acc ->
  List.filter (tie less k)
    (fold_left (fun acc x => insert_sorted less x acc) l acc)
  = List.filter (tie less k) acc ++ List.filter (tie less k) l.
Proof.
  revert acc. induction l as [|x l IH]; intros acc Hacc; cbn [fold_left].
  { by rewrite app_nil_r. }
  rewrite IH by by apply insert_sorted_in_order.
  rewrite insert_sorted_filter by done. rewrite <- app_assoc. f_equal.
  cbn [List.filter]. by destruct (tie less k x).
Qed.

(** The reference sort keeps ties in the order of the input. *)
Lemma stable_sort_ties (l : list A) :
  ties_in_input_order less l (stable_sort less l).
Proof.
  intros k. unfold stable_sort.
  rewrite fold_insert_sorted_filter by constructor. done.
Qed.

End StableSortFacts.

(** ** [insertionSort_func] is the stable reference sort, in place *)

Section InsertionSort.
Context {A : Type} (less : A -> A -> bool) (Hless : strict_weak_order less).
Local Open Scope Z_scope.

Lemma Swap_adjacent (P rest : list A) (x y : A) (j : Z) :
  j = Z.of_nat (length P) + 1 ->
  sort.Swap (P ++ y :: x :: rest) j (j - 1) = P ++ x :: y :: rest.
Proof.
  intros ->. unfold sort.Swap. rewrite swap_sym.
  replace (Z.to_nat (Z.of_nat (length P) + 1 - 1)) with (length P) by lia.
  replace (Z.to_nat (Z.of_nat (length P) + 1))
    with (length P + S (length (@nil A)))%nat by (cbn; lia).
  apply (swap_ends P [] rest y x).
Qed.

Lemma Less_adjacent (P rest : list A) (x y : A) (j : Z) :
  j = Z.of_nat (length P) + 1 ->
  sort.Less less (P ++ y :: x :: rest) j (j - 1) = less x y.
Proof.
  intros ->. unfold sort.Less.
  replace (Z.to_nat (Z.of_nat (length P) + 1 - 1)) with (length P) by lia.
  replace (Z.to_nat (Z.of_nat (length P) + 1)) with (S (length P)) by lia.
  rewrite (lookup_app_r P) by lia.
  replace (S (length P) - length P)%nat with 1%nat by lia.
  by rewrite list_lookup_middle.
Qed.

Lemma insertionSort_inner_spec (pre p rest : list A) (x : A) (n : nat) :
  in_order less p -> (length p <= n)%nat ->
  sort.insertionSort_inner less n (pre ++ p ++ x :: rest)
    (Z.of_nat (length pre)) (Z.of_nat (length pre + length p))
  = pre ++ insert_sorted less x p ++ rest.
Proof.
  revert rest n. induction p as [|y p IH] using rev_ind; intros rest n Hp Hn.
  { destruct n as [|n]; cbn [sort.insertionSort_inner]; [done|].
    rewrite Nat.add_0_r, Z.ltb_irrefl. done. }
  rewrite length_app in Hn |- *. cbn [length] in Hn |- *.
  destruct n as [|n]; [lia|]. cbn [sort.insertionSort_inner].
  apply (in_order_snoc less) in Hp as [Hp Hy].
  rewrite <- app_assoc. cbn [app]. rewrite (app_assoc pre p).
  rewrite Less_adjacent by (rewrite length_app; lia).
  rewrite (proj2 (Z.ltb_lt _ _)) by lia.
  cbn [andb]. destruct (less x y) eqn:Hxy.
  - rewrite Swap_adjacent by (rewrite length_app; lia).
    rewrite <- (app_assoc pre p).
    replace (Z.of_nat (length pre + (length p + 1)) - 1)
      with (Z.of_nat (length pre + length p)) by lia.
    rewrite IH by (done || lia).
    rewrite (insert_sorted_snoc_less less x y p Hxy).
    by rewrite <- !app_assoc.
  - rewrite (insert_sorted_last less x (p ++ [y])).
    + by rewrite <- !app_assoc.
    + apply Forall_app. split; [|by repeat constructor].
      eapply Forall_impl; [exact Hy|]. cbn. intros z Hyz.
      by apply (less_negtrans less Hless x y z).
Qed.

Lemma seqZ_cons' (m : Z) (n : nat) :
  seqZ m (Z.of_nat (S n)) = m :: seqZ (m + 1) (Z.of_nat n).
Proof.
  rewrite seqZ_cons by lia. f_equal. f_equal; lia.
Qed.

Lemma insertionSort_fold (pre done_ todo post : list A) (a : Z) :
  a = Z.of_nat (length pre) -> in_order less done_ ->
  fold_left
    (fun data i => sort.insertionSort_inner less (Z.to_nat (i - a)) data a i)
    (seqZ (a + Z.of_nat (length done_)) (Z.of_nat (length todo)))
    (pre ++ done_ ++ todo ++ post)
  = pre ++ fold_left (fun acc x => insert_sorted less x acc) todo done_ ++ post.
Proof.
  intros ->. revert done_. induction todo as [|x todo IH]; intros done_ Hd.
  { done. }
  cbn [length]. rewrite seqZ_cons'. cbn [fold_left app].
  replace (Z.of_nat (length pre) + Z.of_nat (length done_))
    with (Z.of_nat (length pre + length done_)) by lia.
  rewrite insertionSort_inner_spec by (done || lia).
  specialize (IH (insert_sorted less x done_)
                (insert_sorted_in_order less Hless x done_ Hd)).
  assert (length (insert_sorted less x done_) = S (length done_)) as Hlen.
  { by rewrite (Permutation_length (insert_sorted_Permutation less x done_)). }
  rewrite Hlen in IH.
  replace (Z.of_nat (length pre + length done_) + 1)
    with (Z.of_nat (length pre) + Z.of_nat (S (length done_))) by lia.
  exact IH.
Qed.

(** [insertionSort_func] sorts [data[a:b]] as the reference does and leaves
    the rest of [data] as it is. *)
Lemma insertionSort_spec (pre mid post : list A) (a b : Z) :
  a = Z.of_nat (length pre) -> b = a + Z.of_nat (length mid) ->
  sort.insertionSort_func less (pre ++ mid ++ post) a b
  = pre ++ stable_sort less mid ++ post.
Proof.
  intros Ha ->. unfold sort.insertionSort_func, stable_sort.
  destruct mid as [|x mid].
  { replace (a + Z.of_nat (length (@nil A)) - (a + 1)) with (-1) by (cbn; lia).
    done. }
  cbn [length fold_left insert_sorted].
  replace (a + Z.of_nat (S (length mid)) - (a + 1))
    with (Z.of_nat (length mid)) by lia.
  change ((x :: mid) ++ post) with ([x] ++ mid ++ post).
  rewrite <- (insertionSort_fold pre [x] mid post a Ha)
    by (repeat constructor).
  done.
Qed.

End InsertionSort.

(** ** Swaps and comparisons inside [data[a:b]] *)

Ltac len :=
  repeat (progress (rewrite ?length_app in *; cbn [length] in *)); lia.
Ltac app_norm := repeat (progress (rewrite <- ?app_assoc; cbn [app])).
Ltac list_eq_norm := subst; app_norm; reflexivity.

Lemma swap_middle {A} (pre mid post : list A) (i j : nat) :
  (i < length mid)%nat -> (j < length mid)%nat ->
  swap (pre ++ mid ++ post) (length pre + i) (length pre + j)
  = pre ++ swap mid i j ++ post.
Proof.
  intros Hi Hj. unfold swap.
  assert (forall k, (k < length mid)%nat ->
            (pre ++ mid ++ post) !! (length pre + k)%nat = mid !! k) as Hl.
  { intros k Hk. rewrite lookup_app_r by lia.
    replace (length pre + k - length pre)%nat with k by lia.
    by rewrite lookup_app_l. }
  rewrite !Hl by done.
  destruct (lookup_lt_is_Some_2 mid i Hi) as [x ->].
  destruct (lookup_lt_is_Some_2 mid j Hj) as [y ->].
  rewrite !insert_app_r. f_equal.
  rewrite insert_app_l by done.
  rewrite insert_app_l by (by rewrite length_insert). done.
Qed.

Lemma perm_swap_ends {A} (M Q : list A) (x y : A) :
  y :: M ++ x :: Q ≡ₚ x :: M ++ y :: Q.
Proof. rewrite <- !Permutation_middle. apply perm_swap. Qed.

Section InRange.
Context {A : Type} (less : A -> A -> bool).
Local Open Scope Z_scope.

Lemma at_middle (P Q : list A) (x : A) (i : Z) :
  i = Z.of_nat (length P) -> (P ++ x :: Q) !! Z.to_nat i = Some x.
Proof. intros ->. rewrite Nat2Z.id. apply list_lookup_middle. done. Qed.

Lemma Less_at (data : list A) (i j : Z) (x y : A) :
  data !! Z.to_nat i = Some x -> data !! Z.to_nat j = Some y ->
  sort.Less less data i j = less x y.
Proof. unfold sort.Less. by intros -> ->. Qed.

Lemma Swap_middle (pre mid post : list A) (a i j : Z) :
  a = Z.of_nat (length pre) ->
  a <= i < a + Z.of_nat (length mid) -> a <= j < a + Z.of_nat (length mid) ->
  sort.Swap (pre ++ mid ++ post) i j
  = pre ++ swap mid (Z.to_nat (i - a)) (Z.to_nat (j - a)) ++ post.
Proof.
  intros -> Hi Hj. unfold sort.Swap.
  rewrite <- swap_middle by lia. f_equal; lia.
Qed.

Lemma Swap_within (pre mid post : list A) (a i j : Z) :
  a = Z.of_nat (length pre) ->
  a <= i < a + Z.of_nat (length mid) -> a <= j < a + Z.of_nat (length mid) ->
  exists mid', sort.Swap (pre ++ mid ++ post) i j = pre ++ mid' ++ post
               /\ mid' ≡ₚ mid.
Proof.
  intros Ha Hi Hj. eexists. split; [by apply (Swap_middle _ _ _ a)|].
  apply swap_Permutation.
Qed.

Lemma Swap_ends (P M Q : list A) (x y : A) (i j : Z) :
  i = Z.of_nat (length P) -> j = i + 1 + Z.of_nat (length M) ->
  sort.Swap (P ++ x :: M ++ y :: Q) i j = P ++ y :: M ++ x :: Q.
Proof.
  intros -> ->. unfold sort.Swap. rewrite Nat2Z.id.
  replace (Z.to_nat (Z.of_nat (length P) + 1 + Z.of_nat (length M)))
    with (length P + S (length M))%nat by lia.
  apply swap_ends.
Qed.

Lemma Swap_sym (data : list A) (i j : Z) : sort.Swap data i j = sort.Swap data j i.
Proof. apply swap_sym. Qed.

Lemma Swap_same (data : list A) (i : Z) : sort.Swap data i i = data.
Proof. apply swap_same. Qed.

(** The swap that puts the pivot between the two parts. *)
Lemma Swap_pivot (pre L Q : list A) (p : A) (a j : Z) :
  a = Z.of_nat (length pre) -> j = a + Z.of_nat (length L) ->
  exists L', sort.Swap (pre ++ p :: L ++ Q) j a = pre ++ L' ++ p :: Q
             /\ L' ≡ₚ L.
Proof.
  intros Ha Hj. destruct L as [|z L _] using rev_ind.
  - exists []. cbn [length app] in *. replace j with a by lia.
    by rewrite Swap_same.
  - exists (z :: L). split; [|by rewrite Permutation_app_comm].
    rewrite Swap_sym. rewrite <- (app_assoc L). cbn [app].
    rewrite (Swap_ends pre L Q p z a j) by len. done.
Qed.

End InRange.

(** ** [partition_func] *)

Section Partition.
Context {A : Type} (less : A -> A -> bool).
Local Open Scope Z_scope.

Lemma scan_up_spec (pre : list A) (p : A) (a : Z) (M L Q data : list A)
    (n : nat) (i j : Z) :
  a = Z.of_nat (length pre) ->
  data = pre ++ p :: L ++ M ++ Q ->
  i = a + 1 + Z.of_nat (length L) -> j = i + Z.of_nat (length M) - 1 ->
  (length M <= n)%nat ->
  exists L2 M2,
    M = L2 ++ M2 /\ Forall (fun x => less x p = true) L2
    /\ sort.scan_up less n data a i j = i + Z.of_nat (length L2)
    /\ match M2 with [] => True | x :: _ => less x p = false end.
Proof.
  intros Ha. revert L n i j.
  induction M as [|x M IH]; intros L n i j Hdata Hi Hj Hn.
  { exists [], []. repeat split; [constructor|].
    destruct n as [|n]; cbn [sort.scan_up length] in *; [lia|].
    rewrite (proj2 (Z.leb_gt _ _)) by lia. cbn. lia. }
  destruct n as [|n]; [cbn [length] in Hn; lia|].
  cbn [sort.scan_up]. rewrite (proj2 (Z.leb_le _ _)) by len. cbn [andb].
  assert (data !! Z.to_nat i = Some x) as Hx.
  { replace data with ((pre ++ p :: L) ++ x :: (M ++ Q)) by list_eq_norm.
    apply at_middle. len. }
  assert (data !! Z.to_nat a = Some p) as Hp.
  { rewrite Hdata. by apply at_middle. }
  rewrite (Less_at less data i a x p Hx Hp).
  destruct (less x p) eqn:Hxp.
  - destruct (IH (L ++ [x]) n (i + 1) j) as (L2 & M2 & -> & HL2 & Hs & HM2).
    + list_eq_norm.
    + len.
    + len.
    + len.
    + exists (x :: L2), M2. repeat split; [by constructor| |done].
      rewrite Hs. len.
  - exists [], (x :: M). repeat split; [constructor| |done]. cbn. lia.
Qed.

Lemma scan_down_spec (pre : list A) (p : A) (a : Z) (M L Q data : list A)
    (n : nat) (i j : Z) :
  a = Z.of_nat (length pre) ->
  data = pre ++ p :: L ++ M ++ Q ->
  i = a + 1 + Z.of_nat (length L) -> j = i + Z.of_nat (length M) - 1 ->
  (length M <= n)%nat ->
  exists M2 R2,
    M = M2 ++ R2 /\ Forall (fun x => less x p = false) R2
    /\ sort.scan_down less n data a i j = j - Z.of_nat (length R2)
    /\ match last M2 with None => True | Some y => less y p = true end.
Proof.
  intros Ha. revert Q n j.
  induction M as [|y M IH] using rev_ind; intros Q n j Hdata Hi Hj Hn.
  { exists [], []. repeat split; [constructor|].
    destruct n as [|n]; cbn [sort.scan_down length] in *; [lia|].
    rewrite (proj2 (Z.leb_gt _ _)) by lia. cbn. lia. }
  destruct n as [|n]; [len|].
  cbn [sort.scan_down]. rewrite (proj2 (Z.leb_le _ _)) by len. cbn [andb].
  assert (data !! Z.to_nat j = Some y) as Hy.
  { replace data with ((pre ++ p :: L ++ M) ++ y :: Q) by list_eq_norm.
    apply at_middle. len. }
  assert (data !! Z.to_nat a = Some p) as Hp.
  { rewrite Hdata. by apply at_middle. }
  rewrite (Less_at less data j a y p Hy Hp).
  destruct (less y p) eqn:Hyp; cbn [negb].
  - exists (M ++ [y]), []. rewrite app_nil_r, last_snoc.
    repeat split; [constructor|cbn; lia|done].
  - destruct (IH (y :: Q) n (j - 1)) as (M2 & R2 & -> & HR2 & Hs & HM2).
    + list_eq_norm.
    + done.
    + len.
    + len.
    + exists M2, (R2 ++ [y]). rewrite app_assoc.
      repeat split; [|rewrite Hs; len|done].
      apply Forall_app. split; [done|by repeat constructor].
Qed.

(** The two scans of one turn of the loop: what is left between them is
    empty or starts with an element that is not less than the pivot and ends
    with one that is. *)
Lemma scans_spec (pre : list A) (p : A) (a : Z) (M L Q data : list A) (i j : Z) :
  a = Z.of_nat (length pre) ->
  data = pre ++ p :: L ++ M ++ Q ->
  i = a + 1 + Z.of_nat (length L) -> j = i + Z.of_nat (length M) - 1 ->
  let i' := sort.scan_up less (Z.to_nat (j - i + 1)) data a i j in
  let j' := sort.scan_down less (Z.to_nat (j - i' + 1)) data a i' j in
  exists L2 Mm R2,
    M = L2 ++ Mm ++ R2
    /\ Forall (fun x => less x p = true) L2
    /\ Forall (fun x => less x p = false) R2
    /\ i' = i + Z.of_nat (length L2) /\ j' = j - Z.of_nat (length R2)
    /\ (Mm = [] \/ exists x M' y, Mm = x :: M' ++ [y]
                                  /\ less x p = false /\ less y p = true).
Proof.
  intros Ha Hdata Hi Hj i' j'.
  destruct (scan_up_spec pre p a M L Q data (Z.to_nat (j - i + 1)) i j)
    as (L2 & M2 & HM & HL2 & Hi' & Hhead); [done..|lia|].
  fold i' in Hi'.
  destruct (scan_down_spec pre p a M2 (L ++ L2) Q data
              (Z.to_nat (j - i' + 1)) i' j)
    as (Mm & R2 & HM2 & HR2 & Hj' & Hlast); [done|..].
  { list_eq_norm. }
  { rewrite Hi'. len. }
  { subst M. len. }
  { subst M. len. }
  fold j' in Hj'.
  exists L2, Mm, R2. subst M M2. repeat split; try done.
  destruct Mm as [|x t]; [by left|right].
  cbn [app] in Hhead.
  destruct t as [|y t _] using rev_ind.
  { cbn in Hlast. congruence. }
  exists x, t, y. split; [done|]. split; [done|].
  rewrite app_comm_cons, last_snoc in Hlast. done.
Qed.

Lemma partition_loop_spec (pre post : list A) (p : A) (a : Z) (n : nat) :
  a = Z.of_nat (length pre) ->
  forall (L M R data : list A) (i j : Z),
  data = pre ++ p :: L ++ M ++ R ++ post ->
  i = a + 1 + Z.of_nat (length L) -> j = i + Z.of_nat (length M) - 1 ->
  (length M + 1 <= n)%nat ->
  Forall (fun x => less x p = true) L ->
  Forall (fun x => less x p = false) R ->
  exists L' R',
    sort.partition_loop less n data a i j
    = (pre ++ p :: L' ++ R' ++ post, a + Z.of_nat (length L'))
    /\ L' ++ R' ≡ₚ L ++ M ++ R
    /\ Forall (fun x => less x p = true) L'
    /\ Forall (fun x => less x p = false) R'.
Proof.
  intros Ha. induction n as [|n IH];
    intros L M R data i j Hdata Hi Hj Hn HL HR; [lia|].
  cbn [sort.partition_loop].
  destruct (scans_spec pre p a M L (R ++ post) data i j Ha Hdata Hi Hj)
    as (L2 & Mm & R2 & HM & HL2 & HR2 & Hi' & Hj' & HMm).
  cbv zeta. rewrite Hj', Hi'.
  destruct HMm as [->|(x & M' & y & -> & Hx & Hy)].
  - rewrite (proj2 (Z.ltb_lt _ _)) by (subst M; len).
    exists (L ++ L2), (R2 ++ R). repeat split.
    + f_equal; [list_eq_norm|subst M; len].
    + rewrite HM. by app_norm.
    + by apply Forall_app.
    + by apply Forall_app.
  - rewrite (proj2 (Z.ltb_ge _ _)) by (subst M; len).
    assert (data = (pre ++ p :: L ++ L2) ++ x :: M' ++ y :: (R2 ++ R ++ post))
      as Hdata'.
    { list_eq_norm. }
    rewrite Hdata'.
    rewrite (Swap_ends (pre ++ p :: L ++ L2) M' (R2 ++ R ++ post) x y)
      by (subst M; len).
    destruct (IH (L ++ L2 ++ [y]) M' (x :: R2 ++ R)
                ((pre ++ p :: L ++ L2) ++ y :: M' ++ x :: R2 ++ R ++ post)
                (i + Z.of_nat (length L2) + 1)
                (j - Z.of_nat (length R2) - 1))
      as (L' & R' & Hloop & Hperm & HL' & HR').
    + list_eq_norm.
    + len.
    + subst M. len.
    + subst M. len.
    + apply Forall_app. split; [done|].
      apply Forall_app. split; [done|by repeat constructor].
    + constructor; [done|]. by apply Forall_app.
    + exists L', R'. split; [exact Hloop|]. split; [|done].
      rewrite Hperm, HM. app_norm.
      do 2 apply Permutation_app_head. apply perm_swap_ends.
Qed.

(** [partition_func] puts the elements that are less than the pivot in front
    of it and the others behind it. *)
Lemma partition_spec (pre mid post : list A) (a b pivot : Z) :
  a = Z.of_nat (length pre) -> b = a + Z.of_nat (length mid) ->
  a <= pivot < b ->
  exists L p R alreadyPartitioned,
    sort.partition_func less (pre ++ mid ++ post) a b pivot
    = (pre ++ L ++ p :: R ++ post, a + Z.of_nat (length L), alreadyPartitioned)
    /\ L ++ p :: R ≡ₚ mid
    /\ Forall (fun x => less x p = true) L
    /\ Forall (fun x => less x p = false) R.
Proof.
  intros Ha Hb Hpivot. unfold sort.partition_func.
  destruct (Swap_within pre mid post a a pivot Ha) as (mid1 & -> & Hmid1);
    [lia..|].
  destruct mid1 as [|p body].
  { apply Permutation_length in Hmid1. cbn in Hmid1. lia. }
  assert (Z.of_nat (length mid) = 1 + Z.of_nat (length body)) as Hlen.
  { apply Permutation_length in Hmid1. cbn in Hmid1. lia. }
  cbn [app].
  destruct (scans_spec pre p a body [] post (pre ++ p :: body ++ post)
              (a + 1) (b - 1) Ha)
    as (L2 & Mm & R2 & HM & HL2 & HR2 & Hi' & Hj' & HMm);
    [done|cbn; lia|lia|].
  cbv zeta. rewrite Hj', Hi'.
  destruct HMm as [->|(x & M' & y & -> & Hx & Hy)].
  - rewrite (proj2 (Z.ltb_lt _ _)) by (subst body; len).
    cbn [app] in HM. subst body.
    destruct (Swap_pivot pre L2 (R2 ++ post) p a
                (b - 1 - Z.of_nat (length R2)) Ha) as (L' & HS & HL'); [len|].
    rewrite <- app_assoc, HS.
    exists L', p, R2, true. repeat split.
    + f_equal. f_equal. rewrite (Permutation_length HL'). len.
    + rewrite <- Hmid1, HL'. by rewrite <- Permutation_middle.
    + by rewrite HL'.
    + done.
  - rewrite (proj2 (Z.ltb_ge _ _)) by (subst body; len).
    assert (pre ++ p :: body ++ post
            = (pre ++ p :: L2) ++ x :: M' ++ y :: (R2 ++ post)) as Hdata'.
    { list_eq_norm. }
    rewrite Hdata'.
    rewrite (Swap_ends (pre ++ p :: L2) M' (R2 ++ post) x y)
      by (subst body; len).
    destruct (partition_loop_spec pre post p a
                (Z.to_nat (b - 1 - Z.of_nat (length R2) - 1
                           - (a + 1 + Z.of_nat (length L2) + 1) + 2)) Ha
                (L2 ++ [y]) M' (x :: R2)
                ((pre ++ p :: L2) ++ y :: M' ++ x :: R2 ++ post)
                (a + 1 + Z.of_nat (length L2) + 1)
                (b - 1 - Z.of_nat (length R2) - 1))
      as (L' & R' & Hloop & Hperm & HL' & HR').
    + list_eq_norm.
    + len.
    + subst body. len.
    + subst body. len.
    + apply Forall_app. split; [done|by repeat constructor].
    + by constructor.
    + rewrite Hloop.
      destruct (Swap_pivot pre L' (R' ++ post) p a
                  (a + Z.of_nat (length L')) Ha) as (L'' & HS & HL''); [done|].
      rewrite HS.
      exists L'', p, R', false. repeat split.
      * f_equal. f_equal. by rewrite (Permutation_length HL'').
      * rewrite <- Hmid1, HL'', <- Permutation_middle. constructor.
        rewrite Hperm, HM. app_norm.
        apply Permutation_app_head. apply perm_swap_ends.
      * by rewrite HL''.
      * done.
Qed.

End Partition.

(** ** [partitionEqual_func] *)

Section PartitionEqual.
Context {A : Type} (less : A -> A -> bool).
Local Open Scope Z_scope.

Lemma scanEq_up_spec (pre : list A) (p : A) (a : Z) (M L Q data : list A)
    (n : nat) (i j : Z) :
  a = Z.of_nat (length pre) ->
  data = pre ++ p :: L ++ M ++ Q ->
  i = a + 1 + Z.of_nat (length L) -> j = i + Z.of_nat (length M) - 1 ->
  (length M <= n)%nat ->
  exists L2 M2,
    M = L2 ++ M2 /\ Forall (fun x => less p x = false) L2
    /\ sort.scanEq_up less n data a i j = i + Z.of_nat (length L2)
    /\ match M2 with [] => True | x :: _ => less p x = true end.
Proof.
  intros Ha. revert L n i j.
  induction M as [|x M IH]; intros L n i j Hdata Hi Hj Hn.
  { exists [], []. repeat split; [constructor|].
    destruct n as [|n]; cbn [sort.scanEq_up length] in *; [lia|].
    rewrite (proj2 (Z.leb_gt _ _)) by lia. cbn. lia. }
  destruct n as [|n]; [cbn [length] in Hn; lia|].
  cbn [sort.scanEq_up]. rewrite (proj2 (Z.leb_le _ _)) by len. cbn [andb].
  assert (data !! Z.to_nat i = Some x) as Hx.
  { replace data with ((pre ++ p :: L) ++ x :: (M ++ Q)) by list_eq_norm.
    apply at_middle. len. }
  assert (data !! Z.to_nat a = Some p) as Hp.
  { rewrite Hdata. by apply at_middle. }
  rewrite (Less_at less data a i p x Hp Hx).
  destruct (less p x) eqn:Hxp; cbn [negb].
  - exists [], (x :: M). repeat split; [constructor| |done]. cbn. lia.
  - destruct (IH (L ++ [x]) n (i + 1) j) as (L2 & M2 & -> & HL2 & Hs & HM2).
    + list_eq_norm.
    + len.
    + len.
    + len.
    + exists (x :: L2), M2. repeat split; [by constructor| |done].
      rewrite Hs. len.
Qed.

Lemma scanEq_down_spec (pre : list A) (p : A) (a : Z) (M L Q data : list A)
    (n : nat) (i j : Z) :
  a = Z.of_nat (length pre) ->
  data = pre ++ p :: L ++ M ++ Q ->
  i = a + 1 + Z.of_nat (length L) -> j = i + Z.of_nat (length M) - 1 ->
  (length M <= n)%nat ->
  exists M2 R2,
    M = M2 ++ R2 /\ Forall (fun x => less p x = true) R2
    /\ sort.scanEq_down less n data a i j = j - Z.of_nat (length R2)
    /\ match last M2 with None => True | Some y => less p y = false end.
Proof.
  intros Ha. revert Q n j.
  induction M as [|y M IH] using rev_ind; intros Q n j Hdata Hi Hj Hn.
  { exists [], []. repeat split; [constructor|].
    destruct n as [|n]; cbn [sort.scanEq_down length] in *; [lia|].
    rewrite (proj2 (Z.leb_gt _ _)) by lia. cbn. lia. }
  destruct n as [|n]; [len|].
  cbn [sort.scanEq_down]. rewrite (proj2 (Z.leb_le _ _)) by len. cbn [andb].
  assert (data !! Z.to_nat j = Some y) as Hy.
  { replace data with ((pre ++ p :: L ++ M) ++ y :: Q) by list_eq_norm.
    apply at_middle. len. }
  assert (data !! Z.to_nat a = Some p) as Hp.
  { rewrite Hdata. by apply at_middle. }
  rewrite (Less_at less data a j p y Hp Hy).
  destruct (less p y) eqn:Hyp.
  - destruct (IH (y :: Q) n (j - 1)) as (M2 & R2 & -> & HR2 & Hs & HM2).
    + list_eq_norm.
    + done.
    + len.
    + len.
    + exists M2, (R2 ++ [y]). rewrite app_assoc.
      repeat split; [|rewrite Hs; len|done].
      apply Forall_app. split; [done|by repeat constructor].
  - exists (M ++ [y]), []. rewrite app_nil_r, last_snoc.
    repeat split; [constructor|cbn; lia|done].
Qed.

Lemma scansEq_spec (pre : list A) (p : A) (a : Z) (M L Q data : list A)
    (i j : Z) :
  a = Z.of_nat (length pre) ->
  data = pre ++ p :: L ++ M ++ Q ->
  i = a + 1 + Z.of_nat (length L) -> j = i + Z.of_nat (length M) - 1 ->
  let i' := sort.scanEq_up less (Z.to_nat (j - i + 1)) data a i j in
  let j' := sort.scanEq_down less (Z.to_nat (j - i' + 1)) data a i' j in
  exists L2 Mm R2,
    M = L2 ++ Mm ++ R2
    /\ Forall (fun x => less p x = false) L2
    /\ Forall (fun x => less p x = true) R2
    /\ i' = i + Z.of_nat (length L2) /\ j' = j - Z.of_nat (length R2)
    /\ (Mm = [] \/ exists x M' y, Mm = x :: M' ++ [y]
                                  /\ less p x = true /\ less p y = false).
Proof.
  intros Ha Hdata Hi Hj i' j'.
  destruct (scanEq_up_spec pre p a M L Q data (Z.to_nat (j - i + 1)) i j)
    as (L2 & M2 & HM & HL2 & Hi' & Hhead); [done..|lia|].
  fold i' in Hi'.
  destruct (scanEq_down_spec pre p a M2 (L ++ L2) Q data
              (Z.to_nat (j - i' + 1)) i' j)
    as (Mm & R2 & HM2 & HR2 & Hj' & Hlast); [done|..].
  { list_eq_norm. }
  { rewrite Hi'. len. }
  { subst M. len. }
  { subst M. len. }
  fold j' in Hj'.
  exists L2, Mm, R2. subst M M2. repeat split; try done.
  destruct Mm as [|x t]; [by left|right].
  cbn [app] in Hhead.
  destruct t as [|y t _] using rev_ind.
  { cbn in Hlast. congruence. }
  exists x, t, y. split; [done|]. split; [done|].
  rewrite app_comm_cons, last_snoc in Hlast. done.
Qed.

Lemma partitionEqual_loop_spec (pre post : list A) (p : A) (a : Z) (n : nat) :
  a = Z.of_nat (length pre) ->
  forall (L M R data : list A) (i j : Z),
  data = pre ++ p :: L ++ M ++ R ++ post ->
  i = a + 1 + Z.of_nat (length L) -> j = i + Z.of_nat (length M) - 1 ->
  (length M + 1 <= n)%nat ->
  Forall (fun x => less p x = false) L ->
  Forall (fun x => less p x = true) R ->
  exists L' R',
    sort.partitionEqual_loop less n data a i j
    = (pre ++ p :: L' ++ R' ++ post, a + 1 + Z.of_nat (length L'))
    /\ L' ++ R' ≡ₚ L ++ M ++ R
    /\ Forall (fun x => less p x = false) L'
    /\ Forall (fun x => less p x = true) R'.
Proof.
  intros Ha. induction n as [|n IH];
    intros L M R data i j Hdata Hi Hj Hn HL HR; [lia|].
  cbn [sort.partitionEqual_loop].
  destruct (scansEq_spec pre p a M L (R ++ post) data i j Ha Hdata Hi Hj)
    as (L2 & Mm & R2 & HM & HL2 & HR2 & Hi' & Hj' & HMm).
  cbv zeta. rewrite Hj', Hi'.
  destruct HMm as [->|(x & M' & y & -> & Hx & Hy)].
  - rewrite (proj2 (Z.ltb_lt _ _)) by (subst M; len).
    exists (L ++ L2), (R2 ++ R). repeat split.
    + f_equal; [list_eq_norm|subst M; len].
    + rewrite HM. by app_norm.
    + by apply Forall_app.
    + by apply Forall_app.
  - rewrite (proj2 (Z.ltb_ge _ _)) by (subst M; len).
    assert (data = (pre ++ p :: L ++ L2) ++ x :: M' ++ y :: (R2 ++ R ++ post))
      as Hdata'.
    { list_eq_norm. }
    rewrite Hdata'.
    rewrite (Swap_ends (pre ++ p :: L ++ L2) M' (R2 ++ R ++ post) x y)
      by (subst M; len).
    destruct (IH (L ++ L2 ++ [y]) M' (x :: R2 ++ R)
                ((pre ++ p :: L ++ L2) ++ y :: M' ++ x :: R2 ++ R ++ post)
                (i + Z.of_nat (length L2) + 1)
                (j - Z.of_nat (length R2) - 1))
      as (L' & R' & Hloop & Hperm & HL' & HR').
    + list_eq_norm.
    + len.
    + subst M. len.
    + subst M. len.
    + apply Forall_app. split; [done|].
      apply Forall_app. split; [done|by repeat constructor].
    + constructor; [done|]. by apply Forall_app.
    + exists L', R'. split; [exact Hloop|]. split; [|done].
      rewrite Hperm, HM. app_norm.
      do 2 apply Permutation_app_head. apply perm_swap_ends.
Qed.

(** The first swap of the two partitions brings the pivot to the front of the
    range. *)
Lemma Swap_pivot_front (pre mid post : list A) (a b pivot : Z) :
  a = Z.of_nat (length pre) -> b = a + Z.of_nat (length mid) ->
  a <= pivot < b ->
  exists p body,
    (pre ++ mid ++ post) !! Z.to_nat pivot = Some p
    /\ sort.Swap (pre ++ mid ++ post) a pivot = pre ++ p :: body ++ post
    /\ p :: body ≡ₚ mid.
Proof.
  intros Ha Hb Hpivot.
  rewrite (Swap_middle pre mid post a a pivot) by lia.
  assert ((pre ++ mid ++ post) !! Z.to_nat pivot
          = mid !! Z.to_nat (pivot - a)) as Hl.
  { rewrite lookup_app_r by lia. rewrite lookup_app_l by lia. f_equal. lia. }
  rewrite Hl.
  pose proof (swap_Permutation mid (Z.to_nat (a - a)) (Z.to_nat (pivot - a)))
    as Hperm.
  revert Hperm. unfold swap. rewrite Z.sub_diag.
  change (Z.to_nat 0) with 0%nat.
  destruct mid as [|m0 mid]; [cbn in Hb; lia|].
  destruct (lookup_lt_is_Some_2 (m0 :: mid) (Z.to_nat (pivot - a)))
    as [p Hp]; [cbn [length] in *; lia|].
  rewrite Hp. cbn [lookup list_lookup].
  destruct (<[Z.to_nat (pivot - a):=m0]> (m0 :: mid)) as [|z body] eqn:E.
  { apply (f_equal length) in E. rewrite length_insert in E. cbn in E. lia. }
  cbn [insert list_insert]. intros Hperm.
  exists p, body. split; [done|]. split; [done|]. exact Hperm.
Qed.

(** [partitionEqual_func] puts the elements that the pivot is not less than
    in front, the pivot first, and those it is less than behind them. *)
Lemma partitionEqual_spec (pre mid post : list A) (a b pivot : Z) :
  a = Z.of_nat (length pre) -> b = a + Z.of_nat (length mid) ->
  a <= pivot < b ->
  exists p E G,
    (pre ++ mid ++ post) !! Z.to_nat pivot = Some p
    /\ sort.partitionEqual_func less (pre ++ mid ++ post) a b pivot
       = (pre ++ (p :: E) ++ G ++ post, a + 1 + Z.of_nat (length E))
    /\ p :: E ++ G ≡ₚ mid
    /\ Forall (fun x => less p x = false) E
    /\ Forall (fun x => less p x = true) G.
Proof.
  intros Ha Hb Hpivot. unfold sort.partitionEqual_func.
  destruct (Swap_pivot_front pre mid post a b pivot Ha Hb Hpivot)
    as (p & body & Hp & -> & Hperm).
  assert (Z.of_nat (length mid) = 1 + Z.of_nat (length body)) as Hlen.
  { apply Permutation_length in Hperm. cbn in Hperm. lia. }
  destruct (partitionEqual_loop_spec pre post p a (Z.to_nat (b - a + 1)) Ha
              [] body [] (pre ++ p :: body ++ post) (a + 1) (b - 1))
    as (E & G & Hloop & HEG & HE & HG).
  - done.
  - cbn. lia.
  - lia.
  - lia.
  - constructor.
  - constructor.
  - exists p, E, G. rewrite Hloop. repeat split; try done.
    rewrite <- Hperm. constructor. rewrite HEG. cbn [app]. by rewrite app_nil_r.
Qed.

End PartitionEqual.

(** ** The pivot and the shuffles stay inside [data[a:b]] *)

Section Shuffles.
Context {A : Type} (less : A -> A -> bool).
Local Open Scope Z_scope.

Lemma median_bounds (data : list A) (a b c swaps : Z) :
  Z.min a (Z.min b c) <= (sort.median_func less data a b c swaps).1
  <= Z.max a (Z.max b c).
Proof.
  unfold sort.median_func, sort.order2_func.
  destruct (sort.Less less data b a); destruct (sort.Less less data c _);
    destruct (sort.Less less data _ _); cbn [fst]; lia.
Qed.

Lemma medianAdjacent_bounds (data : list A) (a swaps : Z) :
  a - 1 <= (sort.medianAdjacent_func less data a swaps).1 <= a + 1.
Proof.
  unfold sort.medianAdjacent_func.
  pose proof (median_bounds data (a - 1) a (a + 1) swaps). lia.
Qed.

(** [choosePivot_func] returns an index of the range. *)
Lemma choosePivot_bounds (data : list A) (a b : Z) :
  8 <= b - a -> a <= (sort.choosePivot_func less data a b).1 < b.
Proof.
  intros Hlen. unfold sort.choosePivot_func. cbv zeta.
  rewrite (proj2 (Z.leb_le 8 (b - a))) by done.
  assert (2 <= Z.quot (b - a) 4 /\ 4 * Z.quot (b - a) 4 <= b - a) as Hq.
  { rewrite Z.quot_div_nonneg by lia.
    pose proof (Z.div_mod (b - a) 4). pose proof (Z.mod_pos_bound (b - a) 4).
    lia. }
  set (q := Z.quot (b - a) 4) in *.
  destruct (50 <=? b - a) eqn:E50.
  - assert (12 <= q) as Hq12.
    { unfold q. rewrite Z.quot_div_nonneg by lia.
      pose proof (Z.div_mod (b - a) 4). pose proof (Z.mod_pos_bound (b - a) 4).
      lia. }
    pose proof (medianAdjacent_bounds data (a + q * 1) 0) as H1.
    destruct (sort.medianAdjacent_func less data (a + q * 1) 0) as [i s1].
    pose proof (medianAdjacent_bounds data (a + q * 2) s1) as H2.
    destruct (sort.medianAdjacent_func less data (a + q * 2) s1) as [j s2].
    pose proof (medianAdjacent_bounds data (a + q * 3) s2) as H3.
    destruct (sort.medianAdjacent_func less data (a + q * 3) s2) as [k s3].
    pose proof (median_bounds data i j k s3) as H4.
    destruct (sort.median_func less data i j k s3) as [m s4].
    cbn [fst] in *.
    destruct (s4 =? 0); [cbn; lia|]. destruct (s4 =? 4 * 3); cbn; lia.
  - pose proof (median_bounds data (a + q * 1) (a + q * 2) (a + q * 3) 0) as H4.
    destruct (sort.median_func less data _ _ _ 0) as [m s4].
    cbn [fst] in *.
    destruct (s4 =? 0); [cbn; lia|]. destruct (s4 =? 4 * 3); cbn; lia.
Qed.

Lemma reverseRange_loop_within (pre post : list A) (a b : Z) (n : nat) :
  a = Z.of_nat (length pre) ->
  forall (mid : list A) (i j : Z),
  b = a + Z.of_nat (length mid) -> a <= i -> j < b ->
  exists mid',
    sort.reverseRange_loop n (pre ++ mid ++ post) i j = pre ++ mid' ++ post
    /\ mid' ≡ₚ mid.
Proof.
  intros Ha. induction n as [|n IH]; intros mid i j Hb Hi Hj;
    cbn [sort.reverseRange_loop]; [by exists mid|].
  destruct (i <? j) eqn:E; [|by exists mid].
  destruct (Swap_within pre mid post a i j Ha) as (mid1 & -> & Hmid1);
    [lia..|].
  destruct (IH mid1 (i + 1) (j - 1)) as (mid' & -> & Hmid'); [|lia..|].
  { rewrite (Permutation_length Hmid1). done. }
  exists mid'. split; [done|]. by rewrite Hmid'.
Qed.

Lemma nextPowerOfTwo_bounds (length : Z) :
  0 < length ->
  exists k, 0 <= k /\ sort.nextPowerOfTwo length = 2 ^ k /\ 2 ^ k <= 2 * length.
Proof.
  intros Hlen. unfold sort.nextPowerOfTwo, sort.bits_Len.
  rewrite (proj2 (Z.eqb_neq length 0)) by lia.
  pose proof (Z.log2_nonneg length) as Hnn.
  exists (Z.log2 length + 1). split; [lia|].
  rewrite Z.shiftl_1_l. split; [done|].
  rewrite Z.pow_add_r by lia. pose proof (Z.log2_spec length Hlen). lia.
Qed.

Lemma breakPatterns_other (length random : Z) :
  0 < length ->
  let other := Z.land random (sort.nextPowerOfTwo length - 1) in
  0 <= (if length <=? other then other - length else other) < length.
Proof.
  intros Hlen other.
  destruct (nextPowerOfTwo_bounds length Hlen) as (k & Hk & Hp & Hle).
  assert (0 <= other < 2 ^ k) as Ho.
  { unfold other. rewrite Hp.
    replace (2 ^ k - 1) with (Z.ones k) by (rewrite Z.ones_equiv; lia).
    rewrite Z.land_ones by done. apply Z.mod_pos_bound. lia. }
  destruct (length <=? other) eqn:E; lia.
Qed.

(** [breakPatterns_func] swaps elements of the range. *)
Lemma breakPatterns_within (pre mid post : list A) (a b : Z) :
  a = Z.of_nat (length pre) -> b = a + Z.of_nat (length mid) ->
  exists mid',
    sort.breakPatterns_func (pre ++ mid ++ post) a b = pre ++ mid' ++ post
    /\ mid' ≡ₚ mid.
Proof.
  intros Ha Hb. unfold sort.breakPatterns_func. cbv zeta.
  destruct (8 <=? b - a) eqn:E8; [|by exists mid].
  assert (2 <= Z.quot (b - a) 4 /\ 4 * Z.quot (b - a) 4 <= b - a) as Hq.
  { rewrite Z.quot_div_nonneg by lia.
    pose proof (Z.div_mod (b - a) 4). pose proof (Z.mod_pos_bound (b - a) 4).
    lia. }
  set (q := Z.quot (b - a) 4) in *.
  cbn [fold_left].
  set (r1 := sort.xorshift_Next (b - a)).
  pose proof (breakPatterns_other (b - a) r1 ltac:(lia)) as Ho1.
  cbv zeta in Ho1.
  destruct (Swap_within pre mid post a (a + q * 2 - 1 - 1 + 0)
              (a + (if b - a <=? Z.land r1 (sort.nextPowerOfTwo (b - a) - 1)
                    then Z.land r1 (sort.nextPowerOfTwo (b - a) - 1) - (b - a)
                    else Z.land r1 (sort.nextPowerOfTwo (b - a) - 1))) Ha)
    as (mid1 & -> & Hmid1); [lia..|].
  set (r2 := sort.xorshift_Next r1).
  pose proof (breakPatterns_other (b - a) r2 ltac:(lia)) as Ho2.
  cbv zeta in Ho2.
  assert (Z.of_nat (length mid1) = Z.of_nat (length mid)) as Hl1.
  { by rewrite (Permutation_length Hmid1). }
  destruct (Swap_within pre mid1 post a (a + q * 2 - 1 - 1 + 1)
              (a + (if b - a <=? Z.land r2 (sort.nextPowerOfTwo (b - a) - 1)
                    then Z.land r2 (sort.nextPowerOfTwo (b - a) - 1) - (b - a)
                    else Z.land r2 (sort.nextPowerOfTwo (b - a) - 1))) Ha)
    as (mid2 & -> & Hmid2); [lia..|].
  set (r3 := sort.xorshift_Next r2).
  pose proof (breakPatterns_other (b - a) r3 ltac:(lia)) as Ho3.
  cbv zeta in Ho3.
  assert (Z.of_nat (length mid2) = Z.of_nat (length mid)) as Hl2.
  { by rewrite (Permutation_length Hmid2), (Permutation_length Hmid1). }
  destruct (Swap_within pre mid2 post a (a + q * 2 - 1 - 1 + 2)
              (a + (if b - a <=? Z.land r3 (sort.nextPowerOfTwo (b - a) - 1)
                    then Z.land r3 (sort.nextPowerOfTwo (b - a) - 1) - (b - a)
                    else Z.land r3 (sort.nextPowerOfTwo (b - a) - 1))) Ha)
    as (mid3 & -> & Hmid3); [lia..|].
  exists mid3. split; [done|]. by rewrite Hmid3, Hmid2.
Qed.

End Shuffles.

(** ** [partialInsertionSort_func] *)

Section PartialInsertionSort.
Context {A : Type} (less : A -> A -> bool) (Hless : strict_weak_order less).
Local Open Scope Z_scope.

Lemma in_order_snoc_intro (l : list A) (y : A) :
  in_order less l -> Forall (fun z => less y z = false) l ->
  in_order less (l ++ [y]).
Proof.
  unfold in_order. induction 1 as [|z l Hl IH Hz]; intros Hy; cbn [app].
  { repeat constructor. }
  apply Forall_cons in Hy as [Hyz Hy].
  constructor; [by apply IH|]. apply Forall_app. split; [done|].
  by repeat constructor.
Qed.

Lemma in_order_last (l : list A) (y x : A) :
  in_order less l -> last l = Some y -> less x y = false ->
  Forall (fun z => less x z = false) l.
Proof.
  intros Hl Hy Hxy. destruct l as [|z l _] using rev_ind; [constructor|].
  rewrite last_snoc in Hy. injection Hy as ->.
  apply (in_order_snoc less) in Hl as [_ Hl].
  apply Forall_app. split; [|by repeat constructor].
  eapply Forall_impl; [exact Hl|]. cbn. intros z Hyz.
  by apply (less_negtrans less Hless x y z).
Qed.

Lemma floor_Permutation (pre mid mid' : list A) :
  mid' ≡ₚ mid -> floor less pre mid -> floor less pre mid'.
Proof.
  unfold floor. intros Hperm. destruct (last pre); [|done].
  by rewrite Hperm.
Qed.

Lemma skip_sorted_spec (pre post : list A) (a b : Z) :
  a = Z.of_nat (length pre) ->
  forall (rest s data : list A) (n : nat) (i : Z),
  data = pre ++ s ++ rest ++ post ->
  s <> [] -> in_order less s ->
  i = a + Z.of_nat (length s) -> b = i + Z.of_nat (length rest) ->
  (length rest <= n)%nat ->
  exists s2 rest2,
    rest = s2 ++ rest2 /\ in_order less (s ++ s2)
    /\ sort.skip_sorted less n data i b = i + Z.of_nat (length s2)
    /\ (rest2 = []
        \/ exists s1 y x r, s ++ s2 = s1 ++ [y] /\ rest2 = x :: r
                            /\ less x y = true).
Proof.
  intros Ha. induction rest as [|x rest IH]; intros s data n i Hdata Hs Hord Hi Hb Hn.
  { exists [], []. rewrite (app_nil_r s).
    split; [done|]. split; [done|]. split; [|by left].
    destruct n as [|n]; cbn [sort.skip_sorted length] in *; [lia|].
    rewrite (proj2 (Z.ltb_ge _ _)) by lia. cbn. lia. }
  destruct n as [|n]; [cbn [length] in Hn; lia|].
  cbn [sort.skip_sorted]. rewrite (proj2 (Z.ltb_lt _ _)) by len. cbn [andb].
  destruct s as [|y s1 _] using rev_ind; [done|].
  assert (data = (pre ++ s1) ++ y :: x :: (rest ++ post)) as Hdata'
    by list_eq_norm.
  assert (sort.Less less data i (i - 1) = less x y) as HL.
  { rewrite Hdata'. apply Less_adjacent. len. }
  rewrite HL.
  destruct (less x y) eqn:Hxy; cbn [negb].
  - exists [], (x :: rest). rewrite (app_nil_r (s1 ++ [y])).
    split; [done|]. split; [done|]. split; [cbn; lia|].
    right. by exists s1, y, x, rest.
  - assert (in_order less ((s1 ++ [y]) ++ [x])) as Hord'.
    { apply in_order_snoc_intro; [done|].
      eapply in_order_last; [done|by rewrite last_snoc|done]. }
    destruct (IH ((s1 ++ [y]) ++ [x]) data n (i + 1))
      as (s2 & rest2 & -> & Hord2 & Hskip & Hrest2).
    + list_eq_norm.
    + by destruct (s1 ++ [y]).
    + done.
    + len.
    + len.
    + len.
    + exists (x :: s2), rest2. rewrite <- app_assoc in Hord2, Hrest2.
      split; [done|]. split; [done|]. split; [rewrite Hskip; len|done].
Qed.

Lemma shift_left_spec (pre p Q : list A) (x : A) (a : Z) (n : nat) :
  a = Z.of_nat (length pre) ->
  in_order less p -> (length p <= n)%nat ->
  floor less pre [x] ->
  sort.shift_left less n (pre ++ p ++ x :: Q) (a + Z.of_nat (length p))
  = pre ++ insert_sorted less x p ++ Q.
Proof.
  intros Ha. revert Q n.
  induction p as [|y p IH] using rev_ind; intros Q n Hp Hn Hfloor.
  { cbn [app length insert_sorted]. rewrite Z.add_0_r.
    destruct n as [|n]; cbn [sort.shift_left]; [done|].
    destruct (1 <=? a) eqn:E1; [|done].
    destruct pre as [|q pre _] using rev_ind; [cbn in Ha; lia|].
    unfold floor in Hfloor. rewrite last_snoc in Hfloor.
    apply Forall_cons in Hfloor as [Hxq _].
    rewrite <- app_assoc. cbn [app].
    rewrite (Less_adjacent less pre Q x q) by len.
    by rewrite Hxq. }
  rewrite length_app in Hn |- *. cbn [length] in Hn |- *.
  destruct n as [|n]; [lia|]. cbn [sort.shift_left].
  rewrite (proj2 (Z.leb_le _ _)) by lia.
  apply (in_order_snoc less) in Hp as [Hp Hy].
  rewrite <- app_assoc. cbn [app]. rewrite (app_assoc pre p).
  rewrite Less_adjacent by len.
  destruct (less x y) eqn:Hxy; cbn [negb].
  - rewrite Swap_adjacent by len.
    rewrite <- (app_assoc pre p).
    replace (a + Z.of_nat (length p + 1) - 1) with (a + Z.of_nat (length p))
      by lia.
    rewrite IH by (done || lia).
    rewrite (insert_sorted_snoc_less less x y p Hxy).
    by rewrite <- !app_assoc.
  - rewrite (insert_sorted_last less x (p ++ [y])).
    + by rewrite <- !app_assoc.
    + apply Forall_app. split; [|by repeat constructor].
      eapply Forall_impl; [exact Hy|]. cbn. intros z Hyz.
      by apply (less_negtrans less Hless x y z).
Qed.

Lemma shift_right_within (P post : list A) (lo b : Z) (n : nat) :
  lo = Z.of_nat (length P) ->
  forall (w : list A) (j : Z),
  b = lo + Z.of_nat (length w) -> lo + 1 <= j ->
  exists w',
    sort.shift_right less n (P ++ w ++ post) j b = P ++ w' ++ post
    /\ w' ≡ₚ w.
Proof.
  intros Hlo. induction n as [|n IH]; intros w j Hb Hj;
    cbn [sort.shift_right]; [by exists w|].
  destruct (j <? b) eqn:E; [|by exists w].
  destruct (negb _); [by exists w|].
  destruct (Swap_within P w post lo j (j - 1) Hlo) as (w1 & -> & Hw1);
    [lia..|].
  destruct (IH w1 (j + 1)) as (w' & -> & Hw'); [|lia|].
  { by rewrite (Permutation_length Hw1). }
  exists w'. split; [done|]. by rewrite Hw'.
Qed.

Lemma partialInsertionSort_loop_spec (pre post : list A) (a b : Z)
    (steps : nat) :
  a = Z.of_nat (length pre) ->
  forall (s rest : list A) (i : Z),
  s <> [] -> in_order less s ->
  i = a + Z.of_nat (length s) -> b = i + Z.of_nat (length rest) ->
  floor less pre (s ++ rest) ->
  exists mid' sorted,
    sort.partialInsertionSort_loop less steps (pre ++ s ++ rest ++ post) a b i
    = (pre ++ mid' ++ post, sorted)
    /\ mid' ≡ₚ s ++ rest
    /\ (sorted = true -> in_order less mid').
Proof.
  intros Ha. induction steps as [|steps IH];
    intros s rest i Hs Hord Hi Hb Hfloor; cbn [sort.partialInsertionSort_loop].
  { exists (s ++ rest), false. by rewrite <- app_assoc. }
  destruct (skip_sorted_spec pre post a b Ha rest s
              (pre ++ s ++ rest ++ post) (Z.to_nat (b - i)) i)
    as (s2 & rest2 & Hrest & Hord2 & Hskip & Hrest2); [done..|lia|].
  cbv zeta. rewrite Hskip.
  destruct Hrest2 as [->|(s1 & y & x & r & Hs1 & -> & Hxy)].
  { rewrite app_nil_r in Hrest. subst rest.
    rewrite (proj2 (Z.eqb_eq _ _)) by lia.
    exists (s ++ s2), true. by rewrite <- app_assoc. }
  rewrite (proj2 (Z.eqb_neq _ _)) by (subst rest; len).
  destruct (b - a <? 50) eqn:E50.
  { exists (s ++ rest), false. by rewrite <- app_assoc. }
  assert (Z.of_nat (length s) + Z.of_nat (length s2)
          = Z.of_nat (length s1) + 1) as Hlen.
  { apply (f_equal length) in Hs1. len. }
  assert (pre ++ s ++ rest ++ post
          = (pre ++ s1) ++ y :: x :: (r ++ post)) as Hdata.
  { rewrite Hrest. rewrite (app_assoc s), (app_assoc s), Hs1. list_eq_norm. }
  rewrite Hdata.
  rewrite (Swap_adjacent (pre ++ s1) (r ++ post) x y) by len.
  assert (in_order less s1) as Hos1.
  { rewrite Hs1 in Hord2. by apply (in_order_snoc less) in Hord2 as [? _]. }
  assert (floor less pre [x]) as Hfx.
  { unfold floor in *. destruct (last pre); [|done].
    rewrite Hrest in Hfloor. apply Forall_app in Hfloor as [_ Hf].
    apply Forall_app in Hf as [_ Hf]. apply Forall_cons in Hf as [Hf _].
    by repeat constructor. }
  set (d1 := if 2 <=? i + Z.of_nat (length s2) - a
             then sort.shift_left less (Z.to_nat (i + Z.of_nat (length s2)))
                    ((pre ++ s1) ++ x :: y :: r ++ post)
                    (i + Z.of_nat (length s2) - 1)
             else (pre ++ s1) ++ x :: y :: r ++ post).
  assert (d1 = (pre ++ insert_sorted less x s1) ++ (y :: r) ++ post) as Hd1.
  { unfold d1. destruct (2 <=? i + Z.of_nat (length s2) - a) eqn:E2.
    - replace (i + Z.of_nat (length s2) - 1) with (a + Z.of_nat (length s1))
        by lia.
      rewrite <- (app_assoc pre s1).
      rewrite (shift_left_spec pre s1 (y :: r ++ post) x a) by (done || lia).
      list_eq_norm.
    - destruct s1 as [|z s1]; [cbn [insert_sorted]; by app_norm|].
      cbn [length] in Hlen. lia. }
  fold d1. rewrite Hd1.
  assert (length (insert_sorted less x s1) = S (length s1)) as Hlen'.
  { by rewrite (Permutation_length (insert_sorted_Permutation less x s1)). }
  set (d2 := if 2 <=? b - (i + Z.of_nat (length s2))
             then sort.shift_right less _ _ _ _ else _).
  assert (exists w, d2 = (pre ++ insert_sorted less x s1) ++ w ++ post
                    /\ w ≡ₚ y :: r) as (w & Hd2 & Hw).
  { unfold d2. destruct (2 <=? b - (i + Z.of_nat (length s2))).
    - apply (shift_right_within _ _ (i + Z.of_nat (length s2))); [len| |lia].
      subst rest. len.
    - by exists (y :: r). }
  fold d2. rewrite Hd2.
  assert (insert_sorted less x s1 ++ w ≡ₚ s ++ rest) as Hperm.
  { rewrite Hw, insert_sorted_Permutation, Hrest.
    rewrite (app_assoc s), Hs1. rewrite <- app_assoc. cbn [app].
    rewrite <- !Permutation_middle. apply perm_swap. }
  destruct (IH (insert_sorted less x s1) w (i + Z.of_nat (length s2)))
    as (mid' & sorted & Hloop & Hmid' & Hsorted).
  - intros H. by rewrite H in Hlen'.
  - by apply insert_sorted_in_order.
  - len.
  - apply Permutation_length in Hw. subst rest. len.
  - by apply (floor_Permutation pre (s ++ rest)).
  - exists mid', sorted. rewrite <- app_assoc, Hloop.
    split; [done|]. split; [|done]. by rewrite Hmid'.
Qed.

(** [partialInsertionSort_func] permutes the range, and leaves it in order
    when it answers [true]. *)
Lemma partialInsertionSort_spec (pre mid post : list A) (a b : Z) :
  a = Z.of_nat (length pre) -> b = a + Z.of_nat (length mid) ->
  mid <> [] -> floor less pre mid ->
  exists mid' sorted,
    sort.partialInsertionSort_func less (pre ++ mid ++ post) a b
    = (pre ++ mid' ++ post, sorted)
    /\ mid' ≡ₚ mid
    /\ (sorted = true -> in_order less mid').
Proof.
  intros Ha Hb Hmid Hfloor. destruct mid as [|m0 mid]; [done|].
  unfold sort.partialInsertionSort_func.
  apply (partialInsertionSort_loop_spec pre post a b 5 Ha [m0] mid (a + 1)).
  - done.
  - repeat constructor.
  - cbn. lia.
  - cbn [length] in Hb. lia.
  - done.
Qed.

End PartialInsertionSort.

(** ** [heapSort_func], on a slice of its own *)

Section HeapSort.
Context {A : Type} `{!Inhabited A}.
Context (less : A -> A -> bool) (Hless : strict_weak_order less).
Local Open Scope Z_scope.

Lemma Less_elem_at (l : list A) (i j : Z) :
  0 <= i < Z.of_nat (length l) -> 0 <= j < Z.of_nat (length l) ->
  sort.Less less l i j = less (elem_at l i) (elem_at l j).
Proof.
  intros Hi Hj. unfold sort.Less, elem_at.
  by rewrite !list_lookup_lookup_total_lt by lia.
Qed.

Lemma Swap_elem_at (l : list A) (i j k : Z) :
  0 <= i < Z.of_nat (length l) -> 0 <= j < Z.of_nat (length l) -> 0 <= k ->
  elem_at (sort.Swap l i j) k
  = if k =? i then elem_at l j
    else if k =? j then elem_at l i else elem_at l k.
Proof.
  intros Hi Hj Hk. unfold sort.Swap, swap, elem_at.
  rewrite !list_lookup_lookup_total_lt by lia.
  destruct (Z.eqb_spec k i) as [->|Hki].
  { rewrite list_lookup_total_insert_eq; [done|]. rewrite length_insert. lia. }
  rewrite list_lookup_total_insert_ne by lia.
  destruct (Z.eqb_spec k j) as [->|Hkj].
  { rewrite list_lookup_total_insert_eq; [done|]. lia. }
  by rewrite list_lookup_total_insert_ne by lia.
Qed.

Lemma Swap_length (l : list A) (i j : Z) :
  length (sort.Swap l i j) = length l.
Proof. apply swap_length. Qed.

Lemma same_elements_refl (l : list A) (lo hi : Z) : same_elements l l lo hi.
Proof. by repeat split. Qed.

Lemma same_elements_trans (l l' l'' : list A) (lo hi : Z) :
  same_elements l l' lo hi -> same_elements l' l'' lo hi ->
  same_elements l l'' lo hi.
Proof.
  intros (Hl1 & Ho1 & Hi1) (Hl2 & Ho2 & Hi2). split; [congruence|]. split.
  - intros k Hk Hout. rewrite Ho2, Ho1; done.
  - intros P HP. apply Hi2. by apply Hi1.
Qed.

Lemma Swap_same_elements (l : list A) (i j lo hi : Z) :
  0 <= lo -> hi <= Z.of_nat (length l) ->
  lo <= i < hi -> lo <= j < hi ->
  same_elements l (sort.Swap l i j) lo hi.
Proof.
  intros Hlo Hhi Hi Hj. split; [apply Swap_length|]. split.
  - intros k Hk Hout. rewrite Swap_elem_at by lia.
    destruct (Z.eqb_spec k i); [lia|]. destruct (Z.eqb_spec k j); [lia|]. done.
  - intros P HP k Hk. rewrite Swap_elem_at by lia.
    destruct (Z.eqb_spec k i); [by apply HP|].
    destruct (Z.eqb_spec k j); by apply HP.
Qed.

Ltac child_lia := unfold is_child in *; lia.

Ltac index_cases :=
  repeat match goal with
         | |- context [Z.eqb ?x ?y] => destruct (Z.eqb_spec x y); try lia
         end.

Lemma heap_except_leaf (l : list A) (lo hi root : Z) :
  hi <= 2 * root + 1 -> heap_except less l lo hi root -> heap_from less l lo hi.
Proof.
  intros Hleaf [H1 _] q c Hq Hc Hchi.
  destruct (decide (q = root)) as [->|Hne]; [unfold is_child in Hc; lia|].
  by apply H1.
Qed.

(** [siftDown_func] makes a heap of what is a heap but for its root. *)
Lemma siftDown_loop_spec (lo hi : Z) (n : nat) :
  0 <= lo ->
  forall (l : list A) (root : Z),
  lo <= root -> hi <= Z.of_nat (length l) -> hi - root <= Z.of_nat n ->
  heap_except less l lo hi root ->
  heap_from less (sort.siftDown_loop less n l root hi 0) lo hi
  /\ same_elements l (sort.siftDown_loop less n l root hi 0) lo hi.
Proof.
  intros Hlo. induction n as [|n IH]; intros l root Hroot Hhi Hn Hex.
  { cbn [sort.siftDown_loop]. split; [|apply same_elements_refl].
    apply (heap_except_leaf l lo hi root); [lia|done]. }
  cbn [sort.siftDown_loop]. cbv zeta. rewrite !Z.add_0_l.
  destruct (hi <=? 2 * root + 1) eqn:E.
  { split; [|apply same_elements_refl].
    apply (heap_except_leaf l lo hi root); [lia|done]. }
  set (c0 := 2 * root + 1).
  assert (exists c,
    (if (c0 + 1 <? hi) && sort.Less less l c0 (c0 + 1) then c0 + 1 else c0) = c
    /\ (c = c0 \/ c = c0 + 1) /\ c < hi
    /\ forall c', is_child c' root -> c' < hi ->
         less (elem_at l c) (elem_at l c') = false) as (c & -> & Hc01 & Hchi & Hmax).
  { destruct (c0 + 1 <? hi) eqn:E1; cbn [andb].
    - rewrite Less_elem_at by lia.
      destruct (less (elem_at l c0) (elem_at l (c0 + 1))) eqn:E2.
      + exists (c0 + 1). split; [done|]. split; [by right|]. split; [lia|].
        intros c' [-> | ->] Hc'.
        * fold c0. by apply (less_asym less Hless).
        * replace (2 * root + 2) with (c0 + 1) by lia.
          apply (less_irrefl less Hless).
      + exists c0. split; [done|]. split; [by left|]. split; [lia|].
        intros c' [-> | ->] Hc'.
        * apply (less_irrefl less Hless).
        * by replace (2 * root + 2) with (c0 + 1) by lia.
    - exists c0. split; [done|]. split; [by left|]. split; [lia|].
      intros c' [-> | ->] Hc'; [apply (less_irrefl less Hless)|lia]. }
  rewrite Less_elem_at by lia.
  destruct (less (elem_at l root) (elem_at l c)) eqn:Erc; cbn [negb].
  - destruct Hex as [H1 H2].
    destruct (IH (sort.Swap l root c) c) as [Hheap Hsame].
    + lia.
    + by rewrite Swap_length.
    + lia.
    + split.
      * intros q c' Hq Hqc Hc' Hc'hi.
        assert (0 <= q /\ q < c') as [? ?] by (unfold is_child in Hc'; lia).
        rewrite !Swap_elem_at by lia.
        destruct (decide (q = root)) as [->|Hqr].
        -- rewrite Z.eqb_refl. index_cases.
           ++ by apply (less_asym less Hless).
           ++ by apply Hmax.
        -- index_cases.
           ++ apply (H2 q c); try done; child_lia.
           ++ child_lia.
           ++ by apply H1.
      * intros q c' Hq Hcq Hc' Hc'hi.
        assert (q = root) as -> by (unfold is_child in Hcq; lia).
        assert (c < c') by (unfold is_child in Hc'; lia).
        rewrite !Swap_elem_at by lia. rewrite Z.eqb_refl. index_cases.
        apply H1; try done; lia.
    + split; [done|].
      eapply same_elements_trans; [|exact Hsame].
      apply Swap_same_elements; lia.
  - split; [|apply same_elements_refl]. destruct Hex as [H1 _].
    intros q c' Hq Hc' Hc'hi.
    destruct (decide (q = root)) as [->|Hne]; [|by apply H1].
    apply (less_negtrans less Hless _ (elem_at l c)); [done|by apply Hmax].
Qed.

(** The root of a heap is not less than any of its nodes. *)
Lemma heap_root_max (l : list A) (hi : Z) :
  heap_from less l 0 hi ->
  forall k, 0 <= k < hi -> less (elem_at l 0) (elem_at l k) = false.
Proof.
  intros Hheap k Hk.
  assert (forall n k, (Z.to_nat k < n)%nat -> 0 <= k < hi ->
            less (elem_at l 0) (elem_at l k) = false) as H;
    [|apply (H (S (Z.to_nat k))); [lia|done]].
  clear k Hk. induction n as [|n IH]; intros k Hn Hk; [lia|].
  destruct (decide (k = 0)) as [->|Hk0]; [apply (less_irrefl less Hless)|].
  assert (is_child k ((k - 1) / 2)) as Hc.
  { unfold is_child. pose proof (Z.div_mod (k - 1) 2).
    pose proof (Z.mod_pos_bound (k - 1) 2). lia. }
  assert (0 <= (k - 1) / 2 < k) as Hq.
  { pose proof (Z.div_mod (k - 1) 2). pose proof (Z.mod_pos_bound (k - 1) 2).
    lia. }
  apply (less_negtrans less Hless _ (elem_at l ((k - 1) / 2))).
  - apply IH; lia.
  - apply Hheap; [lia|done|lia].
Qed.

Lemma rev_seqZ_S (n : nat) :
  rev (seqZ 0 (Z.of_nat (S n))) = Z.of_nat n :: rev (seqZ 0 (Z.of_nat n)).
Proof.
  unfold seqZ. rewrite !Nat2Z.id. rewrite seq_S, fmap_app, rev_app_distr.
  cbn. f_equal. f_equal. lia.
Qed.

(** The first loop of [heapSort_func] builds a heap. *)
Lemma heapSort_build (hi : Z) (n : nat) (l : list A) :
  hi <= Z.of_nat (length l) ->
  heap_from less l (Z.of_nat n) hi ->
  let l' := fold_left (fun data i => sort.siftDown_func less data i hi 0)
              (rev (seqZ 0 (Z.of_nat n))) l in
  heap_from less l' 0 hi /\ length l' = length l.
Proof.
  revert l. induction n as [|n IH]; intros l Hhi Hheap; [done|].
  rewrite rev_seqZ_S. cbn [fold_left]. unfold sort.siftDown_func at 2.
  destruct (siftDown_loop_spec (Z.of_nat n) hi (Z.to_nat (hi - Z.of_nat n))
              ltac:(lia) l (Z.of_nat n)) as [Hh (Hlen & _)]; [lia..| |].
  { split.
    - intros q c Hq Hne Hc Hchi. apply Hheap; [lia|done..].
    - intros q c Hq Hc. unfold is_child in Hc. lia. }
  destruct (IH (sort.siftDown_loop less (Z.to_nat (hi - Z.of_nat n)) l
                  (Z.of_nat n) hi 0)) as [Hh' Hlen']; [lia|done|].
  split; [done|]. by rewrite <- Hlen.
Qed.

(** The second loop moves the root of the heap behind it, time after time. *)
Lemma heapSort_extract (hi : Z) (n : nat) (l : list A) :
  hi <= Z.of_nat (length l) -> Z.of_nat n <= hi ->
  heap_sorted less l (Z.of_nat n) hi ->
  heap_sorted less
    (fold_left
       (fun data i => sort.siftDown_func less (sort.Swap data 0 (0 + i)) 0 i 0)
       (rev (seqZ 0 (Z.of_nat n))) l) 0 hi.
Proof.
  revert l. induction n as [|n IH]; intros l Hhi Hn Hs; [done|].
  rewrite rev_seqZ_S. cbn [fold_left]. rewrite Z.add_0_l.
  set (i := Z.of_nat n). replace (Z.of_nat (S n)) with (i + 1) in Hs, Hn by lia.
  destruct Hs as (Hheap & Hsorted & Hle).
  pose proof (heap_root_max l (i + 1) Hheap) as Hmax.
  set (l1 := sort.Swap l 0 i).
  assert (forall k, 0 <= k ->
            elem_at l1 k = if k =? 0 then elem_at l i
                           else if k =? i then elem_at l 0 else elem_at l k)
    as Hl1.
  { intros k Hk. unfold l1. by rewrite Swap_elem_at by lia. }
  unfold sort.siftDown_func.
  destruct (siftDown_loop_spec 0 i (Z.to_nat (i - 0)) ltac:(lia) l1 0)
    as [Hh (Hlen & Hout & Hin)]; [lia| |lia| |].
  { unfold l1. rewrite Swap_length. lia. }
  { split.
    - intros q c Hq Hne Hc Hci.
      assert (q < c) by (unfold is_child in Hc; lia).
      rewrite !Hl1 by lia. index_cases. apply Hheap; [lia|done|lia].
    - intros q c Hq Hc. unfold is_child in Hc. lia. }
  set (l2 := sort.siftDown_loop less (Z.to_nat (i - 0)) l1 0 i 0) in *.
  apply IH.
  - rewrite Hlen. unfold l1. rewrite Swap_length. lia.
  - lia.
  - fold i. split; [done|]. split.
    + intros k k' Hk Hkk' Hk'. rewrite !Hout by lia. rewrite !Hl1 by lia.
      index_cases; first [apply Hle; lia | apply Hsorted; lia].
    + intros k k' Hk Hk'. rewrite (Hout k') by lia.
      apply (Hin (fun x => less (elem_at l1 k') x = false)); [|done].
      intros j Hj. rewrite !Hl1 by lia.
      index_cases; first [apply Hmax; lia | apply Hle; lia].
Qed.

Lemma pairwise_in_order (l : list A) :
  (forall k k', 0 <= k -> k < k' -> k' < Z.of_nat (length l) ->
     less (elem_at l k') (elem_at l k) = false) ->
  in_order less l.
Proof.
  unfold in_order. induction l as [|x l IH]; intros Hpair; [constructor|].
  constructor.
  - apply IH. intros k k' Hk Hkk' Hk'.
    specialize (Hpair (k + 1) (k' + 1)). unfold elem_at in *.
    replace (Z.to_nat (k + 1)) with (S (Z.to_nat k)) in Hpair by lia.
    replace (Z.to_nat (k' + 1)) with (S (Z.to_nat k')) in Hpair by lia.
    cbn [length] in Hpair. apply Hpair; lia.
  - apply Forall_lookup. intros j y Hy.
    specialize (Hpair 0 (Z.of_nat (S j))). unfold elem_at in Hpair.
    rewrite Nat2Z.id in Hpair. change (Z.to_nat 0) with 0%nat in Hpair.
    rewrite (list_lookup_total_correct (x :: l) (S j) y Hy) in Hpair.
    rewrite ?(list_lookup_total_correct (x :: l) 0 x eq_refl) in Hpair.
    apply Hpair; [lia..|]. apply lookup_lt_Some in Hy. cbn [length]. lia.
Qed.

(** [heapSort_func] leaves a slice in order. *)
Lemma heapSort_in_order (l : list A) :
  in_order less (sort.heapSort_func less l 0 (Z.of_nat (length l))).
Proof.
  unfold sort.heapSort_func. cbv zeta. rewrite Z.sub_0_r.
  set (hi := Z.of_nat (length l)).
  assert (0 <= Z.quot (hi - 1) 2 + 1
          /\ hi <= 2 * (Z.quot (hi - 1) 2 + 1) + 1) as [Hq0 Hq].
  { destruct (decide (hi = 0)) as [->|Hne]; [by cbn|].
    rewrite Z.quot_div_nonneg by lia.
    pose proof (Z.div_mod (hi - 1) 2). pose proof (Z.mod_pos_bound (hi - 1) 2).
    lia. }
  pose proof (heapSort_build hi (Z.to_nat (Z.quot (hi - 1) 2 + 1)) l) as Hb.
  rewrite Z2Nat.id in Hb by done.
  destruct Hb as [Hheap Hlen]; [done| |].
  { intros q c Hq' Hc Hchi. unfold is_child in Hc. lia. }
  set (l1 := fold_left _ (rev (seqZ 0 (Z.quot (hi - 1) 2 + 1))) l) in *.
  pose proof (heapSort_extract hi (length l) l1) as He.
  fold hi in He. destruct He as (_ & Hsorted & _).
  - rewrite Hlen. done.
  - done.
  - split; [done|]. split; intros; lia.
  - apply pairwise_in_order.
    set (l2 := fold_left _ _ l1) in *.
    assert (length l2 = length l) as Hlen2.
    { rewrite <- Hlen. apply Permutation_length.
      apply fold_left_Permutation. intros d i.
      etrans; [apply siftDown_loop_Permutation|apply Swap_Permutation]. }
    intros k k' Hk Hkk' Hk'. apply Hsorted; [done..|]. rewrite Hlen2 in Hk'. done.
Qed.

End HeapSort.

(** ** [heapSort_func] on [data[a:b]] *)

Section HeapSortRange.
Context {A : Type} (less : A -> A -> bool) (Hless : strict_weak_order less).
Local Open Scope Z_scope.

Lemma Less_translate (pre m post : list A) (a i j : Z) :
  a = Z.of_nat (length pre) ->
  0 <= i < Z.of_nat (length m) -> 0 <= j < Z.of_nat (length m) ->
  sort.Less less (pre ++ m ++ post) (a + i) (a + j) = sort.Less less m i j.
Proof.
  intros -> Hi Hj. unfold sort.Less.
  assert (forall k, 0 <= k < Z.of_nat (length m) ->
            (pre ++ m ++ post) !! Z.to_nat (Z.of_nat (length pre) + k)
            = m !! Z.to_nat k) as Hl.
  { intros k Hk. rewrite lookup_app_r by lia. rewrite lookup_app_l by lia.
    f_equal. lia. }
  by rewrite !Hl by done.
Qed.

Lemma Swap_translate (pre m post : list A) (a i j : Z) :
  a = Z.of_nat (length pre) ->
  0 <= i < Z.of_nat (length m) -> 0 <= j < Z.of_nat (length m) ->
  sort.Swap (pre ++ m ++ post) (a + i) (a + j) = pre ++ sort.Swap m i j ++ post.
Proof.
  intros Ha Hi Hj. rewrite (Swap_middle pre m post a) by lia.
  unfold sort.Swap. do 3 f_equal; lia.
Qed.

Lemma siftDown_loop_translate (pre post : list A) (a hi : Z) (n : nat) :
  a = Z.of_nat (length pre) ->
  forall (m : list A) (root : Z),
  0 <= root -> hi <= Z.of_nat (length m) ->
  sort.siftDown_loop less n (pre ++ m ++ post) root hi a
  = pre ++ sort.siftDown_loop less n m root hi 0 ++ post.
Proof.
  intros Ha. induction n as [|n IH]; intros m root Hroot Hhi; [done|].
  cbn [sort.siftDown_loop]. cbv zeta. rewrite !Z.add_0_l.
  destruct (hi <=? 2 * root + 1) eqn:E; [done|].
  set (c0 := 2 * root + 1).
  assert ((if (c0 + 1 <? hi)
              && sort.Less less (pre ++ m ++ post) (a + c0) (a + c0 + 1)
           then c0 + 1 else c0)
          = (if (c0 + 1 <? hi) && sort.Less less m c0 (c0 + 1)
             then c0 + 1 else c0)) as ->.
  { destruct (c0 + 1 <? hi) eqn:E1; [|done]. cbn [andb].
    rewrite <- Z.add_assoc. by rewrite Less_translate by lia. }
  set (c := if (c0 + 1 <? hi) && sort.Less less m c0 (c0 + 1)
            then c0 + 1 else c0).
  assert (c0 <= c <= c0 + 1 /\ c < hi) as Hc.
  { unfold c. destruct (c0 + 1 <? hi) eqn:E1; cbn [andb]; [|lia].
    destruct (sort.Less less m c0 (c0 + 1)); lia. }
  rewrite Less_translate by lia.
  destruct (negb (sort.Less less m root c)); [done|].
  rewrite Swap_translate by lia.
  rewrite IH; [done|lia|]. by rewrite Swap_length.
Qed.

Lemma siftDown_loop_length (n : nat) (l : list A) (root hi first : Z) :
  length (sort.siftDown_loop less n l root hi first) = length l.
Proof. apply Permutation_length, siftDown_loop_Permutation. Qed.

Lemma heapSort_translate (pre mid post : list A) (a b : Z) :
  a = Z.of_nat (length pre) -> b = a + Z.of_nat (length mid) ->
  sort.heapSort_func less (pre ++ mid ++ post) a b
  = pre ++ sort.heapSort_func less mid 0 (Z.of_nat (length mid)) ++ post.
Proof.
  intros Ha Hb. unfold sort.heapSort_func. cbv zeta.
  rewrite Z.sub_0_r. replace (b - a) with (Z.of_nat (length mid)) by lia.
  set (hi := Z.of_nat (length mid)).
  assert (forall (L : list Z) (m : list A),
            Forall (fun i => 0 <= i) L -> hi <= Z.of_nat (length m) ->
            fold_left (fun data i => sort.siftDown_func less data i hi a) L
              (pre ++ m ++ post)
            = pre ++ fold_left
                       (fun data i => sort.siftDown_func less data i hi 0) L m
                  ++ post) as H1.
  { induction L as [|i L IH]; intros m HL Hm; [done|].
    apply Forall_cons in HL as [Hi HL]. cbn [fold_left].
    unfold sort.siftDown_func at 2 4.
    rewrite siftDown_loop_translate by done.
    apply IH; [done|]. by rewrite siftDown_loop_length. }
  assert (forall (L : list Z) (m : list A),
            Forall (fun i => 0 <= i < hi) L -> hi = Z.of_nat (length m) ->
            fold_left
              (fun data i =>
                 sort.siftDown_func less (sort.Swap data a (a + i)) 0 i a) L
              (pre ++ m ++ post)
            = pre ++ fold_left
                       (fun data i =>
                          sort.siftDown_func less (sort.Swap data 0 (0 + i))
                            0 i 0) L m
                  ++ post) as H2.
  { induction L as [|i L IH]; intros m HL Hm; [done|].
    apply Forall_cons in HL as [Hi HL]. cbn [fold_left].
    unfold sort.siftDown_func at 2 4. rewrite Z.add_0_l.
    replace (sort.Swap (pre ++ m ++ post) a (a + i))
      with (sort.Swap (pre ++ m ++ post) (a + 0) (a + i))
      by (by rewrite Z.add_0_r).
    rewrite Swap_translate by lia.
    rewrite siftDown_loop_translate; [|done|lia|rewrite Swap_length; lia].
    apply IH; [done|]. by rewrite siftDown_loop_length, Swap_length. }
  rewrite H1, H2; [done| | | |done].
  - apply Forall_forall. intros i Hi. apply list_elem_of_In in Hi.
    apply (proj2 (in_rev _ _)), list_elem_of_In, elem_of_seqZ in Hi. lia.
  - unfold hi. f_equal. symmetry.
    apply Permutation_length, fold_left_Permutation. intros d i.
    apply siftDown_loop_Permutation.
  - apply Forall_forall. intros i Hi. apply list_elem_of_In in Hi.
    apply (proj2 (in_rev _ _)), list_elem_of_In, elem_of_seqZ in Hi. lia.
Qed.

(** [heapSort_func] sorts [data[a:b]] and leaves the rest of [data] as it
    is. *)
Lemma heapSort_spec (pre mid post : list A) (a b : Z) :
  a = Z.of_nat (length pre) -> b = a + Z.of_nat (length mid) ->
  exists mid',
    sort.heapSort_func less (pre ++ mid ++ post) a b = pre ++ mid' ++ post
    /\ mid' ≡ₚ mid /\ in_order less mid'.
Proof.
  intros Ha Hb. rewrite (heapSort_translate pre mid post a b Ha Hb).
  eexists. split; [done|]. split; [apply heapSort_Permutation|].
  destruct mid as [|d mid]; [vm_compute; constructor|].
  apply (@heapSort_in_order A (populate d) less Hless).
Qed.

End HeapSortRange.

(** ** [pdqsort_func] sorts *)

Section Pdqsort.
Context {A : Type} (less : A -> A -> bool) (Hless : strict_weak_order less).
Local Open Scope Z_scope.

Lemma in_order_app (l1 l2 : list A) :
  in_order less l1 -> in_order less l2 ->
  Forall (fun x => Forall (fun y => less y x = false) l2) l1 ->
  in_order less (l1 ++ l2).
Proof.
  unfold in_order. induction 1 as [|x l1 Hl1 IH Hx]; intros Hl2 Hall; [done|].
  apply Forall_cons in Hall as [Hx2 Hall]. cbn [app].
  constructor; [by apply IH|]. by apply Forall_app.
Qed.

Lemma in_order_all_pairs (l : list A) :
  Forall (fun x => Forall (fun y => less y x = false) l) l -> in_order less l.
Proof.
  unfold in_order. induction l as [|x l IH]; intros Hall; [constructor|].
  apply Forall_cons in Hall as [Hx Hall]. apply Forall_cons in Hx as [_ Hx].
  constructor; [|done]. apply IH.
  eapply Forall_impl; [exact Hall|]. cbn. intros y Hy.
  by apply Forall_cons in Hy as [_ Hy].
Qed.

Lemma floor_snoc (pre mid : list A) (q : A) :
  Forall (fun x => less x q = false) mid -> floor less (pre ++ [q]) mid.
Proof. unfold floor. by rewrite last_snoc. Qed.

Lemma floor_app_l (pre l1 l2 : list A) :
  floor less pre (l1 ++ l2) -> floor less pre l1.
Proof.
  unfold floor. destruct (last pre); [|done]. intros H.
  by apply Forall_app in H as [? _].
Qed.

Lemma last_app_cons (l1 l2 : list A) (x : A) :
  last (l1 ++ x :: l2) = last (x :: l2).
Proof.
  induction l1 as [|y l1 IH]; [done|]. cbn [app]. rewrite <- IH.
  by destruct l1.
Qed.

Lemma last_elem_of (l : list A) (x : A) : last l = Some x -> x ∈ l.
Proof.
  destruct l as [|y l _] using rev_ind; [done|]. rewrite last_snoc.
  intros [= ->]. apply elem_of_app. right. by apply list_elem_of_singleton.
Qed.

(** The three steps before the partition leave a permutation of the range. *)
Lemma pdqsort_partition_order (p : A) (L R L' R' : list A) :
  Forall (fun x => less x p = true) L ->
  Forall (fun x => less x p = false) R ->
  L' ≡ₚ L -> R' ≡ₚ R -> in_order less L' -> in_order less R' ->
  in_order less (L' ++ p :: R').
Proof.
  intros HL HR HL' HR' HoL HoR. rewrite <- HL' in HL. rewrite <- HR' in HR.
  apply in_order_app; [done| |].
  - constructor; [done|]. done.
  - eapply Forall_impl; [exact HL|]. cbn. intros x Hx.
    constructor; [by apply (less_asym less Hless)|].
    eapply Forall_impl; [exact HR|]. cbn. intros y Hy.
    destruct (less y x) eqn:Hyx; [|done].
    by rewrite (less_trans less Hless y x p Hyx Hx) in Hy.
Qed.

Lemma pdqsort_spec (fuel : nat) :
  forall (pre mid post : list A) (a b limit : Z)
         (wasBalanced wasPartitioned : bool),
  a = Z.of_nat (length pre) -> b = a + Z.of_nat (length mid) ->
  (0 < fuel)%nat -> Z.of_nat (length mid) < Z.of_nat fuel ->
  floor less pre mid ->
  exists mid',
    sort.pdqsort_func less fuel (pre ++ mid ++ post) a b limit
      wasBalanced wasPartitioned = Some (pre ++ mid' ++ post)
    /\ mid' ≡ₚ mid /\ in_order less mid'.
Proof.
  induction fuel as [|fuel IH];
    intros pre mid post a b limit wasBalanced wasPartitioned
      Ha Hb Hpos Hfuel Hfloor; [lia|].
  cbn [sort.pdqsort_func]. cbv zeta.
  destruct (b - a <=? 12) eqn:Elen.
  { rewrite (insertionSort_spec less Hless pre mid post a b Ha Hb).
    exists (stable_sort less mid). split; [done|].
    split; [apply stable_sort_Permutation|by apply stable_sort_in_order]. }
  destruct (limit =? 0).
  { destruct (heapSort_spec less Hless pre mid post a b Ha Hb)
      as (mid' & -> & Hperm & Hord). by exists mid'. }
  (* breakPatterns *)
  remember (if negb wasBalanced
            then (sort.breakPatterns_func (pre ++ mid ++ post) a b, limit - 1)
            else (pre ++ mid ++ post, limit)) as d1 eqn:E1.
  assert (exists mid1 limit1, d1 = (pre ++ mid1 ++ post, limit1) /\ mid1 ≡ₚ mid)
    as (mid1 & limit1 & -> & Hmid1).
  { subst d1. destruct (negb wasBalanced); [|by exists mid, limit].
    destruct (breakPatterns_within pre mid post a b Ha Hb) as (m & -> & Hm).
    by exists m, (limit - 1). }
  clear E1.
  assert (b = a + Z.of_nat (length mid1)) as Hb1.
  { by rewrite (Permutation_length Hmid1). }
  (* choosePivot *)
  pose proof (choosePivot_bounds less (pre ++ mid1 ++ post) a b ltac:(lia))
    as Hpivot.
  destruct (sort.choosePivot_func less (pre ++ mid1 ++ post) a b)
    as [pivot hint].
  cbn [fst] in Hpivot.
  (* reverseRange *)
  remember (if hint =? sort.decreasingHint
            then (sort.reverseRange_func (pre ++ mid1 ++ post) a b,
                  b - 1 - (pivot - a), sort.increasingHint)
            else (pre ++ mid1 ++ post, pivot, hint)) as d2 eqn:E2.
  assert (exists mid2 pivot2 hint2,
            d2 = (pre ++ mid2 ++ post, pivot2, hint2) /\ mid2 ≡ₚ mid
            /\ a <= pivot2 < b) as (mid2 & pivot2 & hint2 & -> & Hmid2 & Hpivot2).
  { subst d2. destruct (hint =? sort.decreasingHint);
      [|by exists mid1, pivot, hint].
    unfold sort.reverseRange_func.
    destruct (reverseRange_loop_within pre post a b (Z.to_nat (b - a)) Ha
                mid1 a (b - 1) Hb1) as (m & -> & Hm); [lia..|].
    exists m, (b - 1 - (pivot - a)), sort.increasingHint.
    split; [done|]. split; [by rewrite Hm|lia]. }
  clear E2.
  assert (b = a + Z.of_nat (length mid2)) as Hb2.
  { by rewrite (Permutation_length Hmid2). }
  (* partialInsertionSort *)
  remember (if wasBalanced && wasPartitioned && (hint2 =? sort.increasingHint)
            then sort.partialInsertionSort_func less (pre ++ mid2 ++ post) a b
            else (pre ++ mid2 ++ post, false)) as d3 eqn:E3.
  assert (exists mid3 sorted,
            d3 = (pre ++ mid3 ++ post, sorted) /\ mid3 ≡ₚ mid
            /\ (sorted = true -> in_order less mid3))
    as (mid3 & sorted & -> & Hmid3 & Hsorted).
  { subst d3. destruct (_ && _); [|by exists mid2, false].
    destruct (partialInsertionSort_spec less Hless pre mid2 post a b Ha Hb2)
      as (m & s & -> & Hm & Hs).
    - intros ->. cbn in Hb2. lia.
    - by apply (floor_Permutation less pre mid).
    - exists m, s. split; [done|]. split; [by rewrite Hm|done]. }
  clear E3.
  assert (b = a + Z.of_nat (length mid3)) as Hb3.
  { by rewrite (Permutation_length Hmid3). }
  assert (floor less pre mid3) as Hfloor3.
  { by apply (floor_Permutation less pre mid). }
  destruct sorted.
  { exists mid3. split; [done|]. split; [done|by apply Hsorted]. }
  clear Hsorted.
  destruct ((0 <? a) && negb (sort.Less less (pre ++ mid3 ++ post) (a - 1) pivot2))
    eqn:Econd.
  - (* the pivot ties with the element before the range *)
    apply andb_true_iff in Econd as [Ea Hnl].
    destruct (partitionEqual_spec less pre mid3 post a b pivot2 Ha Hb3 Hpivot2)
      as (p & E & G & Hp & -> & Hperm & HE & HG).
    destruct pre as [|q pre _] using rev_ind; [cbn in Ha; lia|].
    assert (less q p = false) as Hqp.
    { assert (((pre ++ [q]) ++ mid3 ++ post) !! Z.to_nat (a - 1) = Some q) as Hq.
      { rewrite <- app_assoc. cbn [app]. apply at_middle. len. }
      rewrite (Less_at less _ _ _ q p Hq Hp) in Hnl.
      by apply negb_true_iff in Hnl. }
    assert (Forall (fun x => less x q = false) (p :: E ++ G)) as Hfl.
    { unfold floor in Hfloor3. rewrite last_snoc in Hfloor3.
      by rewrite Hperm. }
    assert (Forall (fun x => less x p = false /\ less p x = false) (p :: E))
      as Htie.
    { apply Forall_cons in Hfl as [Hpq Hfl].
      apply Forall_app in Hfl as [HEq _].
      constructor.
      - split; apply (less_irrefl less Hless).
      - apply Forall_forall. intros x Hx. split.
        + apply (less_negtrans less Hless x q p); [|done].
          by apply (proj1 (Forall_forall _ _) HEq).
        + by apply (proj1 (Forall_forall _ _) HE). }
    assert (forall e g, e ∈ p :: E -> less p g = true -> less g e = false)
      as Hcross.
    { intros e g He Hpg. apply (proj1 (Forall_forall _ _) Htie) in He as [_ He].
      destruct (less g e) eqn:Hge; [|done].
      pose proof (less_le_trans less Hless g e p Hge He) as Hgp.
      by rewrite (less_asym less Hless p g Hpg) in Hgp. }
    destruct (IH ((pre ++ [q]) ++ p :: E) G post (a + 1 + Z.of_nat (length E)) b
                limit1 wasBalanced wasPartitioned)
      as (G' & HG' & HpermG & HordG).
    + len.
    + apply Permutation_length in Hperm. len.
    + apply Permutation_length in Hperm, Hmid3. len.
    + apply Permutation_length in Hperm, Hmid3. len.
    + unfold floor. rewrite last_app_cons.
      destruct (last (p :: E)) as [e|] eqn:Hlast; [|done].
      apply last_elem_of in Hlast.
      eapply Forall_impl; [exact HG|]. cbn. intros g Hg. by apply Hcross.
    + exists ((p :: E) ++ G').
      replace ((pre ++ [q]) ++ (p :: E) ++ G ++ post)
        with (((pre ++ [q]) ++ p :: E) ++ G ++ post) by list_eq_norm.
      rewrite HG'. split; [f_equal; list_eq_norm|]. split.
      * rewrite HpermG. cbn [app]. by rewrite Hperm.
      * apply in_order_app; [|done|].
        -- apply in_order_all_pairs.
           eapply Forall_impl; [exact Htie|]. cbn. intros x [Hxp Hpx].
           eapply Forall_impl; [exact Htie|]. cbn. intros y [Hyp Hpy].
           by apply (less_negtrans less Hless y p x).
        -- apply Forall_forall. intros e He. rewrite HpermG.
           eapply Forall_impl; [exact HG|]. cbn. intros g Hg. by apply Hcross.
  - (* partition around the pivot *)
    clear Econd.
    destruct (partition_spec less pre mid3 post a b pivot2 Ha Hb3 Hpivot2)
      as (L & p & R & alr & -> & Hperm & HL & HR).
    assert (Z.of_nat (length mid)
            = Z.of_nat (length L) + 1 + Z.of_nat (length R)) as Hlen.
    { rewrite <- (Permutation_length Hmid3), <- (Permutation_length Hperm). len. }
    assert (floor less pre L) as HfloorL.
    { apply (floor_app_l pre L (p :: R)).
      by apply (floor_Permutation less pre mid3). }
    assert (forall L', L' ≡ₚ L -> floor less (pre ++ L' ++ [p]) R) as HfloorR.
    { intros L' _. rewrite app_assoc. by apply floor_snoc. }
    cbv beta iota.
    destruct (a + Z.of_nat (length L) - a <? b - (a + Z.of_nat (length L))).
    + destruct (IH pre L (p :: R ++ post) a (a + Z.of_nat (length L))
                  limit1 true true) as (L' & -> & HpermL & HordL);
        [done|done|lia|lia|done|].
      replace (pre ++ L' ++ p :: R ++ post)
        with ((pre ++ L' ++ [p]) ++ R ++ post) by list_eq_norm.
      destruct (IH (pre ++ L' ++ [p]) R post (a + Z.of_nat (length L) + 1) b
                  limit1 (Z.quot (b - a) 8 <=? a + Z.of_nat (length L) - a) alr)
        as (R' & -> & HpermR & HordR).
      * apply Permutation_length in HpermL. len.
      * lia.
      * lia.
      * lia.
      * by apply HfloorR.
      * exists (L' ++ p :: R'). split; [f_equal; list_eq_norm|]. split.
        -- by rewrite HpermL, HpermR, Hperm.
        -- by apply (pdqsort_partition_order p L R).
    + replace (pre ++ L ++ p :: R ++ post)
        with ((pre ++ L ++ [p]) ++ R ++ post) by list_eq_norm.
      destruct (IH (pre ++ L ++ [p]) R post (a + Z.of_nat (length L) + 1) b
                  limit1 true true) as (R' & -> & HpermR & HordR).
      * len.
      * lia.
      * lia.
      * lia.
      * by apply HfloorR.
      * replace ((pre ++ L ++ [p]) ++ R' ++ post)
          with (pre ++ L ++ (p :: R' ++ post)) by list_eq_norm.
        destruct (IH pre L (p :: R' ++ post) a (a + Z.of_nat (length L)) limit1
                    (Z.quot (b - a) 8 <=? b - (a + Z.of_nat (length L))) alr)
          as (L' & -> & HpermL & HordL); [done|done|lia|lia|done|].
        exists (L' ++ p :: R'). split; [f_equal; list_eq_norm|]. split.
        -- by rewrite HpermL, HpermR, Hperm.
        -- by apply (pdqsort_partition_order p L R).
Qed.

(** [sort.Slice] returns the elements of the slice in order. *)
Lemma Slice_in_order (x : list A) : in_order less (sort.Slice less x).
Proof.
  pose proof (Slice_run_returns less x) as Hrun.
  unfold sort.Slice_run in Hrun.
  destruct (pdqsort_spec (S (length x)) [] x [] 0 (Z.of_nat (length x))
              (sort.bits_Len (Z.of_nat (length x))) true true)
    as (mid' & Hsome & _ & Hord); [done|lia|lia|lia|done|].
  cbn [app] in Hsome. rewrite !app_nil_r in Hsome.
  rewrite Hsome in Hrun. by injection Hrun as <-.
Qed.

(** Up to twelve elements, [sort.Slice] is the stable reference sort. *)
Lemma Slice_stable_sort (x : list A) :
  (length x <= 12)%nat -> sort.Slice less x = stable_sort less x.
Proof.
  intros Hlen. unfold sort.Slice, sort.Slice_run. cbn [sort.pdqsort_func].
  cbv zeta. rewrite (proj2 (Z.leb_le _ _)) by lia. cbn [default].
  pose proof (insertionSort_spec less Hless [] x [] 0 (Z.of_nat (length x)))
    as H.
  cbn [app] in H. rewrite !app_nil_r in H. apply H; [done|lia].
Qed.

End Pdqsort.

(** ** SortLines *)

Lemma compare_refl (s : string) : (s ?= s)%string = Eq.
Proof.
  induction s as [|c s IH]; cbn; [done|].
  unfold Ascii.compare. by rewrite N.compare_refl.
Qed.

Lemma ltb_leb (x y : string) : String.ltb x y = negb (String.leb y x).
Proof.
  unfold String.ltb, String.leb. rewrite (String.compare_antisym y x).
  by destruct (x ?= y)%string.
Qed.

Lemma leb_trans (x y z : string) :
  String.leb x y = true -> String.leb y z = true -> String.leb x z = true.
Proof.
  intros Hxy Hyz. apply Is_true_true.
  apply (@transitivity _ String.le _ x y z); by apply Is_true_true.
Qed.

Lemma ltb_strict_weak_order : strict_weak_order String.ltb.
Proof.
  split.
  - intros x. unfold String.ltb. by rewrite compare_refl.
  - intros x y z. rewrite !ltb_leb, !negb_true_iff. intros Hyx Hzy.
    destruct (String.leb z x) eqn:Hzx; [|done].
    destruct (String.leb_total x y) as [Hxy|Hxy]; [|congruence].
    by rewrite (leb_trans z x y Hzx Hxy) in Hzy.
  - intros x y z. rewrite !ltb_leb, !negb_false_iff. intros Hyx Hzy.
    by apply (leb_trans z y x).
Qed.

Lemma strict_weak_order_key {A B} (less : B -> B -> bool) (f : A -> B) :
  strict_weak_order less -> strict_weak_order (fun x y => less (f x) (f y)).
Proof.
  intros [Hi Ht Hn]. split.
  - intros x. apply Hi.
  - intros x y z. apply Ht.
  - intros x y z. apply Hn.
Qed.

Lemma strict_weak_order_flip {A} (less : A -> A -> bool) :
  strict_weak_order less -> strict_weak_order (fun x y => less y x).
Proof.
  intros [Hi Ht Hn]. split.
  - intros x. apply Hi.
  - intros x y z Hyx Hzy. by apply (Ht z y x).
  - intros x y z Hyx Hzy. by apply (Hn z y x).
Qed.

(** The comparison that [SortLines] gives to [sort.Slice] is a strict weak
    order on the lines. *)
Lemma SortLines_less_strict_weak_order (T : unicode.Tables) (ascending : bool) :
  strict_weak_order (SortLines_less T ascending).
Proof.
  unfold SortLines_less. destruct ascending.
  - apply (strict_weak_order_key String.ltb (strings.ToLower T)).
    apply ltb_strict_weak_order.
  - apply (strict_weak_order_flip
             (fun x y => String.ltb (strings.ToLower T x) (strings.ToLower T y))).
    apply (strict_weak_order_key String.ltb (strings.ToLower T)).
    apply ltb_strict_weak_order.
Qed.

(** C4, as amended.  [SortLines] splits on the line feed, sorts the lines
    with [sort.Slice] by the bytes of their lower case and joins them with
    the line feed: the run of [sort.Slice] comes to its end, and the lines
    that come out are the lines that went in, in an order in which no line
    is less than one before it.  Lines that tie keep the order of the input
    when there are at most twelve lines, where [sort.Slice] is an insertion
    sort. *)
Theorem SortLines_sorted_permutation (T : unicode.Tables) (text : string)
    (ascending : bool) :
  let less := SortLines_less T ascending in
  let lines := strings.Split text LF in
  exists out,
    sort.Slice_run less lines = Some out
    /\ SortLines T text ascending = strings.Join out LF
    /\ out ≡ₚ lines
    /\ in_order less out
    /\ ((length lines <= 12)%nat ->
        out = stable_sort less lines /\ ties_in_input_order less lines out).
Proof.
  intros less lines.
  pose proof (SortLines_less_strict_weak_order T ascending) as Hless.
  fold less in Hless.
  exists (sort.Slice less lines).
  split; [apply Slice_run_returns|]. split; [done|].
  split; [apply Slice_Permutation|]. split; [by apply Slice_in_order|].
  intros Hlen. rewrite (Slice_stable_sort less Hless lines Hlen).
  split; [done|]. by apply stable_sort_ties.
Qed.

(** The scenario of the specification, and a tie of two lines: below
    thirteen lines the order of the input is kept. *)
Lemma SortLines_examples (T : unicode.Tables) :
  SortLines T "banana
Apple
cherry" true = "Apple
banana
cherry"
  /\ SortLines T "banana
Apple
cherry" false = "cherry
banana
Apple"
  /\ SortLines T "abc
ABC
a" true = "a
abc
ABC"
  /\ SortLines T "ABC
abc
a" true = "a
ABC
abc".
Proof. repeat split; vm_compute; reflexivity. Qed.

(** C4 as stated does not hold: of thirteen lines, ["abc"] and ["ABC"] tie
    and come in this order, and [SortLines] returns ["ABC"] before
    ["abc"]. *)
Lemma SortLines_not_stable :
  strings.Split (strings.Join thirteen_lines LF) LF = thirteen_lines
  /\ tie (SortLines_less latin1_tables true) "abc" "ABC" = true
  /\ SortLines latin1_tables (strings.Join thirteen_lines LF) true
     = strings.Join (replicate 11 "a" ++ ["ABC"; "abc"]) LF
  /\ stable_sort (SortLines_less latin1_tables true) thirteen_lines
     = replicate 11 "a" ++ ["abc"; "ABC"]
  /\ ~ ties_in_input_order (SortLines_less latin1_tables true) thirteen_lines
         (sort.Slice (SortLines_less latin1_tables true) thirteen_lines).
Proof.
  split; [vm_compute; reflexivity|]. split; [vm_compute; reflexivity|].
  split; [vm_compute; reflexivity|]. split; [vm_compute; reflexivity|].
  intros H. specialize (H "abc"). vm_compute in H. discriminate H.
Qed.

(** ** FindReplace *)

Section FindReplace.
Context (T : unicode.Tables).

Lemma expand_without_dollar (fuel : nat) (template matched : string) :
  regexp.cut_dollar template = None ->
  regexp.expand T fuel template matched = template.
Proof.
  intros Hcut. destruct fuel as [|fuel]; cbn [regexp.expand]; [done|].
  by rewrite Hcut.
Qed.

Lemma replace_literal_ext (re : regexp.Regexp) (f g : string -> string)
    (s : string) :
  (forall m, f m = g m) ->
  forall skip emit,
    regexp.replace_literal T re f skip emit s
    = regexp.replace_literal T re g skip emit s.
Proof.
  intros Hfg. induction s as [|c s IH]; intros skip emit; [done|].
  cbn [regexp.replace_literal]. destruct skip as [|k].
  - destruct (regexp.match_here T re (regexp.literal re) (String c s)).
    + by rewrite Hfg, IH.
    + by rewrite IH.
  - destruct emit; by rewrite IH.
Qed.

(** A replacement without a dollar sign is inserted as it is. *)
Lemma ReplaceAllString_without_dollar (re : regexp.Regexp) (src repl : string) :
  regexp.cut_dollar repl = None ->
  regexp.ReplaceAllString T re src repl
  = match regexp.literal re with
    | [] => strings.replace_empty repl 0 src
    | _ => regexp.replace_literal T re (fun _ => repl) 0 true src
    end.
Proof.
  intros Hcut. unfold regexp.ReplaceAllString. cbv zeta.
  destruct (regexp.literal re).
  - by rewrite expand_without_dollar.
  - apply replace_literal_ext. intros m. by apply expand_without_dollar.
Qed.

(** C5 does not hold of the code.  With [caseSensitive] false the replacement
    goes through [Regexp.ReplaceAllString], which expands the dollar signs
    of the replacement: ["$1"] names a group that the expression does not
    have and is replaced by the empty string, ["$0"] by the text matched and
    ["$$"] by one dollar sign, where the same call with [caseSensitive] true
    inserts the replacement as it is.  The scenario of the specification,
    whose replacement has no dollar sign, comes out as stated.  A [find] that
    is not valid UTF-8 makes [regexp.MustCompile] panic. *)
Theorem FindReplace_expands_dollar :
  FindReplace T "a" "a" "$1" false = Some ""
  /\ FindReplace T "a" "a" "$1" true = Some "$1"
  /\ FindReplace T "price: X" "x" "$5" false = Some "price: "
  /\ FindReplace T "price: X" "X" "$5" true = Some "price: $5"
  /\ FindReplace T "Abc" "abc" "<$0>" false = Some "<Abc>"
  /\ FindReplace T "a" "a" "$$" false = Some "$"
  /\ FindReplace T "Hello HELLO hello" "hello" "hi" false = Some "hi hi hi"
  /\ FindReplace T "a.b" "." "$" false = Some "a$b"
  /\ FindReplace T "x" (String "255" EmptyString) "y" false = None.
Proof. repeat split; vm_compute; reflexivity. Qed.

End FindReplace.

(** ** [strings.Split] and [strings.Join] on lines *)

Lemma genSplit_LF_cons (c : ascii) (s : string) :
  strings.genSplit LF 0 (String c s)
  = if Ascii.eqb c LF_byte then EmptyString :: strings.genSplit LF 0 s
    else match strings.genSplit LF 0 s with
         | h :: t => String c h :: t
         | [] => [String c EmptyString]
         end.
Proof.
  cbn [strings.genSplit]. unfold LF at 1. rewrite prefix_single. done.
Qed.

Lemma genSplit_LF_nonempty (s : string) : strings.genSplit LF 0 s <> [].
Proof.
  destruct s as [|c s]; [done|]. rewrite genSplit_LF_cons.
  destruct (Ascii.eqb c LF_byte); [done|].
  by destruct (strings.genSplit LF 0 s).
Qed.

Lemma Split_LF (s : string) : strings.Split s LF = strings.genSplit LF 0 s.
Proof. done. Qed.

Lemma Join_cons (x : string) (l : list string) (sep : string) :
  l <> [] -> strings.Join (x :: l) sep = x +:+ sep +:+ strings.Join l sep.
Proof. by destruct l. Qed.

Lemma Join_cons_head (c : ascii) (h : string) (t : list string) (sep : string) :
  strings.Join (String c h :: t) sep = String c (strings.Join (h :: t) sep).
Proof. by destruct t. Qed.

(** Joining the lines of a text gives the text back. *)
Lemma Join_Split_LF (s : string) : strings.Join (strings.Split s LF) LF = s.
Proof.
  rewrite Split_LF. induction s as [|c s IH]; [done|].
  rewrite genSplit_LF_cons.
  destruct (Ascii.eqb_spec c LF_byte) as [->|Hc].
  - rewrite Join_cons by apply genSplit_LF_nonempty. by rewrite IH.
  - pose proof (genSplit_LF_nonempty s) as Hne.
    destruct (strings.genSplit LF 0 s) as [|h t]; [done|].
    by rewrite Join_cons_head, IH.
Qed.

Lemma genSplit_LF_line (x : string) :
  no_LF x -> strings.genSplit LF 0 x = [x].
Proof.
  unfold no_LF. induction x as [|c x IH]; [done|]. cbn [count_byte].
  rewrite genSplit_LF_cons. destruct (Ascii.eqb c LF_byte); [done|].
  intros Hx. by rewrite IH.
Qed.

Lemma genSplit_LF_app (x rest : string) :
  no_LF x ->
  strings.genSplit LF 0 (x +:+ LF +:+ rest) = x :: strings.genSplit LF 0 rest.
Proof.
  unfold no_LF. induction x as [|c x IH]; cbn [count_byte].
  - intros _. rewrite append_nil_l. unfold LF at 2. rewrite append_cons.
    rewrite genSplit_LF_cons. by rewrite Ascii.eqb_refl.
  - rewrite append_cons, genSplit_LF_cons.
    destruct (Ascii.eqb c LF_byte); [done|]. intros Hx. by rewrite IH.
Qed.

(** Splitting the join of lines gives the lines back. *)
Lemma Split_Join_LF (ls : list string) :
  ls <> [] -> Forall no_LF ls ->
  strings.Split (strings.Join ls LF) LF = ls.
Proof.
  rewrite Split_LF. intros Hne Hls.
  induction Hls as [|x ls Hx Hls IH]; [done|].
  destruct ls as [|y ls]; [by apply genSplit_LF_line|].
  rewrite Join_cons by done. rewrite genSplit_LF_app by done.
  by rewrite IH.
Qed.

(** No line of a text holds a line feed. *)
Lemma Split_LF_no_LF (s : string) : Forall no_LF (strings.Split s LF).
Proof.
  rewrite Split_LF. induction s as [|c s IH]; [by repeat constructor|].
  rewrite genSplit_LF_cons.
  destruct (Ascii.eqb c LF_byte) eqn:Hc; [by constructor|].
  destruct (strings.genSplit LF 0 s) as [|h t]; [|].
  - repeat constructor. unfold no_LF. cbn. by rewrite Hc.
  - apply Forall_cons in IH as [Hh Ht]. constructor; [|done].
    unfold no_LF in *. cbn [count_byte]. by rewrite Hc.
Qed.

(** A text has one line more than it has line feeds. *)
Lemma Split_LF_length (s : string) :
  length (strings.Split s LF) = S (count_byte LF_byte s).
Proof.
  rewrite Split_LF. induction s as [|c s IH]; [done|].
  rewrite genSplit_LF_cons. cbn [count_byte].
  destruct (Ascii.eqb c LF_byte); [cbn [length]; by rewrite IH|].
  destruct (strings.genSplit LF 0 s) as [|h t]; [done|]. exact IH.
Qed.

(** The length of a join: the lengths of the elements and of the separators
    between them. *)
Lemma Join_length (ls : list string) (sep : string) :
  ls <> [] ->
  (String.length (strings.Join ls sep) + String.length sep
   = sum_list_with (fun x => String.length x + String.length sep) ls)%nat.
Proof.
  intros Hne. induction ls as [|x ls IH]; [done|].
  destruct ls as [|y ls]; [cbn; lia|].
  rewrite Join_cons by done. rewrite !length_append.
  cbn [sum_list_with] in *. rewrite <- IH by done. lia.
Qed.

Lemma sum_list_with_Permutation {A} (f : A -> nat) (l l' : list A) :
  l ≡ₚ l' -> sum_list_with f l = sum_list_with f l'.
Proof. induction 1; cbn [sum_list_with]; lia. Qed.

Lemma Join_length_Permutation (ls ls' : list string) (sep : string) :
  ls ≡ₚ ls' ->
  String.length (strings.Join ls sep) = String.length (strings.Join ls' sep).
Proof.
  intros Hperm. destruct ls as [|x ls].
  { apply Permutation_nil_l in Hperm. by subst. }
  assert (ls' <> []) as Hne'.
  { intros ->. by apply Permutation_nil_r in Hperm. }
  pose proof (Join_length (x :: ls) sep ltac:(done)) as H1.
  pose proof (Join_length ls' sep Hne') as H2.
  assert (sum_list_with (fun x => String.length x + String.length sep) (x :: ls)
          = sum_list_with (fun x => String.length x + String.length sep) ls')
    as H3 by (by apply sum_list_with_Permutation).
  lia.
Qed.

Lemma Join_length_sublist (ls ls' : list string) (sep : string) :
  ls `sublist_of` ls' ->
  (String.length (strings.Join ls sep) <= String.length (strings.Join ls' sep))%nat.
Proof.
  intros Hsub. destruct ls as [|x ls]; [cbn; lia|].
  assert (ls' <> []) as Hne'.
  { intros ->. by apply sublist_nil_r in Hsub. }
  pose proof (Join_length (x :: ls) sep ltac:(done)) as H1.
  pose proof (Join_length ls' sep Hne') as H2.
  assert (sum_list_with (fun x => String.length x + String.length sep) (x :: ls)
          <= sum_list_with (fun x => String.length x + String.length sep) ls')%nat.
  { clear H1 H2 Hne'. induction Hsub as [|a l1 l2 _ IH|a l1 l2 _ IH];
      cbn [sum_list_with]; lia. }
  lia.
Qed.

(** ** [sort.Slice] on a slice that is in order *)

Section SliceInOrder.
Context {A : Type} (less : A -> A -> bool).
Local Open Scope Z_scope.

Lemma in_order_lookup (l : list A) (i j : nat) (x y : A) :
  in_order less l -> (i < j)%nat -> l !! i = Some x -> l !! j = Some y ->
  less y x = false.
Proof.
  unfold in_order. intros Hl. revert i j.
  induction Hl as [|z l Hl IH Hz]; intros i j Hij Hx Hy; [done|].
  destruct j as [|j]; [lia|]. cbn in Hy. destruct i as [|i].
  - cbn in Hx. injection Hx as ->.
    by apply (proj1 (Forall_lookup _ _) Hz j y).
  - cbn in Hx. apply (IH i j); [lia|done..].
Qed.

Lemma Less_in_order (l : list A) (i j : Z) :
  in_order less l -> 0 <= i < j -> sort.Less less l j i = false.
Proof.
  intros Hl Hij. unfold sort.Less.
  destruct (l !! Z.to_nat j) as [y|] eqn:Hy; [|done].
  destruct (l !! Z.to_nat i) as [x|] eqn:Hx; [|done].
  apply (in_order_lookup l (Z.to_nat i) (Z.to_nat j)); [done|lia|done..].
Qed.

Lemma stable_sort_in_order_id (l : list A) :
  in_order less l -> stable_sort less l = l.
Proof.
  intros Hl. unfold stable_sort.
  assert (forall todo done_,
            in_order less (done_ ++ todo) ->
            fold_left (fun acc x => insert_sorted less x acc) todo done_
            = done_ ++ todo) as H; [|by apply (H l [])].
  induction todo as [|x todo IH]; intros done_ Hord; cbn [fold_left].
  { by rewrite app_nil_r. }
  rewrite (insert_sorted_last less x done_).
  - rewrite IH; rewrite <- app_assoc; done.
  - apply Forall_lookup. intros i z Hz.
    apply (in_order_lookup (done_ ++ x :: todo) i (length done_)); [done| | |].
    + by apply lookup_lt_Some in Hz.
    + by rewrite lookup_app_l by (by apply lookup_lt_Some in Hz).
    + by rewrite list_lookup_middle.
Qed.

Lemma median_in_order (l : list A) (a b c swaps : Z) :
  in_order less l -> 0 <= a < b -> b < c ->
  sort.median_func less l a b c swaps = (b, swaps).
Proof.
  intros Hl Hab Hbc. unfold sort.median_func, sort.order2_func.
  rewrite (Less_in_order l a b) by done.
  rewrite (Less_in_order l b c) by (done || lia).
  by rewrite (Less_in_order l a b) by done.
Qed.

Lemma choosePivot_in_order (l : list A) (a b : Z) :
  in_order less l -> 0 <= a -> 8 <= b - a ->
  (sort.choosePivot_func less l a b).2 = sort.increasingHint.
Proof.
  intros Hl Ha Hlen. unfold sort.choosePivot_func. cbv zeta.
  rewrite (proj2 (Z.leb_le 8 (b - a))) by done.
  assert (2 <= Z.quot (b - a) 4) as Hq.
  { rewrite Z.quot_div_nonneg by lia.
    pose proof (Z.div_mod (b - a) 4). pose proof (Z.mod_pos_bound (b - a) 4).
    lia. }
  set (q := Z.quot (b - a) 4) in *.
  destruct (50 <=? b - a).
  - unfold sort.medianAdjacent_func.
    rewrite !median_in_order by (done || lia). done.
  - rewrite !median_in_order by (done || lia). done.
Qed.

Lemma skip_sorted_in_order (l : list A) (n : nat) (i b : Z) :
  in_order less l -> 1 <= i <= b -> b - i <= Z.of_nat n ->
  sort.skip_sorted less n l i b = b.
Proof.
  intros Hl. revert i. induction n as [|n IH]; intros i Hi Hn;
    cbn [sort.skip_sorted]; [lia|].
  destruct (i <? b) eqn:E; cbn [andb]; [|lia].
  rewrite (Less_in_order l (i - 1) i) by (done || lia). cbn [negb].
  apply IH; lia.
Qed.

Lemma partialInsertionSort_loop_in_order (l : list A) (steps : nat)
    (a b i : Z) :
  in_order less l -> 1 <= i <= b ->
  sort.partialInsertionSort_loop less (S steps) l a b i = (l, true).
Proof.
  intros Hl Hi. cbn [sort.partialInsertionSort_loop]. cbv zeta.
  rewrite skip_sorted_in_order by (done || lia).
  by rewrite Z.eqb_refl.
Qed.

Lemma partialInsertionSort_in_order (l : list A) (a b : Z) :
  in_order less l -> 0 <= a < b ->
  sort.partialInsertionSort_func less l a b = (l, true).
Proof.
  intros Hl Hab. unfold sort.partialInsertionSort_func.
  apply partialInsertionSort_loop_in_order; [done|lia].
Qed.

(** [pdqsort_func] leaves a slice that is in order as it is: up to twelve
    elements the insertion sort moves nothing, above that the first pivot
    comes with the hint that the slice is in order and
    [partialInsertionSort_func] finds it so. *)
Lemma Slice_in_order_id (Hless : strict_weak_order less) (l : list A) :
  in_order less l -> sort.Slice less l = l.
Proof.
  intros Hl. destruct (decide (length l <= 12)%nat) as [Hlen|Hlen].
  { rewrite (Slice_stable_sort less Hless l Hlen).
    by apply stable_sort_in_order_id. }
  unfold sort.Slice, sort.Slice_run. cbn [sort.pdqsort_func].
  rewrite Z.sub_0_r. rewrite (proj2 (Z.leb_gt _ _)) by lia.
  assert ((sort.bits_Len (Z.of_nat (length l)) =? 0) = false) as ->.
  { unfold sort.bits_Len.
    rewrite (proj2 (Z.eqb_neq (Z.of_nat (length l)) 0)) by lia.
    pose proof (Z.log2_nonneg (Z.of_nat (length l))). apply Z.eqb_neq. lia. }
  cbn [negb]. cbv beta iota zeta.
  pose proof (choosePivot_in_order l 0 (Z.of_nat (length l)) Hl ltac:(lia)
                ltac:(lia)) as Hhint.
  destruct (sort.choosePivot_func less l 0 (Z.of_nat (length l)))
    as [pivot hint].
  cbn [snd] in Hhint. subst hint.
  change (sort.increasingHint =? sort.decreasingHint) with false.
  change (sort.increasingHint =? sort.increasingHint) with true.
  cbn [andb]. cbv beta iota.
  rewrite partialInsertionSort_in_order by (done || lia).
  done.
Qed.

End SliceInOrder.

(** ** SortLines: what the output text shows *)

Section SortLinesText.
Context (T : unicode.Tables) (text : string) (ascending : bool).

Lemma SortLines_lines :
  strings.Split (SortLines T text ascending) LF
  = sort.Slice (SortLines_less T ascending) (strings.Split text LF).
Proof.
  unfold SortLines. cbv zeta.
  pose proof (Slice_Permutation (SortLines_less T ascending)
                (strings.Split text LF)) as Hperm.
  apply Split_Join_LF.
  - intros Hnil. rewrite Hnil in Hperm. apply Permutation_nil_l in Hperm.
    by apply (genSplit_LF_nonempty text).
  - rewrite Hperm. apply Split_LF_no_LF.
Qed.

(** X1: The lines of the output of [SortLines] are the lines of the input in
    another order, in which none is less than one before it; the output has
    as many lines and as many bytes as the input. *)
Theorem SortLines_reorders_lines :
  let less := SortLines_less T ascending in
  let out := strings.Split (SortLines T text ascending) LF in
  out ≡ₚ strings.Split text LF
  /\ in_order less out
  /\ length out = length (strings.Split text LF)
  /\ String.length (SortLines T text ascending) = String.length text.
Proof.
  intros less out. subst out less. rewrite SortLines_lines.
  pose proof (Slice_Permutation (SortLines_less T ascending)
                (strings.Split text LF)) as Hperm.
  split; [done|]. split.
  { apply Slice_in_order. apply SortLines_less_strict_weak_order. }
  split; [by rewrite Hperm|].
  rewrite <- (Join_Split_LF text) at 2. unfold SortLines. cbv zeta.
  by apply Join_length_Permutation.
Qed.

(** X2: Sorting what [SortLines] returned changes nothing, also where the sort
    is not stable. *)
Theorem SortLines_idempotent :
  SortLines T (SortLines T text ascending) ascending
  = SortLines T text ascending.
Proof.
  unfold SortLines at 1. cbv zeta. rewrite SortLines_lines.
  rewrite (Slice_in_order_id (SortLines_less T ascending)).
  - done.
  - apply SortLines_less_strict_weak_order.
  - apply Slice_in_order. apply SortLines_less_strict_weak_order.
Qed.

(** X3: A text whose lines are in order is returned as it is. *)
Theorem SortLines_in_order_unchanged :
  in_order (SortLines_less T ascending) (strings.Split text LF) ->
  SortLines T text ascending = text.
Proof.
  intros Hord. unfold SortLines. cbv zeta.
  rewrite (Slice_in_order_id (SortLines_less T ascending)).
  - apply Join_Split_LF.
  - apply SortLines_less_strict_weak_order.
  - done.
Qed.

End SortLinesText.

Lemma SortLines_in_order_unchanged_witness :
  in_order (SortLines_less latin1_tables false)
    (strings.Split ("pear" +:+ LF +:+ "Pear" +:+ LF +:+ "apple") LF)
  /\ SortLines latin1_tables ("pear" +:+ LF +:+ "Pear" +:+ LF +:+ "apple") false
     = "pear" +:+ LF +:+ "Pear" +:+ LF +:+ "apple".
Proof.
  assert (in_order (SortLines_less latin1_tables false)
            (strings.Split ("pear" +:+ LF +:+ "Pear" +:+ LF +:+ "apple") LF))
    as H.
  { unfold in_order.
    let l := eval vm_compute in
      (strings.Split ("pear" +:+ LF +:+ "Pear" +:+ LF +:+ "apple") LF) in
    change (strings.Split ("pear" +:+ LF +:+ "Pear" +:+ LF +:+ "apple") LF)
      with l.
    repeat (constructor; [|repeat (constructor; [vm_compute; reflexivity|])]).
    all: repeat constructor. }
  split; [exact H|].
  exact (SortLines_in_order_unchanged latin1_tables _ false H).
Defined.

(** ** RemoveDuplicateLines: what the output text shows *)

Lemma RemoveDuplicateLines_Join (text : string) :
  RemoveDuplicateLines text
  = strings.Join (first_occurrences (strings.Split text LF)) LF.
Proof.
  unfold RemoveDuplicateLines. cbv zeta.
  assert (forall x, default false ((∅ : gmap string bool) !! x) = true
                    <-> x ∈ @nil string) as Hseen.
  { intros x. rewrite lookup_empty, elem_of_nil. cbn.
    split; [discriminate|tauto]. }
  pose proof (RemoveDuplicateLines_fold (strings.Split text LF) [] ∅ []
                Hseen eq_refl) as H.
  destruct (fold_left RemoveDuplicateLines_step (strings.Split text LF) (∅, []))
    as [seen result].
  cbn [snd app] in H. by rewrite H.
Qed.

Lemma filter_Forall_id {A} (P : A -> Prop) `{!forall x, Decision (P x)}
    (l : list A) :
  Forall P l -> filter P l = l.
Proof.
  induction 1 as [|x l Hx _ IH]; [done|].
  rewrite filter_cons_True by done. by rewrite IH.
Qed.

Lemma first_occurrences_NoDup_id (l : list string) :
  NoDup l -> first_occurrences l = l.
Proof.
  induction 1 as [|x l Hx _ IH]; [done|]. cbn [first_occurrences].
  rewrite IH. f_equal. apply filter_Forall_id.
  apply Forall_forall. intros y Hy ->. done.
Qed.

Lemma first_occurrences_idempotent (l : list string) :
  first_occurrences (first_occurrences l) = first_occurrences l.
Proof. apply first_occurrences_NoDup_id, first_occurrences_NoDup. Qed.

Lemma RemoveDuplicateLines_lines (text : string) :
  strings.Split (RemoveDuplicateLines text) LF
  = first_occurrences (strings.Split text LF).
Proof.
  rewrite RemoveDuplicateLines_Join. apply Split_Join_LF.
  - intros Hnil. apply (genSplit_LF_nonempty text). rewrite <- Split_LF.
    destruct (strings.Split text LF); [done|]. by cbn [first_occurrences] in Hnil.
  - pose proof (Split_LF_no_LF text) as Hno.
    apply Forall_forall. intros x Hx.
    apply (proj1 (first_occurrences_elem_of _ _)) in Hx.
    by apply (proj1 (Forall_forall _ _) Hno).
Qed.

(** X5: No line comes twice in the output of [RemoveDuplicateLines]; its lines
    are the first occurrences of the lines of the input, and it is not
    longer than the input, in lines and in bytes. *)
Theorem RemoveDuplicateLines_output (text : string) :
  let out := strings.Split (RemoveDuplicateLines text) LF in
  out = first_occurrences (strings.Split text LF)
  /\ NoDup out
  /\ (length out <= length (strings.Split text LF))%nat
  /\ (String.length (RemoveDuplicateLines text) <= String.length text)%nat.
Proof.
  intros out. subst out. rewrite RemoveDuplicateLines_lines.
  split; [done|]. split; [apply first_occurrences_NoDup|]. split.
  - apply sublist_length, first_occurrences_sublist.
  - rewrite <- (Join_Split_LF text) at 2. rewrite RemoveDuplicateLines_Join.
    apply Join_length_sublist, first_occurrences_sublist.
Qed.

(** X6: Removing the duplicate lines a second time changes nothing. *)
Theorem RemoveDuplicateLines_idempotent (text : string) :
  RemoveDuplicateLines (RemoveDuplicateLines text) = RemoveDuplicateLines text.
Proof.
  rewrite (RemoveDuplicateLines_Join (RemoveDuplicateLines text)).
  rewrite RemoveDuplicateLines_lines, first_occurrences_idempotent.
  by rewrite <- RemoveDuplicateLines_Join.
Qed.

(** X7: The text comes back as it is exactly when no line of it comes twice. *)
Theorem RemoveDuplicateLines_unchanged_iff (text : string) :
  RemoveDuplicateLines text = text <-> NoDup (strings.Split text LF).
Proof.
  split.
  - intros Heq. rewrite <- Heq at 1. rewrite RemoveDuplicateLines_lines.
    apply first_occurrences_NoDup.
  - intros Hnd. rewrite RemoveDuplicateLines_Join.
    rewrite first_occurrences_NoDup_id by done. apply Join_Split_LF.
Qed.

(** ** Strings read rune by rune *)

Lemma runes_of_string_error (c : ascii) (rest : string) :
  DecodeRuneInString (String c rest) = (RuneError, 1%nat) ->
  runes_of_string (String c rest) = RuneError :: runes_of_string rest.
Proof.
  intros Hd. unfold runes_of_string, range_string. cbn [range_from].
  rewrite Hd. cbn [fmap list_fmap snd Nat.pred]. f_equal.
  apply range_from_runes.
Qed.

(** A string is empty, or starts with a byte that starts no well-formed
    sequence, or starts with the encoding of a valid rune. *)
Lemma string_decode_ind (P : string -> Prop) :
  P EmptyString ->
  (forall c rest,
     DecodeRuneInString (String c rest) = (RuneError, 1%nat) ->
     P rest -> P (String c rest)) ->
  (forall r rest, ValidRune r = true -> P rest -> P (EncodeRune r +:+ rest)) ->
  forall s, P s.
Proof.
  intros H0 He Hr s.
  assert (forall n s, (String.length s <= n)%nat -> P s) as H;
    [|by apply (H (String.length s))].
  clear s. induction n as [|n IH]; intros s Hn.
  { destruct s; [apply H0|cbn in Hn; lia]. }
  destruct s as [|c t]; [apply H0|].
  pose proof (DecodeRune_decoded (String c t)) as Hd.
  destruct (DecodeRuneInString (String c t)) as [r w] eqn:E.
  cbn [fst snd] in Hd.
  inversion Hd as [Hs|c' rest' Hs Hc|r' rest' Hv Hs]; subst.
  - discriminate.
  - injection Hs as <- <-. apply He; [done|]. apply IH. cbn in Hn. lia.
  - rewrite Hs. apply Hr; [done|]. apply IH.
    apply (f_equal String.length) in Hs. rewrite length_append in Hs.
    pose proof (EncodeRune_length r). cbn [String.length] in *. lia.
Qed.

Lemma string_of_runes_length (rs : list rune) :
  String.length (string_of_runes rs)
  = sum_list_with (fun r => String.length (EncodeRune r)) rs.
Proof.
  induction rs as [|r rs IH]; [done|].
  cbn [string_of_runes sum_list_with]. by rewrite length_append, IH.
Qed.

Lemma runes_round_trip_length (s : string) :
  (String.length s
   <= String.length (string_of_runes (runes_of_string s)))%nat.
Proof.
  induction s as [|c rest Hd IH|r rest Hr IH] using string_decode_ind.
  - done.
  - rewrite runes_of_string_error by done. cbn [string_of_runes].
    rewrite length_append. pose proof (EncodeRune_length RuneError).
    cbn [String.length]. lia.
  - rewrite runes_of_string_encode by done. cbn [string_of_runes].
    rewrite !length_append. lia.
Qed.

Lemma runes_of_string_ascii (s : string) :
  is_ascii s = true -> runes_of_string s = byteZ <$> list_ascii_of_string s.
Proof.
  induction s as [|c s IH]; [done|]. cbn [is_ascii list_ascii_of_string].
  intros [Hc Hs]%andb_true_iff. apply Z.ltb_lt in Hc.
  pose proof (byteZ_range c) as Hb.
  replace (String c s) with (EncodeRune (byteZ c) +:+ s).
  - rewrite runes_of_string_encode, IH; [done..|].
    apply ValidRune_range. lia.
  - rewrite EncodeRune_1 by lia. by rewrite Zbyte_byteZ.
Qed.

Lemma string_of_runes_ascii (l : list ascii) :
  Forall (fun c => (byteZ c < 0x80)%Z) l ->
  string_of_runes (byteZ <$> l) = string_of_list_ascii l.
Proof.
  induction 1 as [|c l Hc _ IH]; [done|].
  cbn [fmap list_fmap string_of_runes string_of_list_ascii].
  pose proof (byteZ_range c).
  rewrite EncodeRune_1 by lia. by rewrite Zbyte_byteZ, IH.
Qed.

Lemma is_ascii_Forall (s : string) :
  is_ascii s = true ->
  Forall (fun c => (byteZ c < 0x80)%Z) (list_ascii_of_string s).
Proof.
  induction s as [|c s IH]; [constructor|]. cbn [is_ascii list_ascii_of_string].
  intros [Hc Hs]%andb_true_iff. apply Z.ltb_lt in Hc. constructor; auto.
Qed.

(** ** ReverseText on every string *)

Lemma ReverseText_runes_rev (s : string) :
  runes_of_string (ReverseText s) = rev (runes_of_string s).
Proof.
  rewrite ReverseText_runes. apply runes_of_string_of_runes.
  apply Forall_forall. intros r Hr. apply list_elem_of_In, in_rev in Hr.
  apply list_elem_of_In in Hr.
  by apply (proj1 (Forall_forall _ _) (runes_of_string_valid s)).
Qed.

(** X8: Whatever the bytes of [s], [ReverseText s] is valid UTF-8 and holds the
    code points that [s] decodes to, in the opposite order (a byte that
    starts no well-formed sequence counts as U+FFFD); it has as many code
    points as [s] and at least as many bytes. *)
Theorem ReverseText_code_points (s : string) :
  ValidString (ReverseText s) = true
  /\ runes_of_string (ReverseText s) = rev (runes_of_string s)
  /\ RuneCountInString (ReverseText s) = RuneCountInString s
  /\ (String.length s <= String.length (ReverseText s))%nat.
Proof.
  assert (Forall (fun r => ValidRune r = true) (rev (runes_of_string s)))
    as Hvalid.
  { apply Forall_forall. intros r Hr. apply list_elem_of_In, in_rev in Hr.
    apply list_elem_of_In in Hr.
    by apply (proj1 (Forall_forall _ _) (runes_of_string_valid s)). }
  split; [|split; [|split]].
  - rewrite ReverseText_runes. by apply ValidString_of_runes.
  - apply ReverseText_runes_rev.
  - pose proof (ReverseText_runes_rev s) as H.
    apply (f_equal length) in H. rewrite length_rev in H.
    unfold runes_of_string in H. rewrite !length_fmap in H. exact H.
  - rewrite ReverseText_runes, string_of_runes_length.
    rewrite (sum_list_with_Permutation _ _ _ (Permutation_sym (Permutation_rev _))).
    rewrite <- string_of_runes_length. apply runes_round_trip_length.
Qed.

(** X9: Reversing three times is reversing once: what [ReverseText] returns is
    valid UTF-8, on which it is an involution. *)
Theorem ReverseText_thrice (s : string) :
  ReverseText (ReverseText (ReverseText s)) = ReverseText s.
Proof.
  rewrite (ReverseText_runes (ReverseText (ReverseText s))).
  rewrite ReverseText_runes_rev, ReverseText_runes_rev, rev_involutive.
  by rewrite <- ReverseText_runes.
Qed.

(** X10: Valid UTF-8 keeps its length in bytes. *)
Theorem ReverseText_valid_length (s : string) :
  ValidString s = true ->
  String.length (ReverseText s) = String.length s.
Proof.
  intros Hs. rewrite ReverseText_runes, string_of_runes_length.
  rewrite (sum_list_with_Permutation _ _ _ (Permutation_sym (Permutation_rev _))).
  rewrite <- string_of_runes_length. by rewrite string_of_runes_of_string.
Qed.

Lemma ReverseText_valid_length_witness :
  ValidString "héllo €" = true
  /\ String.length (ReverseText "héllo €") = String.length "héllo €".
Proof.
  split; [vm_compute; reflexivity|].
  apply (ReverseText_valid_length "héllo €"). vm_compute. reflexivity.
Defined.

(** X11: On ASCII text the code points are the bytes: [ReverseText] reverses the
    bytes. *)
Theorem ReverseText_ascii (s : string) :
  is_ascii s = true ->
  list_ascii_of_string (ReverseText s) = rev (list_ascii_of_string s).
Proof.
  intros Hs. rewrite ReverseText_runes, runes_of_string_ascii by done.
  rewrite <- map_rev.
  change (map byteZ (rev (list_ascii_of_string s)))
    with (byteZ <$> rev (list_ascii_of_string s)).
  rewrite string_of_runes_ascii.
  - apply list_ascii_of_string_of_list_ascii.
  - apply Forall_forall. intros c Hc. apply list_elem_of_In, in_rev in Hc.
    apply list_elem_of_In in Hc.
    by apply (proj1 (Forall_forall _ _) (is_ascii_Forall s Hs)).
Qed.

Lemma ReverseText_ascii_witness :
  is_ascii "Hello, world" = true
  /\ list_ascii_of_string (ReverseText "Hello, world")
     = rev (list_ascii_of_string "Hello, world").
Proof.
  split; [reflexivity|]. apply (ReverseText_ascii "Hello, world"). reflexivity.
Defined.

(** ** [regexp.QuoteMeta] and the pattern of FindReplace *)

Lemma special_ascii (b : Z) : regexp.special b = true -> (0 <= b < 0x80)%Z.
Proof.
  unfold regexp.special. intros H. apply existsb_exists in H as (x & Hx & Hb).
  apply Z.eqb_eq in Hb. subst x. cbn in Hx.
  repeat (destruct Hx as [<-|Hx]; [lia|]). done.
Qed.

Lemma special_not_alnum (b : Z) :
  regexp.special b = true -> regexp.isalnum b = false.
Proof.
  unfold regexp.special. intros H. apply existsb_exists in H as (x & Hx & Hb).
  apply Z.eqb_eq in Hb. subst x. cbn in Hx.
  repeat (destruct Hx as [<-|Hx]; [reflexivity|]). done.
Qed.

Lemma QuoteMeta_append (x y : string) :
  regexp.QuoteMeta (x +:+ y) = regexp.QuoteMeta x +:+ regexp.QuoteMeta y.
Proof.
  induction x as [|c x IH]; [done|]. rewrite append_cons.
  cbn [regexp.QuoteMeta]. rewrite IH.
  by destruct (regexp.special (byteZ c)).
Qed.

Lemma QuoteMeta_all_high (x : string) :
  all_high x = true -> regexp.QuoteMeta x = x.
Proof.
  induction x as [|c x IH]; [done|]. cbn [all_high regexp.QuoteMeta].
  intros [Hc Hx]%andb_true_iff. apply Z.leb_le in Hc.
  destruct (regexp.special (byteZ c)) eqn:E.
  - apply special_ascii in E. lia.
  - by rewrite IH.
Qed.

Lemma EncodeRune_all_high (r : rune) :
  ValidRune r = true -> (0x80 <= r)%Z -> all_high (EncodeRune r) = true.
Proof.
  rewrite ValidRune_range. intros Hr Hh.
  assert (forall v, (0x80 <= v < 256)%Z -> (0x80 <=? byteZ (Zbyte v))%Z = true)
    as Hb by (intros v Hv; rewrite byteZ_Zbyte by lia; lia).
  assert (0 <= r mod 64 < 64 /\ 0 <= r / 64 mod 64 < 64
          /\ 0 <= r / 4096 mod 64 < 64)%Z as (H1 & H2 & H3)
    by (repeat split; apply Z.mod_pos_bound; lia).
  destruct (Z.le_gt_cases r 0x7FF).
  { rewrite EncodeRune_2 by lia. cbn [all_high].
    rewrite !Hb; [done|lia|]. 
    assert (0 <= r / 64 < 32)%Z by (split; [apply Z.div_pos; lia|apply Z.div_lt_upper_bound; lia]).
    lia. }
  destruct (Z.le_gt_cases r 0xFFFF).
  { rewrite EncodeRune_3 by lia. cbn [all_high].
    assert (0 <= r / 4096 < 16)%Z by (split; [apply Z.div_pos; lia|apply Z.div_lt_upper_bound; lia]).
    rewrite !Hb; [done|lia..]. }
  rewrite EncodeRune_4 by lia. cbn [all_high].
  assert (0 <= r / 262144 < 8)%Z by (split; [apply Z.div_pos; lia|apply Z.div_lt_upper_bound; lia]).
  rewrite !Hb; [done|lia..].
Qed.

Lemma QuoteMeta_encode (r : rune) :
  ValidRune r = true ->
  regexp.QuoteMeta (EncodeRune r) = string_of_runes (quote_runes [r]).
Proof.
  intros Hr. unfold quote_runes. cbn [flat_map app].
  destruct (Z.le_gt_cases 0x80 r) as [Hh|Hl].
  - rewrite QuoteMeta_all_high by by apply EncodeRune_all_high.
    destruct (regexp.special r) eqn:E; [apply special_ascii in E; lia|].
    cbn [app string_of_runes]. by rewrite append_nil_r.
  - apply ValidRune_range in Hr.
    rewrite (EncodeRune_1 r) by lia. cbn [regexp.QuoteMeta].
    rewrite byteZ_Zbyte by lia.
    destruct (regexp.special r); cbn [app string_of_runes];
      rewrite ?(EncodeRune_1 r) by lia; [|done].
    by vm_compute (EncodeRune 92%Z).
Qed.

Lemma quote_runes_app (rs1 rs2 : list rune) :
  quote_runes (rs1 ++ rs2) = quote_runes rs1 ++ quote_runes rs2.
Proof. unfold quote_runes. apply flat_map_app. Qed.

Lemma QuoteMeta_string_of_runes (rs : list rune) :
  Forall (fun r => ValidRune r = true) rs ->
  regexp.QuoteMeta (string_of_runes rs) = string_of_runes (quote_runes rs).
Proof.
  induction 1 as [|r rs Hr _ IH]; [done|].
  cbn [string_of_runes]. rewrite QuoteMeta_append, IH, QuoteMeta_encode by done.
  rewrite <- string_of_runes_app. by rewrite <- quote_runes_app.
Qed.

Lemma quote_runes_valid (rs : list rune) :
  Forall (fun r => ValidRune r = true) rs ->
  Forall (fun r => ValidRune r = true) (quote_runes rs).
Proof.
  induction 1 as [|r rs Hr _ IH]; [constructor|].
  change (quote_runes (r :: rs))
    with ((if regexp.special r then [0x5C%Z; r] else [r]) ++ quote_runes rs).
  apply Forall_app. split; [|done].
  destruct (regexp.special r); repeat constructor; done.
Qed.

(** The parser reads the quoted runes back as the literal. *)
Lemma parse_literal_quote_runes (rs : list rune) :
  regexp.parse_literal (quote_runes rs) = Some rs.
Proof.
  induction rs as [|r rs IH]; [done|].
  change (quote_runes (r :: rs))
    with ((if regexp.special r then [0x5C%Z; r] else [r]) ++ quote_runes rs).
  destruct (regexp.special r) eqn:E.
  - cbn [app regexp.parse_literal]. change (92 =? 92)%Z with true.
    cbv beta iota.
    pose proof (special_ascii r E) as Hr. unfold RuneSelf.
    rewrite (proj2 (Z.ltb_lt r 0x80)) by lia.
    rewrite (special_not_alnum r E). cbn [andb negb]. by rewrite IH.
  - cbn [app regexp.parse_literal].
    assert ((r =? 92)%Z = false) as ->.
    { apply Z.eqb_neq. intros ->. by vm_compute in E. }
    rewrite E, andb_false_r. by rewrite IH.
Qed.

Lemma ValidString_error (c : ascii) (rest : string) :
  DecodeRuneInString (String c rest) = (RuneError, 1%nat) ->
  ValidString (String c rest) = false.
Proof. intros Hd. unfold ValidString. cbn [valid_from]. by rewrite Hd. Qed.

Lemma QuoteMeta_high_prefix (x y rest : string) :
  all_high x = true -> regexp.QuoteMeta rest = x +:+ y ->
  exists y', rest = x +:+ y'.
Proof.
  revert rest. induction x as [|a x IH]; intros rest Hx Hq.
  { by exists rest. }
  cbn [all_high] in Hx. apply andb_true_iff in Hx as [Ha Hx].
  apply Z.leb_le in Ha. rewrite append_cons in Hq.
  destruct rest as [|b rest]; [done|]. cbn [regexp.QuoteMeta] in Hq.
  destruct (regexp.special (byteZ b)) eqn:E.
  - injection Hq as <- _. by vm_compute in Ha.
  - injection Hq as <- Hq. destruct (IH rest Hx Hq) as [y' ->].
    exists y'. by rewrite append_cons.
Qed.

(** A byte that starts no well-formed sequence starts none after quoting. *)
Lemma QuoteMeta_error (c : ascii) (rest : string) :
  DecodeRuneInString (String c rest) = (RuneError, 1%nat) ->
  regexp.QuoteMeta (String c rest) = String c (regexp.QuoteMeta rest)
  /\ DecodeRuneInString (String c (regexp.QuoteMeta rest)) = (RuneError, 1%nat).
Proof.
  intros Hd.
  assert (0x80 <= byteZ c)%Z as Hc.
  { destruct (Z.lt_ge_cases (byteZ c) 0x80) as [Hlt|]; [|done].
    rewrite DecodeRune_1 in Hd by done. injection Hd as Hd.
    unfold RuneError in Hd. lia. }
  split.
  { cbn [regexp.QuoteMeta]. destruct (regexp.special (byteZ c)) eqn:E; [|done].
    apply special_ascii in E. lia. }
  pose proof (DecodeRune_decoded (String c (regexp.QuoteMeta rest))) as D.
  destruct (DecodeRuneInString (String c (regexp.QuoteMeta rest))) as [r w].
  cbn [fst snd] in D.
  inversion D as [Hs|c' rest' Hs Hc'|r' rest' Hv Hs]; subst; [done..|].
  exfalso. destruct (Z.lt_ge_cases r 0x80) as [Hlt|Hge].
  - apply ValidRune_range in Hv. rewrite EncodeRune_1 in Hs by lia.
    rewrite append_cons in Hs. injection Hs as -> _.
    rewrite byteZ_Zbyte in Hc by lia. lia.
  - pose proof (EncodeRune_all_high r Hv Hge) as Hh.
    pose proof (EncodeRune_length_nonascii r Hv Hge) as Hlen.
    destruct (EncodeRune r) as [|c0 t] eqn:Er; [cbn in Hlen; lia|].
    rewrite append_cons in Hs. injection Hs as <- Hq.
    cbn [all_high] in Hh. apply andb_true_iff in Hh as [_ Ht].
    destruct (QuoteMeta_high_prefix t rest' rest Ht Hq) as [y' ->].
    assert (String c (t +:+ y') = EncodeRune r +:+ y') as Hs
      by (by rewrite Er, append_cons).
    rewrite Hs, DecodeRune_EncodeRune in Hd by done.
    injection Hd as _ Hw. rewrite Er in Hw. cbn [String.length] in *. lia.
Qed.

(** Quoting keeps a string valid or not valid. *)
Lemma ValidString_QuoteMeta (s : string) :
  ValidString (regexp.QuoteMeta s) = ValidString s.
Proof.
  induction s as [|c rest Hd IH|r rest Hr IH] using string_decode_ind.
  - done.
  - destruct (QuoteMeta_error c rest Hd) as [-> Hd'].
    by rewrite !ValidString_error.
  - rewrite QuoteMeta_append, QuoteMeta_encode by done.
    rewrite ValidString_encode by done. rewrite <- IH.
    unfold quote_runes. cbn [flat_map app].
    destruct (regexp.special r); cbn [app string_of_runes];
      rewrite ?append_nil_r, ?append_assoc, !ValidString_encode; done.
Qed.

Lemma runes_of_string_QuoteMeta (s : string) :
  ValidString s = true ->
  runes_of_string (regexp.QuoteMeta s) = quote_runes (runes_of_string s).
Proof.
  intros Hs. rewrite <- (string_of_runes_of_string s Hs) at 1.
  rewrite QuoteMeta_string_of_runes by apply runes_of_string_valid.
  apply runes_of_string_of_runes, quote_runes_valid, runes_of_string_valid.
Qed.

(** The expression that FindReplace compiles is the literal [find], matched
    up to case; it does not compile when [find] is not valid UTF-8. *)
Lemma MustCompile_QuoteMeta (find : string) :
  regexp.MustCompile ("(?i)" +:+ regexp.QuoteMeta find)
  = if ValidString find
    then Some {| regexp.foldCase := true;
                 regexp.literal := runes_of_string find |}
    else None.
Proof.
  unfold regexp.MustCompile, regexp.parse, regexp.checkUTF8.
  assert (ValidString ("(?i)" +:+ regexp.QuoteMeta find) = ValidString find)
    as ->.
  { rewrite <- (ValidString_QuoteMeta find).
    change ("(?i)" +:+ regexp.QuoteMeta find)
      with (EncodeRune 40%Z +:+ EncodeRune 63%Z +:+ EncodeRune 105%Z
            +:+ EncodeRune 41%Z +:+ regexp.QuoteMeta find).
    by rewrite !ValidString_encode. }
  destruct (ValidString find) eqn:Hv; [|done]. cbn [negb].
  change (String.prefix "(?i)" ("(?i)" +:+ regexp.QuoteMeta find))
    with (String.prefix "(?i)"
            (String "(" (String "?" (String "i" (String ")"
               (regexp.QuoteMeta find)))))).
  assert (String.prefix "(?i)"
            (String "(" (String "?" (String "i" (String ")"
               (regexp.QuoteMeta find))))) = true) as ->.
  { apply String.prefix_correct. cbn [String.length String.substring].
    destruct (regexp.QuoteMeta find); reflexivity. }
  change (str_drop 4 ("(?i)" +:+ regexp.QuoteMeta find))
    with (regexp.QuoteMeta find).
  rewrite runes_of_string_QuoteMeta by done.
  by rewrite parse_literal_quote_runes.
Qed.

(** ** FindReplace: the two branches *)

Lemma prefix_cons (a b : ascii) (x y : string) :
  String.prefix (String a x) (String b y) = Ascii.eqb a b && String.prefix x y.
Proof.
  cbn [String.prefix]. destruct (ascii_dec a b) as [->|Hne].
  - by rewrite Ascii.eqb_refl.
  - by rewrite (proj2 (Ascii.eqb_neq a b) Hne).
Qed.

Lemma prefix_nil (s : string) : String.prefix EmptyString s = true.
Proof. by destruct s. Qed.

Lemma prefix_append (old s : string) :
  String.prefix old s = true -> exists rest, s = old +:+ rest.
Proof.
  revert s. induction old as [|a old IH]; intros s Hp.
  { by exists s. }
  destruct s as [|b s]; [done|]. rewrite prefix_cons in Hp.
  apply andb_true_iff in Hp as [Hab Hp]. apply Ascii.eqb_eq in Hab as ->.
  destruct (IH s Hp) as [rest ->]. by exists rest.
Qed.

Lemma replace_empty_skip (new x rest : string) :
  strings.replace_empty new (String.length x) (x +:+ rest)
  = x +:+ strings.replace_empty new 0 rest.
Proof.
  induction x as [|c x IH]; [done|].
  rewrite append_cons. cbn [String.length strings.replace_empty].
  by rewrite IH.
Qed.

Lemma replace_empty_nil (s : string) (k : nat) :
  strings.replace_empty EmptyString k s = s.
Proof.
  revert k. induction s as [|c s IH]; intros k; [done|].
  cbn [strings.replace_empty]. destruct k; rewrite ?append_nil_l, IH; done.
Qed.

(** With an empty [old], the replacement comes before every code point and
    at the end. *)
Lemma replace_empty_runes (new : string) (rs : list rune) :
  Forall (fun r => ValidRune r = true) rs ->
  strings.replace_empty new 0 (string_of_runes rs)
  = concat_all ((fun r => new +:+ EncodeRune r) <$> rs) +:+ new.
Proof.
  induction 1 as [|r rs Hr _ IH]; [done|].
  cbn [string_of_runes fmap list_fmap concat_all foldr].
  destruct (EncodeRune r) as [|c t] eqn:Er.
  { pose proof (EncodeRune_length r) as Hl. rewrite Er in Hl. cbn in Hl. lia. }
  rewrite append_cons. cbn [strings.replace_empty].
  assert (String c (t +:+ string_of_runes rs)
          = EncodeRune r +:+ string_of_runes rs) as -> by (by rewrite Er).
  rewrite DecodeRune_EncodeRune by done. rewrite Er.
  cbn [snd String.length Nat.pred]. rewrite replace_empty_skip.
  change (concat_all ((fun r => new +:+ EncodeRune r) <$> rs))
    with (foldr String.append EmptyString
            ((fun r => new +:+ EncodeRune r) <$> rs)) in IH.
  rewrite IH, !append_assoc. by rewrite append_cons.
Qed.

Section Branches.
Context (T : unicode.Tables).

(** X12: The case-insensitive branch compiles the literal [find]; it panics
    exactly when [find] is not valid UTF-8, whatever the text and the
    replacement. *)
Theorem FindReplace_literal_pattern (text find replace : string) :
  FindReplace T text find replace false
  = (if ValidString find
     then Some (regexp.ReplaceAllString T
                  {| regexp.foldCase := true;
                     regexp.literal := runes_of_string find |} text replace)
     else None)
  /\ (FindReplace T text find replace false = None
      <-> ValidString find = false).
Proof.
  unfold FindReplace. cbn [negb]. rewrite MustCompile_QuoteMeta.
  destruct (ValidString find); split; try done; split; discriminate.
Qed.

(** X13: An empty [find]: a replacement without a dollar sign is inserted before
    every code point and at the end, by either branch. *)
Theorem FindReplace_empty_find (text replace : string) :
  regexp.cut_dollar replace = None ->
  FindReplace T text EmptyString replace false
  = FindReplace T text EmptyString replace true
  /\ (ValidString text = true ->
      FindReplace T text EmptyString replace true
      = Some (concat_all ((fun r => replace +:+ EncodeRune r)
                            <$> runes_of_string text) +:+ replace)).
Proof.
  intros Hcut.
  assert (strings.ReplaceAll text EmptyString replace
          = strings.replace_empty replace 0 text) as Hall.
  { unfold strings.ReplaceAll. destruct replace; [|done].
    cbn [String.eqb]. by rewrite replace_empty_nil. }
  split.
  - unfold FindReplace. cbn [negb]. rewrite MustCompile_QuoteMeta.
    change (ValidString EmptyString) with true. cbv iota.
    rewrite ReplaceAllString_without_dollar by done.
    cbn [regexp.literal runes_of_string]. by rewrite Hall.
  - intros Hv. unfold FindReplace. cbn [negb]. rewrite Hall. f_equal.
    rewrite <- (string_of_runes_of_string text Hv) at 1.
    apply replace_empty_runes, runes_of_string_valid.
Qed.

End Branches.

Lemma FindReplace_empty_find_witness :
  regexp.cut_dollar "-" = None
  /\ FindReplace latin1_tables "né" EmptyString "-" false
     = FindReplace latin1_tables "né" EmptyString "-" true
  /\ (ValidString "né" = true ->
      FindReplace latin1_tables "né" EmptyString "-" true
      = Some (concat_all ((fun r => "-" +:+ EncodeRune r)
                            <$> runes_of_string "né") +:+ "-")).
Proof.
  split; [reflexivity|].
  apply (FindReplace_empty_find latin1_tables "né" "-"). reflexivity.
Defined.

(** ** FindReplace: a [find] that case folding leaves alone *)

Lemma caseless_ascii_cons (a : ascii) (find : string) :
  caseless_ascii (String a find) = true ->
  (0 <= byteZ a < 0x80)%Z
  /\ ~ (0x41 <= byteZ a <= 0x5A)%Z /\ ~ (0x61 <= byteZ a <= 0x7A)%Z
  /\ caseless_ascii find = true.
Proof.
  cbn [caseless_ascii]. cbv zeta. pose proof (byteZ_range a). 
  intros [[[H1 H2]%andb_true_iff H3]%andb_true_iff H4]%andb_true_iff.
  apply Z.ltb_lt in H1. apply negb_true_iff in H2, H3.
  split; [lia|]. split; [|split; [|done]].
  - intros [Ha Hb]. apply Z.leb_le in Ha, Hb. by rewrite Ha, Hb in H2.
  - intros [Ha Hb]. apply Z.leb_le in Ha, Hb. by rewrite Ha, Hb in H3.
Qed.

Lemma byteZ_inj (a b : ascii) : byteZ a = byteZ b -> a = b.
Proof. intros H. by rewrite <- (Zbyte_byteZ a), <- (Zbyte_byteZ b), H. Qed.

Lemma runes_of_string_ascii_cons (a : ascii) (s : string) :
  (byteZ a < 0x80)%Z ->
  runes_of_string (String a s) = byteZ a :: runes_of_string s.
Proof.
  intros Ha. pose proof (byteZ_range a).
  replace (String a s) with (EncodeRune (byteZ a) +:+ s).
  - apply runes_of_string_encode. apply ValidRune_range. lia.
  - rewrite EncodeRune_1 by lia. by rewrite Zbyte_byteZ.
Qed.

Lemma DecodeRune_high (b : ascii) (s : string) :
  (0x80 <= byteZ b)%Z -> (0x80 <= (DecodeRuneInString (String b s)).1)%Z.
Proof.
  intros Hb. pose proof (DecodeRune_decoded (String b s)) as D.
  destruct (DecodeRuneInString (String b s)) as [r w]. cbn [fst snd] in *.
  inversion D as [Hs|c' rest' Hs Hc'|r' rest' Hv Hs]; subst.
  - done.
  - unfold RuneError. lia.
  - destruct (Z.lt_ge_cases r 0x80) as [Hlt|]; [|done].
    apply ValidRune_range in Hv. rewrite EncodeRune_1 in Hs by lia.
    rewrite append_cons in Hs. injection Hs as -> _.
    rewrite byteZ_Zbyte in Hb by lia. lia.
Qed.

Section Caseless.
Context (T : unicode.Tables).

Lemma match_rune_caseless (re : regexp.Regexp) (r0 r : rune) :
  (0 <= r0 < 0x80)%Z -> ~ (0x41 <= r0 <= 0x5A)%Z -> ~ (0x61 <= r0 <= 0x7A)%Z ->
  regexp.match_rune T re r0 r = (r =? r0)%Z.
Proof.
  intros Hr Hu Hl. unfold regexp.match_rune.
  assert (unicode.SimpleFold T r0 = r0) as ->.
  { unfold unicode.SimpleFold, unicode.asciiFold, unicode.MaxASCII, MaxRune.
    rewrite (proj2 (Z.ltb_ge r0 0)) by lia.
    rewrite (proj2 (Z.ltb_ge 0x10FFFF r0)) by lia.
    rewrite (proj2 (Z.leb_le r0 0x7F)) by lia. cbn [orb].
    destruct (0x41 <=? r0)%Z eqn:E1, (r0 <=? 0x5A)%Z eqn:E2; cbn [andb];
      try lia;
      (destruct (r0 =? 0x6B)%Z eqn:E3; [lia|]);
      (destruct (r0 =? 0x73)%Z eqn:E4; [lia|]);
      destruct (0x61 <=? r0)%Z eqn:E5, (r0 <=? 0x7A)%Z eqn:E6; cbn [andb];
      try lia; done. }
  cbn [regexp.on_orbit]. rewrite Z.eqb_refl.
  by rewrite andb_false_r, orb_false_r.
Qed.

(** The literal matches where the bytes of [find] are. *)
Lemma match_here_caseless (re : regexp.Regexp) (find s : string) :
  caseless_ascii find = true ->
  regexp.match_here T re (runes_of_string find) s
  = if String.prefix find s then Some (String.length find) else None.
Proof.
  revert s. induction find as [|a find IH]; intros s Hf.
  { by rewrite prefix_nil. }
  apply caseless_ascii_cons in Hf as (Ha & Hu & Hl & Hf).
  rewrite runes_of_string_ascii_cons by lia. cbn [regexp.match_here].
  destruct s as [|b s]; [done|].
  rewrite prefix_cons.
  destruct (Z.lt_ge_cases (byteZ b) 0x80) as [Hb|Hb].
  - rewrite DecodeRune_1 by done. cbv beta iota.
    rewrite match_rune_caseless by done. cbn [str_drop].
    destruct (Z.eqb_spec (byteZ b) (byteZ a)) as [Heq|Hne].
    + apply byteZ_inj in Heq as ->. rewrite Ascii.eqb_refl. cbn [andb].
      rewrite IH by done. by destruct (String.prefix find s).
    + rewrite (proj2 (Ascii.eqb_neq a b)); [done|]. by intros ->.
  - pose proof (DecodeRune_high b s Hb) as Hr.
    destruct (DecodeRuneInString (String b s)) as [r w]. cbn [fst] in Hr.
    cbv beta iota. rewrite match_rune_caseless by done.
    rewrite (proj2 (Z.eqb_neq r (byteZ a))) by lia.
    rewrite (proj2 (Ascii.eqb_neq a b)); [done|]. intros ->. lia.
Qed.

Lemma replace_literal_emit (re : regexp.Regexp) (f : string -> string)
    (e : bool) (s : string) :
  regexp.replace_literal T re f 0 e s = regexp.replace_literal T re f 0 true s.
Proof. by destruct s. Qed.

Lemma replace_literal_skip_drop (re : regexp.Regexp) (f : string -> string)
    (x rest : string) :
  regexp.replace_literal T re f (String.length x) false (x +:+ rest)
  = regexp.replace_literal T re f 0 true rest.
Proof.
  induction x as [|c x IH]; [apply replace_literal_emit|].
  rewrite append_cons. cbn [String.length regexp.replace_literal]. exact IH.
Qed.

Lemma replace_literal_skip_emit (re : regexp.Regexp) (f : string -> string)
    (x rest : string) :
  regexp.replace_literal T re f (String.length x) true (x +:+ rest)
  = x +:+ regexp.replace_literal T re f 0 true rest.
Proof.
  induction x as [|c x IH]; [done|].
  rewrite !append_cons. cbn [String.length regexp.replace_literal].
  by rewrite IH.
Qed.

End Caseless.

Lemma replace_nonempty_skip (old new x rest : string) :
  strings.replace_nonempty old new (String.length x) (x +:+ rest)
  = strings.replace_nonempty old new 0 rest.
Proof.
  induction x as [|c x IH]; [done|].
  rewrite append_cons. cbn [String.length strings.replace_nonempty]. exact IH.
Qed.

Lemma replace_nonempty_high (a : ascii) (old new x rest : string) :
  (byteZ a < 0x80)%Z -> all_high x = true ->
  strings.replace_nonempty (String a old) new 0 (x +:+ rest)
  = x +:+ strings.replace_nonempty (String a old) new 0 rest.
Proof.
  intros Ha. induction x as [|c x IH]; [done|].
  cbn [all_high]. intros [Hc Hx]%andb_true_iff. apply Z.leb_le in Hc.
  rewrite !append_cons. cbn [strings.replace_nonempty].
  rewrite prefix_cons. rewrite (proj2 (Ascii.eqb_neq a c)) by (intros ->; lia).
  cbn [andb]. by rewrite IH.
Qed.

(** Replacing a string by itself gives the text back. *)
Lemma replace_nonempty_same (a : ascii) (old s : string) :
  strings.replace_nonempty (String a old) (String a old) 0 s = s.
Proof.
  assert (forall n s, (String.length s <= n)%nat ->
            strings.replace_nonempty (String a old) (String a old) 0 s = s)
    as H; [|by apply (H (String.length s))].
  clear s. induction n as [|n IH]; intros s Hn.
  { destruct s; [done|cbn in Hn; lia]. }
  destruct s as [|c s]; [done|]. cbn [strings.replace_nonempty].
  destruct (String.prefix (String a old) (String c s)) eqn:Hp.
  - apply prefix_append in Hp as [rest Hs]. rewrite append_cons in Hs.
    injection Hs as -> ->. cbn [String.length Nat.pred].
    rewrite replace_nonempty_skip, IH; [by rewrite append_cons|].
    cbn [String.length] in Hn. rewrite length_append in Hn. lia.
  - rewrite IH; [done|]. cbn [String.length] in Hn. lia.
Qed.

(** The bytes of the rune at the start of a string, after the first one. *)
Lemma decode_tail (c : ascii) (s : string) :
  exists t rest,
    s = t +:+ rest
    /\ String.length t = Nat.pred (DecodeRuneInString (String c s)).2
    /\ all_high t = true.
Proof.
  pose proof (DecodeRune_decoded (String c s)) as D.
  destruct (DecodeRuneInString (String c s)) as [r w]. cbn [fst snd] in *.
  inversion D as [Hs|c' rest' Hs Hc'|r' rest' Hv Hs]; subst.
  - done.
  - by exists EmptyString, s.
  - destruct (EncodeRune r) as [|c0 t] eqn:Er.
    { pose proof (EncodeRune_length r) as Hl. rewrite Er in Hl. cbn in Hl. lia. }
    rewrite append_cons in Hs. injection Hs as <- ->.
    exists t, rest'. split; [done|]. split; [done|].
    destruct (Z.lt_ge_cases r 0x80) as [Hlt|Hge].
    + apply ValidRune_range in Hv. rewrite EncodeRune_1 in Er by lia.
      by injection Er as _ <-.
    + pose proof (EncodeRune_all_high r Hv Hge) as Hh. rewrite Er in Hh.
      cbn [all_high] in Hh. by apply andb_true_iff in Hh as [_ Hh].
Qed.

Section CaselessBranches.
Context (T : unicode.Tables).

(** For such a [find], the loop of the regular expression does what
    [strings.ReplaceAll] does. *)
Lemma replace_literal_caseless (re : regexp.Regexp) (a : ascii)
    (find new s : string) :
  caseless_ascii (String a find) = true ->
  regexp.literal re = runes_of_string (String a find) ->
  regexp.replace_literal T re (fun _ => new) 0 true s
  = strings.replace_nonempty (String a find) new 0 s.
Proof.
  intros Hf Hlit.
  pose proof (caseless_ascii_cons a find Hf) as (Ha & _ & _ & _).
  assert (forall n s, (String.length s <= n)%nat ->
            regexp.replace_literal T re (fun _ => new) 0 true s
            = strings.replace_nonempty (String a find) new 0 s) as H;
    [|by apply (H (String.length s))].
  clear s. induction n as [|n IH]; intros s Hn.
  { destruct s; [done|cbn in Hn; lia]. }
  destruct s as [|c s]; [done|].
  cbn [regexp.replace_literal strings.replace_nonempty].
  rewrite Hlit, match_here_caseless by done.
  destruct (String.prefix (String a find) (String c s)) eqn:Hp.
  - apply prefix_append in Hp as [rest Hs]. rewrite append_cons in Hs.
    injection Hs as -> ->. cbn [String.length Nat.pred].
    rewrite replace_literal_skip_drop, replace_nonempty_skip.
    rewrite IH; [done|].
    cbn [String.length] in Hn. rewrite length_append in Hn. lia.
  - destruct (decode_tail c s) as (t & rest & -> & Hlen & Hhigh).
    rewrite <- Hlen. rewrite replace_literal_skip_emit.
    rewrite replace_nonempty_high by (done || lia).
    rewrite IH; [done|].
    cbn [String.length] in Hn. rewrite length_append in Hn. lia.
Qed.

Lemma FindReplace_caseless_agree (text find replace : string) :
  caseless_ascii find = true -> regexp.cut_dollar replace = None ->
  FindReplace T text find replace false = FindReplace T text find replace true.
Proof.
  intros Hf Hcut. unfold FindReplace. cbn [negb].
  rewrite MustCompile_QuoteMeta.
  assert (ValidString find = true) as ->.
  { clear Hcut. induction find as [|a find IH]; [done|].
    apply caseless_ascii_cons in Hf as (Ha & _ & _ & Hf).
    replace (String a find) with (EncodeRune (byteZ a) +:+ find).
    - rewrite ValidString_encode; [by apply IH|]. apply ValidRune_range. lia.
    - rewrite EncodeRune_1 by lia. by rewrite Zbyte_byteZ. }
  f_equal. rewrite ReplaceAllString_without_dollar by done.
  cbn [regexp.literal]. unfold strings.ReplaceAll.
  destruct find as [|a find].
  - cbn [runes_of_string]. change (runes_of_string EmptyString) with (@nil rune).
    destruct replace; [|done]. cbn [String.eqb]. apply replace_empty_nil.
  - pose proof (caseless_ascii_cons a find Hf) as (Ha & _ & _ & _).
    rewrite runes_of_string_ascii_cons by lia.
    rewrite (replace_literal_caseless _ a find replace text Hf)
      by (by rewrite runes_of_string_ascii_cons by lia).
    destruct (String.eqb_spec (String a find) replace) as [<-|Hne].
    + apply replace_nonempty_same.
    + done.
Qed.

(** X14: A [find] of ASCII bytes that are not letters, with metacharacters of
    regular expressions or not: for a replacement without a dollar sign the
    case-insensitive branch returns what the case-sensitive branch
    returns. *)
Theorem FindReplace_caseless_find (text find replace : string) :
  caseless_ascii find = true -> regexp.cut_dollar replace = None ->
  FindReplace T text find replace false
  = Some (strings.ReplaceAll text find replace)
  /\ FindReplace T text find replace false
     = FindReplace T text find replace true.
Proof.
  intros Hf Hcut. rewrite FindReplace_caseless_agree by done. done.
Qed.

End CaselessBranches.

Lemma FindReplace_caseless_find_witness :
  caseless_ascii "(1+1)*$2.50" = true /\ regexp.cut_dollar "[x]" = None
  /\ FindReplace latin1_tables "é (1+1)*$2.50 = (1+1)*$2.50" "(1+1)*$2.50"
       "[x]" false
     = Some (strings.ReplaceAll "é (1+1)*$2.50 = (1+1)*$2.50" "(1+1)*$2.50"
               "[x]")
  /\ FindReplace latin1_tables "é (1+1)*$2.50 = (1+1)*$2.50" "(1+1)*$2.50"
       "[x]" false
     = FindReplace latin1_tables "é (1+1)*$2.50 = (1+1)*$2.50" "(1+1)*$2.50"
         "[x]" true.
Proof.
  split; [reflexivity|]. split; [reflexivity|].
  apply (FindReplace_caseless_find latin1_tables); reflexivity.
Defined.

(** * splitWords: what the tokens hold *)

Lemma concat_all_snoc (ws : list string) (w : string) :
  concat_all (ws ++ [w]) = concat_all ws +:+ w.
Proof.
  induction ws as [|x ws IH]; cbn [app concat_all foldr].
  - by rewrite append_nil_l, append_nil_r.
  - unfold concat_all in IH. by rewrite IH, append_assoc.
Qed.

Section TokenText.
Context (T : unicode.Tables).

Lemma flush_state_text (st : list string * string) :
  state_text (flush st) = state_text st.
Proof.
  unfold flush, state_text.
  destruct (0 <? String.length st.2)%nat; [|done]. cbn [fst snd].
  by rewrite concat_all_snoc, append_nil_r.
Qed.

Lemma token_step_state_text (prev : option ascii) (r : rune)
    (st : list string * string) :
  state_text (token_step T prev r st)
  = state_text st +:+ (if isWordChar T r then EncodeRune r else EmptyString).
Proof.
  unfold token_step. destruct (isWordChar T r).
  - destruct (hump T prev r).
    + rewrite <- (flush_state_text st). unfold state_text. cbn [fst snd].
      by rewrite append_assoc.
    + unfold state_text. cbn [fst snd]. by rewrite append_assoc.
  - by rewrite flush_state_text, append_nil_r.
Qed.

Lemma scan_state_text (s : string) (prev : option ascii) (i skip : nat)
    (st : list string * string) :
  state_text (scan T prev skip s st)
  = state_text st
    +:+ string_of_runes (List.filter (isWordChar T) (range_from i skip s).*2).
Proof.
  revert prev i skip st.
  induction s as [|c s IH]; intros prev i skip st.
  { cbn. by rewrite append_nil_r. }
  cbn [scan range_from]. destruct skip as [|k]; [|apply IH].
  destruct (DecodeRuneInString (String c s)) as [r w]. cbn [fst snd].
  rewrite (IH _ (S i)), token_step_state_text.
  cbn [fmap list_fmap snd List.filter].
  destruct (isWordChar T r); cbn [string_of_runes].
  - by rewrite append_assoc.
  - by rewrite append_nil_r.
Qed.

(** No token is the empty string. *)
Lemma flush_nonempty (st : list string * string) :
  Forall (fun w => w <> EmptyString) st.1 ->
  Forall (fun w => w <> EmptyString) (flush st).1.
Proof.
  intros H. unfold flush.
  destruct (0 <? String.length st.2)%nat eqn:E; [|done]. cbn [fst].
  apply Forall_app. split; [done|]. constructor; [|constructor].
  intros Heq. rewrite Heq in E. done.
Qed.

Lemma token_step_nonempty (prev : option ascii) (r : rune)
    (st : list string * string) :
  Forall (fun w => w <> EmptyString) st.1 ->
  Forall (fun w => w <> EmptyString) (token_step T prev r st).1.
Proof.
  intros H. unfold token_step. destruct (isWordChar T r).
  - destruct (hump T prev r); cbn [fst]; [by apply flush_nonempty|done].
  - by apply flush_nonempty.
Qed.

Lemma scan_nonempty (s : string) (prev : option ascii) (skip : nat)
    (st : list string * string) :
  Forall (fun w => w <> EmptyString) st.1 ->
  Forall (fun w => w <> EmptyString) (scan T prev skip s st).1.
Proof.
  revert prev skip st. induction s as [|c s IH]; intros prev skip st H; [done|].
  cbn [scan]. destruct skip as [|k]; [|by apply IH].
  by apply IH, token_step_nonempty.
Qed.

Lemma splitWords_concat (s : string) :
  concat_all (splitWords T s) = word_chars T s.
Proof.
  rewrite splitWords_scan.
  pose proof (scan_state_text s None 0 0 ([], EmptyString)) as H.
  pose proof (flush_state_text (scan T None 0 s ([], EmptyString))) as F.
  rewrite H in F. clear H. unfold word_chars, runes_of_string, range_string.
  change (state_text ([], EmptyString)) with EmptyString in F.
  rewrite append_nil_l in F. rewrite <- F.
  unfold flush, state_text.
  destruct (0 <? String.length _)%nat eqn:E; cbn [fst snd].
  - by rewrite append_nil_r.
  - apply Nat.ltb_ge in E.
    assert ((scan T None 0 s ([], EmptyString)).2 = EmptyString) as ->
      by (apply length_zero_iff; lia).
    by rewrite append_nil_r.
Qed.

Lemma splitWords_nonempty (s : string) :
  Forall (fun w => w <> EmptyString) (splitWords T s).
Proof.
  rewrite splitWords_scan. apply flush_nonempty, scan_nonempty. constructor.
Qed.

(** X16: The tokens of a text are its letters and numbers: put one after the
    other they are the word characters of the text in their order, every
    token is the encoding of valid runes that are letters or numbers, and no
    token is empty. *)
Theorem splitWords_keeps_word_chars (s : string) :
  concat_all (splitWords T s) = word_chars T s
  /\ Forall (fun w => w <> EmptyString /\ word_string T w) (splitWords T s).
Proof.
  split; [apply splitWords_concat|].
  pose proof (splitWords_nonempty s) as H1.
  pose proof (splitWords_word_strings T s) as H2.
  rewrite Forall_forall in H1, H2. apply Forall_forall. intros w Hw. auto.
Qed.

End TokenText.

(** * ToUpperCase and ToLowerCase *)

(** What [strings.Map] writes: the encodings of the mapped runes that are
    not negative. *)
Lemma write_runes_filter (rs : list rune) :
  strings.write_runes rs = string_of_runes (List.filter (fun r => 0 <=? r)%Z rs).
Proof.
  induction rs as [|r rs IH]; [done|].
  cbn [strings.write_runes List.filter]. rewrite IH.
  destruct (Z.ltb_spec r 0) as [Hr|Hr].
  - rewrite (proj2 (Z.leb_gt 0 r)) by lia. apply append_nil_l.
  - by rewrite (proj2 (Z.leb_le 0 r)) by lia.
Qed.

Lemma string_of_runes_valid_int32 (rs : list rune) :
  Forall is_int32 rs -> ValidString (string_of_runes rs) = true.
Proof.
  intros H. rewrite <- string_of_runes_sanitize by done.
  apply ValidString_of_runes, Forall_fmap, Forall_forall.
  intros r _. apply sanitize_valid.
Qed.

Lemma RuneCount_runes (s : string) :
  RuneCountInString s = length (runes_of_string s).
Proof. unfold RuneCountInString, runes_of_string. by rewrite length_fmap. Qed.

Lemma Forall_filter_bool {A} (P : A -> Prop) (f : A -> bool) (l : list A) :
  Forall P l -> Forall P (List.filter f l).
Proof.
  induction 1 as [|x l Hx _ IH]; [constructor|]. cbn [List.filter].
  destruct (f x); [by constructor|done].
Qed.

Lemma filter_bool_length {A} (f : A -> bool) (l : list A) :
  (length (List.filter f l) <= length l)%nat.
Proof.
  induction l as [|x l IH]; [done|]. cbn [List.filter].
  destruct (f x); cbn [length]; lia.
Qed.

(** A mapping into [int32] gives valid UTF-8, with no more code points than
    the input has. *)
Lemma Map_valid (f : rune -> rune) (s : string) :
  (forall r, ValidRune r = true -> is_int32 (f r)) ->
  ValidString (strings.Map f s) = true
  /\ (RuneCountInString (strings.Map f s) <= RuneCountInString s)%nat.
Proof.
  intros Hf. unfold strings.Map. rewrite write_runes_filter.
  assert (Forall is_int32
            (List.filter (fun r => 0 <=? r)%Z (f <$> runes_of_string s))) as Hi.
  { apply Forall_filter_bool, Forall_fmap.
    eapply Forall_impl; [apply runes_of_string_valid|]. intros r Hr. by apply Hf. }
  split; [by apply string_of_runes_valid_int32|].
  rewrite !RuneCount_runes, runes_of_string_sanitize by done.
  rewrite length_fmap.
  etrans; [apply filter_bool_length|]. by rewrite length_fmap.
Qed.

Lemma ToUpper_int32 (T : unicode.Tables) (r : rune) :
  ValidRune r = true -> is_int32 (unicode.ToUpper T r).
Proof.
  intros Hr%ValidRune_range. unfold unicode.ToUpper, unicode.MaxASCII.
  destruct (Z.leb_spec r 0x7F); [|apply int32_range].
  destruct ((0x61 <=? r)%Z && (r <=? 0x7A)%Z) eqn:E; unfold is_int32; lia.
Qed.

(** A mapping that keeps ASCII inside ASCII, on a string of ASCII bytes. *)
Lemma Map_ascii (f : rune -> rune) (s : string) :
  (forall r, (0 <= r < 0x80)%Z -> (0 <= f r < 0x80)%Z) ->
  is_ascii s = true ->
  strings.Map f s = map_bytes (fun c => Zbyte (f (byteZ c))) s.
Proof.
  intros Hf. unfold strings.Map.
  induction s as [|c s IH]; [done|]. cbn [is_ascii].
  intros [Hc Hs]%andb_true_iff. apply Z.ltb_lt in Hc.
  pose proof (byteZ_range c) as Hb.
  rewrite runes_of_string_ascii_cons by done.
  cbn [fmap list_fmap strings.write_runes map_bytes].
  change (list_fmap rune rune f (runes_of_string s))
    with (f <$> runes_of_string s).
  rewrite IH by done. pose proof (Hf (byteZ c) ltac:(lia)) as Hfc.
  rewrite (proj2 (Z.ltb_ge (f (byteZ c)) 0)) by lia.
  by rewrite EncodeRune_1 by lia.
Qed.

Lemma map_bytes_ext (f g : ascii -> ascii) (s : string) :
  is_ascii s = true -> (forall c, (byteZ c < 0x80)%Z -> f c = g c) ->
  map_bytes f s = map_bytes g s.
Proof.
  intros Hs H. induction s as [|c s IH]; [done|]. cbn [is_ascii] in Hs.
  apply andb_true_iff in Hs as [Hc%Z.ltb_lt Hs]. cbn [map_bytes].
  by rewrite H, IH.
Qed.

Section CaseMapping.
Context (T : unicode.Tables).

(** X17: The result of [ToUpperCase] and of [ToLowerCase] is valid UTF-8 whatever
    the input is, and has no more code points than the input. *)
Theorem case_mapping_valid_utf8 (s : string) :
  ValidString (ToUpperCase T s) = true
  /\ ValidString (ToLowerCase T s) = true
  /\ (RuneCountInString (ToUpperCase T s) <= RuneCountInString s)%nat
  /\ (RuneCountInString (ToLowerCase T s) <= RuneCountInString s)%nat.
Proof.
  unfold ToUpperCase, ToLowerCase, strings.ToUpper, strings.ToLower.
  destruct (Map_valid (unicode.ToUpper T) s (ToUpper_int32 T)) as [U1 U2].
  destruct (Map_valid (unicode.ToLower T) s (ToLower_int32 T)) as [L1 L2].
  done.
Qed.

Lemma ToUpper_ascii (s : string) :
  is_ascii s = true -> strings.ToUpper T s = map_bytes upper_byte s.
Proof.
  intros Hs. unfold strings.ToUpper.
  rewrite Map_ascii; [|intros r Hr|done].
  - apply map_bytes_ext; [done|]. intros c Hc. pose proof (byteZ_range c).
    unfold upper_byte, unicode.ToUpper, unicode.MaxASCII.
    rewrite (proj2 (Z.leb_le (byteZ c) 0x7F)) by lia.
    destruct ((0x61 <=? byteZ c)%Z && (byteZ c <=? 0x7A)%Z); [done|].
    apply Zbyte_byteZ.
  - unfold unicode.ToUpper, unicode.MaxASCII.
    rewrite (proj2 (Z.leb_le r 0x7F)) by lia.
    destruct ((0x61 <=? r)%Z && (r <=? 0x7A)%Z) eqn:E; [|lia].
    apply andb_true_iff in E as [E1%Z.leb_le E2%Z.leb_le]. lia.
Qed.

Lemma ToLower_ascii (s : string) :
  is_ascii s = true -> strings.ToLower T s = map_bytes lower_byte s.
Proof.
  intros Hs. unfold strings.ToLower.
  rewrite Map_ascii; [|intros r Hr|done].
  - apply map_bytes_ext; [done|]. intros c Hc. pose proof (byteZ_range c).
    unfold lower_byte, unicode.ToLower, unicode.MaxASCII.
    rewrite (proj2 (Z.leb_le (byteZ c) 0x7F)) by lia.
    destruct ((0x41 <=? byteZ c)%Z && (byteZ c <=? 0x5A)%Z); [done|].
    apply Zbyte_byteZ.
  - unfold unicode.ToLower, unicode.MaxASCII.
    rewrite (proj2 (Z.leb_le r 0x7F)) by lia.
    destruct ((0x41 <=? r)%Z && (r <=? 0x5A)%Z) eqn:E; [|lia].
    apply andb_true_iff in E as [E1%Z.leb_le E2%Z.leb_le]. lia.
Qed.

(** X18: On a text of ASCII bytes the two functions work byte by byte, whatever
    the tables of Unicode say: [ToUpperCase] changes the bytes [a] to [z],
    [ToLowerCase] the bytes [A] to [Z], and nothing else. *)
Theorem case_mapping_ascii (s : string) :
  is_ascii s = true ->
  ToUpperCase T s = map_bytes upper_byte s
  /\ ToLowerCase T s = map_bytes lower_byte s.
Proof.
  intros Hs. unfold ToUpperCase, ToLowerCase.
  by rewrite ToUpper_ascii, ToLower_ascii.
Qed.

End CaseMapping.

Lemma case_mapping_ascii_witness :
  is_ascii "Hello, World 42!" = true
  /\ ToUpperCase latin1_tables "Hello, World 42!"
     = map_bytes upper_byte "Hello, World 42!"
  /\ ToLowerCase latin1_tables "Hello, World 42!"
     = map_bytes lower_byte "Hello, World 42!".
Proof.
  split; [reflexivity|].
  apply (case_mapping_ascii latin1_tables "Hello, World 42!"). reflexivity.
Defined.

(** * The case styles on ASCII text *)

(** The loop that rewrites a slice in place is a map. *)
Lemma assign_each_fold {A} (f : A -> A) (pre rest : list A) :
  fold_left
    (fun l i => match l !! i with Some x => <[i:=f x]> l | None => l end)
    (seq (length pre) (length rest)) ((f <$> pre) ++ rest)
  = f <$> (pre ++ rest).
Proof.
  revert pre. induction rest as [|x rest IH]; intros pre.
  { cbn. by rewrite !app_nil_r. }
  cbn [length seq fold_left].
  assert (length (f <$> pre) = length pre) as Hl by apply length_fmap.
  rewrite lookup_app_r by lia. rewrite Hl, Nat.sub_diag. cbn [lookup list_lookup].
  rewrite insert_app_r_alt by lia. rewrite Hl, Nat.sub_diag. cbn [insert list_insert].
  specialize (IH (pre ++ [x])).
  rewrite length_app, Nat.add_1_r in IH. rewrite fmap_app in IH.
  cbn [fmap list_fmap] in IH. rewrite <- !app_assoc in IH. exact IH.
Qed.

Lemma assign_each_fmap {A} (f : A -> A) (l : list A) :
  assign_each f l = f <$> l.
Proof. apply (assign_each_fold f [] l). Qed.

(** The bytes of ASCII: a property of all of them is checked on each. *)
Lemma ascii_class (T : unicode.Tables) (c : ascii) :
  (byteZ c < 0x80)%Z ->
  isWordChar T (byteZ c) = alnum_byte c
  /\ unicode.IsUpper T (byteZ c) = upper_letter c
  /\ unicode.IsLower T (byteZ c) = lower_letter c.
Proof.
  destruct c as [[] [] [] [] [] [] [] []]; intros H;
    first [by vm_compute in H | by vm_compute].
Qed.

Lemma alnum_byte_ascii (c : ascii) : alnum_byte c = true -> (byteZ c < 0x80)%Z.
Proof. destruct c as [[] [] [] [] [] [] [] []]; by vm_compute. Qed.

Lemma byte_case_facts (c : ascii) :
  lower_byte (lower_byte c) = lower_byte c
  /\ lower_byte (upper_byte c) = lower_byte c
  /\ upper_byte (lower_byte c) = upper_byte c
  /\ upper_byte (upper_byte c) = upper_byte c.
Proof. destruct c as [[] [] [] [] [] [] [] []]; by vm_compute. Qed.

Lemma byte_case_class (c : ascii) :
  alnum_byte c = true ->
  alnum_byte (lower_byte c) = true /\ upper_letter (lower_byte c) = false
  /\ alnum_byte (upper_byte c) = true /\ lower_letter (upper_byte c) = false.
Proof. destruct c as [[] [] [] [] [] [] [] []]; by vm_compute. Qed.

Lemma map_bytes_compose (f g : ascii -> ascii) (s : string) :
  map_bytes f (map_bytes g s) = map_bytes (fun c => f (g c)) s.
Proof. induction s as [|c s IH]; [done|]. cbn. by rewrite IH. Qed.

Lemma map_bytes_ext_all (f g : ascii -> ascii) (s : string) :
  (forall c, f c = g c) -> map_bytes f s = map_bytes g s.
Proof. intros H. induction s as [|c s IH]; [done|]. cbn. by rewrite H, IH. Qed.

Lemma all_bytes_alnum_ascii (w : string) :
  all_bytes alnum_byte w = true -> is_ascii w = true.
Proof.
  induction w as [|c w IH]; [done|]. cbn [all_bytes is_ascii].
  intros [Hc Hw]%andb_true_iff. apply alnum_byte_ascii in Hc.
  rewrite IH by done. by rewrite (proj2 (Z.ltb_lt _ _) Hc).
Qed.

Lemma all_bytes_append (P : ascii -> bool) (s t : string) :
  all_bytes P (s +:+ t) = all_bytes P s && all_bytes P t.
Proof.
  induction s as [|c s IH]; [done|]. rewrite append_cons. cbn [all_bytes].
  by rewrite IH, andb_assoc.
Qed.

(** The two renderings of a word of ASCII letters and digits. *)
Lemma humpless_lower (al : bool) (w : string) :
  all_bytes alnum_byte w = true ->
  humpless al (map_bytes lower_byte w) = true.
Proof.
  revert al. induction w as [|c w IH]; intros al; [done|].
  cbn [all_bytes map_bytes humpless]. intros [Hc Hw]%andb_true_iff.
  destruct (byte_case_class c Hc) as (H1 & H2 & _).
  by rewrite H1, H2, andb_false_r, IH.
Qed.

Lemma humpless_upper (w : string) :
  all_bytes alnum_byte w = true ->
  humpless false (map_bytes upper_byte w) = true.
Proof.
  induction w as [|c w IH]; [done|].
  cbn [all_bytes map_bytes humpless]. intros [Hc Hw]%andb_true_iff.
  destruct (byte_case_class c Hc) as (_ & _ & H1 & H2).
  by rewrite H1, H2, IH.
Qed.

Lemma map_bytes_nonempty (f : ascii -> ascii) (w : string) :
  w <> EmptyString -> map_bytes f w <> EmptyString.
Proof. by destruct w. Qed.

Section AsciiStyles.
Context (T : unicode.Tables).

(** The tokenizer on a byte of ASCII. *)
Lemma scan_ascii_byte (c : ascii) (s : string) (prev : option ascii)
    (st : list string * string) :
  (byteZ c < 0x80)%Z ->
  scan T prev 0 (String c s) st
  = scan T (Some c) 0 s (token_step T prev (byteZ c) st).
Proof. intros Hc. cbn [scan]. by rewrite DecodeRune_1. Qed.

Lemma hump_ascii (prev : option ascii) (c : ascii) :
  (byteZ c < 0x80)%Z ->
  hump T prev (byteZ c) = upper_letter c && is_lower_prev T prev.
Proof.
  intros Hc. destruct (ascii_class T c Hc) as (_ & HU & _).
  unfold hump, is_lower_prev. destruct prev as [p|]; [by rewrite HU|].
  by rewrite andb_false_r.
Qed.

(** A word without a hump goes to the open token as it is. *)
Lemma scan_humpless (w rest : string) (prev : option ascii)
    (ws : list string) (cur : string) :
  humpless (is_lower_prev T prev) w = true ->
  scan T prev 0 (w +:+ rest) (ws, cur)
  = scan T (last_byte prev w) 0 rest (ws, cur +:+ w).
Proof.
  revert prev cur. induction w as [|c w IH]; intros prev cur.
  { intros _. by rewrite append_nil_l, append_nil_r. }
  cbn [humpless]. intros [[Hc Hh%negb_true_iff]%andb_true_iff Hw]%andb_true_iff.
  pose proof (alnum_byte_ascii c Hc) as Hlt. pose proof (byteZ_range c) as Hb.
  destruct (ascii_class T c Hlt) as (HW & _ & HL).
  rewrite append_cons, scan_ascii_byte by done.
  unfold token_step. rewrite HW, Hc, hump_ascii by done.
  rewrite andb_comm, Hh. cbn [fst snd last_byte].
  rewrite IH by (cbn [is_lower_prev]; by rewrite HL).
  rewrite EncodeRune_1 by lia. rewrite Zbyte_byteZ, append_assoc.
  by rewrite append_cons, append_nil_l.
Qed.

(** A byte of ASCII that is no letter and no digit closes the open token. *)
Lemma scan_separator (c : ascii) (rest : string) (prev : option ascii)
    (st : list string * string) :
  (byteZ c < 0x80)%Z -> alnum_byte c = false ->
  scan T prev 0 (String c rest) st = scan T (Some c) 0 rest (flush st).
Proof.
  intros Hlt Hc. destruct (ascii_class T c Hlt) as (HW & _ & _).
  rewrite scan_ascii_byte by done. unfold token_step. by rewrite HW, Hc.
Qed.

Lemma scan_Join (ws acc : list string) (sep : ascii) (prev : option ascii) :
  (byteZ sep < 0x80)%Z -> alnum_byte sep = false ->
  is_lower_prev T prev = false ->
  Forall (fun w => w <> EmptyString /\ humpless false w = true) ws ->
  (flush (scan T prev 0 (strings.Join ws (String sep EmptyString))
            (acc, EmptyString))).1
  = acc ++ ws.
Proof.
  intros Hlt Hsep. revert acc prev.
  induction ws as [|w ws IH]; intros acc prev Hprev Hws.
  { cbn. by rewrite app_nil_r. }
  apply Forall_cons in Hws as [[Hne Hw] Hws].
  destruct ws as [|w2 ws].
  - cbn [strings.Join]. rewrite <- (append_nil_r w) at 1.
    rewrite scan_humpless by (by rewrite Hprev).
    cbn [scan]. rewrite append_nil_l. unfold flush. cbn [fst snd].
    destruct w; [done|]. done.
  - change (strings.Join (w :: w2 :: ws) (String sep EmptyString))
      with (w +:+ String sep EmptyString
              +:+ strings.Join (w2 :: ws) (String sep EmptyString)).
    rewrite scan_humpless by (by rewrite Hprev).
    rewrite append_cons, append_nil_l, scan_separator by done.
    unfold flush at 2. cbn [fst snd]. rewrite append_nil_l.
    destruct w as [|c w]; [done|]. cbn [String.length Nat.ltb Nat.leb].
    change (0 <? S (String.length w))%nat with true. cbv iota.
    rewrite IH; [by rewrite <- app_assoc| |done].
    cbn [is_lower_prev]. destruct (ascii_class T sep Hlt) as (_ & _ & ->).
    revert Hsep. unfold alnum_byte. by destruct (lower_letter sep), (digit_byte sep).
Qed.

Lemma splitWords_Join (ws : list string) (sep : ascii) :
  (byteZ sep < 0x80)%Z -> alnum_byte sep = false ->
  Forall (fun w => w <> EmptyString /\ humpless false w = true) ws ->
  splitWords T (strings.Join ws (String sep EmptyString)) = ws.
Proof.
  intros Hlt Hsep Hws. rewrite splitWords_scan.
  by rewrite (scan_Join ws [] sep None).
Qed.

(** The tokens of a text of ASCII bytes are made of ASCII letters and
    digits. *)
Lemma flush_alnum (st : list string * string) :
  Forall (fun w => all_bytes alnum_byte w = true) st.1
  /\ all_bytes alnum_byte st.2 = true ->
  Forall (fun w => all_bytes alnum_byte w = true) (flush st).1
  /\ all_bytes alnum_byte (flush st).2 = true.
Proof.
  intros [H1 H2]. unfold flush.
  destruct (0 <? String.length st.2)%nat; cbn [fst snd]; [|done].
  split; [|done]. apply Forall_app. split; [done|]. by constructor.
Qed.

Lemma scan_alnum (s : string) (prev : option ascii)
    (st : list string * string) :
  is_ascii s = true ->
  Forall (fun w => all_bytes alnum_byte w = true) st.1
  /\ all_bytes alnum_byte st.2 = true ->
  Forall (fun w => all_bytes alnum_byte w = true) (scan T prev 0 s st).1
  /\ all_bytes alnum_byte (scan T prev 0 s st).2 = true.
Proof.
  revert prev st. induction s as [|c s IH]; intros prev st; [done|].
  cbn [is_ascii]. intros [Hc%Z.ltb_lt Hs]%andb_true_iff Hst.
  pose proof (byteZ_range c) as Hb.
  rewrite scan_ascii_byte by done. apply IH; [done|].
  destruct (ascii_class T c Hc) as (HW & _ & _).
  unfold token_step. rewrite HW.
  destruct (alnum_byte c) eqn:Ha; [|by apply flush_alnum].
  assert (all_bytes alnum_byte (EncodeRune (byteZ c)) = true) as He.
  { rewrite EncodeRune_1 by lia. rewrite Zbyte_byteZ. cbn [all_bytes].
    by rewrite Ha. }
  destruct (hump T prev (byteZ c)); cbn [fst snd].
  - destruct (flush_alnum st Hst) as [H1 H2]. split; [done|].
    by rewrite all_bytes_append, H2, He.
  - destruct Hst as [H1 H2]. split; [done|].
    by rewrite all_bytes_append, H2, He.
Qed.

Lemma splitWords_alnum (s : string) :
  is_ascii s = true ->
  Forall (fun w => w <> EmptyString /\ all_bytes alnum_byte w = true)
    (splitWords T s).
Proof.
  intros Hs. pose proof (splitWords_nonempty T s) as H1.
  assert (Forall (fun w => all_bytes alnum_byte w = true) (splitWords T s))
    as H2.
  { rewrite splitWords_scan. apply flush_alnum, scan_alnum; [done|].
    split; [constructor|done]. }
  rewrite Forall_forall in H1, H2. apply Forall_forall. intros w Hw. auto.
Qed.

(** The renderings of such words, by the functions of [strings]. *)
Lemma ToLower_alnum (w : string) :
  all_bytes alnum_byte w = true ->
  strings.ToLower T w = map_bytes lower_byte w.
Proof. intros Hw. by apply ToLower_ascii, all_bytes_alnum_ascii. Qed.

Lemma ToUpper_alnum (w : string) :
  all_bytes alnum_byte w = true ->
  strings.ToUpper T w = map_bytes upper_byte w.
Proof. intros Hw. by apply ToUpper_ascii, all_bytes_alnum_ascii. Qed.

Lemma map_bytes_alnum (f : ascii -> ascii) (w : string) :
  (forall c, alnum_byte c = true -> alnum_byte (f c) = true) ->
  all_bytes alnum_byte w = true -> all_bytes alnum_byte (map_bytes f w) = true.
Proof.
  intros Hf. induction w as [|c w IH]; [done|]. cbn [all_bytes map_bytes].
  intros [Hc Hw]%andb_true_iff. by rewrite Hf, IH.
Qed.

(** The words of the three styles with a separator are the words of the
    text, in lower case or in upper case. *)
Lemma splitWords_snake (s : string) :
  is_ascii s = true ->
  toSnakeCase T s = strings.Join (map_bytes lower_byte <$> splitWords T s) "_"
  /\ toKebabCase T s
     = strings.Join (map_bytes lower_byte <$> splitWords T s) "-"
  /\ toConstantCase T s
     = strings.Join (map_bytes upper_byte <$> splitWords T s) "_".
Proof.
  intros Hs. pose proof (splitWords_alnum s Hs) as Hws.
  unfold toSnakeCase, toKebabCase, toConstantCase. cbv zeta.
  rewrite !assign_each_fmap.
  assert (strings.ToLower T <$> splitWords T s
          = map_bytes lower_byte <$> splitWords T s) as ->.
  { apply Forall_fmap_ext_1. eapply Forall_impl; [exact Hws|].
    intros w [_ Hw]. by apply ToLower_alnum. }
  assert (strings.ToUpper T <$> splitWords T s
          = map_bytes upper_byte <$> splitWords T s) as ->.
  { apply Forall_fmap_ext_1. eapply Forall_impl; [exact Hws|].
    intros w [_ Hw]. by apply ToUpper_alnum. }
  done.
Qed.

Lemma splitWords_of_lower (ws : list string) (sep : ascii) :
  (byteZ sep < 0x80)%Z -> alnum_byte sep = false ->
  Forall (fun w => w <> EmptyString /\ all_bytes alnum_byte w = true) ws ->
  splitWords T (strings.Join (map_bytes lower_byte <$> ws)
                  (String sep EmptyString))
  = map_bytes lower_byte <$> ws.
Proof.
  intros Hlt Hsep Hws. apply splitWords_Join; [done..|].
  apply Forall_fmap. eapply Forall_impl; [exact Hws|]. intros w [Hne Hw].
  split; [by apply map_bytes_nonempty|by apply humpless_lower].
Qed.

Lemma splitWords_of_upper (ws : list string) (sep : ascii) :
  (byteZ sep < 0x80)%Z -> alnum_byte sep = false ->
  Forall (fun w => w <> EmptyString /\ all_bytes alnum_byte w = true) ws ->
  splitWords T (strings.Join (map_bytes upper_byte <$> ws)
                  (String sep EmptyString))
  = map_bytes upper_byte <$> ws.
Proof.
  intros Hlt Hsep Hws. apply splitWords_Join; [done..|].
  apply Forall_fmap. eapply Forall_impl; [exact Hws|]. intros w [Hne Hw].
  split; [by apply map_bytes_nonempty|by apply humpless_upper].
Qed.

End AsciiStyles.

(** * Conversions that go through a style with a separator *)

Lemma map_bytes_append (f : ascii -> ascii) (s t : string) :
  map_bytes f (s +:+ t) = map_bytes f s +:+ map_bytes f t.
Proof.
  induction s as [|c s IH]; [done|]. rewrite append_cons. cbn [map_bytes].
  by rewrite IH, append_cons.
Qed.

Lemma map_bytes_Join (f : ascii -> ascii) (ws : list string) (sep : string) :
  map_bytes f (strings.Join ws sep)
  = strings.Join (map_bytes f <$> ws) (map_bytes f sep).
Proof.
  induction ws as [|w ws IH]; [done|]. destruct ws as [|w2 ws]; [done|].
  change (strings.Join (w :: w2 :: ws) sep)
    with (w +:+ sep +:+ strings.Join (w2 :: ws) sep).
  rewrite !map_bytes_append, IH. done.
Qed.

Lemma is_ascii_append (s t : string) :
  is_ascii (s +:+ t) = is_ascii s && is_ascii t.
Proof.
  induction s as [|c s IH]; [done|]. rewrite append_cons. cbn [is_ascii].
  by rewrite IH, andb_assoc.
Qed.

Lemma is_ascii_Join (ws : list string) (sep : string) :
  Forall (fun w => is_ascii w = true) ws -> is_ascii sep = true ->
  is_ascii (strings.Join ws sep) = true.
Proof.
  intros Hws Hsep. induction Hws as [|w ws Hw Hws IH]; [done|].
  destruct ws as [|w2 ws]; [done|].
  change (strings.Join (w :: w2 :: ws) sep)
    with (w +:+ sep +:+ strings.Join (w2 :: ws) sep).
  by rewrite !is_ascii_append, Hw, Hsep, IH.
Qed.

(** Replacing a byte by another one. *)
Lemma ReplaceAll_swap_byte (s : string) (c d : ascii) :
  strings.ReplaceAll s (String c EmptyString) (String d EmptyString)
  = map_bytes (swap_byte c d) s.
Proof.
  unfold strings.ReplaceAll. cbn [String.eqb].
  destruct (Ascii.eqb_spec c d) as [->|Hne].
  - induction s as [|a s IH]; [done|]. cbn [map_bytes]. rewrite <- IH.
    unfold swap_byte. by destruct (Ascii.eqb_spec a d) as [->|].
  - induction s as [|a s IH]; [done|].
    cbn [strings.replace_nonempty map_bytes String.length Nat.pred].
    rewrite prefix_single, IH. unfold swap_byte.
    by destruct (Ascii.eqb a c).
Qed.

Lemma swap_byte_alnum (c d : ascii) (w : string) :
  alnum_byte c = false -> all_bytes alnum_byte w = true ->
  map_bytes (swap_byte c d) w = w.
Proof.
  intros Hc. induction w as [|a w IH]; [done|]. cbn [all_bytes map_bytes].
  intros [Ha Hw]%andb_true_iff. rewrite IH by done. unfold swap_byte.
  destruct (Ascii.eqb_spec a c) as [->|]; [congruence|done].
Qed.

Section ThroughSeparator.
Context (T : unicode.Tables).

Lemma ConvertCase_render (text style : string) :
  In style styles ->
  ConvertCase T text style = render_words T style (splitWords T text).
Proof.
  intros H. unfold styles in H. cbn [In] in H.
  destruct H as [<-|[<-|[<-|[<-|[<-|[]]]]]]; reflexivity.
Qed.

(** The five renderings look at the words through [ToLower] and
    [ToUpper] only. *)
Lemma render_words_ext (g : string -> string) (style : string)
    (ws : list string) :
  Forall (fun w => strings.ToLower T (g w) = strings.ToLower T w
                   /\ strings.ToUpper T (g w) = strings.ToUpper T w) ws ->
  render_words T style (g <$> ws) = render_words T style ws.
Proof.
  intros H.
  assert (strings.ToLower T <$> (g <$> ws) = strings.ToLower T <$> ws) as HL.
  { rewrite <- list_fmap_compose. apply Forall_fmap_ext_1.
    eapply Forall_impl; [exact H|]. by intros w [? _]. }
  assert (strings.ToUpper T <$> (g <$> ws) = strings.ToUpper T <$> ws) as HU.
  { rewrite <- list_fmap_compose. apply Forall_fmap_ext_1.
    eapply Forall_impl; [exact H|]. by intros w [_ ?]. }
  assert (forall l acc,
            Forall (fun w => strings.ToLower T (g w) = strings.ToLower T w
                             /\ strings.ToUpper T (g w) = strings.ToUpper T w) l ->
            fold_left
              (fun result word =>
                 result +:+ strings.Title T (strings.ToLower T word))
              (g <$> l) acc
            = fold_left
                (fun result word =>
                   result +:+ strings.Title T (strings.ToLower T word))
                l acc) as HF.
  { intros l. induction l as [|w l IH]; intros acc Hl; [done|].
    apply Forall_cons in Hl as [[Hw _] Hl]. cbn [fmap list_fmap fold_left].
    rewrite Hw. by apply IH. }
  unfold render_words. rewrite !assign_each_fmap, HL, HU.
  destruct (String.eqb style "camelCase").
  - destruct ws as [|first rest]; [done|]. cbn [fmap list_fmap].
    apply Forall_cons in H as [[Hw _] Hrest]. rewrite Hw. by apply HF.
  - by rewrite HF.
Qed.

Lemma case_of_case (w : string) :
  all_bytes alnum_byte w = true ->
  let lo := map_bytes lower_byte in
  let up := map_bytes upper_byte in
  strings.ToLower T (lo w) = strings.ToLower T w
  /\ strings.ToUpper T (lo w) = strings.ToUpper T w
  /\ strings.ToLower T (up w) = strings.ToLower T w
  /\ strings.ToUpper T (up w) = strings.ToUpper T w.
Proof.
  intros Hw lo up. subst lo up.
  assert (all_bytes alnum_byte (map_bytes lower_byte w) = true) as Hlo
    by (apply map_bytes_alnum; [|done]; intros c Hc; by apply byte_case_class).
  assert (all_bytes alnum_byte (map_bytes upper_byte w) = true) as Hup
    by (apply map_bytes_alnum; [|done]; intros c Hc; by apply byte_case_class).
  rewrite !ToLower_alnum, !ToUpper_alnum by done.
  rewrite !map_bytes_compose.
  repeat split; apply map_bytes_ext_all; intros c; apply byte_case_facts.
Qed.

(** The words of a text in one of the three styles with a separator. *)
Lemma splitWords_separator_style (s mid : string) :
  is_ascii s = true -> In mid separator_styles ->
  exists g,
    splitWords T (ConvertCase T s mid) = g <$> splitWords T s
    /\ (g = map_bytes lower_byte \/ g = map_bytes upper_byte).
Proof.
  intros Hs Hmid. pose proof (splitWords_alnum T s Hs) as Hws.
  destruct (splitWords_snake T s Hs) as (Hsn & Hke & Hco).
  unfold separator_styles in Hmid. cbn [In] in Hmid.
  destruct Hmid as [<-|[<-|[<-|[]]]].
  - exists (map_bytes lower_byte). split; [|by left].
    change (ConvertCase T s "snake_case") with (toSnakeCase T s). rewrite Hsn.
    by apply splitWords_of_lower.
  - exists (map_bytes lower_byte). split; [|by left].
    change (ConvertCase T s "kebab-case") with (toKebabCase T s). rewrite Hke.
    by apply splitWords_of_lower.
  - exists (map_bytes upper_byte). split; [|by right].
    change (ConvertCase T s "CONSTANT_CASE") with (toConstantCase T s).
    rewrite Hco. by apply splitWords_of_upper.
Qed.

(** X19: A text of ASCII bytes loses nothing when it is put in snake_case,
    kebab-case or CONSTANT_CASE first: converting the result to any of the
    five styles gives what converting the text itself gives. *)
Theorem ConvertCase_through_separator_style (s mid style : string) :
  is_ascii s = true -> In mid separator_styles -> In style styles ->
  ConvertCase T (ConvertCase T s mid) style = ConvertCase T s style.
Proof.
  intros Hs Hmid Hstyle. pose proof (splitWords_alnum T s Hs) as Hws.
  rewrite !(ConvertCase_render _ style) by done.
  destruct (splitWords_separator_style s mid Hs Hmid) as (g & -> & Hg).
  apply render_words_ext. eapply Forall_impl; [exact Hws|]. intros w [_ Hw].
  destruct (case_of_case w Hw) as (H1 & H2 & H3 & H4).
  destruct Hg as [->| ->]; done.
Qed.

(** X20: On a text of ASCII bytes the three styles with a separator are
    renderings of one another: CONSTANT_CASE is the upper case of snake_case,
    snake_case the lower case of CONSTANT_CASE, and kebab-case is snake_case
    with every underscore replaced by a hyphen. *)
Theorem separator_styles_related (s : string) :
  is_ascii s = true ->
  toConstantCase T s = ToUpperCase T (toSnakeCase T s)
  /\ toSnakeCase T s = ToLowerCase T (toConstantCase T s)
  /\ toKebabCase T s = strings.ReplaceAll (toSnakeCase T s) "_" "-".
Proof.
  intros Hs. pose proof (splitWords_alnum T s Hs) as Hws.
  destruct (splitWords_snake T s Hs) as (-> & -> & ->).
  assert (Forall (fun w => is_ascii w = true)
            (map_bytes lower_byte <$> splitWords T s)) as Hlo.
  { apply Forall_fmap. eapply Forall_impl; [exact Hws|]. intros w [_ Hw].
    apply all_bytes_alnum_ascii, map_bytes_alnum; [|done].
    intros c Hc. by apply byte_case_class. }
  assert (Forall (fun w => is_ascii w = true)
            (map_bytes upper_byte <$> splitWords T s)) as Hup.
  { apply Forall_fmap. eapply Forall_impl; [exact Hws|]. intros w [_ Hw].
    apply all_bytes_alnum_ascii, map_bytes_alnum; [|done].
    intros c Hc. by apply byte_case_class. }
  unfold ToUpperCase, ToLowerCase.
  rewrite ToUpper_ascii, ToLower_ascii by (by apply is_ascii_Join).
  rewrite ReplaceAll_swap_byte, !map_bytes_Join, <- !list_fmap_compose.
  split; [|split]; f_equal; apply Forall_fmap_ext_1;
    (eapply Forall_impl; [exact Hws|]); intros w [_ Hw]; cbn.
  - rewrite map_bytes_compose. apply map_bytes_ext_all.
    intros c. symmetry. apply byte_case_facts.
  - rewrite map_bytes_compose. apply map_bytes_ext_all.
    intros c. symmetry. apply byte_case_facts.
  - symmetry. apply swap_byte_alnum; [done|].
    apply map_bytes_alnum; [|done]. intros c Hc. by apply byte_case_class.
Qed.

End ThroughSeparator.

Lemma ConvertCase_through_separator_style_witness :
  is_ascii "myVarName123 fooBar" = true
  /\ In "kebab-case" separator_styles
  /\ In "PascalCase" styles
  /\ ConvertCase latin1_tables
       (ConvertCase latin1_tables "myVarName123 fooBar" "kebab-case")
       "PascalCase"
     = ConvertCase latin1_tables "myVarName123 fooBar" "PascalCase".
Proof.
  assert (In "kebab-case" separator_styles) as H1 by (simpl; tauto).
  assert (In "PascalCase" styles) as H2 by (simpl; tauto).
  split; [reflexivity|]. split; [exact H1|]. split; [exact H2|].
  apply (ConvertCase_through_separator_style latin1_tables
           "myVarName123 fooBar" "kebab-case" "PascalCase");
    [reflexivity|exact H1|exact H2].
Defined.

Lemma separator_styles_related_witness :
  is_ascii "parseHTTPResponse v2" = true
  /\ toConstantCase latin1_tables "parseHTTPResponse v2"
     = ToUpperCase latin1_tables (toSnakeCase latin1_tables "parseHTTPResponse v2")
  /\ toSnakeCase latin1_tables "parseHTTPResponse v2"
     = ToLowerCase latin1_tables
         (toConstantCase latin1_tables "parseHTTPResponse v2")
  /\ toKebabCase latin1_tables "parseHTTPResponse v2"
     = strings.ReplaceAll (toSnakeCase latin1_tables "parseHTTPResponse v2")
         "_" "-".
Proof.
  split; [reflexivity|].
  apply (separator_styles_related latin1_tables "parseHTTPResponse v2").
  reflexivity.
Defined.

(** * WordCount: how the five counts hang together *)

Lemma remove_byte_length (c : ascii) (s : string) :
  (String.length (remove_byte c s) + count_byte c s)%nat = String.length s.
Proof.
  induction s as [|a s IH]; [done|]. cbn [remove_byte count_byte].
  destruct (Ascii.eqb a c); cbn [String.length]; lia.
Qed.

Lemma count_byte_remove_other (c d : ascii) (s : string) :
  c <> d -> count_byte c (remove_byte d s) = count_byte c s.
Proof.
  intros Hne. induction s as [|a s IH]; [done|]. cbn [remove_byte count_byte].
  destruct (Ascii.eqb_spec a d) as [->|Had].
  - rewrite IH. by destruct (Ascii.eqb_spec d c) as [<-|].
  - cbn [count_byte]. by rewrite IH.
Qed.

(** The pieces of a text cut at the blank lines are no more than its
    lines. *)
Lemma genSplit_nonempty (sep : string) (skip : nat) (s : string) :
  strings.genSplit sep skip s <> [].
Proof.
  revert skip. induction s as [|c s IH]; intros skip; [done|].
  cbn [strings.genSplit]. destruct skip as [|k]; [|apply IH].
  destruct (String.prefix sep (String c s)); [done|].
  by destruct (strings.genSplit sep 0 s).
Qed.

Lemma genSplit_LFLF_length (skip : nat) (s : string) :
  (length (strings.genSplit (LF +:+ LF) skip s) <= S (count_byte LF_byte s))%nat.
Proof.
  revert skip. induction s as [|c s IH]; intros skip; [cbn; lia|].
  cbn [strings.genSplit count_byte]. destruct skip as [|k].
  - destruct (String.prefix (LF +:+ LF) (String c s)) eqn:Hp.
    + assert (c = LF_byte) as ->.
      { change (LF +:+ LF) with (String "010" (String "010" EmptyString)) in Hp.
        cbn [String.prefix] in Hp.
        destruct (ascii_dec "010" c) as [<-|]; [done|discriminate]. }
      cbn [length]. specialize (IH (Nat.pred (String.length (LF +:+ LF)))).
      rewrite Ascii.eqb_refl. lia.
    + specialize (IH 0%nat).
      pose proof (genSplit_nonempty (LF +:+ LF) 0 s) as Hne.
      destruct (strings.genSplit (LF +:+ LF) 0 s) as [|h t]; [done|].
      cbn [length] in *. lia.
  - specialize (IH k). lia.
Qed.

Lemma fold_left_count_le {A} (P : A -> bool) (l : list A) (n : nat) :
  (fold_left (fun n p => if P p then S n else n) l n <= n + length l)%nat.
Proof.
  revert n. induction l as [|x l IH]; intros n; [cbn; lia|].
  cbn [fold_left length]. specialize (IH (if P x then S n else n)).
  destruct (P x); lia.
Qed.

(** The fields of a text are no more than its code points. *)
Lemma FieldsFunc_fold_count (f : rune -> bool) (l : list (nat * rune))
    (st : list (nat * nat) * Z) :
  let open (st : list (nat * nat) * Z) :=
    (length st.1 + (if (0 <=? st.2)%Z then 1 else 0))%nat in
  (open (fold_left (strings.FieldsFunc_step f) l st) <= open st + length l)%nat.
Proof.
  intros open. subst open. cbv beta. revert st.
  induction l as [|[i r] l IH]; intros st; [cbn [fold_left length]; lia|].
  cbn [fold_left length]. etrans; [apply IH|].
  destruct st as [spans start]. unfold strings.FieldsFunc_step. cbn [fst snd].
  destruct (f r).
  - destruct (Z.leb_spec 0 start); cbn [fst snd].
    + rewrite length_app. cbn [length]. change (0 <=? -1)%Z with false.
      cbv iota. lia.
    + rewrite ?(proj2 (Z.leb_gt 0 start)) by lia. cbv iota. lia.
  - destruct (Z.ltb_spec start 0); cbn [fst snd].
    + rewrite (proj2 (Z.leb_gt 0 start)) by lia.
      rewrite (proj2 (Z.leb_le 0 (Z.of_nat i))) by lia. cbv iota. lia.
    + lia.
Qed.

Lemma Fields_length (s : string) :
  (length (strings.Fields s) <= String.length s)%nat.
Proof.
  unfold strings.Fields, strings.FieldsFunc.
  pose proof (FieldsFunc_fold_count unicode.IsSpace (range_string s)
                ([], (-1)%Z)) as H. cbv zeta beta in H.
  destruct (fold_left _ (range_string s) ([], (-1)%Z)) as [spans start].
  cbn [fst snd length] in H. change (0 <=? -1)%Z with false in H.
  rewrite length_fmap. pose proof (RuneCount_le s) as Hr.
  unfold RuneCountInString in Hr.
  destruct (0 <=? start)%Z; [rewrite length_app; cbn [length]|]; lia.
Qed.

(** X21: The five counts of a text, whose trimmed form is [t]: the characters are
    the characters that are no spaces, the space bytes and the line feeds;
    the lines are one more than the line feeds, so that the empty text has
    one line; and there are no more words than characters and no more
    paragraphs than lines. *)
Theorem WordCount_relations (text : string) :
  let t := strings.TrimSpace text in
  exists words characters noSpaces lines paragraphs : nat,
    WordCount text
    = <["words":=words]> (<["characters":=characters]>
        (<["charactersNoSpaces":=noSpaces]> (<["lines":=lines]>
          (<["paragraphs":=paragraphs]> ∅))))
    /\ lines = S (count_byte LF_byte t)
    /\ characters
       = (noSpaces + count_byte " " t + count_byte LF_byte t)%nat
    /\ (words <= characters)%nat
    /\ (paragraphs <= lines)%nat.
Proof.
  intros t. unfold WordCount. fold t. cbv zeta.
  eexists _, _, _, _, _. split; [reflexivity|].
  split; [apply Split_LF_length|]. split; [|split].
  - unfold LF. rewrite !ReplaceAll_remove_byte.
    pose proof (remove_byte_length " " t) as H1.
    pose proof (remove_byte_length "010" (remove_byte " " t)) as H2.
    rewrite (count_byte_remove_other "010" " " t) in H2 by done.
    unfold LF_byte. lia.
  - apply Fields_length.
  - rewrite Split_LF_length.
    etrans; [apply fold_left_count_le|]. cbn [Nat.add].
    assert (strings.Split t (LF +:+ LF) = strings.genSplit (LF +:+ LF) 0 t)
      as -> by done.
    apply genSplit_LFLF_length.
Qed.

(** ** A text of white space *)

Lemma find_none_all {A} (f : A -> bool) (l : list A) :
  Forall (fun x => f x = false) l -> List.find f l = None.
Proof.
  induction 1 as [|x l Hx _ IH]; [done|]. cbn [List.find]. by rewrite Hx.
Qed.

Lemma TrimSpace_blank (text : string) :
  Forall (fun r => unicode.IsSpace r = true) (runes_of_string text) ->
  strings.TrimSpace text = EmptyString.
Proof.
  intros H. unfold strings.TrimSpace, strings.TrimFunc.
  assert (strings.TrimLeftFunc text unicode.IsSpace = EmptyString) as ->.
  { unfold strings.TrimLeftFunc, strings.indexFunc.
    rewrite find_none_all; [done|].
    unfold runes_of_string in H. apply Forall_fmap in H.
    eapply Forall_impl; [exact H|]. intros [i r] Hr. cbn in Hr |- *.
    by rewrite Hr. }
  reflexivity.
Qed.

(** X22: A text in which every code point is white space, the empty text among
    them, has no word, no character and no paragraph, and one line. *)
Theorem WordCount_blank (text : string) :
  Forall (fun r => unicode.IsSpace r = true) (runes_of_string text) ->
  WordCount text
  = {[ "words" := 0%nat; "characters" := 0%nat; "charactersNoSpaces" := 0%nat;
       "lines" := 1%nat; "paragraphs" := 0%nat ]}.
Proof.
  intros H. unfold WordCount. rewrite (TrimSpace_blank text H).
  vm_compute. reflexivity.
Qed.

Lemma WordCount_blank_witness :
  Forall (fun r => unicode.IsSpace r = true)
    (runes_of_string (" " +:+ LF +:+ String "009" (String "194" (String "160" LF))))
  /\ WordCount (" " +:+ LF +:+ String "009" (String "194" (String "160" LF)))
     = {[ "words" := 0%nat; "characters" := 0%nat;
          "charactersNoSpaces" := 0%nat; "lines" := 1%nat;
          "paragraphs" := 0%nat ]}.
Proof.
  assert (Forall (fun r => unicode.IsSpace r = true)
            (runes_of_string
               (" " +:+ LF +:+ String "009" (String "194" (String "160" LF)))))
    as H.
  { let l := eval vm_compute in
      (runes_of_string
         (" " +:+ LF +:+ String "009" (String "194" (String "160" LF)))) in
    change (runes_of_string
              (" " +:+ LF +:+ String "009" (String "194" (String "160" LF))))
      with l.
    repeat (constructor; [reflexivity|]). constructor. }
  split; [exact H|].
  exact (WordCount_blank _ H).
Defined.

(** * TrimText: white space of ASCII around a text *)

Lemma ascii_space_class (c : ascii) :
  ascii_space c = true ->
  (byteZ c < 0x80)%Z /\ unicode.IsSpace (byteZ c) = true.
Proof. destruct c as [[] [] [] [] [] [] [] []]; by vm_compute. Qed.

Lemma ascii_spaces_starts_rune (post : string) :
  ascii_spaces post = true -> starts_rune post.
Proof.
  destruct post as [|c post]; [done|]. cbn [ascii_spaces starts_rune].
  intros [Hc _]%andb_true_iff. apply ascii_space_class in Hc as [Hc _]. lia.
Qed.

(** ** Indices of [range] *)

Lemma range_from_shift (k i skip : nat) (s : string) :
  range_from (k + i) skip s
  = (fun ir : nat * rune => ((k + ir.1)%nat, ir.2)) <$> range_from i skip s.
Proof.
  revert i skip. induction s as [|c s IH]; intros i skip; [done|].
  cbn [range_from]. destruct skip as [|n].
  - destruct (DecodeRuneInString (String c s)) as [r w].
    cbn [fmap list_fmap fst snd]. f_equal.
    rewrite <- IH. f_equal. lia.
  - rewrite <- IH. f_equal. lia.
Qed.

Lemma find_fmap {A B} (p : B -> bool) (f : A -> B) (l : list A) :
  List.find p (f <$> l) = f <$> List.find (fun x => p (f x)) l.
Proof.
  induction l as [|x l IH]; [done|]. cbn [fmap list_fmap List.find].
  destruct (p (f x)); [done|]. exact IH.
Qed.

(** ** The left side *)

Lemma TrimLeftFunc_space (c : ascii) (s : string) :
  ascii_space c = true ->
  strings.TrimLeftFunc (String c s) unicode.IsSpace
  = strings.TrimLeftFunc s unicode.IsSpace.
Proof.
  intros [Hc Hsp]%ascii_space_class.
  unfold strings.TrimLeftFunc, strings.indexFunc, range_string.
  cbn [range_from]. rewrite DecodeRune_1 by done. cbn [Nat.pred List.find snd].
  rewrite Hsp. cbn [Bool.eqb].
  change (range_from 1 0 s) with (range_from (1 + 0) 0 s).
  rewrite (range_from_shift 1 0 0 s), find_fmap. cbn [snd].
  destruct (List.find _ (range_from 0 0 s)) as [[j r]|]; cbn [fmap option_fmap option_map fst snd].
  - rewrite (proj2 (Z.eqb_neq (Z.of_nat (1 + j)) (-1))) by lia.
    rewrite (proj2 (Z.eqb_neq (Z.of_nat j) (-1))) by lia.
    rewrite !Nat2Z.id. reflexivity.
  - reflexivity.
Qed.

Lemma TrimLeftFunc_spaces (pre s : string) :
  ascii_spaces pre = true ->
  strings.TrimLeftFunc (pre +:+ s) unicode.IsSpace
  = strings.TrimLeftFunc s unicode.IsSpace.
Proof.
  induction pre as [|c pre IH]; [done|]. cbn [ascii_spaces].
  intros [Hc Hpre]%andb_true_iff. rewrite append_cons.
  rewrite TrimLeftFunc_space by done. by apply IH.
Qed.

Lemma TrimLeftFunc_start (s : string) :
  s <> EmptyString -> unicode.IsSpace (DecodeRuneInString s).1 = false ->
  strings.TrimLeftFunc s unicode.IsSpace = s.
Proof.
  destruct s as [|c s]; [done|]. intros _ Hr.
  unfold strings.TrimLeftFunc, strings.indexFunc, range_string.
  cbn [range_from]. destruct (DecodeRuneInString (String c s)) as [r w].
  cbn [fst snd List.find] in *. rewrite Hr. reflexivity.
Qed.

(** ** The right side *)

Lemma byte_at_middle (x : string) (c : ascii) (rest : string) :
  byte_at (x +:+ String c rest) (String.length x) = byteZ c.
Proof.
  unfold byte_at. rewrite <- (Nat.add_0_r (String.length x)).
  by rewrite get_append_r.
Qed.

Lemma str_take_middle (x : string) (c : ascii) (rest : string) :
  str_take (S (String.length x)) (x +:+ String c rest)
  = x +:+ String c EmptyString.
Proof.
  replace (x +:+ String c rest) with ((x +:+ String c EmptyString) +:+ rest)
    by (by rewrite append_assoc, append_cons, append_nil_l).
  replace (S (String.length x))
    with (String.length (x +:+ String c EmptyString))
    by (rewrite length_append; cbn [String.length]; lia).
  apply str_take_append.
Qed.

Lemma DecodeLast_ascii (x : string) (c : ascii) :
  (byteZ c < 0x80)%Z ->
  DecodeLastRuneInString (x +:+ String c EmptyString) = (byteZ c, 1%nat).
Proof.
  intros Hc. unfold DecodeLastRuneInString. cbv zeta.
  rewrite length_append. cbn [String.length].
  rewrite (proj2 (Z.eqb_neq _ 0)) by lia.
  replace (Z.to_nat (Z.of_nat (String.length x + 1) - 1))
    with (String.length x) by lia.
  rewrite byte_at_middle. unfold RuneSelf.
  by rewrite (proj2 (Z.ltb_lt _ _) Hc).
Qed.

Lemma lastIndexFunc_loop_space (fuel : nat) (x : string) (c : ascii)
    (rest : string) :
  ascii_space c = true ->
  strings.lastIndexFunc_loop (S fuel) (x +:+ String c rest) unicode.IsSpace
    false (S (String.length x))
  = strings.lastIndexFunc_loop fuel (x +:+ String c rest) unicode.IsSpace
      false (String.length x).
Proof.
  intros [Hc Hsp]%ascii_space_class. cbn [strings.lastIndexFunc_loop].
  change (0 <? S (String.length x))%nat with true. cbv iota.
  rewrite str_take_middle, DecodeLast_ascii by done. rewrite Hsp.
  cbn [Bool.eqb]. by rewrite Nat.sub_1_r.
Qed.

Lemma lastIndexFunc_loop_spaces (post : string) (fuel : nat) (core : string) :
  ascii_spaces post = true ->
  strings.lastIndexFunc_loop (fuel + String.length post) (core +:+ post)
    unicode.IsSpace false (String.length core + String.length post)
  = strings.lastIndexFunc_loop fuel (core +:+ post) unicode.IsSpace false
      (String.length core).
Proof.
  revert fuel core. induction post as [|c post IH]; intros fuel core.
  { intros _. cbn [String.length]. by rewrite !Nat.add_0_r. }
  cbn [ascii_spaces String.length]. intros [Hc Hpost]%andb_true_iff.
  specialize (IH (S fuel) (core +:+ String c EmptyString) Hpost).
  rewrite append_assoc, append_cons, append_nil_l in IH.
  rewrite length_append in IH. cbn [String.length] in IH.
  replace (fuel + S (String.length post))%nat
    with (S fuel + String.length post)%nat by lia.
  replace (String.length core + S (String.length post))%nat
    with (String.length core + 1 + String.length post)%nat by lia.
  rewrite IH. rewrite Nat.add_1_r. by apply lastIndexFunc_loop_space.
Qed.

(** ** The last rune of a string *)

Lemma find_start_le (fuel : nat) (s : string) (start lim : Z) :
  (find_start fuel s start lim <= start)%Z.
Proof.
  revert start. induction fuel as [|fuel IH]; intros start; cbn [find_start].
  - lia.
  - destruct (start <? lim)%Z; [lia|].
    destruct (RuneStart _); [lia|]. specialize (IH (start - 1)%Z). lia.
Qed.

Lemma str_drop_get (n : nat) (s : string) :
  (n < String.length s)%nat ->
  exists c t, str_drop n s = String c t /\ byte_at s n = byteZ c.
Proof.
  revert s. induction n as [|n IH]; intros [|a s] Hn;
    try (cbn [String.length] in Hn; lia).
  - by exists a, s.
  - cbn [String.length] in Hn. destruct (IH s ltac:(lia)) as (c & t & H1 & H2).
    exists c, t. split; [done|]. done.
Qed.

Lemma str_drop_append_l (n : nat) (s t : string) :
  (n <= String.length s)%nat -> str_drop n (s +:+ t) = str_drop n s +:+ t.
Proof.
  revert s. induction n as [|n IH]; intros [|a s] Hn; try done.
  - cbn [String.length] in Hn. lia.
  - rewrite append_cons. cbn [str_drop String.length] in *. apply IH. lia.
Qed.

Lemma byte_at_append_l (n : nat) (s t : string) :
  (n < String.length s)%nat -> byte_at (s +:+ t) n = byte_at s n.
Proof.
  revert s. induction n as [|n IH]; intros [|a s] Hn;
    try (cbn [String.length] in Hn; lia); [done|].
  rewrite append_cons. unfold byte_at. cbn [String.get].
  cbn [String.length] in Hn. apply (IH s). lia.
Qed.

(** Where the rune that [DecodeLastRuneInString] reads starts: the byte at
    that place is a byte of ASCII, or [DecodeRuneInString] reads there a
    rune of the same width. *)
Lemma DecodeLast_shape (s : string) :
  s <> EmptyString ->
  let size := (DecodeLastRuneInString s).2 in
  let start := (String.length s - size)%nat in
  (1 <= size <= String.length s)%nat
  /\ (((byte_at s start < 0x80)%Z /\ size = 1%nat)
      \/ ((0x80 <= byte_at s start)%Z
          /\ (DecodeRuneInString (str_drop start s)).2 = size)).
Proof.
  intros Hne.
  assert (1 <= String.length s)%nat as Hlen.
  { destruct s; [done|]. cbn [String.length]. lia. }
  unfold DecodeLastRuneInString. cbv zeta.
  rewrite (proj2 (Z.eqb_neq (Z.of_nat (String.length s)) 0)) by lia.
  replace (Z.to_nat (Z.of_nat (String.length s) - 1))
    with (String.length s - 1)%nat by lia.
  unfold RuneSelf.
  assert (forall c t, str_drop (String.length s - 1) s = String c t ->
            t = EmptyString) as Hlast.
  { intros c t Hd. apply (f_equal String.length) in Hd.
    assert (forall n u, String.length (str_drop n u) = (String.length u - n)%nat)
      as Hdl.
    { clear. induction n as [|n IH]; intros [|a u]; cbn [str_drop String.length];
        try lia. apply IH. }
    rewrite Hdl in Hd. cbn [String.length] in Hd.
    apply length_zero_iff. lia. }
  destruct (Z.ltb_spec (byte_at s (String.length s - 1)) 0x80) as [Hb|Hb].
  { cbn [snd]. split; [lia|]. left. done. }
  set (start0 := Z.max 0 (find_start 4 s (Z.of_nat (String.length s) - 1 - 1)
                            (Z.max 0 (Z.of_nat (String.length s) - UTFMax)))).
  assert (0 <= start0 <= Z.of_nat (String.length s) - 1)%Z as Hs0.
  { subst start0.
    pose proof (find_start_le 4 s (Z.of_nat (String.length s) - 1 - 1)
                  (Z.max 0 (Z.of_nat (String.length s) - UTFMax))). lia. }
  destruct (DecodeRuneInString (str_drop (Z.to_nat start0) s)) as [r' size']
    eqn:Hd.
  destruct (Z.eqb_spec (start0 + Z.of_nat size') (Z.of_nat (String.length s)))
    as [Heq|Hneq]; cbn [negb snd].
  - split; [lia|].
    replace (String.length s - size')%nat with (Z.to_nat start0) by lia.
    destruct (str_drop_get (Z.to_nat start0) s ltac:(lia)) as (c & t & H1 & H2).
    destruct (Z.lt_ge_cases (byte_at s (Z.to_nat start0)) 0x80) as [Hlt|Hge].
    + left. split; [done|]. rewrite H1, DecodeRune_1 in Hd by lia.
      by injection Hd as _ <-.
    + right. split; [done|]. by rewrite Hd.
  - split; [lia|]. right. split; [done|].
    destruct (str_drop_get (String.length s - 1) s ltac:(lia))
      as (c & t & H1 & H2).
    rewrite H1. rewrite (Hlast c t H1).
    pose proof (DecodeRune_width c EmptyString) as Hw.
    cbn [String.length] in Hw. lia.
Qed.

Lemma TrimRightFunc_spaces (core post : string) :
  ascii_spaces post = true -> core <> EmptyString ->
  unicode.IsSpace (DecodeLastRuneInString core).1 = false ->
  strings.TrimRightFunc (core +:+ post) unicode.IsSpace = core.
Proof.
  intros Hpost Hne Hr.
  assert (1 <= String.length core)%nat as Hlen.
  { destruct core; [done|]. cbn [String.length]. lia. }
  destruct (DecodeLast_shape core Hne) as [Hsize Hshape].
  destruct (DecodeLastRuneInString core) as [r size] eqn:Hd.
  cbn [fst snd] in *.
  assert (strings.lastIndexFunc (core +:+ post) unicode.IsSpace false
          = Z.of_nat (String.length core - size)) as Hi.
  { unfold strings.lastIndexFunc. rewrite length_append.
    rewrite lastIndexFunc_loop_spaces by done.
    destruct (String.length core) as [|m] eqn:Hm; [lia|].
    cbn [strings.lastIndexFunc_loop]. change (0 <? S m)%nat with true.
    cbv iota. rewrite <- Hm, str_take_append, Hd, Hr. reflexivity. }
  unfold strings.TrimRightFunc. cbv zeta. rewrite Hi, Nat2Z.id.
  rewrite (proj2 (Z.leb_le 0 _)) by lia. cbn [andb].
  rewrite byte_at_append_l by lia. unfold RuneSelf.
  destruct Hshape as [[Hb ->]|[Hb Hw]].
  - rewrite (proj2 (Z.leb_gt _ _)) by lia.
    replace (Z.to_nat (Z.of_nat (String.length core - 1) + 1))
      with (String.length core) by lia.
    apply str_take_append.
  - rewrite (proj2 (Z.leb_le _ _)) by lia.
    rewrite str_drop_append_l by lia.
    destruct (str_drop_get (String.length core - size) core ltac:(lia))
      as (c & t & H1 & _).
    rewrite DecodeRune_append, Hw;
      [|by rewrite H1|by apply ascii_spaces_starts_rune].
    replace (Z.to_nat (Z.of_nat (String.length core - size) + Z.of_nat size))
      with (String.length core) by lia.
    apply str_take_append.
Qed.

Lemma TrimLeftFunc_all_spaces (post : string) :
  ascii_spaces post = true ->
  strings.TrimLeftFunc post unicode.IsSpace = EmptyString.
Proof.
  intros H. rewrite <- (append_nil_r post). by rewrite TrimLeftFunc_spaces.
Qed.

Lemma TrimSpace_core (pre core post : string) :
  ascii_spaces pre = true -> ascii_spaces post = true ->
  core = EmptyString
  \/ (unicode.IsSpace (DecodeRuneInString core).1 = false
      /\ unicode.IsSpace (DecodeLastRuneInString core).1 = false) ->
  strings.TrimSpace (pre +:+ core +:+ post) = core.
Proof.
  intros Hpre Hpost Hcore. unfold strings.TrimSpace, strings.TrimFunc.
  rewrite TrimLeftFunc_spaces by done.
  destruct (string_dec core EmptyString) as [->|Hne].
  { rewrite append_nil_l, TrimLeftFunc_all_spaces by done. reflexivity. }
  destruct Hcore as [->|[H1 H2]]; [done|].
  rewrite TrimLeftFunc_start.
  - by apply TrimRightFunc_spaces.
  - intros [? _]%append_eq_nil. done.
  - rewrite DecodeRune_append; [done..|]. by apply ascii_spaces_starts_rune.
Qed.

(** X23: White space of ASCII before and after a text is cut off, and nothing
    else: when the text is empty, or starts and ends with a code point that
    is not white space, it is what [TrimText] returns; such a text is
    returned as it is. *)
Theorem TrimText_core (pre core post : string) :
  ascii_spaces pre = true -> ascii_spaces post = true ->
  core = EmptyString
  \/ (unicode.IsSpace (DecodeRuneInString core).1 = false
      /\ unicode.IsSpace (DecodeLastRuneInString core).1 = false) ->
  TrimText (pre +:+ core +:+ post) = core /\ TrimText core = core.
Proof.
  intros Hpre Hpost Hcore. unfold TrimText. split.
  - by apply TrimSpace_core.
  - pose proof (TrimSpace_core EmptyString core EmptyString eq_refl eq_refl
                  Hcore) as H.
    by rewrite append_nil_l, append_nil_r in H.
Qed.

Lemma TrimText_core_witness :
  ascii_spaces (String "009" "  ") = true
  /\ ascii_spaces (" " +:+ LF) = true
  /\ (("héllo  wörld" : string) = EmptyString
      \/ (unicode.IsSpace (DecodeRuneInString "héllo  wörld").1 = false
          /\ unicode.IsSpace (DecodeLastRuneInString "héllo  wörld").1 = false))
  /\ TrimText (String "009" "  " +:+ "héllo  wörld" +:+ (" " +:+ LF))
     = "héllo  wörld"
  /\ TrimText "héllo  wörld" = "héllo  wörld".
Proof.
  assert (("héllo  wörld" : string) = EmptyString
          \/ (unicode.IsSpace (DecodeRuneInString "héllo  wörld").1 = false
              /\ unicode.IsSpace (DecodeLastRuneInString "héllo  wörld").1
                 = false)) as H
    by (right; split; reflexivity).
  split; [reflexivity|]. split; [reflexivity|]. split; [exact H|].
  apply (TrimText_core (String "009" "  ") "héllo  wörld" (" " +:+ LF));
    [reflexivity|reflexivity|exact H].
Defined.

(** * SortLines: the two directions *)

Section SortedUnique.
Context {A : Type} (less : A -> A -> bool).

(** A list in order, read backwards, is in order for the opposite
    comparison. *)
Lemma in_order_rev (l : list A) :
  in_order less l -> in_order (fun x y => less y x) (rev l).
Proof.
  induction 1 as [|x l Hl IH Hx]; [constructor|]. cbn [rev].
  apply (in_order_app (fun x y => less y x)).
  - exact IH.
  - constructor; [constructor|constructor].
  - apply List.Forall_forall. intros a Ha. apply (proj2 (in_rev l a)) in Ha.
    constructor; [|constructor].
    rewrite List.Forall_forall in Hx. by apply Hx.
Qed.

(** When elements that compare as equal are equal, a list has one
    arrangement that is in order. *)
Lemma in_order_unique (l1 l2 : list A) :
  (forall x y, In x l1 -> In y l1 ->
     less x y = false -> less y x = false -> x = y) ->
  l1 ≡ₚ l2 -> in_order less l1 -> in_order less l2 -> l1 = l2.
Proof.
  revert l2. induction l1 as [|x l1 IH]; intros l2 Htie Hperm H1 H2.
  { by apply Permutation_nil in Hperm. }
  destruct l2 as [|y l2].
  { symmetry in Hperm. by apply Permutation_nil in Hperm. }
  apply StronglySorted_inv in H1 as [H1 Hx].
  apply StronglySorted_inv in H2 as [H2 Hy].
  rewrite List.Forall_forall in Hx, Hy.
  assert (x = y) as <-.
  { assert (In x (y :: l2)) as Hin
      by (eapply Permutation_in; [exact Hperm|by left]).
    assert (In y (x :: l1)) as Hin'
      by (eapply Permutation_in; [symmetry; exact Hperm|by left]).
    destruct Hin as [->|Hin]; [done|]. destruct Hin' as [->|Hin']; [done|].
    apply Htie; [by left|by right|by apply Hy|by apply Hx]. }
  f_equal. apply IH; [|by apply Permutation_cons_inv in Hperm|done..].
  intros a b Ha Hb. apply Htie; by right.
Qed.

End SortedUnique.

Lemma ltb_tie_eq (a b : string) :
  String.ltb a b = false -> String.ltb b a = false -> a = b.
Proof.
  unfold String.ltb. rewrite (String.compare_antisym a b).
  destruct (b ?= a)%string eqn:E; cbn; try done.
  intros _ _. symmetry. by apply String.compare_eq_iff.
Qed.

(** X4: When no two different lines are equal up to case, the descending order
    is the ascending order read backwards. *)
Theorem SortLines_descending_reverse (T : unicode.Tables) (text : string) :
  (forall x y, In x (strings.Split text LF) -> In y (strings.Split text LF) ->
     strings.ToLower T x = strings.ToLower T y -> x = y) ->
  strings.Split (SortLines T text false) LF
  = rev (strings.Split (SortLines T text true) LF)
  /\ SortLines T text false
     = strings.Join (rev (strings.Split (SortLines T text true) LF)) LF.
Proof.
  intros Htie.
  assert (strings.Split (SortLines T text false) LF
          = rev (strings.Split (SortLines T text true) LF)) as Heq.
  { rewrite !SortLines_lines.
    pose proof (Slice_Permutation (SortLines_less T false)
                  (strings.Split text LF)) as P1.
    pose proof (Slice_Permutation (SortLines_less T true)
                  (strings.Split text LF)) as P2.
    apply (in_order_unique (SortLines_less T false)).
    - intros x y Hx Hy Hxy Hyx.
      apply Htie.
      + eapply Permutation_in; [exact P1|done].
      + eapply Permutation_in; [exact P1|done].
      + cbn in Hxy, Hyx. symmetry. by apply ltb_tie_eq.
    - etrans; [exact P1|]. etrans; [symmetry; exact P2|].
      apply Permutation_rev.
    - apply Slice_in_order, SortLines_less_strict_weak_order.
    - apply (in_order_rev (SortLines_less T true)).
      apply Slice_in_order, SortLines_less_strict_weak_order. }
  split; [exact Heq|]. rewrite <- Heq. symmetry. apply Join_Split_LF.
Qed.

Lemma SortLines_descending_reverse_witness :
  (forall x y,
     In x (strings.Split ("pear" +:+ LF +:+ "Apple" +:+ LF +:+ "banana") LF) ->
     In y (strings.Split ("pear" +:+ LF +:+ "Apple" +:+ LF +:+ "banana") LF) ->
     strings.ToLower latin1_tables x = strings.ToLower latin1_tables y -> x = y)
  /\ strings.Split
       (SortLines latin1_tables
          ("pear" +:+ LF +:+ "Apple" +:+ LF +:+ "banana") false) LF
     = rev (strings.Split
              (SortLines latin1_tables
                 ("pear" +:+ LF +:+ "Apple" +:+ LF +:+ "banana") true) LF)
  /\ SortLines latin1_tables ("pear" +:+ LF +:+ "Apple" +:+ LF +:+ "banana")
       false
     = strings.Join
         (rev (strings.Split
                 (SortLines latin1_tables
                    ("pear" +:+ LF +:+ "Apple" +:+ LF +:+ "banana") true) LF))
         LF.
Proof.
  assert (forall x y,
     In x (strings.Split ("pear" +:+ LF +:+ "Apple" +:+ LF +:+ "banana") LF) ->
     In y (strings.Split ("pear" +:+ LF +:+ "Apple" +:+ LF +:+ "banana") LF) ->
     strings.ToLower latin1_tables x = strings.ToLower latin1_tables y -> x = y)
    as H.
  { let l := eval vm_compute in
      (strings.Split ("pear" +:+ LF +:+ "Apple" +:+ LF +:+ "banana") LF) in
    change (strings.Split ("pear" +:+ LF +:+ "Apple" +:+ LF +:+ "banana") LF)
      with l.
    intros x y Hx Hy. cbn [In] in Hx, Hy.
    destruct Hx as [<-|[<-|[<-|[]]]], Hy as [<-|[<-|[<-|[]]]]; intros E;
      first [reflexivity | vm_compute in E; discriminate E]. }
  split; [exact H|].
  exact (SortLines_descending_reverse latin1_tables _ H).
Defined.

(** * FindReplace: a [find] that does not occur *)

Lemma replace_nonempty_absent (find new s : string) :
  ~ occurs find s -> strings.replace_nonempty find new 0 s = s.
Proof.
  induction s as [|c s IH]; intros Hno; [done|].
  cbn [strings.replace_nonempty].
  destruct (String.prefix find (String c s)) eqn:Hp.
  - exfalso. apply Hno. apply prefix_append in Hp as [rest ->].
    exists EmptyString, rest. by rewrite append_nil_l.
  - rewrite IH; [done|]. intros (pre & post & ->). apply Hno.
    exists (String c pre), post. by rewrite append_cons.
Qed.

Lemma ReplaceAll_absent (text find new : string) :
  ~ occurs find text -> strings.ReplaceAll text find new = text.
Proof.
  intros Hno. unfold strings.ReplaceAll.
  destruct (String.eqb find new); [done|].
  destruct (String.eqb_spec find EmptyString) as [->|_].
  - exfalso. apply Hno. exists EmptyString, text. by rewrite !append_nil_l.
  - by apply replace_nonempty_absent.
Qed.

(** X15: A [find] that does not occur in the text leaves it as it is: in the
    case-sensitive branch always, and in the other branch when [find] is made
    of ASCII bytes that are no letters and the replacement has no dollar
    sign. *)
Theorem FindReplace_absent (T : unicode.Tables) (text find replace : string) :
  ~ occurs find text ->
  FindReplace T text find replace true = Some text
  /\ (caseless_ascii find = true -> regexp.cut_dollar replace = None ->
      FindReplace T text find replace false = Some text).
Proof.
  intros Hno.
  assert (FindReplace T text find replace true = Some text) as Htrue.
  { unfold FindReplace. cbn [negb]. by rewrite ReplaceAll_absent. }
  split; [exact Htrue|]. intros Hf Hcut.
  by rewrite FindReplace_caseless_agree.
Qed.

Lemma prefix_of_append (x rest : string) : String.prefix x (x +:+ rest) = true.
Proof.
  induction x as [|a x IH]; [apply prefix_nil|].
  rewrite append_cons, prefix_cons, Ascii.eqb_refl. exact IH.
Qed.

Lemma absent_not_occurs (find text : string) :
  absent find text = true -> ~ occurs find text.
Proof.
  induction text as [|c text IH]; cbn [absent];
    intros [Hp%negb_true_iff Hrest]%andb_true_iff (pre & post & Heq).
  - symmetry in Heq. apply append_eq_nil in Heq as [-> Heq].
    apply append_eq_nil in Heq as [-> _]. done.
  - destruct pre as [|a pre].
    + rewrite append_nil_l in Heq. by rewrite Heq, prefix_of_append in Hp.
    + rewrite append_cons in Heq. injection Heq as _ ->.
      apply (IH Hrest). by exists pre, post.
Qed.

Lemma FindReplace_absent_witness :
  ~ occurs "1.5" "pi is 3.14159 (or 22/7)"
  /\ FindReplace latin1_tables "pi is 3.14159 (or 22/7)" "1.5" "x" true
     = Some ("pi is 3.14159 (or 22/7)" : string)
  /\ (caseless_ascii "1.5" = true -> regexp.cut_dollar "x" = None ->
      FindReplace latin1_tables "pi is 3.14159 (or 22/7)" "1.5" "x" false
      = Some ("pi is 3.14159 (or 22/7)" : string)).
Proof.
  assert (~ occurs "1.5" "pi is 3.14159 (or 22/7)") as H
    by (apply absent_not_occurs; reflexivity).
  split; [exact H|].
  exact (FindReplace_absent latin1_tables _ _ "x" H).
Defined.

(** * WordCount: bytes and code points *)

(** Valid UTF-8 that is not ASCII holds the encoding of a code point from
    U+0080 on. *)
Lemma valid_non_ascii (t : string) :
  ValidString t = true -> is_ascii t = false ->
  exists pre r post,
    ValidRune r = true /\ (0x80 <= r)%Z /\ t = pre +:+ EncodeRune r +:+ post.
Proof.
  pattern t. apply string_decode_ind; clear t.
  - done.
  - intros c rest Hd _ Hv. by rewrite (ValidString_error c rest Hd) in Hv.
  - intros r rest Hr IH Hv Ha. rewrite ValidString_encode in Hv by done.
    destruct (Z.lt_ge_cases r 0x80) as [Hlt|Hge].
    + pose proof (proj1 (ValidRune_range r) Hr) as Hrange.
      rewrite EncodeRune_1 in Ha |- * by lia.
      rewrite append_cons, append_nil_l in Ha. cbn [is_ascii] in Ha.
      rewrite byteZ_Zbyte in Ha by lia.
      rewrite (proj2 (Z.ltb_lt r 0x80) Hlt) in Ha. cbn [andb] in Ha.
      destruct (IH Hv Ha) as (pre & r' & post & Hr' & Hge' & ->).
      exists (String (Zbyte r) pre), r', post. split; [done|]. split; [done|].
      by rewrite !append_cons, append_nil_l.
    + exists EmptyString, r, rest. split; [done|]. split; [done|].
      by rewrite append_nil_l.
Qed.

(** C10, as amended: the field "characters" is the number of bytes of the
    trimmed input and "charactersNoSpaces" the number of its bytes that are
    neither a space nor a newline.  The number of code points is never
    larger; it is smaller as soon as the trimmed input holds the encoding of
    a code point outside ASCII, which valid UTF-8 that is not ASCII does, and
    the same when the trimmed input holds ASCII only. *)
Theorem WordCount_characters_are_bytes (text : string) :
  let t := strings.TrimSpace text in
  WordCount text !! "characters" = Some (String.length t)
  /\ WordCount text !! "charactersNoSpaces"
     = Some (String.length (remove_byte "010" (remove_byte " " t)))
  /\ (RuneCountInString t <= String.length t)%nat
  /\ (forall pre r post,
        ValidRune r = true -> (0x80 <= r)%Z ->
        t = pre +:+ EncodeRune r +:+ post ->
        (RuneCountInString t < String.length t)%nat)
  /\ (ValidString t = true -> is_ascii t = false ->
      (RuneCountInString t < String.length t)%nat)
  /\ (is_ascii t = true -> RuneCountInString t = String.length t).
Proof.
  intros t. split; [|split; [|split; [|split; [|split]]]].
  - unfold WordCount. fold t.
    rewrite lookup_insert_ne by done. by rewrite lookup_insert_eq.
  - unfold WordCount. fold t.
    do 2 rewrite lookup_insert_ne by done. rewrite lookup_insert_eq.
    unfold LF. by rewrite !ReplaceAll_remove_byte.
  - apply RuneCount_le.
  - intros pre r post Hv Hr ->. by apply RuneCount_lt.
  - intros Hv Ha.
    destruct (valid_non_ascii t Hv Ha) as (pre & r & post & Hr & Hge & ->).
    by apply RuneCount_lt.
  - apply RuneCount_ascii.
Qed.

(** C10 fails as stated: the byte [0xFF] is not valid UTF-8.  It is its own
    trimmed form and counts as one code point, U+FFFD, which is outside
    ASCII; "characters" is 1 as well, and so not above the number of code
    points. *)
Lemma WordCount_characters_equal_code_points :
  strings.TrimSpace (String "255"%char EmptyString)
  = String "255"%char EmptyString
  /\ is_ascii (strings.TrimSpace (String "255"%char EmptyString)) = false
  /\ runes_of_string (strings.TrimSpace (String "255"%char EmptyString))
     = [RuneError]
  /\ (0x80 <= RuneError)%Z
  /\ WordCount (String "255"%char EmptyString) !! "characters" = Some 1%nat
  /\ RuneCountInString (strings.TrimSpace (String "255"%char EmptyString))
     = 1%nat
  /\ ~ (RuneCountInString (strings.TrimSpace (String "255"%char EmptyString))
        < 1)%nat.
Proof.
  assert (strings.TrimSpace (String "255"%char EmptyString)
          = String "255"%char EmptyString) as E by (vm_compute; reflexivity).
  rewrite !E.
  split; [reflexivity|]. split; [reflexivity|].
  split; [vm_compute; reflexivity|]. split; [unfold RuneError; lia|].
  split; [vm_compute; reflexivity|].
  assert (RuneCountInString (String "255"%char EmptyString) = 1%nat) as ->
    by (vm_compute; reflexivity).
  split; [reflexivity|lia].
Qed.
